(** * forgor: the replication engine of the password vault

    A shallow embedding of [internal/sync] (the engine, the bbolt-backed
    sync state and the relay client's error type) and of the two TUI
    handlers that drive it, followed by the properties of the
    replication protocol that the specification states.

    Conventions.
    - A Go [[]byte] or [[N]byte] is a [list byte]; a fixed-size array is
      the list cut or zero-padded to its size, which is what Go's [copy]
      into an array does.
    - A [uint64] is a [Z] kept in [0, 2^64) by [u64]; additions wrap.
    - A bbolt bucket is a [gmap string (list byte)]; the database is
      shared by every [SyncState] handle, so it lives in the [World].
    - Library code (SHA-256, HKDF, the two AEADs, Ed25519, encoding/json,
      crypto/rand) and the wire-type helpers of the package are the
      fields of [Externals].
    - The relay is an oracle, [Client]; the events it accepted are logged
      in the [World]. *)

From Stdlib Require Import ZArith Lia String Ascii List.
From Stdlib.Strings Require Import Byte.
From stdpp Require Import gmap strings list fin_maps sorting pretty.

Open Scope Z_scope.

(** ** Bytes and fixed-width integers *)

Abbreviation bytes := (list byte).

#[global] Instance byte_eq_decision : EqDecision byte.
Proof.
  intros x y. destruct (Byte.eqb x y) eqn:E.
  - left. by apply byte_dec_bl.
  - right. by apply Byte.eqb_false.
Defined.

Definition byte_of_Z (z : Z) : byte :=
  default x00 (Byte.of_N (Z.to_N (z mod 256))).

Definition Z_of_byte (b : byte) : Z := Z.of_N (Byte.to_N b).

(** [copy(arr[:], src)] into a zeroed [[n]byte]. *)
Definition fixN (n : nat) (src : bytes) : bytes :=
  take n (src ++ replicate n x00).

Definition fix32 : bytes -> bytes := fixN 32.

Definition zero_bytes (n : nat) : bytes := replicate n x00.

Definition u64 (z : Z) : Z := z mod 2 ^ 64.

(** Big-endian encoding on [n] bytes, least significant byte last. *)
Fixpoint be_encode (n : nat) (v : Z) : bytes :=
  match n with
  | O => []
  | S n' => be_encode n' (v / 256) ++ [byte_of_Z v]
  end.

Definition be_decode (b : bytes) : Z :=
  fold_left (fun acc x => acc * 256 + Z_of_byte x) b 0.

(** [binary.BigEndian.PutUint64] and [binary.BigEndian.Uint64]; the
    latter reads the first eight bytes (every record it is applied to
    was written by the former). *)
Definition PutUint64 (v : Z) : bytes := be_encode 8 v.
Definition Uint64 (b : bytes) : Z := be_decode (take 8 b).

Definition bytes_of_string (s : string) : bytes := list_byte_of_string s.
Definition string_of_bytes (b : bytes) : string := string_of_list_byte b.

(** ** Strings: Go's [>] on strings, [strings.Contains], [strings.ToLower] *)

(** Byte-wise lexicographic order. *)
Definition string_gt (a b : string) : bool :=
  match String.compare a b with Gt => true | _ => false end.

Fixpoint has_prefix (p s : string) : bool :=
  match p, s with
  | EmptyString, _ => true
  | String a p', String b s' => if Ascii.eqb a b then has_prefix p' s' else false
  | String _ _, EmptyString => false
  end.

Fixpoint Contains (s sub : string) : bool :=
  has_prefix sub s ||
  match s with
  | EmptyString => false
  | String _ s' => Contains s' sub
  end.

(** ASCII letters are folded; other bytes are kept (Go maps the other
    runes through the Unicode tables, which keeps ASCII text in place). *)
Definition lower_ascii (c : ascii) : ascii :=
  let n := N_of_ascii c in
  if ((65 <=? n) && (n <=? 90))%N then ascii_of_N (n + 32) else c.

Fixpoint ToLower (s : string) : string :=
  match s with
  | EmptyString => EmptyString
  | String c s' => String (lower_ascii c) (ToLower s')
  end.

(** ** Errors *)

(** [client.go]: the relay's error answer. *)
Record APIError := {
  StatusCode : Z;
  Code : string;
  Message : string
}.

(** A Go error value: a plain message, a [%w] wrapper, or an [*APIError]. *)
Inductive error :=
| ErrNew (msg : string)
| ErrWrap (msg : string) (inner : error)
| ErrAPI (e : APIError).

(** [errors.As(err, &apiErr)] for [*APIError]. *)
Fixpoint errors_As (err : error) : option APIError :=
  match err with
  | ErrNew _ => None
  | ErrWrap _ inner => errors_As inner
  | ErrAPI e => Some e
  end.

Fixpoint Error (err : error) : string :=
  match err with
  | ErrNew m => m
  | ErrWrap m inner => m +:+ ": " +:+ Error inner
  | ErrAPI e => Code e +:+ ": " +:+ Message e
  end.

Inductive result (A : Type) :=
| Ok (a : A)
| Err (e : error).
Arguments Ok {A} a.
Arguments Err {A} e.

Definition StatusConflict : Z := 409.

(** [engine.go], [isInviteAlreadyUsed]. *)
Definition isInviteAlreadyUsed (err : error) : bool :=
  match errors_As err with
  | Some apiErr =>
      if String.eqb (Code apiErr) "invite_already_used" then true
      else if (StatusCode apiErr =? StatusConflict) &&
              Contains (ToLower (Message apiErr)) "invite has already been used"
           then true
           else false
  | None => false
  end.

(** ** Data model *)

(** [models.Entry]; [UpdatedAt] is the timestamp as a number. *)
Record Entry := {
  ID : string;
  Website : string;
  Username : string;
  Password : string;
  Notes : string;
  Tags : list string;
  UpdatedAt : Z
}.

Definition empty_Entry : Entry :=
  {| ID := ""; Website := ""; Username := ""; Password := ""; Notes := "";
     Tags := []; UpdatedAt := 0 |}.

(** The value sealed in an event and the record of the pending queue:
    both are the JSON object with the members "op" and "entry". *)
Record PendingEntry := {
  Op : string;
  PEntry : Entry
}.

Abbreviation UUID := bytes (only parsing).
Abbreviation DeviceID := string (only parsing).

Record DeviceKeys := {
  dk_DeviceID : DeviceID;
  PubkeySign : bytes;
  PrivkeySign : bytes;
  PubkeyBox : bytes;
  PrivkeyBox : bytes
}.

Record MembershipHead := {
  MemberSeq : Z;
  MemberHeadHash : bytes
}.

Record EventHead := {
  LastCounter : Z;
  LastHash : bytes
}.

Record VerifiedMember := {
  vm_DeviceID : DeviceID;
  vm_PubkeySign : bytes;
  vm_PubkeyBox : bytes;
  vm_KeyEpoch : Z
}.

(** The wire types, as the engine builds and reads them. *)
Record Event := {
  ev_MsgType : string;
  EventID : UUID;
  ev_VaultID : UUID;
  ev_DeviceID : DeviceID;
  Counter : Z;
  Lamport : Z;
  KeyEpoch : Z;
  PrevHash : bytes;
  Nonce : bytes;
  Ciphertext : bytes;
  Signature : bytes;
  Seq : Z
}.

Record DeviceBundle := {
  db_DeviceID : DeviceID;
  DevicePubkeySign : bytes;
  DevicePubkeyBox : bytes;
  DeviceBundleSig : bytes
}.

Record InviteClaim := {
  ic_InviteID : UUID;
  ic_VaultID : UUID;
  ic_DeviceID : DeviceID;
  ic_Signature : bytes
}.

Record MemberEvent := {
  me_MsgType : string;
  MemberEventID : UUID;
  me_VaultID : UUID;
  me_MemberSeq : Z;
  me_PrevHash : bytes;
  ActorDeviceID : DeviceID;
  SubjectDeviceID : DeviceID;
  SubjectPubkeySign : bytes;
  SubjectPubkeyBox : bytes;
  SubjectBundleSig : bytes;
  me_InviteID : UUID;
  ClaimSig : bytes;
  me_Signature : bytes
}.

(** ** External code

    The Go libraries the engine calls, and the wire-type helpers of
    package [sync] that compute the canonical signed byte sequences
    ([SignBytesEvent], [SignBytesMemberAdd]) and decode a device id
    ([DeviceID.Bytes]).  Every definition below is parametric in them. *)

Class Externals := {
  (** crypto/sha256 *)
  sha256 : bytes -> bytes;
  (** x/crypto/hkdf with SHA-256 and no salt: input key, info *)
  hkdf_sha256 : bytes -> bytes -> bytes;
  (** x/crypto/chacha20poly1305, the X variant: key, nonce, text *)
  xchacha_Seal : bytes -> bytes -> bytes -> bytes;
  xchacha_Open : bytes -> bytes -> bytes -> option bytes;
  (** x/crypto/nacl/secretbox: box, nonce, key *)
  secretbox_Open : bytes -> bytes -> bytes -> option bytes;
  (** crypto/ed25519 *)
  ed25519_Sign : bytes -> bytes -> bytes;
  ed25519_Verify : bytes -> bytes -> bytes -> bool;
  (** encoding/json on the "op"/"entry" object and on a verified member *)
  json_Marshal_payload : PendingEntry -> option bytes;
  json_Unmarshal_payload : bytes -> option PendingEntry;
  json_Marshal_member : VerifiedMember -> option bytes;
  json_Unmarshal_member : bytes -> option VerifiedMember;
  (** crypto/rand: the bytes handed out by the i-th read *)
  rand_source : nat -> bytes;
  (** wire-type helpers *)
  SignBytesEvent :
    bytes -> bytes -> bytes -> Z -> Z -> Z -> bytes -> bytes -> bytes -> result bytes;
  SignBytesMemberAdd :
    bytes -> bytes -> Z -> bytes -> bytes -> bytes -> bytes -> bytes -> bytes ->
    bytes -> bytes -> result bytes;
  DeviceID_Bytes : DeviceID -> result bytes
}.

(** [sha256.Sum256] returns a [[32]byte]. *)
Definition Sum256 `{Externals} (b : bytes) : bytes := fix32 (sha256 b).

(** [crypto.Sign] and [crypto.Verify]. *)
Definition crypto_Sign `{Externals} (privateKey message : bytes) : bytes :=
  ed25519_Sign privateKey message.
Definition crypto_Verify `{Externals} (publicKey message signature : bytes) : bool :=
  ed25519_Verify publicKey message signature.

(** ** The world: database, relay log, randomness *)

Record Bolt := {
  sync_meta : gmap string bytes;
  sync_members : gmap string bytes;
  sync_event_heads : gmap string bytes;
  sync_pending : gmap string bytes;
  entry_scheme : gmap string string
}.

Record World := {
  db : Bolt;
  (** events and member events the relay has accepted, oldest first *)
  relay_events : list Event;
  relay_member_events : list MemberEvent;
  (** number of reads of the random source so far *)
  rand_reads : nat
}.

Definition empty_Bolt : Bolt :=
  {| sync_meta := ∅; sync_members := ∅; sync_event_heads := ∅;
     sync_pending := ∅; entry_scheme := ∅ |}.

Definition empty_World : World :=
  {| db := empty_Bolt; relay_events := []; relay_member_events := [];
     rand_reads := 0 |}.

Definition with_db (f : Bolt -> Bolt) (w : World) : World :=
  {| db := f (db w); relay_events := relay_events w;
     relay_member_events := relay_member_events w; rand_reads := rand_reads w |}.

Definition with_meta (f : gmap string bytes -> gmap string bytes) (b : Bolt) : Bolt :=
  {| sync_meta := f (sync_meta b); sync_members := sync_members b;
     sync_event_heads := sync_event_heads b; sync_pending := sync_pending b;
     entry_scheme := entry_scheme b |}.

Definition with_members (f : gmap string bytes -> gmap string bytes) (b : Bolt) : Bolt :=
  {| sync_meta := sync_meta b; sync_members := f (sync_members b);
     sync_event_heads := sync_event_heads b; sync_pending := sync_pending b;
     entry_scheme := entry_scheme b |}.

Definition with_event_heads (f : gmap string bytes -> gmap string bytes) (b : Bolt) : Bolt :=
  {| sync_meta := sync_meta b; sync_members := sync_members b;
     sync_event_heads := f (sync_event_heads b); sync_pending := sync_pending b;
     entry_scheme := entry_scheme b |}.

Definition with_pending (f : gmap string bytes -> gmap string bytes) (b : Bolt) : Bolt :=
  {| sync_meta := sync_meta b; sync_members := sync_members b;
     sync_event_heads := sync_event_heads b; sync_pending := f (sync_pending b);
     entry_scheme := entry_scheme b |}.

Definition with_entry_scheme (f : gmap string string -> gmap string string) (b : Bolt) : Bolt :=
  {| sync_meta := sync_meta b; sync_members := sync_members b;
     sync_event_heads := sync_event_heads b; sync_pending := sync_pending b;
     entry_scheme := f (entry_scheme b) |}.

(** ** The monad of the engine: state and Go's error return *)

Definition M (A : Type) : Type := World -> result A * World.

Definition ret {A} (a : A) : M A := fun w => (Ok a, w).
Definition fail {A} (e : error) : M A := fun w => (Err e, w).
Definition bind {A B} (c : M A) (k : A -> M B) : M B :=
  fun w => match c w with
           | (Ok a, w') => k a w'
           | (Err e, w') => (Err e, w')
           end.
Definition gets {A} (f : World -> A) : M A := fun w => (Ok (f w), w).
Definition modify (f : World -> World) : M unit := fun w => (Ok tt, f w).
Definition lift {A} (r : result A) : M A := fun w => (r, w).

(** [fmt.Errorf("msg: %w", err)] around a failing call. *)
Definition wrap {A} (msg : string) (c : M A) : M A :=
  fun w => match c w with
           | (Err e, w') => (Err (ErrWrap msg e), w')
           | r => r
           end.

(** [_ = call(...)]: the error is dropped. *)
Definition ignore_err {A} (c : M A) : M unit :=
  fun w => (Ok tt, (c w).2).

(** What a call returned, as Go's [err] variable. *)
Definition catch {A} (c : M A) : M (result A) :=
  fun w => (Ok (c w).1, (c w).2).

Notation "x <- c ;; k" := (bind c (fun x => k))
  (at level 100, c at next level, right associativity).
Notation "c ;;; k" := (bind c (fun _ => k))
  (at level 100, right associativity).

(** A [for ... range] loop whose body may [return err]. *)
Fixpoint for_each {A} (body : A -> M unit) (l : list A) : M unit :=
  match l with
  | [] => ret tt
  | x :: l' => body x ;;; for_each body l'
  end.

(** [rand.Read] on a slice of [n] bytes. *)
Definition rand_Read `{Externals} (n : nat) : M bytes :=
  fun w => (Ok (fixN n (rand_source (rand_reads w))),
            {| db := db w; relay_events := relay_events w;
               relay_member_events := relay_member_events w;
               rand_reads := S (rand_reads w) |}).

(** [NewUUID]: sixteen fresh random bytes. *)
Definition NewUUID `{Externals} : M UUID := rand_Read 16.

(** ** [crypto.go]: sealing at rest *)

Definition NonceSize : nat := 24.

Definition ErrDecryptionFailed : error :=
  ErrNew "decryption failed: invalid password or corrupted data".
Definition ErrInvalidCiphertext : error := ErrNew "ciphertext too short".

(** [chacha20poly1305.NewX] accepts 32-byte keys only. *)
Definition NewX (key : bytes) : result bytes :=
  if decide (length key = 32%nat) then Ok key
  else Err (ErrNew "chacha20poly1305: bad key length").

Definition crypto_Encrypt `{Externals} (key plaintext : bytes) : M bytes :=
  aead <- wrap "failed to create cipher" (lift (NewX key)) ;;
  nonce <- rand_Read NonceSize ;;
  ret (nonce ++ xchacha_Seal aead nonce plaintext).

Definition crypto_Decrypt `{Externals} (key ciphertext : bytes) : result bytes :=
  if (length ciphertext <? NonceSize)%nat then Err ErrInvalidCiphertext
  else match NewX key with
       | Err e => Err (ErrWrap "failed to create cipher" e)
       | Ok aead =>
           match xchacha_Open aead (take NonceSize ciphertext) (drop NonceSize ciphertext) with
           | Some plaintext => Ok plaintext
           | None => Err ErrDecryptionFailed
           end
       end.

(** ** The sync state store *)

Definition keyVaultID := "vault_id".
Definition keyDeviceID := "device_id".
Definition keyPubkeySign := "pubkey_sign".
Definition keyPrivkeySignEnc := "privkey_sign_enc".
Definition keyPubkeyBox := "pubkey_box".
Definition keyPrivkeyBoxEnc := "privkey_box_enc".
Definition keyVaultKeyEnc := "vault_key_enc".
Definition keyKeyEpoch := "key_epoch".
Definition keyOwnerDeviceID := "owner_device_id".
Definition keyMemberSeq := "member_seq".
Definition keyMemberHeadHash := "member_head_hash".
Definition keySyncCursor := "sync_cursor".
Definition keyLamport := "lamport".
Definition keyServerURL := "server_url".

(** A [SyncState] handle: the key that seals the secret records
    ([nil] is [None]).  The database it points to is [db] of the world. *)
Record SyncState := {
  vaultKey : option bytes
}.

(** [NewSyncState] copies the key into a fresh slice; the buckets of the
    model always exist, which is what [initBuckets] establishes. *)
Definition NewSyncState (key : bytes) : M SyncState :=
  ret {| vaultKey := Some key |}.

Definition meta_Get (k : string) : M (option bytes) :=
  gets (fun w => sync_meta (db w) !! k).
Definition meta_Put (k : string) (v : bytes) : M unit :=
  modify (with_db (with_meta (insert k v))).
Definition meta_Delete (k : string) : M unit :=
  modify (with_db (with_meta (delete k))).

(** [Bucket.ForEach] visits the keys in byte order. *)
Definition key_le {A} (x y : string * A) : Prop := String.leb x.1 y.1 = true.

#[global] Instance key_le_dec {A} (x y : string * A) : Decision (key_le x y).
Proof. unfold key_le. apply _. Defined.

Definition bucket_ForEach {A} (b : gmap string A) : list (string * A) :=
  merge_sort key_le (map_to_list b).

Section Store.
Context `{Externals}.

Definition getVaultKey (s : SyncState) : M bytes :=
  match vaultKey s with
  | None => fail (ErrNew "sync state not initialized")
  | Some key => ret key
  end.

Definition GetVaultID (s : SyncState) : M UUID :=
  data <- meta_Get keyVaultID ;;
  match data with
  | None => fail (ErrNew "vault_id not set")
  | Some data =>
      if decide (length data = 16%nat) then ret data
      else fail (ErrNew "invalid vault_id length")
  end.

Definition SetVaultID (s : SyncState) (vaultID : UUID) : M unit :=
  meta_Put keyVaultID vaultID.

Definition GetDeviceKeys (s : SyncState) : M DeviceKeys :=
  vaultKey <- getVaultKey s ;;
  deviceIDBytes <- meta_Get keyDeviceID ;;
  match deviceIDBytes with
  | None => fail (ErrNew "device_id not set")
  | Some deviceIDBytes =>
  pubkeySign <- meta_Get keyPubkeySign ;;
  if negb (length (default [] pubkeySign) =? 32)%nat
  then fail (ErrNew "invalid pubkey_sign length") else
  privkeySignEnc <- meta_Get keyPrivkeySignEnc ;;
  match privkeySignEnc with
  | None => fail (ErrNew "privkey_sign not set")
  | Some privkeySignEnc =>
  privkeySign <- wrap "failed to decrypt privkey_sign"
                   (lift (crypto_Decrypt vaultKey privkeySignEnc)) ;;
  if negb (length privkeySign =? 64)%nat
  then fail (ErrNew "invalid privkey_sign length") else
  pubkeyBox <- meta_Get keyPubkeyBox ;;
  if negb (length (default [] pubkeyBox) =? 32)%nat
  then fail (ErrNew "invalid pubkey_box length") else
  privkeyBoxEnc <- meta_Get keyPrivkeyBoxEnc ;;
  match privkeyBoxEnc with
  | None => fail (ErrNew "privkey_box not set")
  | Some privkeyBoxEnc =>
  privkeyBox <- wrap "failed to decrypt privkey_box"
                  (lift (crypto_Decrypt vaultKey privkeyBoxEnc)) ;;
  if negb (length privkeyBox =? 32)%nat
  then fail (ErrNew "invalid privkey_box length") else
  ret {| dk_DeviceID := string_of_bytes deviceIDBytes;
         PubkeySign := default [] pubkeySign;
         PrivkeySign := privkeySign;
         PubkeyBox := default [] pubkeyBox;
         PrivkeyBox := privkeyBox |}
  end end end.

Definition SetDeviceKeys (s : SyncState) (keys : DeviceKeys) : M unit :=
  vaultKey <- getVaultKey s ;;
  privkeySignEnc <- wrap "failed to encrypt privkey_sign"
                      (crypto_Encrypt vaultKey (fixN 64 (PrivkeySign keys))) ;;
  privkeyBoxEnc <- wrap "failed to encrypt privkey_box"
                     (crypto_Encrypt vaultKey (fix32 (PrivkeyBox keys))) ;;
  meta_Put keyDeviceID (bytes_of_string (dk_DeviceID keys)) ;;;
  meta_Put keyPubkeySign (fix32 (PubkeySign keys)) ;;;
  meta_Put keyPrivkeySignEnc privkeySignEnc ;;;
  meta_Put keyPubkeyBox (fix32 (PubkeyBox keys)) ;;;
  meta_Put keyPrivkeyBoxEnc privkeyBoxEnc.

Definition GetVaultKey (s : SyncState) : M bytes :=
  vaultKey <- getVaultKey s ;;
  encKey <- meta_Get keyVaultKeyEnc ;;
  match encKey with
  | None => fail (ErrNew "vault_key not set")
  | Some encKey =>
      decKey <- wrap "failed to decrypt vault_key"
                  (lift (crypto_Decrypt vaultKey encKey)) ;;
      if negb (length decKey =? 32)%nat
      then fail (ErrNew "invalid vault_key length")
      else ret decKey
  end.

Definition SetVaultKey (s : SyncState) (key : bytes) : M unit :=
  vaultKey <- getVaultKey s ;;
  encKey <- wrap "failed to encrypt vault_key"
              (crypto_Encrypt vaultKey (fix32 key)) ;;
  meta_Put keyVaultKeyEnc encKey.

(** A scalar that was never written reads as zero. *)
Definition get_u64 (k : string) : M Z :=
  data <- meta_Get k ;;
  match data with
  | None => ret 0
  | Some data => ret (Uint64 data)
  end.

Definition put_u64 (k : string) (v : Z) : M unit :=
  meta_Put k (PutUint64 v).

Definition GetKeyEpoch (s : SyncState) : M Z := get_u64 keyKeyEpoch.
Definition SetKeyEpoch (s : SyncState) (epoch : Z) : M unit := put_u64 keyKeyEpoch epoch.

Definition GetOwnerDeviceID (s : SyncState) : M DeviceID :=
  data <- meta_Get keyOwnerDeviceID ;;
  match data with
  | None => fail (ErrNew "owner_device_id not set")
  | Some data => ret (string_of_bytes data)
  end.

Definition SetOwnerDeviceID (s : SyncState) (deviceID : DeviceID) : M unit :=
  meta_Put keyOwnerDeviceID (bytes_of_string deviceID).

Definition GetMembershipHead (s : SyncState) : M MembershipHead :=
  seqData <- meta_Get keyMemberSeq ;;
  match seqData with
  | None => ret {| MemberSeq := 0; MemberHeadHash := zero_bytes 32 |}
  | Some seqData =>
      hashData <- meta_Get keyMemberHeadHash ;;
      ret {| MemberSeq := Uint64 seqData;
             MemberHeadHash :=
               if (length (default [] hashData) =? 32)%nat
               then default [] hashData else zero_bytes 32 |}
  end.

Definition SetMembershipHead (s : SyncState) (head : MembershipHead) : M unit :=
  meta_Put keyMemberSeq (PutUint64 (MemberSeq head)) ;;;
  meta_Put keyMemberHeadHash (fix32 (MemberHeadHash head)).

Definition GetEventHead (s : SyncState) (deviceID : DeviceID) : M EventHead :=
  data <- gets (fun w => sync_event_heads (db w) !! deviceID) ;;
  match data with
  | None => ret {| LastCounter := 0; LastHash := zero_bytes 32 |}
  | Some data =>
      if negb (length data =? 40)%nat
      then fail (ErrNew "invalid event head data length")
      else ret {| LastCounter := Uint64 (take 8 data);
                  LastHash := drop 8 (take 40 data) |}
  end.

Definition SetEventHead (s : SyncState) (deviceID : DeviceID) (head : EventHead) : M unit :=
  modify (with_db (with_event_heads
    (insert deviceID (PutUint64 (LastCounter head) ++ fix32 (LastHash head))))).

Definition GetSyncCursor (s : SyncState) : M Z := get_u64 keySyncCursor.
Definition SetSyncCursor (s : SyncState) (cursor : Z) : M unit := put_u64 keySyncCursor cursor.

Definition GetLamport (s : SyncState) : M Z := get_u64 keyLamport.

Definition IncrementLamport (s : SyncState) : M Z :=
  current <- get_u64 keyLamport ;;
  let newLamport := u64 (current + 1) in
  put_u64 keyLamport newLamport ;;;
  ret newLamport.

Definition UpdateLamport (s : SyncState) (observed : Z) : M Z :=
  current <- get_u64 keyLamport ;;
  let newLamport :=
    if observed >? current then u64 (observed + 1) else u64 (current + 1) in
  put_u64 keyLamport newLamport ;;;
  ret newLamport.

Definition GetServerURL (s : SyncState) : M string :=
  data <- meta_Get keyServerURL ;;
  ret (match data with Some data => string_of_bytes data | None => "" end).

Definition SetServerURL (s : SyncState) (url : string) : M unit :=
  meta_Put keyServerURL (bytes_of_string url).

Definition GetVerifiedMember (s : SyncState) (deviceID : DeviceID) : M VerifiedMember :=
  data <- gets (fun w => sync_members (db w) !! deviceID) ;;
  match data with
  | None => fail (ErrNew ("member not found: " +:+ deviceID))
  | Some data =>
      match json_Unmarshal_member data with
      | Some member => ret member
      | None => fail (ErrNew "json: cannot unmarshal member")
      end
  end.

Definition SetVerifiedMember (s : SyncState) (member : VerifiedMember) : M unit :=
  match json_Marshal_member member with
  | None => fail (ErrWrap "failed to marshal member" (ErrNew "json: unsupported value"))
  | Some data =>
      modify (with_db (with_members (insert (vm_DeviceID member) data)))
  end.

Definition RemoveVerifiedMember (s : SyncState) (deviceID : DeviceID) : M unit :=
  modify (with_db (with_members (delete deviceID))).

(** [DeleteBucket] followed by [CreateBucket]. *)
Definition ClearVerifiedMembers (s : SyncState) : M unit :=
  modify (with_db (with_members (fun _ => ∅))).

Definition AddPendingEntry (s : SyncState) (op : string) (entry : Entry) : M unit :=
  if String.eqb (ID entry) "" then fail (ErrNew "entry id is required") else
  vaultKey <- getVaultKey s ;;
  match json_Marshal_payload {| Op := op; PEntry := entry |} with
  | None => fail (ErrWrap "failed to marshal pending entry" (ErrNew "json: unsupported value"))
  | Some data =>
      enc <- wrap "failed to encrypt pending entry" (crypto_Encrypt vaultKey data) ;;
      modify (with_db (with_pending (insert (ID entry) enc)))
  end.

Definition RemovePendingEntry (s : SyncState) (entryID : string) : M unit :=
  if String.eqb entryID "" then ret tt
  else modify (with_db (with_pending (delete entryID))).

(** The callback of [ForEach] in [GetPendingEntries]. *)
Definition read_pending (vaultKey : bytes) (v : bytes) : result PendingEntry :=
  match crypto_Decrypt vaultKey v with
  | Err e => Err (ErrWrap "failed to decrypt pending entry" e)
  | Ok dec =>
      match json_Unmarshal_payload dec with
      | None => Err (ErrWrap "failed to unmarshal pending entry" (ErrNew "json: cannot unmarshal"))
      | Some entry => Ok entry
      end
  end.

Fixpoint read_all_pending (vaultKey : bytes) (l : list (string * bytes))
  : result (list PendingEntry) :=
  match l with
  | [] => Ok []
  | (_, v) :: l' =>
      match read_pending vaultKey v with
      | Err e => Err e
      | Ok entry =>
          match read_all_pending vaultKey l' with
          | Err e => Err e
          | Ok rest => Ok (entry :: rest)
          end
      end
  end.

Definition GetPendingEntries (s : SyncState) : M (list PendingEntry) :=
  vaultKey <- getVaultKey s ;;
  bucket <- gets (fun w => sync_pending (db w)) ;;
  lift (read_all_pending vaultKey (bucket_ForEach bucket)).

Definition ClearPendingEntries (s : SyncState) : M unit :=
  modify (with_db (with_pending (fun _ => ∅))).

(** Collects every key of the bucket, then deletes each. *)
Definition ClearEventHeads (s : SyncState) : M unit :=
  bucket <- gets (fun w => sync_event_heads (db w)) ;;
  let keys := (bucket_ForEach bucket).*1 in
  for_each (fun key => modify (with_db (with_event_heads (delete key)))) keys.

Definition ClearVaultState (s : SyncState) : M unit :=
  let keys := [keyVaultID; keyVaultKeyEnc; keyKeyEpoch; keyOwnerDeviceID;
               keyMemberSeq; keyMemberHeadHash; keySyncCursor; keyLamport] in
  for_each meta_Delete keys.

(** Modelled from the spec: the two writers of the [entry_scheme]
    namespace ("keyed by entry_id; small text"), which the engine calls
    and whose results it drops.  One sets the text recorded for an entry
    id, the other removes the record. *)
Definition SetEntryScheme (s : SyncState) (entryID scheme : string) : M unit :=
  modify (with_db (with_entry_scheme (insert entryID scheme))).

Definition RemoveEntryScheme (s : SyncState) (entryID : string) : M unit :=
  modify (with_db (with_entry_scheme (delete entryID))).

End Store.

(** ** The relay client

    Each call of [client.go] is an HTTP exchange; the relay's answer is
    an oracle that sees what the relay has accepted so far.  A [None]
    from a POST oracle is a 2xx answer. *)

Record Client := {
  relay_GetInviteClaims : string -> result (list InviteClaim);
  relay_GetDevice : string -> result DeviceBundle;
  relay_CreateMemberEvent : list MemberEvent -> UUID -> MemberEvent -> option error;
  relay_PushEvent : list Event -> UUID -> Event -> option error;
  relay_PullEvents : UUID -> Z -> result (list Event)
}.

Definition GetInviteClaims (c : Client) (createdByDeviceID : string) : M (list InviteClaim) :=
  lift (relay_GetInviteClaims c createdByDeviceID).

Definition GetDevice (c : Client) (deviceID : string) : M DeviceBundle :=
  lift (relay_GetDevice c deviceID).

Definition CreateMemberEvent (c : Client) (vaultID : UUID) (event : MemberEvent) : M unit :=
  fun w =>
    match relay_CreateMemberEvent c (relay_member_events w) vaultID event with
    | Some err => (Err err, w)
    | None => (Ok tt,
               {| db := db w; relay_events := relay_events w;
                  relay_member_events := relay_member_events w ++ [event];
                  rand_reads := rand_reads w |})
    end.

Definition PushEvent (c : Client) (vaultID : UUID) (event : Event) : M unit :=
  fun w =>
    match relay_PushEvent c (relay_events w) vaultID event with
    | Some err => (Err err, w)
    | None => (Ok tt,
               {| db := db w; relay_events := relay_events w ++ [event];
                  relay_member_events := relay_member_events w;
                  rand_reads := rand_reads w |})
    end.

Definition PullEvents_client (c : Client) (vaultID : UUID) (sinceSeq : Z) : M (list Event) :=
  lift (relay_PullEvents c vaultID sinceSeq).

(** ** The engine *)

Record Engine := {
  client : Client;
  state : SyncState
}.

(** The nonce of an event is 24 bytes long. *)
Definition NonceLength : nat := 24.

(** The accumulators of the merge loop of [SyncEntries]. *)
Record MergeState := {
  entryMap : gmap string Entry;
  entryLamport : gmap string Z;
  entryDeviceID : gmap string string;
  deletedIDs : gmap string bool;
  maxSeq : Z;
  maxLamport : Z
}.

(** The test both branches of the merge make on an event for [id]:
    [!exists || eventLamport > existingLamport ||
     (eventLamport == existingLamport && eventDeviceID > entryDeviceID[id])]. *)
Definition wins (acc : MergeState) (id : string) (eventLamport : Z)
    (eventDeviceID : string) : bool :=
  match entryLamport acc !! id with
  | None => true
  | Some existingLamport =>
      (eventLamport >? existingLamport) ||
      ((eventLamport =? existingLamport) &&
       string_gt eventDeviceID (default "" (entryDeviceID acc !! id)))
  end.

Definition merge_delete (acc : MergeState) (id : string) (eventLamport : Z)
    (eventDeviceID : string) : MergeState :=
  {| entryMap := delete id (entryMap acc);
     entryLamport := <[id := eventLamport]> (entryLamport acc);
     entryDeviceID := <[id := eventDeviceID]> (entryDeviceID acc);
     deletedIDs := <[id := true]> (deletedIDs acc);
     maxSeq := maxSeq acc; maxLamport := maxLamport acc |}.

Definition merge_upsert (acc : MergeState) (entry : Entry) (eventLamport : Z)
    (eventDeviceID : string) : MergeState :=
  {| entryMap := <[ID entry := entry]> (entryMap acc);
     entryLamport := <[ID entry := eventLamport]> (entryLamport acc);
     entryDeviceID := <[ID entry := eventDeviceID]> (entryDeviceID acc);
     deletedIDs := deletedIDs acc;
     maxSeq := maxSeq acc; maxLamport := maxLamport acc |}.

(** The end of the loop body: the running maxima. *)
Definition track_max (acc : MergeState) (eventSeq eventLamport : Z) : MergeState :=
  {| entryMap := entryMap acc; entryLamport := entryLamport acc;
     entryDeviceID := entryDeviceID acc; deletedIDs := deletedIDs acc;
     maxSeq := if eventSeq >? maxSeq acc then eventSeq else maxSeq acc;
     maxLamport := if eventLamport >? maxLamport acc then eventLamport else maxLamport acc |}.

Section Engine.
Context `{Externals}.

Definition epoch_info (keyEpoch : Z) : string :=
  "forgor-event-key-epoch-" +:+ pretty (Z.to_N keyEpoch).

(** Thirty-two bytes read from the HKDF stream. *)
Definition deriveEventKey (vaultKey : bytes) (keyEpoch : Z) : result bytes :=
  Ok (fix32 (hkdf_sha256 vaultKey (bytes_of_string (epoch_info keyEpoch)))).

Definition deriveLegacyEventKey (vaultKey : bytes) (keyEpoch : Z) : bytes :=
  Sum256 (vaultKey ++ bytes_of_string (epoch_info keyEpoch)).

Definition encryptEventPayload (e : Engine) (op : string) (entry : Entry)
  : M (bytes * bytes) :=
  vaultKey <- wrap "failed to get vault_key" (GetVaultKey (state e)) ;;
  keyEpoch <- wrap "failed to get key_epoch" (GetKeyEpoch (state e)) ;;
  eventKey <- wrap "failed to derive event key" (lift (deriveEventKey vaultKey keyEpoch)) ;;
  match json_Marshal_payload {| Op := op; PEntry := entry |} with
  | None => fail (ErrWrap "failed to marshal payload" (ErrNew "json: unsupported value"))
  | Some plaintext =>
      nonce <- rand_Read 24 ;;
      aead <- wrap "failed to create cipher" (lift (NewX eventKey)) ;;
      ret (xchacha_Seal aead nonce plaintext, nonce)
  end.

Definition decryptEventPayloadXChaCha (vaultKey : bytes) (keyEpoch : Z)
    (nonce ciphertext : bytes) : result bytes :=
  match deriveEventKey vaultKey keyEpoch with
  | Err e => Err (ErrWrap "failed to derive event key" e)
  | Ok eventKey =>
      match NewX eventKey with
      | Err e => Err (ErrWrap "failed to create cipher" e)
      | Ok aead =>
          match xchacha_Open aead nonce ciphertext with
          | Some plaintext => Ok plaintext
          | None => Err (ErrNew "chacha20poly1305: message authentication failed")
          end
      end
  end.

Definition decryptEventPayloadLegacy (vaultKey : bytes) (keyEpoch : Z)
    (nonce ciphertext : bytes) : result bytes :=
  if negb (length nonce =? NonceLength)%nat then Err (ErrNew "invalid nonce length")
  else
    let legacyKey := deriveLegacyEventKey vaultKey keyEpoch in
    match secretbox_Open ciphertext (fixN 24 nonce) legacyKey with
    | Some plaintext => Ok plaintext
    | None => Err (ErrNew "legacy decrypt failed")
    end.

Definition decryptEventPayload (e : Engine) (ciphertext nonce : bytes) (keyEpoch : Z)
  : M (string * Entry * string) :=
  vaultKey <- wrap "failed to get vault_key" (GetVaultKey (state e)) ;;
  opened <-
    match decryptEventPayloadXChaCha vaultKey keyEpoch nonce ciphertext with
    | Ok plaintext => ret (plaintext, "v2")
    | Err _ =>
        match decryptEventPayloadLegacy vaultKey keyEpoch nonce ciphertext with
        | Ok plaintext => ret (plaintext, "legacy")
        | Err err => fail (ErrWrap "failed to decrypt" err)
        end
    end ;;
  let '(plaintext, scheme) := opened in
  match json_Unmarshal_payload plaintext with
  | None => fail (ErrWrap "failed to unmarshal payload" (ErrNew "json: cannot unmarshal"))
  | Some payload => ret (Op payload, PEntry payload, scheme)
  end.

Definition valid_op (op : string) : bool :=
  String.eqb op "upsert" || String.eqb op "delete".

Definition PushEntry (e : Engine) (entry : Entry) (op : string) : M unit :=
  if negb (valid_op op) then fail (ErrNew ("invalid operation: " +:+ op)) else
  keys <- wrap "failed to get device keys" (GetDeviceKeys (state e)) ;;
  vaultID <- wrap "failed to get vault_id" (GetVaultID (state e)) ;;
  keyEpoch <- wrap "failed to get key_epoch" (GetKeyEpoch (state e)) ;;
  eventHead <- wrap "failed to get event head" (GetEventHead (state e) (dk_DeviceID keys)) ;;
  lamport <- wrap "failed to increment lamport" (IncrementLamport (state e)) ;;
  sealed <- wrap "failed to encrypt event" (encryptEventPayload e op entry) ;;
  let '(ciphertext, nonce) := sealed in
  eventID <- NewUUID ;;
  let counter := u64 (LastCounter eventHead + 1) in
  deviceIDBytes <- wrap "failed to decode device_id" (lift (DeviceID_Bytes (dk_DeviceID keys))) ;;
  signBytes <- wrap "failed to compute sign bytes"
                 (lift (SignBytesEvent eventID vaultID deviceIDBytes counter lamport
                          keyEpoch (LastHash eventHead) nonce ciphertext)) ;;
  let signature := crypto_Sign (PrivkeySign keys) signBytes in
  let event :=
    {| ev_MsgType := "event"; EventID := eventID; ev_VaultID := vaultID;
       ev_DeviceID := dk_DeviceID keys; Counter := counter; Lamport := lamport;
       KeyEpoch := keyEpoch; PrevHash := LastHash eventHead; Nonce := nonce;
       Ciphertext := ciphertext; Signature := signature; Seq := 0 |} in
  wrap "failed to push event" (PushEvent (client e) vaultID event) ;;;
  let eventHash := Sum256 signBytes in
  wrap "failed to update event head"
    (SetEventHead (state e) (dk_DeviceID keys)
       {| LastCounter := counter; LastHash := eventHash |}) ;;;
  (if String.eqb op "upsert"
   then ignore_err (SetEntryScheme (state e) (ID entry) "v2")
   else ignore_err (RemoveEntryScheme (state e) (ID entry))).

(** The checks an event passes before it is merged; [None] is the
    [continue] of the loop. *)
Definition open_event (e : Engine) (event : Event) : M (option (string * Entry * string)) :=
  member <- catch (GetVerifiedMember (state e) (ev_DeviceID event)) ;;
  match member with
  | Err _ => ret None
  | Ok member =>
  match DeviceID_Bytes (ev_DeviceID event) with
  | Err _ => ret None
  | Ok deviceIDBytes =>
  match SignBytesEvent (EventID event) (ev_VaultID event) deviceIDBytes
          (u64 (Counter event)) (u64 (Lamport event)) (u64 (KeyEpoch event))
          (PrevHash event) (Nonce event) (Ciphertext event) with
  | Err _ => ret None
  | Ok signBytes =>
  if negb (crypto_Verify (fix32 (vm_PubkeySign member)) signBytes (Signature event))
  then ret None else
  dec <- catch (decryptEventPayload e (Ciphertext event) (Nonce event) (u64 (KeyEpoch event))) ;;
  match dec with
  | Err _ => ret None
  | Ok r => ret (Some r)
  end end end end.

Definition pull_event (e : Engine) (acc : list Entry * Z * Z) (event : Event)
  : M (list Entry * Z * Z) :=
  let '(updatedEntries, maxSeq, maxLamport) := acc in
  r <- open_event e event ;;
  match r with
  | None => ret acc
  | Some (op, entry, scheme) =>
      updatedEntries' <-
        (if valid_op op then
           (if String.eqb op "upsert"
            then ignore_err (SetEntryScheme (state e) (ID entry) scheme)
            else ignore_err (RemoveEntryScheme (state e) (ID entry))) ;;;
           ret (updatedEntries ++ [entry])
         else ret updatedEntries) ;;
      ret (updatedEntries',
           if u64 (Seq event) >? maxSeq then u64 (Seq event) else maxSeq,
           if u64 (Lamport event) >? maxLamport then u64 (Lamport event) else maxLamport)
  end.

Fixpoint fold_events {A} (body : A -> Event -> M A) (acc : A) (events : list Event) : M A :=
  match events with
  | [] => ret acc
  | event :: rest => acc' <- body acc event ;; fold_events body acc' rest
  end.

Definition PullEvents (e : Engine) : M (list Entry) :=
  vaultID <- wrap "failed to get vault_id" (GetVaultID (state e)) ;;
  cursor <- wrap "failed to get sync cursor" (GetSyncCursor (state e)) ;;
  events <- wrap "failed to pull events" (PullEvents_client (client e) vaultID cursor) ;;
  if (length events =? 0)%nat then ret [] else
  currentLamport <- wrap "failed to get lamport" (GetLamport (state e)) ;;
  acc <- fold_events (pull_event e) ([], cursor, currentLamport) events ;;
  let '(updatedEntries, maxSeq, maxLamport) := acc in
  (if maxSeq >? cursor
   then wrap "failed to update sync cursor" (SetSyncCursor (state e) maxSeq)
   else ret tt) ;;;
  (if maxLamport >? currentLamport
   then wrap "failed to update lamport" (UpdateLamport (state e) maxLamport) ;;; ret tt
   else ret tt) ;;;
  ret updatedEntries.

(** The merge of one opened event into the working maps. *)
Definition merge_event (e : Engine) (acc : MergeState) (op : string) (entry : Entry)
    (scheme : string) (eventLamport : Z) (eventDeviceID : string) : M MergeState :=
  if String.eqb op "delete" then
    if wins acc (ID entry) eventLamport eventDeviceID then
      ignore_err (RemoveEntryScheme (state e) (ID entry)) ;;;
      ret (merge_delete acc (ID entry) eventLamport eventDeviceID)
    else ret acc
  else if String.eqb op "upsert" then
    if wins acc (ID entry) eventLamport eventDeviceID then
      if negb (default false (deletedIDs acc !! ID entry)) then
        ignore_err (SetEntryScheme (state e) (ID entry) scheme) ;;;
        ret (merge_upsert acc entry eventLamport eventDeviceID)
      else ret acc
    else ret acc
  else ret acc.

Definition sync_event (e : Engine) (acc : MergeState) (event : Event) : M MergeState :=
  r <- open_event e event ;;
  match r with
  | None => ret acc
  | Some (op, entry, scheme) =>
      let eventLamport := u64 (Lamport event) in
      let eventDeviceID := ev_DeviceID event in
      acc' <- merge_event e acc op entry scheme eventLamport eventDeviceID ;;
      ret (track_max acc' (u64 (Seq event)) eventLamport)
  end.

Definition init_merge (localEntries : list Entry) (cursor currentLamport : Z) : MergeState :=
  {| entryMap := fold_left (fun m entry => <[ID entry := entry]> m) localEntries ∅;
     entryLamport := ∅; entryDeviceID := ∅; deletedIDs := ∅;
     maxSeq := cursor; maxLamport := currentLamport |}.

(** The returned list holds the values of [entryMap]; Go ranges over the
    map in no fixed order.  On the error paths Go hands [localEntries]
    back next to the error. *)
Definition SyncEntries (e : Engine) (localEntries : list Entry) : M (list Entry) :=
  vaultID <- wrap "failed to get vault_id" (GetVaultID (state e)) ;;
  cursor <- wrap "failed to get sync cursor" (GetSyncCursor (state e)) ;;
  remoteEvents <- wrap "failed to pull events" (PullEvents_client (client e) vaultID cursor) ;;
  currentLamport <- wrap "failed to get lamport" (GetLamport (state e)) ;;
  acc <- fold_events (sync_event e) (init_merge localEntries cursor currentLamport)
           remoteEvents ;;
  (if maxSeq acc >? cursor
   then wrap "failed to update sync cursor" (SetSyncCursor (state e) (maxSeq acc))
   else ret tt) ;;;
  (if maxLamport acc >? currentLamport
   then wrap "failed to update lamport" (UpdateLamport (state e) (maxLamport acc)) ;;; ret tt
   else ret tt) ;;;
  ret (map_to_list (entryMap acc)).*2.

End Engine.

Section Admission.
Context `{Externals}.

Definition AcceptInviteClaim (e : Engine) (claim : InviteClaim) : M unit :=
  keys <- wrap "failed to get device keys" (GetDeviceKeys (state e)) ;;
  vaultID <- wrap "failed to get vault_id" (GetVaultID (state e)) ;;
  if negb (bool_decide (ic_VaultID claim = vaultID))
  then fail (ErrNew "invite claim vault mismatch") else
  targetBundle <- wrap "failed to get device bundle"
                    (GetDevice (client e) (ic_DeviceID claim)) ;;
  memberHead <- wrap "failed to get membership head" (GetMembershipHead (state e)) ;;
  memberEventID <- NewUUID ;;
  let newMemberSeq := u64 (MemberSeq memberHead + 1) in
  deviceIDBytes <- wrap "failed to decode device_id"
                     (lift (DeviceID_Bytes (dk_DeviceID keys))) ;;
  targetDeviceIDBytes <- wrap "failed to decode target device_id"
                           (lift (DeviceID_Bytes (db_DeviceID targetBundle))) ;;
  let claimSig := ic_Signature claim in
  signBytes <- wrap "failed to compute sign bytes"
                 (lift (SignBytesMemberAdd memberEventID vaultID newMemberSeq
                          (MemberHeadHash memberHead) deviceIDBytes targetDeviceIDBytes
                          (ic_InviteID claim) claimSig (DeviceBundleSig targetBundle)
                          (DevicePubkeySign targetBundle) (DevicePubkeyBox targetBundle))) ;;
  let signature := crypto_Sign (PrivkeySign keys) signBytes in
  let memberEvent :=
    {| me_MsgType := "member_add"; MemberEventID := memberEventID;
       me_VaultID := vaultID; me_MemberSeq := newMemberSeq;
       me_PrevHash := MemberHeadHash memberHead;
       ActorDeviceID := dk_DeviceID keys;
       SubjectDeviceID := db_DeviceID targetBundle;
       SubjectPubkeySign := DevicePubkeySign targetBundle;
       SubjectPubkeyBox := DevicePubkeyBox targetBundle;
       SubjectBundleSig := DeviceBundleSig targetBundle;
       me_InviteID := ic_InviteID claim; ClaimSig := claimSig;
       me_Signature := signature |} in
  wrap "failed to create member event"
    (CreateMemberEvent (client e) vaultID memberEvent) ;;;
  let eventHash := Sum256 signBytes in
  wrap "failed to save membership head"
    (SetMembershipHead (state e)
       {| MemberSeq := newMemberSeq; MemberHeadHash := eventHash |}) ;;;
  wrap "failed to save verified member"
    (SetVerifiedMember (state e)
       {| vm_DeviceID := db_DeviceID targetBundle;
          vm_PubkeySign := DevicePubkeySign targetBundle;
          vm_PubkeyBox := DevicePubkeyBox targetBundle;
          vm_KeyEpoch := 1 |}).

(** The loop of [AcceptPendingInviteClaims] over the claims of the relay. *)
Fixpoint accept_claims (e : Engine) (vaultID : UUID) (claims : list InviteClaim) : M unit :=
  match claims with
  | [] => ret tt
  | claim :: rest =>
      if negb (bool_decide (ic_VaultID claim = vaultID))
      then accept_claims e vaultID rest
      else
        r <- catch (AcceptInviteClaim e claim) ;;
        match r with
        | Err err =>
            if isInviteAlreadyUsed err then accept_claims e vaultID rest
            else fail err
        | Ok _ => accept_claims e vaultID rest
        end
  end.

Definition AcceptPendingInviteClaims (e : Engine) : M unit :=
  keys <- wrap "failed to get device keys" (GetDeviceKeys (state e)) ;;
  claims <- wrap "failed to get invite claims"
              (GetInviteClaims (client e) (dk_DeviceID keys)) ;;
  if (length claims =? 0)%nat then ret tt else
  vaultID <- wrap "failed to get vault_id" (GetVaultID (state e)) ;;
  accept_claims e vaultID claims.

End Admission.

Section Pending.
Context `{Externals}.

(** The loop of [FlushPendingEntries]; it carries [firstErr]. *)
Fixpoint flush_loop (e : Engine) (pending : list PendingEntry) (firstErr : option error)
  : M (option error) :=
  match pending with
  | [] => ret firstErr
  | item :: rest =>
      if negb (valid_op (Op item)) then
        flush_loop e rest
          (match firstErr with
           | None => Some (ErrNew ("invalid pending operation: " +:+ Op item))
           | Some _ => firstErr
           end)
      else
        r <- catch (PushEntry e (PEntry item) (Op item)) ;;
        match r with
        | Err err =>
            flush_loop e rest
              (match firstErr with None => Some err | Some _ => firstErr end)
        | Ok _ =>
            ignore_err (RemovePendingEntry (state e) (ID (PEntry item))) ;;;
            flush_loop e rest firstErr
        end
  end.

Definition FlushPendingEntries (e : Engine) : M unit :=
  pending <- wrap "failed to load pending entries" (GetPendingEntries (state e)) ;;
  if (length pending =? 0)%nat then ret tt else
  firstErr <- flush_loop e pending None ;;
  match firstErr with
  | None => ret tt
  | Some err => fail err
  end.

End Pending.

(** ** The two TUI handlers *)

(** What the handlers read of the application: the master key of the
    unlocked store ([nil] while locked) and the sync objects. *)
Record App := {
  store_VaultKey : option bytes;
  syncState : option SyncState;
  syncEngine : option Engine
}.

Inductive Msg :=
| NilMsg
| StatusMsg (message : string) (isError : bool)
| SyncStatusUpdateMsg (status : string)
| LeaveVaultFailMsg (err : error)
| LeaveVaultCompleteMsg.

Section Handlers.
Context `{Externals}.

(** A handler always produces a message; [answer] turns a failing step
    into the message built from its error. *)
Definition answer (c : M Msg) (on_err : error -> Msg) : World -> Msg * World :=
  fun w => match c w with
           | (Ok m, w') => (m, w')
           | (Err e, w') => (on_err e, w')
           end.

Definition handleLeaveVault (a : App) : World -> Msg * World :=
  answer
    (match store_VaultKey a with
     | None => fail (ErrNew "vault not unlocked")
     | Some vaultKey =>
         syncState <- wrap "failed to initialize sync state" (NewSyncState vaultKey) ;;
         wrap "failed to clear vault state" (ClearVaultState syncState) ;;;
         wrap "failed to clear verified members" (ClearVerifiedMembers syncState) ;;;
         wrap "failed to clear event heads" (ClearEventHeads syncState) ;;;
         wrap "failed to clear pending changes" (ClearPendingEntries syncState) ;;;
         ret LeaveVaultCompleteMsg
     end)
    LeaveVaultFailMsg.

Definition handleSyncPushEntry (a : App) (entry : Entry) (op : string)
  : World -> Msg * World :=
  match syncState a, syncEngine a with
  | Some syncState, Some syncEngine =>
      if negb (valid_op op)
      then fun w => (StatusMsg "Sync failed: invalid operation" true, w)
      else
        answer
          (r <- catch (PushEntry syncEngine entry op) ;;
           match r with
           | Err err =>
               ignore_err (AddPendingEntry syncState op entry) ;;;
               ret (StatusMsg ("Sync push failed (queued for retry): " +:+ Error err) true)
           | Ok _ =>
               ignore_err (RemovePendingEntry syncState (ID entry)) ;;;
               ret (SyncStatusUpdateMsg "synced")
           end)
          (fun _ => NilMsg)
  | _, _ => fun w => (NilMsg, w)
  end.

End Handlers.

(** ** Names used in the statements *)

(** The keys of sync_meta that belong to the vault, and those that hold
    the identity of the device. *)
Definition vault_scalars : list string :=
  ["vault_id"; "vault_key_enc"; "key_epoch"; "owner_device_id"; "member_seq";
   "member_head_hash"; "sync_cursor"; "lamport"].

Definition identity_keys : list string :=
  ["device_id"; "pubkey_sign"; "privkey_sign_enc"; "pubkey_box"; "privkey_box_enc"].

(** What the store holds, as the getters decode it. *)
Definition stored_u64 (k : string) (w : World) : Z :=
  match sync_meta (db w) !! k with
  | Some data => Uint64 data
  | None => 0
  end.

Definition stored_lamport : World -> Z := stored_u64 "lamport".
Definition stored_cursor : World -> Z := stored_u64 "sync_cursor".
Definition stored_epoch : World -> Z := stored_u64 "key_epoch".

Definition stored_head (w : World) (deviceID : string) : EventHead :=
  match sync_event_heads (db w) !! deviceID with
  | Some data => {| LastCounter := Uint64 (take 8 data); LastHash := drop 8 (take 40 data) |}
  | None => {| LastCounter := 0; LastHash := zero_bytes 32 |}
  end.

(** The signed bytes of an event, as a verifier recomputes them. *)
Definition event_sign_bytes `{Externals} (event : Event) : result bytes :=
  match DeviceID_Bytes (ev_DeviceID event) with
  | Err e => Err e
  | Ok deviceIDBytes =>
      SignBytesEvent (EventID event) (ev_VaultID event) deviceIDBytes
        (u64 (Counter event)) (u64 (Lamport event)) (u64 (KeyEpoch event))
        (PrevHash event) (Nonce event) (Ciphertext event)
  end.

(** A run of events that continues the chain whose head is
    (counter [c], hash [h]): counters step by one in 64-bit arithmetic
    and each event names the digest of the signed bytes before it. *)
Fixpoint chain_from `{Externals} (c : Z) (h : bytes) (events : list Event) : Prop :=
  match events with
  | [] => True
  | event :: rest =>
      Counter event = u64 (c + 1) /\
      PrevHash event = h /\
      exists signBytes,
        event_sign_bytes event = Ok signBytes /\
        chain_from (Counter event) (Sum256 signBytes) rest
  end.

(** The head a chain ends with. *)
Fixpoint chain_head `{Externals} (c : Z) (h : bytes) (events : list Event) : Z * bytes :=
  match events with
  | [] => (c, h)
  | event :: rest =>
      match event_sign_bytes event with
      | Ok signBytes => chain_head (Counter event) (Sum256 signBytes) rest
      | Err _ => (c, h)
      end
  end.

(** Pushing a list of mutations one after the other, stopping at the
    first failure: the loop of the seeding code. *)
Fixpoint push_all `{Externals} (e : Engine) (l : list (Entry * string)) : M unit :=
  match l with
  | [] => ret tt
  | (entry, op) :: rest => PushEntry e entry op ;;; push_all e rest
  end.

(** The event a push builds in world [w], and the worlds it leaves:
    [before_post] once the clock is bumped and the randomness drawn,
    [after_push] once the relay has accepted the event. *)
Definition pushed_event `{Externals} (keys : DeviceKeys) (vaultID : UUID)
    (w : World) (ciphertext signBytes : bytes) : Event :=
  {| ev_MsgType := "event";
     EventID := fixN 16 (rand_source (S (rand_reads w)));
     ev_VaultID := vaultID;
     ev_DeviceID := dk_DeviceID keys;
     Counter := u64 (LastCounter (stored_head w (dk_DeviceID keys)) + 1);
     Lamport := u64 (stored_lamport w + 1);
     KeyEpoch := stored_epoch w;
     PrevHash := LastHash (stored_head w (dk_DeviceID keys));
     Nonce := fixN 24 (rand_source (rand_reads w));
     Ciphertext := ciphertext;
     Signature := crypto_Sign (PrivkeySign keys) signBytes;
     Seq := 0 |}.

Definition before_post (w : World) : World :=
  {| db := with_meta (insert "lamport" (PutUint64 (u64 (stored_lamport w + 1)))) (db w);
     relay_events := relay_events w;
     relay_member_events := relay_member_events w;
     rand_reads := S (S (rand_reads w)) |}.

Definition after_push `{Externals} (w : World) (entry : Entry) (op : string)
    (event : Event) (signBytes : bytes) : World :=
  {| db := with_entry_scheme
             (if String.eqb op "upsert" then insert (ID entry) "v2"
              else delete (ID entry))
             (with_event_heads
                (insert (ev_DeviceID event)
                   (PutUint64 (Counter event) ++ fix32 (Sum256 signBytes)))
                (db (before_post w)));
     relay_events := relay_events w ++ [event];
     relay_member_events := relay_member_events w;
     rand_reads := S (S (rand_reads w)) |}.

(** Two worlds that differ at most in the entry_scheme records. *)
Definition same_but_scheme (w w1 : World) : Prop :=
  sync_meta (db w1) = sync_meta (db w) /\
  sync_members (db w1) = sync_members (db w) /\
  sync_event_heads (db w1) = sync_event_heads (db w) /\
  sync_pending (db w1) = sync_pending (db w) /\
  relay_events w1 = relay_events w /\
  relay_member_events w1 = relay_member_events w /\
  rand_reads w1 = rand_reads w.

(** What [open_event] yields for an event in world [w]: the decrypted
    payload, or [None] when the loop skips the event. *)
Definition opened `{Externals} (e : Engine) (w : World) (event : Event)
  : option (string * Entry * string) :=
  match (open_event e event w).1 with
  | Ok r => r
  | Err _ => None
  end.

Definition passes `{Externals} (e : Engine) (w : World) (event : Event) : bool :=
  match opened e w event with Some _ => true | None => false end.

(** The accumulators [merge_event] returns. *)
Definition merged (acc : MergeState) (op : string) (entry : Entry)
    (eventLamport : Z) (eventDeviceID : string) : MergeState :=
  if String.eqb op "delete" then
    if wins acc (ID entry) eventLamport eventDeviceID
    then merge_delete acc (ID entry) eventLamport eventDeviceID
    else acc
  else if String.eqb op "upsert" then
    if wins acc (ID entry) eventLamport eventDeviceID
    then if negb (default false (deletedIDs acc !! ID entry))
         then merge_upsert acc entry eventLamport eventDeviceID
         else acc
    else acc
  else acc.

(** The accumulators after one turn of the loop of [SyncEntries]. *)
Definition merge_step `{Externals} (e : Engine) (w : World) (acc : MergeState)
    (event : Event) : MergeState :=
  match opened e w event with
  | None => acc
  | Some (op, entry, _) =>
      track_max (merged acc op entry (u64 (Lamport event)) (ev_DeviceID event))
        (u64 (Seq event)) (u64 (Lamport event))
  end.

(** The largest Lamport value among [current] and the given events. *)
Definition max_lamport_of (current : Z) (events : list Event) : Z :=
  fold_left (fun m event => Z.max m (u64 (Lamport event))) events current.

(** The keys of the working map are the ids of its entries. *)
Definition keyed (m : gmap string Entry) : Prop :=
  forall k entry, m !! k = Some entry -> ID entry = k.

(** The order on events the merge uses: lamport first, then device id. *)
Definition stamped_after (a b : Event) : Prop :=
  u64 (Lamport a) > u64 (Lamport b) \/
  (u64 (Lamport a) = u64 (Lamport b) /\ string_gt (ev_DeviceID a) (ev_DeviceID b) = true).

(** ** An executable instance of the external code

    A small stand-in for the libraries, so that the model runs on
    concrete inputs: a one-byte checksum plays the digest, the AEAD tag
    and the signature; the JSON codec is a self-delimiting byte format.
    It is not cryptography; it has the functional behaviour the engine
    relies on (opening what was sealed, verifying what was signed,
    decoding what was encoded). *)

Module Fixture.

Definition checksum (b : bytes) : byte :=
  byte_of_Z (fold_left (fun acc x => acc + Z_of_byte x) b 7).

Definition seal (key nonce text : bytes) : bytes :=
  checksum (key ++ nonce ++ text) :: text.

Definition open (key nonce box : bytes) : option bytes :=
  match box with
  | tag :: text =>
      if decide (tag = checksum (key ++ nonce ++ text)) then Some text else None
  | [] => None
  end.

(** The legacy box carries its tag at the end. *)
Definition legacy_seal (text nonce key : bytes) : bytes :=
  text ++ [checksum (key ++ nonce ++ text)].

Definition legacy_open (box nonce key : bytes) : option bytes :=
  match reverse box with
  | tag :: rtext =>
      if decide (tag = checksum (key ++ nonce ++ reverse rtext))
      then Some (reverse rtext) else None
  | [] => None
  end.

(** A private signing key is seed || public key, as in Go. *)
Definition sign (priv msg : bytes) : bytes := [checksum (drop 32 priv ++ msg)].
Definition verify (pub msg sig : bytes) : bool :=
  bool_decide (sig = [checksum (pub ++ msg)]).

(** Self-delimiting encodings. *)
Definition enc_nat (n : nat) : bytes := replicate n x01 ++ [x00].

Fixpoint dec_nat (b : bytes) : option (nat * bytes) :=
  match b with
  | x00 :: r => Some (O, r)
  | x01 :: r => match dec_nat r with
                | Some (n, r') => Some (S n, r')
                | None => None
                end
  | _ => None
  end.

Definition enc_bytes (b : bytes) : bytes := enc_nat (length b) ++ b.

Definition dec_bytes (b : bytes) : option (bytes * bytes) :=
  match dec_nat b with
  | Some (n, r) => if (n <=? length r)%nat then Some (take n r, drop n r) else None
  | None => None
  end.

Definition enc_str (s : string) : bytes := enc_bytes (bytes_of_string s).

Definition dec_str (b : bytes) : option (string * bytes) :=
  match dec_bytes b with
  | Some (x, r) => Some (string_of_bytes x, r)
  | None => None
  end.

Definition enc_Z (z : Z) : bytes :=
  (if z <? 0 then x01 else x00) :: enc_nat (Z.abs_nat z).

Definition dec_Z (b : bytes) : option (Z * bytes) :=
  match b with
  | s :: r =>
      match dec_nat r with
      | Some (n, r') =>
          Some (if decide (s = x01) then - Z.of_nat n else Z.of_nat n, r')
      | None => None
      end
  | [] => None
  end.

Definition enc_strs (l : list string) : bytes :=
  enc_nat (length l) ++ concat (map enc_str l).

Fixpoint dec_strs_n (n : nat) (b : bytes) : option (list string * bytes) :=
  match n with
  | O => Some ([], b)
  | S n' =>
      match dec_str b with
      | Some (s, r) =>
          match dec_strs_n n' r with
          | Some (l, r') => Some (s :: l, r')
          | None => None
          end
      | None => None
      end
  end.

Definition dec_strs (b : bytes) : option (list string * bytes) :=
  match dec_nat b with
  | Some (n, r) => dec_strs_n n r
  | None => None
  end.

Definition enc_payload (p : PendingEntry) : bytes :=
  enc_str (Op p) ++ enc_str (ID (PEntry p)) ++ enc_str (Website (PEntry p)) ++
  enc_str (Username (PEntry p)) ++ enc_str (Password (PEntry p)) ++
  enc_str (Notes (PEntry p)) ++ enc_strs (Tags (PEntry p)) ++
  enc_Z (UpdatedAt (PEntry p)).

Definition dec_payload (b : bytes) : option PendingEntry :=
  match dec_str b with Some (op, b) =>
  match dec_str b with Some (id, b) =>
  match dec_str b with Some (website, b) =>
  match dec_str b with Some (username, b) =>
  match dec_str b with Some (password, b) =>
  match dec_str b with Some (notes, b) =>
  match dec_strs b with Some (tags, b) =>
  match dec_Z b with Some (updated, b) =>
    match b with
    | [] => Some {| Op := op;
                    PEntry := {| ID := id; Website := website; Username := username;
                                 Password := password; Notes := notes; Tags := tags;
                                 UpdatedAt := updated |} |}
    | _ => None
    end
  | None => None end | None => None end | None => None end | None => None end
  | None => None end | None => None end | None => None end | None => None end.

Definition enc_member (m : VerifiedMember) : bytes :=
  enc_str (vm_DeviceID m) ++ enc_bytes (vm_PubkeySign m) ++
  enc_bytes (vm_PubkeyBox m) ++ enc_Z (vm_KeyEpoch m).

Definition dec_member (b : bytes) : option VerifiedMember :=
  match dec_str b with Some (id, b) =>
  match dec_bytes b with Some (ps, b) =>
  match dec_bytes b with Some (pb, b) =>
  match dec_Z b with Some (epoch, b) =>
    match b with
    | [] => Some {| vm_DeviceID := id; vm_PubkeySign := ps; vm_PubkeyBox := pb;
                    vm_KeyEpoch := epoch |}
    | _ => None
    end
  | None => None end | None => None end | None => None end | None => None end.

(** The canonical byte sequences: the fields in order, integers on
    eight bytes. *)
Definition sign_bytes_event (eventID vaultID deviceID : bytes) (counter lamport keyEpoch : Z)
    (prevHash nonce ciphertext : bytes) : result bytes :=
  Ok (eventID ++ vaultID ++ deviceID ++ PutUint64 counter ++ PutUint64 lamport ++
      PutUint64 keyEpoch ++ prevHash ++ nonce ++ ciphertext).

Definition sign_bytes_member_add (memberEventID vaultID : bytes) (memberSeq : Z)
    (prevHash actorID subjectID inviteID claimSig bundleSig pubSign pubBox : bytes)
  : result bytes :=
  Ok (memberEventID ++ vaultID ++ PutUint64 memberSeq ++ prevHash ++ actorID ++
      subjectID ++ inviteID ++ claimSig ++ bundleSig ++ pubSign ++ pubBox).

#[export] Instance externals : Externals := {|
  sha256 := fun b => [checksum b];
  hkdf_sha256 := fun ikm info => checksum (ikm ++ info) :: ikm;
  xchacha_Seal := seal;
  xchacha_Open := open;
  secretbox_Open := legacy_open;
  ed25519_Sign := sign;
  ed25519_Verify := verify;
  json_Marshal_payload := fun p => Some (enc_payload p);
  json_Unmarshal_payload := dec_payload;
  json_Marshal_member := fun m => Some (enc_member m);
  json_Unmarshal_member := dec_member;
  rand_source := fun i => replicate 32 (byte_of_Z (Z.of_nat i + 1));
  SignBytesEvent := sign_bytes_event;
  SignBytesMemberAdd := sign_bytes_member_add;
  DeviceID_Bytes := fun id => Ok (bytes_of_string id)
|}.

(** A device: master key of the store, and its key pairs. *)
Definition master_key : bytes := replicate 32 "m"%byte.

Definition device_keys (id : string) (c : byte) : DeviceKeys :=
  {| dk_DeviceID := id;
     PubkeySign := replicate 32 c;
     PrivkeySign := replicate 32 "s"%byte ++ replicate 32 c;
     PubkeyBox := replicate 32 "b"%byte;
     PrivkeyBox := replicate 32 "p"%byte |}.

Definition the_vault_id : bytes := replicate 16 "v"%byte.
Definition the_vault_key : bytes := replicate 32 "k"%byte.

Definition sync_state : SyncState := {| vaultKey := Some master_key |}.

(** The world of a device that holds its keys and the vault. *)
Definition configure (keys : DeviceKeys) : M unit :=
  SetDeviceKeys sync_state keys ;;;
  SetVaultID sync_state the_vault_id ;;;
  SetVaultKey sync_state the_vault_key ;;;
  SetKeyEpoch sync_state 1.

Definition member_of (keys : DeviceKeys) : VerifiedMember :=
  {| vm_DeviceID := dk_DeviceID keys; vm_PubkeySign := PubkeySign keys;
     vm_PubkeyBox := PubkeyBox keys; vm_KeyEpoch := 1 |}.

Definition world_of (keys : DeviceKeys) (members : list DeviceKeys) : World :=
  ((configure keys ;;;
    for_each (fun k => SetVerifiedMember sync_state (member_of k)) members)
     empty_World).2.

(** A relay that accepts every post and serves the given events. *)
Definition healthy (events : list Event) : Client :=
  {| relay_GetInviteClaims := fun _ => Ok [];
     relay_GetDevice := fun _ => Err (ErrNew "no such device");
     relay_CreateMemberEvent := fun _ _ _ => None;
     relay_PushEvent := fun _ _ _ => None;
     relay_PullEvents := fun _ _ => Ok events |}.

(** A relay whose event endpoint is down. *)
Definition unreachable : Client :=
  {| relay_GetInviteClaims := fun _ => Ok [];
     relay_GetDevice := fun _ => Err (ErrNew "no such device");
     relay_CreateMemberEvent := fun _ _ _ => None;
     relay_PushEvent := fun _ _ _ => Some (ErrNew "request failed: connection refused");
     relay_PullEvents := fun _ _ => Err (ErrNew "request failed: connection refused") |}.

Definition engine (c : Client) : Engine := {| client := c; state := sync_state |}.

Definition dev_a : DeviceKeys := device_keys "aaaa" "a"%byte.
Definition dev_b : DeviceKeys := device_keys "bbbb" "b"%byte.

Definition entry (id site : string) : Entry :=
  {| ID := id; Website := site; Username := "user"; Password := "pw";
     Notes := ""; Tags := ["t"]; UpdatedAt := 5 |}.

(** The world of a device after it pushed the given mutations to a
    healthy relay, and the events the relay then holds. *)
Definition world_after (keys : DeviceKeys) (members : list DeviceKeys)
    (l : list (Entry * string)) : World :=
  (push_all (engine (healthy [])) l (world_of keys members)).2.

Definition events_of (keys : DeviceKeys) (l : list (Entry * string)) : list Event :=
  relay_events (world_after keys [keys] l).

(** An owner with two outstanding claims; the relay reports the first
    invite as used, in a 409 whose message starts with a capital. *)
Definition claim_of (invite : byte) (device : string) : InviteClaim :=
  {| ic_InviteID := replicate 16 invite; ic_VaultID := the_vault_id;
     ic_DeviceID := device; ic_Signature := replicate 64 "c"%byte |}.

Definition used_error : error :=
  ErrAPI {| StatusCode := 409; Code := "conflict";
            Message := "Invite has already been used" |}.

Definition owner_relay : Client :=
  {| relay_GetInviteClaims := fun _ => Ok [claim_of "1" "bbbb"; claim_of "2" "cccc"];
     relay_GetDevice := fun id =>
       Ok {| db_DeviceID := id; DevicePubkeySign := replicate 32 "b"%byte;
             DevicePubkeyBox := replicate 32 "b"%byte;
             DeviceBundleSig := replicate 64 "g"%byte |};
     relay_CreateMemberEvent := fun _ _ event =>
       if decide (me_InviteID event = replicate 16 "1"%byte)
       then Some used_error else None;
     relay_PushEvent := fun _ _ _ => None;
     relay_PullEvents := fun _ _ => Ok [] |}.

Definition no_event : Event :=
  {| ev_MsgType := ""; EventID := []; ev_VaultID := []; ev_DeviceID := "";
     Counter := 0; Lamport := 0; KeyEpoch := 0; PrevHash := []; Nonce := [];
     Ciphertext := []; Signature := []; Seq := 0 |}.

Definition event_at (n : nat) (l : list Event) : Event := nth n l no_event.

End Fixture.

(** * Further code of the package

    The rest of the store, [crypto.go], the vault lifecycle of the
    engine, the pull loop and the sync cycle of the TUI. *)

(** ** Assumptions on the libraries, named

    Each is a hypothesis of the theorems that need it, never a global
    assumption. *)

(** XChaCha20-Poly1305 opens what it sealed. *)
Definition aead_correct `{Externals} : Prop :=
  forall key nonce text, xchacha_Open key nonce (xchacha_Seal key nonce text) = Some text.

(** encoding/json decodes what it encoded. *)
Definition json_payload_correct `{Externals} : Prop :=
  forall p data, json_Marshal_payload p = Some data -> json_Unmarshal_payload data = Some p.

Definition json_member_correct `{Externals} : Prop :=
  forall m data, json_Marshal_member m = Some data -> json_Unmarshal_member data = Some m.

(** Ed25519 verifies, under the public half of a key pair, what the
    private half signed. *)
Definition signs_for `{Externals} (priv pub : bytes) : Prop :=
  forall msg, ed25519_Verify pub msg (ed25519_Sign priv msg) = true.

(** ** The store: remaining readers *)

Definition IsConfigured (s : SyncState) (w : World) : bool :=
  bool_decide (is_Some (sync_meta (db w) !! keyVaultID)) &&
  bool_decide (is_Some (sync_meta (db w) !! keyDeviceID)).

Section Store2.
Context `{Externals}.

(** The callback of [ForEach] in [GetVerifiedMembers]. *)
Fixpoint read_all_members (l : list (string * bytes)) : result (list VerifiedMember) :=
  match l with
  | [] => Ok []
  | (k, v) :: l' =>
      match json_Unmarshal_member v with
      | None => Err (ErrWrap ("failed to unmarshal member " +:+ k)
                       (ErrNew "json: cannot unmarshal member"))
      | Some member =>
          match read_all_members l' with
          | Err e => Err e
          | Ok rest => Ok (member :: rest)
          end
      end
  end.

Definition GetVerifiedMembers (s : SyncState) : M (list VerifiedMember) :=
  bucket <- gets (fun w => sync_members (db w)) ;;
  lift (read_all_members (bucket_ForEach bucket)).

End Store2.

(** [n] calls of [IncrementLamport], one after the other; the values
    they return, oldest first. *)
Fixpoint increment_n (s : SyncState) (n : nat) : M (list Z) :=
  match n with
  | O => ret []
  | S n' =>
      l <- IncrementLamport s ;;
      rest <- increment_n s n' ;;
      ret (l :: rest)
  end.

(** The world after one more read of the random source. *)
Definition bump_rand (w : World) : World :=
  {| db := db w; relay_events := relay_events w;
     relay_member_events := relay_member_events w; rand_reads := S (rand_reads w) |}.



(** ** Frames

    [keeps R c]: every run of [c], failed or not, ends in a world that
    [R] relates to the one it started in.  [keeps_failing R c]: so does
    every failed run. *)
Definition keeps {A} (R : relation World) (c : M A) : Prop :=
  forall w, R w (c w).2.

Definition keeps_failing {A} (R : relation World) (c : M A) : Prop :=
  forall w err w', c w = (Err err, w') -> R w w'.

(** Worlds that differ at most in the Lamport clock of sync_meta and in
    what was read of the random source. *)
Definition same_but_meta : relation World := fun w w1 =>
  sync_members (db w1) = sync_members (db w) /\
  sync_event_heads (db w1) = sync_event_heads (db w) /\
  sync_pending (db w1) = sync_pending (db w) /\
  entry_scheme (db w1) = entry_scheme (db w) /\
  relay_events w1 = relay_events w /\
  relay_member_events w1 = relay_member_events w /\
  forall k, k <> "lamport" -> sync_meta (db w1) !! k = sync_meta (db w) !! k.

(** Worlds that differ at most in what was read of the random source. *)
Definition same_but_rand : relation World := fun w w1 =>
  db w1 = db w /\
  relay_events w1 = relay_events w /\
  relay_member_events w1 = relay_member_events w.


(** ** Names used in the statements on the pull loops *)

(** The largest relay sequence number among [current] and the given
    events. *)
Definition max_seq_of (current : Z) (events : list Event) : Z :=
  fold_left (fun m event => Z.max m (u64 (Seq event))) events current.

(** The working map [SyncEntries] starts from: the local entries by id,
    a later one replacing an earlier one of the same id. *)
Definition local_map (localEntries : list Entry) : gmap string Entry :=
  fold_left (fun m entry => <[ID entry := entry]> m) localEntries ∅.

(** The id of the entry a merged event speaks of; [None] for an event
    the loop skips. *)
Definition spoken_id `{Externals} (e : Engine) (w : World) (event : Event)
  : option string :=
  match opened e w event with
  | Some (_, entry, _) => Some (ID entry)
  | None => None
  end.



(** What the loop of [PullEvents] appends for an event: the entry of a
    merged upsert or delete. *)
Definition arrival `{Externals} (e : Engine) (w : World) (event : Event) : option Entry :=
  match opened e w event with
  | Some (op, entry, _) => if valid_op op then Some entry else None
  | None => None
  end.


(** The event with the sequence number the relay gives it. *)
Definition with_seq (seq : Z) (event : Event) : Event :=
  {| ev_MsgType := ev_MsgType event; EventID := EventID event;
     ev_VaultID := ev_VaultID event; ev_DeviceID := ev_DeviceID event;
     Counter := Counter event; Lamport := Lamport event;
     KeyEpoch := KeyEpoch event; PrevHash := PrevHash event;
     Nonce := Nonce event; Ciphertext := Ciphertext event;
     Signature := Signature event; Seq := seq |}.

(** [served] holds the events of [pushed], in order, each under some
    sequence number. *)
Definition served_as (pushed served : list Event) : Prop :=
  Forall2 (fun event sv => exists seq, sv = with_seq seq event) pushed served.

(** ** The TUI: the sync cycle *)

(** [mergeSyncWarning]; a nil error is [None].  [%v] prints the two
    messages into a new error, which wraps neither. *)
Definition mergeSyncWarning (current next : option error) : option error :=
  match next with
  | None => current
  | Some n =>
      match current with
      | None => Some n
      | Some c => Some (ErrNew (Error c +:+ "; " +:+ Error n))
      end
  end.

Section Cycle.
Context `{Externals}.

(** The loop of [seedLocalEntriesIfNeeded]; it carries [firstErr]. *)
Fixpoint seed_loop (s : SyncState) (e : Engine) (entries : list Entry)
    (firstErr : option error) : M (option error) :=
  match entries with
  | [] => ret firstErr
  | entry :: rest =>
      r <- catch (PushEntry e entry "upsert") ;;
      match r with
      | Err err =>
          ignore_err (AddPendingEntry s "upsert" entry) ;;;
          seed_loop s e rest (match firstErr with None => Some err | Some _ => firstErr end)
      | Ok _ =>
          ignore_err (RemovePendingEntry s (ID entry)) ;;;
          seed_loop s e rest firstErr
      end
  end.

Definition seedLocalEntriesIfNeeded (a : App) (entries : list Entry) : M unit :=
  match syncState a, syncEngine a with
  | Some s, Some e =>
      if (length entries =? 0)%nat then ret tt else
      keys <- wrap "failed to get device keys" (GetDeviceKeys s) ;;
      head <- wrap "failed to get event head" (GetEventHead s (dk_DeviceID keys)) ;;
      if negb (LastCounter head =? 0) then ret tt else
      firstErr <- seed_loop s e entries None ;;
      match firstErr with
      | None => ret tt
      | Some err => fail err
      end
  | _, _ => fail (ErrNew "sync not configured")
  end.

Definition isSyncOwner (a : App) : M bool :=
  match syncState a with
  | None => fail (ErrNew "sync not configured")
  | Some s =>
      keys <- wrap "failed to get device keys" (GetDeviceKeys s) ;;
      owner <- catch (GetOwnerDeviceID s) ;;
      match owner with
      | Err _ => ret false
      | Ok owner => ret (String.eqb owner (dk_DeviceID keys))
      end
  end.

Definition acceptInviteClaimsIfOwner (a : App) : M unit :=
  isOwner <- isSyncOwner a ;;
  if negb isOwner then ret tt else
  match syncEngine a with
  | None => fail (ErrNew "sync not configured")
  | Some e => AcceptPendingInviteClaims e
  end.

End Cycle.


(** ** The vault lifecycle of the engine *)

(** The answer of the members endpoint. *)
Record VaultMember := {
  m_DeviceID : DeviceID;
  m_DevicePubkeySign : bytes;
  m_DevicePubkeyBox : bytes;
  m_KeyEpoch : Z
}.

Record VaultMembershipResponse := {
  r_MemberSeq : Z;
  r_HeadHash : bytes;
  r_Members : list VaultMember
}.

(** The calls of [client.go] the engine makes besides those of
    [Client]; the lifecycle functions take them next to the engine. *)
Record Endpoints := {
  relay_GetVaultMembers : UUID -> result VaultMembershipResponse;
  relay_RegisterDevice : DeviceBundle -> option error
}.

Definition GetVaultMembers (c : Endpoints) (vaultID : UUID) : M VaultMembershipResponse :=
  lift (relay_GetVaultMembers c vaultID).

Definition RegisterDevice_client (c : Endpoints) (bundle : DeviceBundle) : M unit :=
  lift (match relay_RegisterDevice c bundle with
        | Some err => Err err
        | None => Ok tt
        end).

(** The wire-type helper of package [sync] that the sources at hand do
    not contain; the definitions below are parametric in it. *)
Class WireTypes := {
  SignBytesDeviceBundle : bytes -> bytes -> bytes -> result bytes
}.

(** [ZeroUUID.Bytes()] and [Zero64]. *)
Definition ZeroUUID : UUID := zero_bytes 16.
Definition Zero64 : bytes := zero_bytes 64.

(** The verified member [RefreshMembership] and [JoinVault] store for a
    member the relay lists. *)
Definition member_record (member : VaultMember) : VerifiedMember :=
  {| vm_DeviceID := m_DeviceID member;
     vm_PubkeySign := m_DevicePubkeySign member;
     vm_PubkeyBox := m_DevicePubkeyBox member;
     vm_KeyEpoch := u64 (m_KeyEpoch member) |}.

Section Lifecycle.
Context `{Externals} `{WireTypes}.

Definition RegisterDevice (c : Endpoints) (e : Engine) : M unit :=
  keys <- wrap "failed to get device keys" (GetDeviceKeys (state e)) ;;
  deviceIDBytes <- wrap "failed to decode device_id"
                     (lift (DeviceID_Bytes (dk_DeviceID keys))) ;;
  signBytes <- wrap "failed to compute sign bytes"
                 (lift (SignBytesDeviceBundle deviceIDBytes (PubkeySign keys)
                          (PubkeyBox keys))) ;;
  let signature := crypto_Sign (PrivkeySign keys) signBytes in
  let bundle :=
    {| db_DeviceID := dk_DeviceID keys; DevicePubkeySign := PubkeySign keys;
       DevicePubkeyBox := PubkeyBox keys; DeviceBundleSig := signature |} in
  wrap "failed to register device" (RegisterDevice_client c bundle).

Definition CreateVault (e : Engine) : M unit :=
  keys <- wrap "failed to get device keys" (GetDeviceKeys (state e)) ;;
  vaultID <- NewUUID ;;
  vaultKey <- wrap "failed to generate vault key" (rand_Read 32) ;;
  memberEventID <- NewUUID ;;
  let memberSeq := 1 in
  let prevHash := zero_bytes 32 in
  deviceIDBytes <- wrap "failed to decode device_id"
                     (lift (DeviceID_Bytes (dk_DeviceID keys))) ;;
  bundleSignBytes <- wrap "failed to compute bundle sign bytes"
                       (lift (SignBytesDeviceBundle deviceIDBytes (PubkeySign keys)
                                (PubkeyBox keys))) ;;
  let bundleSig := crypto_Sign (PrivkeySign keys) bundleSignBytes in
  signBytes <- wrap "failed to compute sign bytes"
                 (lift (SignBytesMemberAdd memberEventID vaultID memberSeq prevHash
                          deviceIDBytes deviceIDBytes ZeroUUID Zero64 bundleSig
                          (PubkeySign keys) (PubkeyBox keys))) ;;
  let signature := crypto_Sign (PrivkeySign keys) signBytes in
  let memberEvent :=
    {| me_MsgType := "member_add"; MemberEventID := memberEventID;
       me_VaultID := vaultID; me_MemberSeq := memberSeq;
       me_PrevHash := prevHash;
       ActorDeviceID := dk_DeviceID keys;
       SubjectDeviceID := dk_DeviceID keys;
       SubjectPubkeySign := PubkeySign keys;
       SubjectPubkeyBox := PubkeyBox keys;
       SubjectBundleSig := bundleSig;
       me_InviteID := ZeroUUID; ClaimSig := Zero64;
       me_Signature := signature |} in
  wrap "failed to create vault" (CreateMemberEvent (client e) vaultID memberEvent) ;;;
  wrap "failed to save vault_id" (SetVaultID (state e) vaultID) ;;;
  wrap "failed to save vault_key" (SetVaultKey (state e) vaultKey) ;;;
  wrap "failed to save key_epoch" (SetKeyEpoch (state e) 1) ;;;
  wrap "failed to save owner_device_id" (SetOwnerDeviceID (state e) (dk_DeviceID keys)) ;;;
  let eventHash := Sum256 signBytes in
  wrap "failed to save membership head"
    (SetMembershipHead (state e)
       {| MemberSeq := memberSeq; MemberHeadHash := eventHash |}) ;;;
  wrap "failed to save verified member"
    (SetVerifiedMember (state e)
       {| vm_DeviceID := dk_DeviceID keys;
          vm_PubkeySign := PubkeySign keys;
          vm_PubkeyBox := PubkeyBox keys;
          vm_KeyEpoch := 1 |}).

Definition RefreshMembership (c : Endpoints) (e : Engine) : M unit :=
  vaultID <- wrap "failed to get vault_id" (GetVaultID (state e)) ;;
  members <- wrap "failed to get vault members" (GetVaultMembers c vaultID) ;;
  if negb (length (r_HeadHash members) =? 32)%nat
  then fail (ErrNew "invalid membership head hash length") else
  wrap "failed to save membership head"
    (SetMembershipHead (state e)
       {| MemberSeq := u64 (r_MemberSeq members);
          MemberHeadHash := fix32 (r_HeadHash members) |}) ;;;
  wrap "failed to reset verified members" (ClearVerifiedMembers (state e)) ;;;
  for_each (fun member =>
              wrap "failed to save verified member"
                (SetVerifiedMember (state e) (member_record member)))
           (r_Members members).

End Lifecycle.



(** ** The TUI: [handleSyncNow] *)

(** The answer of [handleSyncNow]; the wall-clock field [LastSync] is
    left out. *)
Inductive SyncNowMsg :=
| SyncNowFailMsg (err : error)
| SyncNowCompleteMsg (entries : list Entry) (members : nat) (warning : option error).

Section SyncNow.
Context `{Externals}.

(** The three steps whose failure is only a warning. *)
Definition sync_warnings (c : Endpoints) (a : App) (e : Engine) (entries : list Entry)
  : M (option error) :=
  refreshed <- catch (RefreshMembership c e) ;;
  let warnErr :=
    match refreshed with
    | Err err => mergeSyncWarning None
                   (Some (ErrWrap "failed to refresh vault members" err))
    | Ok _ => None
    end in
  seeded <- catch (seedLocalEntriesIfNeeded a entries) ;;
  let warnErr :=
    match seeded with
    | Err err => mergeSyncWarning warnErr
                   (Some (ErrWrap "some changes could not be pushed yet" err))
    | Ok _ => warnErr
    end in
  flushed <- catch (FlushPendingEntries e) ;;
  ret (match flushed, warnErr with
       | Err err, None => mergeSyncWarning warnErr
                            (Some (ErrWrap "some changes could not be pushed yet" err))
       | _, _ => warnErr
       end).

Definition handleSyncNow (c : Endpoints) (a : App) (entries : list Entry)
  : World -> SyncNowMsg * World :=
  match syncState a, syncEngine a with
  | Some s, Some e =>
      fun w =>
        match (acceptInviteClaimsIfOwner a ;;;
               warnErr <- sync_warnings c a e entries ;;
               synced <- catch (SyncEntries e entries) ;;
               match synced with
               | Err err => ret (SyncNowFailMsg err)
               | Ok newEntries =>
                   members <- catch (GetVerifiedMembers s) ;;
                   let memberCount :=
                     match members with
                     | Ok members => length members
                     | Err _ => 0%nat
                     end in
                   ret (SyncNowCompleteMsg newEntries memberCount warnErr)
               end) w with
        | (Ok msg, w') => (msg, w')
        | (Err err, w') => (SyncNowFailMsg err, w')
        end
  | _, _ => fun w => (SyncNowFailMsg (ErrNew "sync not configured"), w)
  end.

End SyncNow.


(** ** [crypto.go] and [models]: ids in hexadecimal

    encoding/hex, as the Go library has it: [EncodeToString] writes two
    lower-case digits per byte; [DecodeString] reads pairs of digits of
    either case, reports the first byte that is no digit, and reports
    an odd length only when the last byte is a digit.  On an error Go
    returns the bytes decoded so far next to it; they are left out
    here, and so is the rune formatting of the invalid byte in its
    message. *)

Definition hex_char (n : Z) : ascii :=
  if n <? 10 then ascii_of_N (Z.to_N (48 + n)) else ascii_of_N (Z.to_N (87 + n)).

Definition hex_value (c : ascii) : option Z :=
  let n := Z.of_N (N_of_ascii c) in
  if (48 <=? n) && (n <=? 57) then Some (n - 48)
  else if (97 <=? n) && (n <=? 102) then Some (n - 87)
  else if (65 <=? n) && (n <=? 70) then Some (n - 55)
  else None.

Definition ErrLength : error := ErrNew "encoding/hex: odd length hex string".
Definition InvalidByteError (c : ascii) : error :=
  ErrNew ("encoding/hex: invalid byte: " +:+ String c "").

Fixpoint hex_EncodeToString (src : bytes) : string :=
  match src with
  | [] => ""
  | v :: rest =>
      String (hex_char (Z_of_byte v / 16))
        (String (hex_char (Z_of_byte v mod 16)) (hex_EncodeToString rest))
  end.

Fixpoint hex_DecodeString (s : string) : result bytes :=
  match s with
  | "" => Ok []
  | String p "" =>
      match hex_value p with
      | None => Err (InvalidByteError p)
      | Some _ => Err ErrLength
      end
  | String p (String q rest) =>
      match hex_value p with
      | None => Err (InvalidByteError p)
      | Some a =>
          match hex_value q with
          | None => Err (InvalidByteError q)
          | Some b =>
              match hex_DecodeString rest with
              | Err e => Err e
              | Ok decoded => Ok (byte_of_Z (a * 16 + b) :: decoded)
              end
          end
      end
  end.

(** The key arguments are [[32]byte] in Go. *)
Definition ComputeDeviceID `{Externals} (pubkeySign : bytes) : string :=
  hex_EncodeToString (Sum256 (fix32 pubkeySign)).

Definition DeviceIDBytes `{Externals} (pubkeySign : bytes) : bytes :=
  Sum256 (fix32 pubkeySign).

Definition DeviceIDToBytes (hexID : string) : result bytes :=
  hex_DecodeString hexID.

Definition ComputeFingerprint (pubKey : bytes) : string :=
  if (length pubKey <? 8)%nat then "" else hex_EncodeToString (take 8 pubKey).

(** [generateID]: sixteen random bytes in hexadecimal; the error of
    [rand.Read] is not looked at. *)
Definition generateID `{Externals} : M string :=
  b <- rand_Read 16 ;;
  ret (hex_EncodeToString b).

(** ** Invitations: [BoxSeal], [BoxOpen], [InviteDevice], [JoinVault] *)

Record Invite := {
  inv_MsgType : string;
  inv_InviteID : UUID;
  inv_VaultID : UUID;
  TargetDeviceID : DeviceID;
  TargetDevicePubkeySign : bytes;
  TargetDevicePubkeyBox : bytes;
  TargetDeviceBundleSig : bytes;
  inv_Nonce : bytes;
  WrappedPayload : bytes;
  CreatedByDeviceID : DeviceID;
  SingleUse : bool;
  inv_Signature : bytes
}.

(** The invitation calls of [client.go]. *)
Record InviteEndpoints := {
  relay_CreateInvite : UUID -> Invite -> option error;
  relay_GetInvites : string -> result (list Invite);
  relay_ClaimInvite : UUID -> InviteClaim -> option error
}.

(** x/crypto/nacl/box, and the helpers of package [sync] that the
    sources at hand do not contain. *)
Class InviteCode := {
  (** [box.Seal(nil, message, nonce, peersPublicKey, privateKey)] *)
  box_Seal : bytes -> bytes -> bytes -> bytes -> bytes;
  (** [box.Open(nil, box, nonce, peersPublicKey, privateKey)] *)
  box_Open : bytes -> bytes -> bytes -> bytes -> option bytes;
  SignBytesInvite :
    bytes -> bytes -> bytes -> bytes -> bytes -> bytes -> bytes -> bytes -> bytes ->
    bool -> result bytes;
  SignBytesInviteClaim : bytes -> bytes -> bytes -> result bytes;
  UUID_String : UUID -> string
}.

(** The box opens, for the holder of [recipientPriv] and under
    [senderPub], what was sealed for [recipientPub] with [senderPriv]. *)
Definition box_correct `{InviteCode} (senderPub senderPriv recipientPub recipientPriv : bytes)
  : Prop :=
  forall nonce message,
    box_Open (box_Seal message nonce recipientPub senderPriv) nonce senderPub recipientPriv
    = Some message.

Section Invitations.
Context `{Externals} `{InviteCode}.

Definition BoxSeal (message recipientPub senderPriv : bytes) : M bytes :=
  nonce <- wrap "failed to generate nonce" (rand_Read 24) ;;
  ret (nonce ++ box_Seal message nonce recipientPub senderPriv).

Definition BoxOpen (ciphertext senderPub recipientPriv : bytes) : result bytes :=
  if (length ciphertext <? 24)%nat then Err ErrInvalidCiphertext
  else
    let nonce := fixN 24 (take 24 ciphertext) in
    match box_Open (drop 24 ciphertext) nonce senderPub recipientPriv with
    | None => Err ErrDecryptionFailed
    | Some plaintext => Ok plaintext
    end.

Definition CreateInvite (c : InviteEndpoints) (vaultID : UUID) (invite : Invite) : M unit :=
  lift (match relay_CreateInvite c vaultID invite with
        | Some err => Err err
        | None => Ok tt
        end).

Definition GetInvites (c : InviteEndpoints) (deviceID : string) : M (list Invite) :=
  lift (relay_GetInvites c deviceID).

Definition ClaimInvite (c : InviteEndpoints) (inviteID : UUID) (claim : InviteClaim)
  : M unit :=
  lift (match relay_ClaimInvite c inviteID claim with
        | Some err => Err err
        | None => Ok tt
        end).

Definition InviteDevice (c : InviteEndpoints) (e : Engine) (targetBundle : DeviceBundle)
  : M Invite :=
  keys <- wrap "failed to get device keys" (GetDeviceKeys (state e)) ;;
  vaultID <- wrap "failed to get vault_id" (GetVaultID (state e)) ;;
  vaultKey <- wrap "failed to get vault_key" (GetVaultKey (state e)) ;;
  let targetPubBox := fix32 (DevicePubkeyBox targetBundle) in
  sealed <- wrap "failed to encrypt vault key"
              (BoxSeal vaultKey targetPubBox (PrivkeyBox keys)) ;;
  let nonce := take 24 sealed in
  let wrappedPayload := drop 24 sealed in
  inviteID <- NewUUID ;;
  deviceIDBytes <- wrap "failed to decode device_id"
                     (lift (DeviceID_Bytes (dk_DeviceID keys))) ;;
  targetDeviceIDBytes <- wrap "failed to decode target device_id"
                           (lift (DeviceID_Bytes (db_DeviceID targetBundle))) ;;
  signBytes <- wrap "failed to compute sign bytes"
                 (lift (SignBytesInvite inviteID vaultID targetDeviceIDBytes
                          (DevicePubkeySign targetBundle) (DevicePubkeyBox targetBundle)
                          (DeviceBundleSig targetBundle) nonce wrappedPayload
                          deviceIDBytes true)) ;;
  let signature := crypto_Sign (PrivkeySign keys) signBytes in
  let invite :=
    {| inv_MsgType := "invite"; inv_InviteID := inviteID; inv_VaultID := vaultID;
       TargetDeviceID := db_DeviceID targetBundle;
       TargetDevicePubkeySign := DevicePubkeySign targetBundle;
       TargetDevicePubkeyBox := DevicePubkeyBox targetBundle;
       TargetDeviceBundleSig := DeviceBundleSig targetBundle;
       inv_Nonce := nonce; WrappedPayload := wrappedPayload;
       CreatedByDeviceID := dk_DeviceID keys; SingleUse := true;
       inv_Signature := signature |} in
  wrap "failed to create invite" (CreateInvite c vaultID invite) ;;;
  ret invite.

Definition InviteDeviceByID (c : InviteEndpoints) (e : Engine) (targetDeviceID : string)
  : M Invite :=
  targetBundle <- wrap "failed to get device bundle" (GetDevice (client e) targetDeviceID) ;;
  InviteDevice c e targetBundle.

(** The first invite with the given id. *)
Definition find_invite (inviteID : UUID) (invites : list Invite) : option Invite :=
  List.find (fun invite => bool_decide (inv_InviteID invite = inviteID)) invites.

Definition JoinVault (m : Endpoints) (c : InviteEndpoints) (e : Engine) (inviteID : UUID)
  : M unit :=
  keys <- wrap "failed to get device keys" (GetDeviceKeys (state e)) ;;
  invites <- wrap "failed to get invites" (GetInvites c (dk_DeviceID keys)) ;;
  match find_invite inviteID invites with
  | None => fail (ErrNew ("invite not found: " +:+ UUID_String inviteID))
  | Some invite =>
  creatorBundle <- wrap "failed to get invite creator bundle"
                     (GetDevice (client e) (CreatedByDeviceID invite)) ;;
  let creatorPubBox := fix32 (DevicePubkeyBox creatorBundle) in
  decrypted <- wrap "failed to decrypt invite payload"
                 (lift (BoxOpen (inv_Nonce invite ++ WrappedPayload invite)
                          creatorPubBox (PrivkeyBox keys))) ;;
  if (length decrypted <? 32)%nat then fail (ErrNew "invalid invite payload length") else
  let vaultKey := take 32 decrypted in
  deviceIDBytes <- wrap "failed to decode device_id"
                     (lift (DeviceID_Bytes (dk_DeviceID keys))) ;;
  claimSignBytes <- wrap "failed to compute claim sign bytes"
                      (lift (SignBytesInviteClaim inviteID (inv_VaultID invite)
                               deviceIDBytes)) ;;
  let claimSig := crypto_Sign (PrivkeySign keys) claimSignBytes in
  let claim :=
    {| ic_InviteID := inviteID; ic_VaultID := inv_VaultID invite;
       ic_DeviceID := dk_DeviceID keys; ic_Signature := claimSig |} in
  wrap "failed to claim invite" (ClaimInvite c inviteID claim) ;;;
  wrap "failed to save vault_id" (SetVaultID (state e) (inv_VaultID invite)) ;;;
  wrap "failed to save vault_key" (SetVaultKey (state e) vaultKey) ;;;
  wrap "failed to save key_epoch" (SetKeyEpoch (state e) 1) ;;;
  members <- wrap "failed to get vault members" (GetVaultMembers m (inv_VaultID invite)) ;;
  if negb (length (r_HeadHash members) =? 32)%nat
  then fail (ErrNew "invalid membership head hash length") else
  wrap "failed to save membership head"
    (SetMembershipHead (state e)
       {| MemberSeq := u64 (r_MemberSeq members);
          MemberHeadHash := fix32 (r_HeadHash members) |}) ;;;
  wrap "failed to reset verified members" (ClearVerifiedMembers (state e)) ;;;
  for_each (fun member =>
              wrap "failed to save verified member"
                (SetVerifiedMember (state e) (member_record member)))
           (r_Members members)
  end.

End Invitations.

(** ** Further sample data *)

Module Sample.

(** Events as the relay serves them, numbered from [first] on. *)
Fixpoint numbered (first : Z) (events : list Event) : list Event :=
  match events with
  | [] => []
  | event :: rest =>
      {| ev_MsgType := ev_MsgType event; EventID := EventID event;
         ev_VaultID := ev_VaultID event; ev_DeviceID := ev_DeviceID event;
         Counter := Counter event; Lamport := Lamport event;
         KeyEpoch := KeyEpoch event; PrevHash := PrevHash event;
         Nonce := Nonce event; Ciphertext := Ciphertext event;
         Signature := Signature event; Seq := first |}
      :: numbered (first + 1) rest
  end.

(** A stand-in for the missing wire-type helper: the three fields, one
    after the other. *)
#[export] Instance wire : WireTypes :=
  {| SignBytesDeviceBundle := fun deviceID pubSign pubBox =>
       Ok (deviceID ++ pubSign ++ pubBox) |}.

(** A device that holds its keys and no vault. *)
Definition fresh_device (keys : DeviceKeys) : World :=
  (SetDeviceKeys (H := Fixture.externals) Fixture.sync_state keys empty_World).2.

(** A stand-in for the box and the invitation helpers: the box is the
    message behind a one-byte tag over nonce and message. *)
#[export] Instance invite_code : InviteCode :=
  {| box_Seal := fun message nonce _ _ => Fixture.checksum (nonce ++ message) :: message;
     box_Open := fun box nonce _ _ =>
       match box with
       | tag :: message =>
           if bool_decide (tag = Fixture.checksum (nonce ++ message))
           then Some message else None
       | [] => None
       end;
     SignBytesInvite := fun inviteID vaultID target pubSign pubBox bundleSig nonce
                            wrapped creator singleUse =>
       Ok (inviteID ++ vaultID ++ target ++ pubSign ++ pubBox ++ bundleSig ++ nonce
           ++ wrapped ++ creator);
     SignBytesInviteClaim := fun inviteID vaultID deviceID =>
       Ok (inviteID ++ vaultID ++ deviceID);
     UUID_String := string_of_bytes |}.

(** The bundle a device registers. *)
Definition bundle_of (keys : DeviceKeys) : DeviceBundle :=
  {| db_DeviceID := dk_DeviceID keys; DevicePubkeySign := PubkeySign keys;
     DevicePubkeyBox := PubkeyBox keys; DeviceBundleSig := replicate 64 "g"%byte |}.

Definition no_invite : Invite :=
  {| inv_MsgType := ""; inv_InviteID := []; inv_VaultID := []; TargetDeviceID := "";
     TargetDevicePubkeySign := []; TargetDevicePubkeyBox := [];
     TargetDeviceBundleSig := []; inv_Nonce := []; WrappedPayload := [];
     CreatedByDeviceID := ""; SingleUse := false; inv_Signature := [] |}.

(** A relay that accepts every invitation call and lists the given
    invites. *)
Definition inviting (invites : list Invite) : InviteEndpoints :=
  {| relay_CreateInvite := fun _ _ => None;
     relay_GetInvites := fun _ => Ok invites;
     relay_ClaimInvite := fun _ _ => None |}.

(** A members endpoint that lists the given devices. *)
Definition listing (members : list DeviceKeys) : Endpoints :=
  {| relay_GetVaultMembers := fun _ =>
       Ok {| r_MemberSeq := Z.of_nat (length members);
             r_HeadHash := replicate 32 "h"%byte;
             r_Members :=
               map (fun keys =>
                      {| m_DeviceID := dk_DeviceID keys;
                         m_DevicePubkeySign := PubkeySign keys;
                         m_DevicePubkeyBox := PubkeyBox keys; m_KeyEpoch := 1 |})
                   members |};
     relay_RegisterDevice := fun _ => None |}.

(** The invite device A makes for device B. *)
Definition invite_for (a b : DeviceKeys) : Invite :=
  match (InviteDevice (H := Fixture.externals) (inviting []) (Fixture.engine (Fixture.healthy []))
           (bundle_of b) (Fixture.world_of a [a])).1 with
  | Ok invite => invite
  | Err _ => no_invite
  end.

End Sample.

(** * Properties *)

Arguments PutUint64 : simpl never.
Arguments Uint64 : simpl never.
Arguments fixN : simpl never.
Arguments fix32 : simpl never.
Arguments Sum256 : simpl never.
Arguments u64 : simpl never.
Arguments zero_bytes : simpl never.

(** ** Bytes and integers *)

Lemma Z_of_byte_range b : 0 <= Z_of_byte b < 256.
Proof.
  unfold Z_of_byte. pose proof (Byte.to_N_bounded b). lia.
Qed.

Lemma Z_of_byte_of_Z z : Z_of_byte (byte_of_Z z) = z mod 256.
Proof.
  unfold Z_of_byte, byte_of_Z.
  assert (Hr : 0 <= z mod 256 < 256) by (apply Z.mod_pos_bound; lia).
  destruct (Byte.of_N (Z.to_N (z mod 256))) as [b|] eqn:E.
  - simpl. apply Byte.to_of_N in E. rewrite E. lia.
  - apply Byte.of_N_None_iff in E. lia.
Qed.

Lemma length_be_encode n v : length (be_encode n v) = n.
Proof.
  revert v. induction n as [|n IH]; intros v; simpl; [done|].
  rewrite length_app, IH. simpl. lia.
Qed.

Lemma be_decode_app l x : be_decode (l ++ [x]) = be_decode l * 256 + Z_of_byte x.
Proof. unfold be_decode. by rewrite fold_left_app. Qed.

Lemma be_decode_encode n v : be_decode (be_encode n v) = v mod 256 ^ Z.of_nat n.
Proof.
  revert v. induction n as [|n IH]; intros v.
  - simpl. by rewrite Z.mod_1_r.
  - cbn [be_encode]. rewrite be_decode_app, IH, Z_of_byte_of_Z.
    rewrite Nat2Z.inj_succ, Z.pow_succ_r by lia.
    rewrite Z.rem_mul_r by lia. lia.
Qed.

Lemma be_decode_range l : 0 <= be_decode l < 256 ^ Z.of_nat (length l).
Proof.
  induction l as [|x l IH] using rev_ind.
  - simpl. unfold be_decode. simpl. lia.
  - rewrite be_decode_app, length_app. simpl.
    replace (Z.of_nat (length l + 1)) with (Z.succ (Z.of_nat (length l))) by lia.
    rewrite Z.pow_succ_r by lia.
    pose proof (Z_of_byte_range x). lia.
Qed.

Lemma length_PutUint64 v : length (PutUint64 v) = 8%nat.
Proof. apply length_be_encode. Qed.

Lemma Uint64_PutUint64 v : Uint64 (PutUint64 v) = u64 v.
Proof.
  unfold Uint64, PutUint64, u64.
  rewrite take_ge by (rewrite length_be_encode; lia).
  by rewrite be_decode_encode.
Qed.

Lemma u64_range z : 0 <= u64 z < 2 ^ 64.
Proof. unfold u64. apply Z.mod_pos_bound. lia. Qed.

Lemma u64_small z : 0 <= z < 2 ^ 64 -> u64 z = z.
Proof. unfold u64. intros. by apply Z.mod_small. Qed.

Lemma u64_idemp z : u64 (u64 z) = u64 z.
Proof. apply u64_small, u64_range. Qed.

Lemma Uint64_range b : 0 <= Uint64 b < 2 ^ 64.
Proof.
  unfold Uint64. pose proof (be_decode_range (take 8 b)) as Hr.
  assert (Hl : (length (take 8 b) <= 8)%nat) by (rewrite length_take; lia).
  assert (256 ^ Z.of_nat (length (take 8 b)) <= 256 ^ 8)
    by (apply Z.pow_le_mono_r; lia).
  change (2 ^ 64) with (256 ^ 8). lia.
Qed.

Lemma length_fixN n l : length (fixN n l) = n.
Proof.
  unfold fixN. rewrite length_take, length_app, length_replicate. lia.
Qed.

Lemma fixN_id n l : length l = n -> fixN n l = l.
Proof.
  intros Hl. unfold fixN. rewrite take_app_length'; done.
Qed.

Lemma length_Sum256 `{Externals} b : length (Sum256 b) = 32%nat.
Proof. apply length_fixN. Qed.

(** An event head survives its 40-byte record. *)
Lemma event_head_record counter hash :
  let data := PutUint64 counter ++ fix32 hash in
  length data = 40%nat /\
  Uint64 (take 8 data) = u64 counter /\
  drop 8 (take 40 data) = fix32 hash.
Proof.
  cbn zeta.
  assert (H8 : length (PutUint64 counter) = 8%nat) by apply length_PutUint64.
  assert (H32 : length (fix32 hash) = 32%nat) by apply length_fixN.
  split; [rewrite length_app; lia|].
  split.
  - rewrite take_app_length' by done. apply Uint64_PutUint64.
  - rewrite take_ge by (rewrite length_app; lia).
    by rewrite drop_app_length'.
Qed.

(** ** Running the monad *)

Ltac munfold :=
  unfold get_u64, put_u64, meta_Get, meta_Put, meta_Delete in *;
  unfold bind, ret, fail, gets, modify, lift, wrap, catch, ignore_err in *;
  cbn beta iota in *.

(** Case analysis on the innermost scrutinee of the goal. *)
Ltac mcase :=
  match goal with
  | |- context [match ?x with _ => _ end] =>
      lazymatch x with
      | context [match _ with _ => _ end] => fail
      | _ => destruct x eqn:?
      end
  end.

Lemma for_each_modify {A} (f : A -> World -> World) (l : list A) (w : World) :
  for_each (fun x => modify (f x)) l w = (Ok tt, fold_left (fun w x => f x w) l w).
Proof.
  revert w. induction l as [|x l IH]; intros w; [done|].
  simpl. unfold bind at 1. simpl. apply IH.
Qed.

Lemma fold_delete_lookup {A} (keys : list string) (m : gmap string A) (i : string) :
  fold_left (fun m k => delete k m) keys m !! i =
  if decide (i ∈ keys) then None else m !! i.
Proof.
  revert m. induction keys as [|k keys IH]; intros m; cbn [fold_left].
  - case_decide; [set_solver | done].
  - rewrite IH. destruct (decide (i = k)) as [->|Hne].
    + rewrite lookup_delete_eq. repeat case_decide; set_solver.
    + rewrite lookup_delete_ne by done. repeat case_decide; set_solver.
Qed.

Lemma bucket_ForEach_perm {A} (b : gmap string A) :
  bucket_ForEach b ≡ₚ map_to_list b.
Proof. apply merge_sort_Permutation. Qed.

Lemma bucket_ForEach_keys {A} (b : gmap string A) (i : string) :
  i ∈ (bucket_ForEach b).*1 <-> is_Some (b !! i).
Proof.
  rewrite bucket_ForEach_perm, list_elem_of_fmap. split.
  - intros [[k x] [-> Hin]]. apply elem_of_map_to_list in Hin. by exists x.
  - intros [x Hx]. exists (i, x). split; [done|]. by apply elem_of_map_to_list.
Qed.

Lemma fold_with_event_heads_delete (keys : list string) (w : World) :
  fold_left (fun w key => with_db (with_event_heads (delete key)) w) keys w =
  with_db (with_event_heads (fun m => fold_left (fun m k => delete k m) keys m)) w.
Proof.
  revert w. induction keys as [|k keys IH]; intros w; simpl.
  - by destruct w as [[] ? ? ?].
  - rewrite IH. by destruct w as [[] ? ? ?].
Qed.

Lemma ClearEventHeads_run `{Externals} (s : SyncState) (w : World) :
  ClearEventHeads s w = (Ok tt, with_db (with_event_heads (fun _ => ∅)) w).
Proof.
  unfold ClearEventHeads, bind, gets.
  rewrite for_each_modify, fold_with_event_heads_delete.
  f_equal. destruct w as [[meta mem heads pend sch] ev mev rr]; simpl.
  unfold with_db, with_event_heads; simpl. do 2 f_equal.
  apply map_eq. intros i. rewrite fold_delete_lookup, lookup_empty.
  case_decide as Hin; [done|].
  destruct (heads !! i) eqn:E; [|done].
  exfalso. apply Hin. apply bucket_ForEach_keys. by eexists.
Qed.

Lemma ClearVaultState_run `{Externals} (s : SyncState) (w : World) :
  ClearVaultState s w =
  (Ok tt, with_db (with_meta (fun m => fold_left (fun m k => delete k m) vault_scalars m)) w).
Proof.
  unfold ClearVaultState, meta_Delete. rewrite for_each_modify.
  by destruct w as [[] ? ? ?].
Qed.

Lemma GetDeviceKeys_meta `{Externals} (s : SyncState) (w w' : World) :
  (forall k, k ∈ identity_keys -> sync_meta (db w') !! k = sync_meta (db w) !! k) ->
  (GetDeviceKeys s w').1 = (GetDeviceKeys s w).1.
Proof.
  intros Hk. unfold GetDeviceKeys, getVaultKey. munfold.
  assert (Hk' : forall k, k ∈ identity_keys ->
            sync_meta (db w') !! k = sync_meta (db w) !! k) by done.
  unfold identity_keys in Hk'.
  destruct (vaultKey s) as [key|]; [|reflexivity]. cbn beta iota.
  repeat first
    [ rewrite Hk' by (unfold keyDeviceID, keyPubkeySign, keyPrivkeySignEnc,
                        keyPubkeyBox, keyPrivkeyBoxEnc; set_solver)
    | mcase; cbn beta iota; try reflexivity ].
Qed.

(** C9. Leaving the vault in an unlocked application answers
    [LeaveVaultCompleteMsg]; afterwards the eight vault scalars
    (vault_id, the sealed vault_key, key_epoch, owner_device_id,
    member_seq, member_head_hash, sync_cursor, lamport) are absent from
    sync_meta, and the verified members, the event heads and the
    pending entries are empty; every other key of sync_meta, among them
    the device identity (device_id and the two key pairs), keeps its
    value, so [GetDeviceKeys] returns what it returned before; the
    entry_scheme records and the relay are untouched. *)
Theorem leave_vault_clears_exactly_vault_state `{Externals}
    (a : App) (w : World) (key : bytes) :
  store_VaultKey a = Some key ->
  let (msg, w') := handleLeaveVault a w in
  msg = LeaveVaultCompleteMsg /\
  (forall k, k ∈ vault_scalars -> sync_meta (db w') !! k = None) /\
  sync_members (db w') = ∅ /\
  sync_event_heads (db w') = ∅ /\
  sync_pending (db w') = ∅ /\
  (forall k, k ∉ vault_scalars -> sync_meta (db w') !! k = sync_meta (db w) !! k) /\
  (forall k, k ∈ identity_keys -> sync_meta (db w') !! k = sync_meta (db w) !! k) /\
  (forall s, (GetDeviceKeys s w').1 = (GetDeviceKeys s w).1) /\
  entry_scheme (db w') = entry_scheme (db w) /\
  relay_events w' = relay_events w /\
  relay_member_events w' = relay_member_events w.
Proof.
  intros Hkey. unfold handleLeaveVault, answer. rewrite Hkey.
  unfold NewSyncState, bind, wrap, ret.
  rewrite ClearVaultState_run.
  unfold ClearVerifiedMembers, modify. rewrite ClearEventHeads_run.
  unfold ClearPendingEntries, modify.
  cbn -[vault_scalars identity_keys fold_left].
  assert (Hout : forall k, k ∉ vault_scalars ->
            fold_left (fun m k0 => delete k0 m) vault_scalars (sync_meta (db w)) !! k
            = sync_meta (db w) !! k).
  { intros k Hk. rewrite fold_delete_lookup. by rewrite decide_False. }
  assert (Hid : forall k, k ∈ identity_keys ->
            fold_left (fun m k0 => delete k0 m) vault_scalars (sync_meta (db w)) !! k
            = sync_meta (db w) !! k).
  { intros k Hk. apply Hout. unfold identity_keys, vault_scalars in *.
    set_solver. }
  split_and!; try done.
  - intros k Hk. rewrite fold_delete_lookup. by rewrite decide_True.
  - intros s. by apply GetDeviceKeys_meta.
Qed.

Lemma leave_vault_witness :
  let a := {| store_VaultKey := Some Fixture.master_key;
              syncState := Some Fixture.sync_state;
              syncEngine := Some (Fixture.engine (Fixture.healthy [])) |} in
  let w := Fixture.world_of Fixture.dev_a [Fixture.dev_a; Fixture.dev_b] in
  store_VaultKey a = Some Fixture.master_key /\
  sync_meta (db w) !! "vault_id" = Some Fixture.the_vault_id /\
  sync_meta (db (handleLeaveVault a w).2) !! "vault_id" = None.
Proof.
  intros a w.
  pose proof (@leave_vault_clears_exactly_vault_state Fixture.externals a w
                Fixture.master_key eq_refl) as Hleave.
  destruct (handleLeaveVault a w) as [msg w'] eqn:E.
  destruct Hleave as (_ & Hgone & _).
  split; [reflexivity|]. split; [vm_compute; reflexivity|].
  cbn [snd]. apply Hgone. unfold vault_scalars. apply list_elem_of_here.
Defined.
(** ** Calls that only read *)

Section ReadOnly.
Context `{Externals}.

Lemma getVaultKey_ro s w : (getVaultKey s w).2 = w.
Proof. unfold getVaultKey. by destruct (vaultKey s). Qed.

Lemma GetVaultKey_ro s w : (GetVaultKey s w).2 = w.
Proof.
  unfold GetVaultKey, getVaultKey. munfold.
  destruct (vaultKey s); [|done]. cbn beta iota.
  repeat (mcase; cbn beta iota; try done).
Qed.

Lemma GetVaultID_ro s w : (GetVaultID s w).2 = w.
Proof.
  unfold GetVaultID. munfold. repeat (mcase; cbn beta iota; try done).
Qed.

Lemma get_u64_ro k w : (get_u64 k w).2 = w.
Proof. unfold get_u64. munfold. by mcase. Qed.

Lemma get_u64_run k w :
  get_u64 k w = (Ok (match sync_meta (db w) !! k with
                     | Some data => Uint64 data
                     | None => 0
                     end), w).
Proof. unfold get_u64. munfold. by mcase. Qed.

Lemma GetVerifiedMember_ro s d w : (GetVerifiedMember s d w).2 = w.
Proof.
  unfold GetVerifiedMember. munfold. repeat (mcase; cbn beta iota; try done).
Qed.

Lemma GetEventHead_ro s d w : (GetEventHead s d w).2 = w.
Proof.
  unfold GetEventHead. munfold. repeat (mcase; cbn beta iota; try done).
Qed.

Lemma GetDeviceKeys_ro s w : (GetDeviceKeys s w).2 = w.
Proof.
  unfold GetDeviceKeys, getVaultKey. munfold.
  destruct (vaultKey s); [|done]. cbn beta iota.
  repeat (mcase; cbn beta iota; try done).
Qed.

Lemma decryptEventPayload_ro e ct nonce epoch w :
  (decryptEventPayload e ct nonce epoch w).2 = w.
Proof.
  unfold decryptEventPayload. munfold.
  pose proof (GetVaultKey_ro (state e) w) as Hro.
  destruct (GetVaultKey (state e) w) as [[key|err] w1]; simpl in Hro; subst w1;
    [|done].
  repeat (mcase; cbn beta iota; try done).
Qed.

Lemma open_event_ro e event w : (open_event e event w).2 = w.
Proof.
  unfold open_event. munfold.
  pose proof (GetVerifiedMember_ro (state e) (ev_DeviceID event) w) as Hro.
  destruct (GetVerifiedMember (state e) (ev_DeviceID event) w) as [[m|err] w1];
    simpl in Hro; subst w1; cbn; [|done].
  destruct (DeviceID_Bytes _); [|done].
  destruct (SignBytesEvent _ _ _ _ _ _ _ _ _); [|done].
  destruct (negb _); [done|].
  pose proof (decryptEventPayload_ro e (Ciphertext event) (Nonce event)
                (u64 (KeyEpoch event)) w) as Hro.
  destruct (decryptEventPayload _ _ _ _ w) as [[r|err] w1]; simpl in Hro; by subst w1.
Qed.

End ReadOnly.
(** ** Decrypting an event payload *)

Section Decrypt.
Context `{Externals}.

Lemma NewX_fix32 b : NewX (fix32 b) = Ok (fix32 b).
Proof.
  unfold NewX. rewrite decide_True; [done|]. apply length_fixN.
Qed.

Lemma open_event_skips e event w :
  (exists err, decryptEventPayload e (Ciphertext event) (Nonce event)
                 (u64 (KeyEpoch event)) w = (Err err, w)) ->
  open_event e event w = (Ok None, w).
Proof.
  intros [err Herr]. unfold open_event. munfold.
  pose proof (GetVerifiedMember_ro (state e) (ev_DeviceID event) w) as Hro.
  destruct (GetVerifiedMember (state e) (ev_DeviceID event) w) as [[m|err'] w1];
    simpl in Hro; subst w1; cbn; [|done].
  destruct (DeviceID_Bytes _); [|done].
  destruct (SignBytesEvent _ _ _ _ _ _ _ _ _); [|done].
  destruct (negb _); [done|].
  by rewrite Herr.
Qed.

(** C5. With the vault key at hand, [decryptEventPayload] opens the
    ciphertext with XChaCha20-Poly1305 under the HKDF key of the epoch
    (info "forgor-event-key-epoch-N"): if that succeeds the payload is
    decoded and the scheme is "v2", whatever the legacy opening would
    give.  Only when it fails is the ciphertext opened as a secretbox
    under SHA-256(vault_key || "forgor-event-key-epoch-N") with the
    24-byte nonce, and a success reports "legacy".  When both fail the
    call returns an error, and the event that carries the ciphertext is
    skipped by the merge loop and by the pull loop: accumulators and
    state unchanged. *)
Theorem decrypt_v2_first_then_legacy (e : Engine) (ct nonce : bytes) (epoch : Z)
    (w : World) (key : bytes) :
  GetVaultKey (state e) w = (Ok key, w) ->
  let info := bytes_of_string ("forgor-event-key-epoch-" +:+ pretty (Z.to_N epoch)) in
  let v2 := xchacha_Open (fix32 (hkdf_sha256 key info)) nonce ct in
  let legacy := secretbox_Open ct nonce (fix32 (sha256 (key ++ info))) in
  let decode (pt : bytes) (scheme : string) : result (string * Entry * string) :=
    match json_Unmarshal_payload pt with
    | Some p => Ok (Op p, PEntry p, scheme)
    | None => Err (ErrWrap "failed to unmarshal payload" (ErrNew "json: cannot unmarshal"))
    end in
  (forall pt, v2 = Some pt ->
     decryptEventPayload e ct nonce epoch w = (decode pt "v2", w)) /\
  (forall pt, v2 = None -> length nonce = 24%nat -> legacy = Some pt ->
     decryptEventPayload e ct nonce epoch w = (decode pt "legacy", w)) /\
  (v2 = None -> length nonce <> 24%nat \/ legacy = None ->
     (exists err, decryptEventPayload e ct nonce epoch w =
                  (Err (ErrWrap "failed to decrypt" err), w)) /\
     (forall event acc,
        Ciphertext event = ct -> Nonce event = nonce -> u64 (KeyEpoch event) = epoch ->
        sync_event e acc event w = (Ok acc, w)) /\
     (forall event acc,
        Ciphertext event = ct -> Nonce event = nonce -> u64 (KeyEpoch event) = epoch ->
        pull_event e acc event w = (Ok acc, w))).
Proof.
  intros Hkey info v2 legacy decode.
  assert (Hv2 : decryptEventPayloadXChaCha key epoch nonce ct =
                match v2 with
                | Some pt => Ok pt
                | None => Err (ErrNew "chacha20poly1305: message authentication failed")
                end).
  { unfold decryptEventPayloadXChaCha, deriveEventKey, epoch_info.
    by rewrite NewX_fix32. }
  assert (Hleg : length nonce = 24%nat ->
                 decryptEventPayloadLegacy key epoch nonce ct =
                 match legacy with
                 | Some pt => Ok pt
                 | None => Err (ErrNew "legacy decrypt failed")
                 end).
  { intros Hn. unfold decryptEventPayloadLegacy, NonceLength.
    rewrite Hn. change (negb (24 =? 24)%nat) with false. cbn iota.
    by rewrite (fixN_id 24 nonce Hn). }
  assert (Hfail : v2 = None -> length nonce <> 24%nat \/ legacy = None ->
            exists err, decryptEventPayload e ct nonce epoch w =
                        (Err (ErrWrap "failed to decrypt" err), w)).
  { intros E Hno. unfold decryptEventPayload. munfold. rewrite Hkey, Hv2, E.
    destruct (decide (length nonce = 24%nat)) as [Hn|Hn].
    - destruct Hno as [Hno|Hno]; [done|]. rewrite (Hleg Hn), Hno. by eexists.
    - unfold decryptEventPayloadLegacy, NonceLength.
      apply Nat.eqb_neq in Hn. rewrite Hn. cbn. by eexists. }
  split_and!.
  - intros pt E. unfold decryptEventPayload. munfold. rewrite Hkey, Hv2, E.
    unfold decode. by destruct (json_Unmarshal_payload pt).
  - intros pt E Hn El. unfold decryptEventPayload. munfold.
    rewrite Hkey, Hv2, E, (Hleg Hn), El.
    unfold decode. by destruct (json_Unmarshal_payload pt).
  - intros E Hno. split; [by apply Hfail|].
    destruct (Hfail E Hno) as [err Herr].
    split; intros event acc <- <- <-.
    + unfold sync_event. munfold. rewrite open_event_skips; [done|]. by eexists.
    + unfold pull_event. destruct acc as [[upd ms] ml]. munfold.
      rewrite open_event_skips; [done|]. by eexists.
Qed.

End Decrypt.

Lemma decrypt_v2_first_then_legacy_witness :
  let w := Fixture.world_of Fixture.dev_b [Fixture.dev_a; Fixture.dev_b] in
  let e := Fixture.engine (Fixture.healthy []) in
  let nonce := replicate 24 "n"%byte in
  let pt := Fixture.enc_payload {| Op := "upsert"; PEntry := Fixture.entry "e1" "ex.com" |} in
  let ct := Fixture.legacy_seal pt nonce
              (deriveLegacyEventKey (H := Fixture.externals) Fixture.the_vault_key 1) in
  GetVaultKey (H := Fixture.externals) (state e) w = (Ok Fixture.the_vault_key, w) /\
  decryptEventPayload (H := Fixture.externals) e ct nonce 1 w =
    (Ok ("upsert", Fixture.entry "e1" "ex.com", "legacy"), w).
Proof.
  intros w e nonce pt ct.
  assert (Hkey : GetVaultKey (H := Fixture.externals) (state e) w
                 = (Ok Fixture.the_vault_key, w)) by (vm_compute; reflexivity).
  split; [exact Hkey|].
  destruct (@decrypt_v2_first_then_legacy Fixture.externals e ct nonce 1 w
              Fixture.the_vault_key Hkey) as (_ & Hlegacy & _).
  rewrite (Hlegacy pt); [vm_compute; reflexivity | vm_compute; reflexivity
                        | reflexivity | vm_compute; reflexivity].
Defined.
(** ** Inversion of monadic runs *)

Lemma bind_inv {A B} (c : M A) (k : A -> M B) (w w' : World) (r : result B) :
  bind c k w = (r, w') ->
  (exists a w1, c w = (Ok a, w1) /\ k a w1 = (r, w')) \/
  (exists e, c w = (Err e, w') /\ r = Err e).
Proof.
  unfold bind. destruct (c w) as [[a|e] w1]; intros Hrun.
  - left. by exists a, w1.
  - right. exists e. by inversion Hrun.
Qed.

Lemma wrap_Ok_inv {A} msg (c : M A) w a w' :
  wrap msg c w = (Ok a, w') -> c w = (Ok a, w').
Proof. unfold wrap. destruct (c w) as [[a0|e] w1]; by intros [= -> ->]. Qed.

Lemma wrap_Err_inv {A} msg (c : M A) w e w' :
  wrap msg c w = (Err e, w') -> exists e0, e = ErrWrap msg e0 /\ c w = (Err e0, w').
Proof.
  unfold wrap. destruct (c w) as [[a0|e0] w1]; intros [= <- <-]. by exists e0.
Qed.

Lemma lift_inv {A} (r r' : result A) w w' : lift r w = (r', w') -> r' = r /\ w' = w.
Proof. by intros [= -> ->]. Qed.

(** Splits a run of [x <- c ;; k] found in hypothesis [H]; the branch
    in which [c] failed is closed when its error contradicts [H]. *)
Ltac minv H :=
  let a := fresh "a" in
  let w1 := fresh "w" in
  let Hc := fresh "Hc" in
  let e := fresh "e" in
  apply bind_inv in H;
  destruct H as [(a & w1 & Hc & H) | (e & Hc & H)];
  [ try apply wrap_Ok_inv in Hc
  | try (apply wrap_Err_inv in Hc; destruct Hc as (? & -> & Hc)); try discriminate H ].
(** ** What each step of a push does to the world *)

Section Effects.
Context `{Externals}.

Lemma get_u64_stored k w : get_u64 k w = (Ok (stored_u64 k w), w).
Proof. apply get_u64_run. Qed.

Lemma stored_u64_range k w : 0 <= stored_u64 k w < 2 ^ 64.
Proof.
  unfold stored_u64. destruct (sync_meta (db w) !! k); [apply Uint64_range | lia].
Qed.

Lemma IncrementLamport_run s w :
  IncrementLamport s w =
  (Ok (u64 (stored_lamport w + 1)),
   with_db (with_meta (insert "lamport" (PutUint64 (u64 (stored_lamport w + 1))))) w).
Proof.
  unfold IncrementLamport. unfold bind at 1. rewrite get_u64_stored.
  reflexivity.
Qed.

Lemma UpdateLamport_run s observed w :
  UpdateLamport s observed w =
  (Ok (u64 (Z.max (stored_lamport w) observed + 1)),
   with_db (with_meta (insert "lamport"
     (PutUint64 (u64 (Z.max (stored_lamport w) observed + 1))))) w).
Proof.
  unfold UpdateLamport. unfold bind at 1. rewrite get_u64_stored.
  cbv zeta. change (stored_u64 keyLamport w) with (stored_lamport w).
  assert (Hmax : (if observed >? stored_lamport w
                  then u64 (observed + 1) else u64 (stored_lamport w + 1))
                 = u64 (Z.max (stored_lamport w) observed + 1)).
  { destruct (Z.gtb_spec observed (stored_lamport w)); f_equal; lia. }
  rewrite Hmax. reflexivity.
Qed.

Lemma stored_u64_insert k v w :
  stored_u64 k (with_db (with_meta (insert k (PutUint64 v))) w) = u64 v.
Proof.
  unfold stored_u64. destruct w as [[] ? ? ?]; simpl.
  rewrite lookup_insert_eq. apply Uint64_PutUint64.
Qed.

Lemma stored_u64_insert_ne k k' v w :
  k <> k' -> stored_u64 k' (with_db (with_meta (insert k v)) w) = stored_u64 k' w.
Proof.
  intros Hne. unfold stored_u64. destruct w as [[] ? ? ?]; simpl.
  by rewrite lookup_insert_ne.
Qed.

Lemma GetEventHead_stored s d w head :
  GetEventHead s d w = (Ok head, w) -> head = stored_head w d.
Proof.
  unfold GetEventHead, stored_head. munfold.
  destruct (sync_event_heads (db w) !! d); [|by intros [= <-]].
  destruct (negb _); [done|]. by intros [= <-].
Qed.

Lemma stored_head_insert hs d counter hash w :
  sync_event_heads (db w) = <[d := PutUint64 counter ++ fix32 hash]> hs ->
  stored_head w d = {| LastCounter := u64 counter; LastHash := fix32 hash |}.
Proof.
  intros Hh. unfold stored_head. rewrite Hh, lookup_insert_eq.
  destruct (event_head_record counter hash) as (_ & -> & ->). done.
Qed.

(** A getter that reads sync_meta gives the same answer in two worlds
    that agree on the keys it reads. *)
Lemma GetVaultKey_meta s w w' :
  sync_meta (db w') !! keyVaultKeyEnc = sync_meta (db w) !! keyVaultKeyEnc ->
  (GetVaultKey s w').1 = (GetVaultKey s w).1.
Proof.
  intros Hk. unfold GetVaultKey, getVaultKey. munfold.
  destruct (vaultKey s); [|done]. cbn beta iota. rewrite Hk.
  repeat (mcase; cbn beta iota; try done).
Qed.

Lemma run_ro {A} (c : M A) (w : World) (r : result A) (w' : World) :
  (c w).2 = w -> c w = (r, w') -> c w = (r, w) /\ w' = w.
Proof. intros Hro Hrun. rewrite Hrun in Hro. simpl in Hro. by subst. Qed.

Lemma encryptEventPayload_inv e op entry w ct nonce w' :
  encryptEventPayload e op entry w = (Ok (ct, nonce), w') ->
  exists key plaintext,
    GetVaultKey (state e) w = (Ok key, w) /\
    json_Marshal_payload {| Op := op; PEntry := entry |} = Some plaintext /\
    nonce = fixN 24 (rand_source (rand_reads w)) /\
    ct = xchacha_Seal
           (fix32 (hkdf_sha256 key (bytes_of_string (epoch_info (stored_epoch w)))))
           nonce plaintext /\
    w' = {| db := db w; relay_events := relay_events w;
            relay_member_events := relay_member_events w;
            rand_reads := S (rand_reads w) |}.
Proof.
  intros Hrun. unfold encryptEventPayload in Hrun.
  minv Hrun. apply (run_ro _ _ _ _ (GetVaultKey_ro _ _)) in Hc as [Hkey ->].
  minv Hrun. unfold GetKeyEpoch in Hc. rewrite get_u64_stored in Hc.
  injection Hc as <- <-.
  minv Hrun. unfold deriveEventKey in Hc. apply lift_inv in Hc as [[= ->] ->].
  destruct (json_Marshal_payload _) as [plaintext|] eqn:Hjson; [|discriminate Hrun].
  minv Hrun. unfold rand_Read in Hc. injection Hc as <- <-.
  minv Hrun. rewrite NewX_fix32 in Hc. apply lift_inv in Hc as [[= ->] ->].
  unfold ret in Hrun. injection Hrun as <- <- <-.
  exists a, plaintext. by rewrite Hkey.
Qed.

End Effects.
Section Push.
Context `{Externals}.

(** Every run of [PushEntry] that gets as far as the POST. *)
Lemma PushEntry_inv e entry op w r w' :
  PushEntry e entry op w = (r, w') ->
  r = Ok tt \/ (exists err, r = Err (ErrWrap "failed to push event" err)) ->
  exists keys vaultID key plaintext signBytes,
    let ciphertext :=
      xchacha_Seal
        (fix32 (hkdf_sha256 key (bytes_of_string (epoch_info (stored_epoch w)))))
        (fixN 24 (rand_source (rand_reads w))) plaintext in
    let event := pushed_event keys vaultID w ciphertext signBytes in
    valid_op op = true /\
    GetDeviceKeys (state e) w = (Ok keys, w) /\
    GetVaultID (state e) w = (Ok vaultID, w) /\
    GetVaultKey (state e) w = (Ok key, w) /\
    json_Marshal_payload {| Op := op; PEntry := entry |} = Some plaintext /\
    event_sign_bytes event = Ok signBytes /\
    match relay_PushEvent (client e) (relay_events w) vaultID event with
    | Some err => r = Err (ErrWrap "failed to push event" err) /\ w' = before_post w
    | None => r = Ok tt /\ w' = after_push w entry op event signBytes
    end.
Proof.
  intros Hrun Hr. unfold PushEntry in Hrun.
  destruct (valid_op op) eqn:Hop; cbn [negb] in Hrun;
    [|unfold fail in Hrun; destruct Hr as [->|[err ->]]; discriminate Hrun].
  assert (Hne : forall A (c : M A) w0 w1 e0 msg,
            msg <> "failed to push event" ->
            wrap msg c w0 = (Err e0, w1) -> (Err e0 : result unit) = r -> False).
  { intros A c w0 w1 e0 msg Hmsg Hw <-. apply wrap_Err_inv in Hw as (e1 & -> & _).
    destruct Hr as [?|[err [= ? ?]]]; congruence. }
  apply bind_inv in Hrun as [(keys & w1 & Hc & Hrun) | (e0 & Hc & Hrun)];
    [|exfalso; eapply Hne; [|exact Hc|by symmetry]; done].
  apply wrap_Ok_inv, (run_ro _ _ _ _ (GetDeviceKeys_ro _ _)) in Hc as [Hkeys ->].
  apply bind_inv in Hrun as [(vaultID & w1 & Hc & Hrun) | (e0 & Hc & Hrun)];
    [|exfalso; eapply Hne; [|exact Hc|by symmetry]; done].
  apply wrap_Ok_inv, (run_ro _ _ _ _ (GetVaultID_ro _ _)) in Hc as [Hvid ->].
  apply bind_inv in Hrun as [(keyEpoch & w1 & Hc & Hrun) | (e0 & Hc & Hrun)];
    [|exfalso; eapply Hne; [|exact Hc|by symmetry]; done].
  apply wrap_Ok_inv in Hc. unfold GetKeyEpoch in Hc. rewrite get_u64_stored in Hc.
  injection Hc as <- <-.
  apply bind_inv in Hrun as [(head & w1 & Hc & Hrun) | (e0 & Hc & Hrun)];
    [|exfalso; eapply Hne; [|exact Hc|by symmetry]; done].
  apply wrap_Ok_inv, (run_ro _ _ _ _ (GetEventHead_ro _ _ _)) in Hc as [Hhead ->].
  apply GetEventHead_stored in Hhead. subst head.
  apply bind_inv in Hrun as [(lamport & w1 & Hc & Hrun) | (e0 & Hc & Hrun)];
    [|exfalso; eapply Hne; [|exact Hc|by symmetry]; done].
  apply wrap_Ok_inv in Hc. rewrite IncrementLamport_run in Hc. injection Hc as <- <-.
  apply bind_inv in Hrun as [([ciphertext nonce] & w2 & Hc & Hrun) | (e0 & Hc & Hrun)];
    [|exfalso; eapply Hne; [|exact Hc|by symmetry]; done].
  apply wrap_Ok_inv, encryptEventPayload_inv in Hc
    as (key & plaintext & Hkey & Hjson & -> & -> & ->).
  cbn [rand_reads with_db] in Hrun |- *.
  apply bind_inv in Hrun as [(eventID & w3 & Hc & Hrun) | (e0 & Hc & Hrun)];
    [|discriminate Hc].
  unfold NewUUID, rand_Read in Hc. injection Hc as <- <-.
  apply bind_inv in Hrun as [(deviceIDBytes & w4 & Hc & Hrun) | (e0 & Hc & Hrun)];
    [|exfalso; eapply Hne; [|exact Hc|by symmetry]; done].
  apply wrap_Ok_inv, lift_inv in Hc as [Hid ->].
  apply bind_inv in Hrun as [(signBytes & w4 & Hc & Hrun) | (e0 & Hc & Hrun)];
    [|exfalso; eapply Hne; [|exact Hc|by symmetry]; done].
  apply wrap_Ok_inv, lift_inv in Hc as [Hsb ->].
  assert (Hkey0 : GetVaultKey (state e) w = (Ok key, w)).
  { pose proof (GetVaultKey_meta (state e) w
                  (with_db (with_meta (insert "lamport"
                     (PutUint64 (u64 (stored_lamport w + 1))))) w)) as Hm.
    rewrite Hkey in Hm. pose proof (GetVaultKey_ro (state e) w) as Hro.
    destruct (GetVaultKey (state e) w) as [r0 w0]. simpl in *. subst w0.
    rewrite <- Hm; [done|]. destruct w as [[] ? ? ?]; simpl.
    by rewrite lookup_insert_ne. }
  assert (Hep : stored_epoch (with_db (with_meta (insert "lamport"
                   (PutUint64 (u64 (stored_lamport w + 1))))) w) = stored_epoch w).
  { by apply stored_u64_insert_ne. }
  rewrite Hep in *.
  exists keys, vaultID, key, plaintext, signBytes. cbv zeta.
  split_and!; try done.
  - unfold event_sign_bytes, pushed_event. cbn. rewrite <- Hid.
    rewrite u64_idemp, u64_idemp, (u64_small (stored_epoch w)) by apply stored_u64_range.
    by symmetry.
  - unfold bind at 1 in Hrun. unfold wrap, PushEvent in Hrun.
    cbn [relay_events with_db] in Hrun.
    fold (pushed_event keys vaultID w
            (xchacha_Seal
               (fix32 (hkdf_sha256 key (bytes_of_string (epoch_info (stored_epoch w)))))
               (fixN 24 (rand_source (rand_reads w))) plaintext) signBytes) in Hrun.
    destruct (relay_PushEvent _ _ _ _) as [err|].
    + injection Hrun as <- <-. split; [done|].
      unfold before_post. by destruct w as [[] ? ? ?].
    + unfold bind, wrap, SetEventHead, modify in Hrun. cbn in Hrun.
      unfold after_push, before_post, pushed_event.
      destruct (String.eqb op "upsert"); unfold ignore_err in Hrun;
        injection Hrun as <- <-; (split; [done|]); by destruct w as [[] ? ? ?].
Qed.

End Push.
Section PushOutcome.
Context `{Externals}.

Lemma stored_lamport_before_post w :
  stored_lamport (before_post w) = u64 (stored_lamport w + 1).
Proof.
  unfold stored_lamport, stored_u64, before_post. destruct w as [[] ? ? ?]; simpl.
  rewrite lookup_insert_eq, Uint64_PutUint64. apply u64_idemp.
Qed.

(** C10. A call of [PushEntry] that returns the error of the POST
    ("failed to push event" around what the relay answered) leaves the
    event heads and the entry_scheme records as they were, and the relay
    holds no new event; the Lamport clock, however, reads one more than
    before (in 64-bit arithmetic): the increment is not undone. *)
Theorem failed_post_keeps_head_and_scheme (e : Engine) (entry : Entry) (op : string)
    (w w' : World) (err : error) :
  PushEntry e entry op w = (Err (ErrWrap "failed to push event" err), w') ->
  (exists vaultID event,
     relay_PushEvent (client e) (relay_events w) vaultID event = Some err) /\
  sync_event_heads (db w') = sync_event_heads (db w) /\
  (forall deviceID, stored_head w' deviceID = stored_head w deviceID) /\
  entry_scheme (db w') = entry_scheme (db w) /\
  relay_events w' = relay_events w /\
  stored_lamport w' = u64 (stored_lamport w + 1) /\
  (GetLamport (state e) w').1 = Ok (u64 (stored_lamport w + 1)).
Proof.
  intros Hrun.
  destruct (PushEntry_inv _ _ _ _ _ _ Hrun) as
      (keys & vaultID & key & plaintext & signBytes & Hfacts); [right; by eexists|].
  cbv zeta in Hfacts. destruct Hfacts as (_ & _ & _ & _ & _ & _ & Hpost).
  destruct (relay_PushEvent _ _ _ _) as [err'|] eqn:Hrelay;
    destruct Hpost as [Hr ->]; [|discriminate Hr].
  injection Hr as ->.
  split; [by eexists _, _|].
  assert (Hheads : sync_event_heads (db (before_post w)) = sync_event_heads (db w))
    by (by destruct w as [[] ? ? ?]).
  split_and!.
  - done.
  - intros d. unfold stored_head. by rewrite Hheads.
  - by destruct w as [[] ? ? ?].
  - done.
  - apply stored_lamport_before_post.
  - unfold GetLamport. rewrite get_u64_stored. cbn [fst].
    f_equal. apply stored_lamport_before_post.
Qed.

End PushOutcome.

Lemma failed_post_witness :
  let e := Fixture.engine Fixture.unreachable in
  let w := Fixture.world_of Fixture.dev_a [Fixture.dev_a] in
  let entry := Fixture.entry "e1" "ex.com" in
  exists w',
    PushEntry (H := Fixture.externals) e entry "upsert" w
    = (Err (ErrWrap "failed to push event"
              (ErrNew "request failed: connection refused")), w') /\
    stored_lamport w = 0 /\ stored_lamport w' = 1 /\
    sync_event_heads (db w') = sync_event_heads (db w).
Proof.
  intros e w entry.
  exists (PushEntry (H := Fixture.externals) e entry "upsert" w).2.
  assert (Hrun : PushEntry (H := Fixture.externals) e entry "upsert" w
                 = (Err (ErrWrap "failed to push event"
                           (ErrNew "request failed: connection refused")),
                    (PushEntry (H := Fixture.externals) e entry "upsert" w).2))
    by (vm_compute; reflexivity).
  destruct (@failed_post_keeps_head_and_scheme Fixture.externals e entry "upsert" w _ _ Hrun)
    as (_ & Hheads & _ & _ & _ & Hlamport & _).
  split; [exact Hrun|]. split; [vm_compute; reflexivity|].
  split; [exact Hlamport | exact Hheads].
Defined.
Section Chain.
Context `{Externals}.

Lemma fix32_Sum256 b : fix32 (Sum256 b) = Sum256 b.
Proof. apply fixN_id, length_Sum256. Qed.

Lemma meta_after_push w entry op event signBytes k :
  k <> "lamport" ->
  sync_meta (db (after_push w entry op event signBytes)) !! k = sync_meta (db w) !! k.
Proof.
  intros Hk. destruct w as [[] ? ? ?]; simpl. by rewrite lookup_insert_ne.
Qed.

Lemma GetDeviceKeys_after_push e keys w entry op event signBytes :
  GetDeviceKeys (state e) w = (Ok keys, w) ->
  GetDeviceKeys (state e) (after_push w entry op event signBytes)
  = (Ok keys, after_push w entry op event signBytes).
Proof.
  intros Hkeys.
  pose proof (GetDeviceKeys_meta (state e) w (after_push w entry op event signBytes)) as Hm.
  pose proof (GetDeviceKeys_ro (state e) (after_push w entry op event signBytes)) as Hro.
  rewrite Hkeys in Hm.
  destruct (GetDeviceKeys (state e) (after_push w entry op event signBytes)) as [r w1].
  cbn [fst snd] in *. subst w1. rewrite Hm; [done|].
  intros k Hk. apply meta_after_push. unfold identity_keys in Hk.
  intros ->. set_solver.
Qed.

(** One successful push, seen from the chain. *)
Lemma push_extends_chain e keys entry op w w' :
  GetDeviceKeys (state e) w = (Ok keys, w) ->
  PushEntry e entry op w = (Ok tt, w') ->
  exists event signBytes,
    relay_events w' = relay_events w ++ [event] /\
    ev_DeviceID event = dk_DeviceID keys /\
    Counter event = u64 (LastCounter (stored_head w (dk_DeviceID keys)) + 1) /\
    PrevHash event = LastHash (stored_head w (dk_DeviceID keys)) /\
    event_sign_bytes event = Ok signBytes /\
    stored_head w' (dk_DeviceID keys)
    = {| LastCounter := Counter event; LastHash := Sum256 signBytes |} /\
    GetDeviceKeys (state e) w' = (Ok keys, w').
Proof.
  intros Hkeys Hrun.
  destruct (PushEntry_inv _ _ _ _ _ _ Hrun) as
      (keys' & vaultID & key & plaintext & signBytes & Hfacts); [by left|].
  cbv zeta in Hfacts. destruct Hfacts as (_ & Hkeys' & _ & _ & _ & Hsb & Hpost).
  rewrite Hkeys in Hkeys'. injection Hkeys' as <-.
  destruct (relay_PushEvent _ _ _ _) as [err'|] eqn:Hrelay;
    destruct Hpost as [Hr ->]; [discriminate Hr|].
  eexists _, signBytes. split_and!; try done.
  - rewrite (stored_head_insert (sync_event_heads (db w)) (dk_DeviceID keys)
               (u64 (LastCounter (stored_head w (dk_DeviceID keys)) + 1))
               (Sum256 signBytes))
      by (by destruct w as [[] ? ? ?]).
    rewrite fix32_Sum256. f_equal. cbn [Counter pushed_event]. apply u64_idemp.
  - by apply GetDeviceKeys_after_push.
Qed.

Lemma push_all_chain e keys l w w' :
  GetDeviceKeys (state e) w = (Ok keys, w) ->
  push_all e l w = (Ok tt, w') ->
  exists events,
    relay_events w' = relay_events w ++ events /\
    length events = length l /\
    Forall (fun event => ev_DeviceID event = dk_DeviceID keys) events /\
    chain_from (LastCounter (stored_head w (dk_DeviceID keys)))
               (LastHash (stored_head w (dk_DeviceID keys))) events /\
    stored_head w' (dk_DeviceID keys)
    = (let (c, h) := chain_head (LastCounter (stored_head w (dk_DeviceID keys)))
                                (LastHash (stored_head w (dk_DeviceID keys))) events in
       {| LastCounter := c; LastHash := h |}).
Proof.
  revert w. induction l as [|[entry op] l IH]; intros w Hkeys Hrun.
  - injection Hrun as <-. exists []. rewrite app_nil_r. split_and!; try done.
    simpl. by destruct (stored_head w (dk_DeviceID keys)).
  - cbn [push_all] in Hrun.
    apply bind_inv in Hrun as [([] & w1 & Hpush & Hrun) | (e0 & _ & [=])].
    destruct (push_extends_chain _ _ _ _ _ _ Hkeys Hpush)
      as (event & signBytes & Hev & Hid & Hc & Hp & Hsb & Hhead & Hkeys1).
    destruct (IH w1 Hkeys1 Hrun) as (events & Hevs & Hlen & Hids & Hchain & Hfinal).
    rewrite Hhead in Hchain, Hfinal. cbn [LastCounter LastHash] in Hchain, Hfinal.
    exists (event :: events). split_and!.
    + by rewrite Hevs, Hev, <- app_assoc.
    + simpl. by rewrite Hlen.
    + by constructor.
    + cbn [chain_from]. split_and!; try done. by exists signBytes.
    + cbn [chain_head]. by rewrite Hsb.
Qed.

(** C3. Let a device hold its keys.  A successful [PushEntry] appends
    to the relay one event of that device whose counter is the stored
    head's counter plus one (64-bit addition) and whose prev_hash is the
    stored head's hash: counter 1 and thirty-two zero bytes when no head
    is stored yet; afterwards the stored head is (counter, SHA-256 of
    the event's signed bytes).  Hence the events of any sequence of
    successful pushes form a chain: each counter is the previous counter
    plus one, each prev_hash is the SHA-256 of the signed bytes of the
    event before, and the stored head is the head of that chain. *)
Theorem pushes_form_a_hash_chain (e : Engine) (keys : DeviceKeys) (w : World) :
  GetDeviceKeys (state e) w = (Ok keys, w) ->
  let id := dk_DeviceID keys in
  let head := stored_head w id in
  (forall entry op w',
     PushEntry e entry op w = (Ok tt, w') ->
     exists event signBytes,
       relay_events w' = relay_events w ++ [event] /\
       ev_DeviceID event = id /\
       Counter event = u64 (LastCounter head + 1) /\
       PrevHash event = LastHash head /\
       (sync_event_heads (db w) !! id = None ->
        Counter event = 1 /\ PrevHash event = zero_bytes 32) /\
       event_sign_bytes event = Ok signBytes /\
       stored_head w' id
       = {| LastCounter := Counter event; LastHash := Sum256 signBytes |}) /\
  (forall l w',
     push_all e l w = (Ok tt, w') ->
     exists events,
       relay_events w' = relay_events w ++ events /\
       length events = length l /\
       Forall (fun event => ev_DeviceID event = id) events /\
       chain_from (LastCounter head) (LastHash head) events /\
       stored_head w' id
       = (let (c, h) := chain_head (LastCounter head) (LastHash head) events in
          {| LastCounter := c; LastHash := h |})).
Proof.
  intros Hkeys id head. split.
  - intros entry op w' Hrun.
    destruct (push_extends_chain _ _ _ _ _ _ Hkeys Hrun)
      as (event & signBytes & Hev & Hid & Hc & Hp & Hsb & Hhead & _).
    exists event, signBytes. split_and!; try done.
    intros Hnone. rewrite Hc, Hp. unfold stored_head.
    fold id. rewrite Hnone. split; reflexivity.
  - intros l w' Hrun. exact (push_all_chain e keys l w w' Hkeys Hrun).
Qed.

End Chain.

Lemma pushes_form_a_hash_chain_witness :
  let e := Fixture.engine (Fixture.healthy []) in
  let w := Fixture.world_of Fixture.dev_a [Fixture.dev_a] in
  let l := [(Fixture.entry "e1" "ex.com", "upsert");
            (Fixture.entry "e2" "ex.org", "upsert");
            (Fixture.entry "e1" "ex.com", "delete")] in
  exists w' events,
    push_all (H := Fixture.externals) e l w = (Ok tt, w') /\
    relay_events w' = events /\
    map Counter events = [1; 2; 3] /\
    chain_from (H := Fixture.externals) 0 (zero_bytes 32) events /\
    LastCounter (stored_head w' "aaaa") = 3.
Proof.
  intros e w l.
  assert (Hkeys : GetDeviceKeys (H := Fixture.externals) (state e) w
                  = (Ok Fixture.dev_a, w)) by (vm_compute; reflexivity).
  assert (Hrun : push_all (H := Fixture.externals) e l w
                 = (Ok tt, (push_all (H := Fixture.externals) e l w).2))
    by (vm_compute; reflexivity).
  destruct (@pushes_form_a_hash_chain Fixture.externals e Fixture.dev_a w Hkeys)
    as [_ Hseq].
  destruct (Hseq l _ Hrun) as (events & Hevs & _ & _ & Hchain & _).
  exists (push_all (H := Fixture.externals) e l w).2, events.
  split; [exact Hrun|]. split; [exact Hevs|].
  assert (Hlist : events = relay_events (push_all (H := Fixture.externals) e l w).2).
  { rewrite Hevs. reflexivity. }
  split; [rewrite Hlist; vm_compute; reflexivity|].
  split; [exact Hchain | vm_compute; reflexivity].
Defined.
(** ** The merge loop *)

Section MergeLoop.
Context `{Externals}.

Lemma same_but_scheme_refl w : same_but_scheme w w.
Proof. by repeat split. Qed.

Lemma same_but_scheme_trans w w1 w2 :
  same_but_scheme w w1 -> same_but_scheme w1 w2 -> same_but_scheme w w2.
Proof.
  unfold same_but_scheme. intros (?&?&?&?&?&?&?) (?&?&?&?&?&?&?).
  split_and!; congruence.
Qed.

Lemma same_but_scheme_set f w :
  same_but_scheme w (with_db (with_entry_scheme f) w).
Proof. destruct w as [[] ? ? ?]. by repeat split. Qed.

Lemma merge_event_run e acc op entry scheme l d w :
  exists w1,
    merge_event e acc op entry scheme l d w = (Ok (merged acc op entry l d), w1) /\
    same_but_scheme w w1.
Proof.
  unfold merge_event, merged.
  destruct (String.eqb op "delete").
  - destruct (wins _ _ _ _).
    + eexists. split; [reflexivity|]. apply same_but_scheme_set.
    + eexists. split; [reflexivity|]. apply same_but_scheme_refl.
  - destruct (String.eqb op "upsert"); [|eexists; split; [reflexivity|];
                                          apply same_but_scheme_refl].
    destruct (wins _ _ _ _); [|eexists; split; [reflexivity|];
                                 apply same_but_scheme_refl].
    destruct (negb _).
    + eexists. split; [reflexivity|]. apply same_but_scheme_set.
    + eexists. split; [reflexivity|]. apply same_but_scheme_refl.
Qed.

Lemma GetVerifiedMember_members s d w w1 :
  sync_members (db w1) = sync_members (db w) ->
  (GetVerifiedMember s d w1).1 = (GetVerifiedMember s d w).1.
Proof.
  intros Hm. unfold GetVerifiedMember. munfold. rewrite Hm.
  repeat (mcase; cbn beta iota; try done).
Qed.

Lemma decryptEventPayload_meta e ct nonce epoch w w1 :
  sync_meta (db w1) = sync_meta (db w) ->
  (decryptEventPayload e ct nonce epoch w1).1 = (decryptEventPayload e ct nonce epoch w).1.
Proof.
  intros Hm. unfold decryptEventPayload. munfold.
  pose proof (GetVaultKey_meta (state e) w w1) as Hk. rewrite Hm in Hk.
  specialize (Hk eq_refl).
  pose proof (GetVaultKey_ro (state e) w) as Hro.
  pose proof (GetVaultKey_ro (state e) w1) as Hro1.
  destruct (GetVaultKey (state e) w) as [r w0], (GetVaultKey (state e) w1) as [r1 w2].
  cbn [fst snd] in *. subst.
  destruct r as [key|err]; [|done].
  repeat (mcase; cbn beta iota; try done).
Qed.

Lemma open_event_total e event w : exists r, open_event e event w = (Ok r, w).
Proof.
  assert (Hok : exists r, (open_event e event w).1 = Ok r).
  { unfold open_event. munfold. repeat (mcase; cbn beta iota); by eexists. }
  destruct Hok as [r Hr]. exists r.
  pose proof (open_event_ro e event w) as Hro.
  destruct (open_event e event w) as [r0 w1]. cbn in *. by subst.
Qed.

Lemma open_event_opened e event w : open_event e event w = (Ok (opened e w event), w).
Proof.
  unfold opened. destruct (open_event_total e event w) as [r ->]. done.
Qed.

Lemma opened_same e event w w1 :
  same_but_scheme w w1 -> opened e w1 event = opened e w event.
Proof.
  intros (Hmeta & Hmem & _). unfold opened. f_equal.
  unfold open_event. munfold.
  pose proof (GetVerifiedMember_members (state e) (ev_DeviceID event) w w1 Hmem) as Hv.
  pose proof (GetVerifiedMember_ro (state e) (ev_DeviceID event) w) as Hro.
  pose proof (GetVerifiedMember_ro (state e) (ev_DeviceID event) w1) as Hro1.
  destruct (GetVerifiedMember (state e) (ev_DeviceID event) w) as [r w0],
           (GetVerifiedMember (state e) (ev_DeviceID event) w1) as [r1 w2].
  cbn [fst snd] in *. subst.
  destruct r as [m|err]; [|done].
  destruct (DeviceID_Bytes _); [|done].
  destruct (SignBytesEvent _ _ _ _ _ _ _ _ _); [|done].
  destruct (negb _); [done|].
  pose proof (decryptEventPayload_meta e (Ciphertext event) (Nonce event)
                (u64 (KeyEpoch event)) w w1 Hmeta) as Hd.
  pose proof (decryptEventPayload_ro e (Ciphertext event) (Nonce event)
                (u64 (KeyEpoch event)) w) as Hro.
  pose proof (decryptEventPayload_ro e (Ciphertext event) (Nonce event)
                (u64 (KeyEpoch event)) w1) as Hro1.
  destruct (decryptEventPayload _ _ _ _ w) as [r w0],
           (decryptEventPayload _ _ _ _ w1) as [r1 w2].
  cbn [fst snd] in *. subst. by destruct r.
Qed.

Lemma sync_event_run e acc event w :
  exists w1,
    sync_event e acc event w = (Ok (merge_step e w acc event), w1) /\
    same_but_scheme w w1.
Proof.
  unfold sync_event, merge_step. unfold bind at 1.
  rewrite open_event_opened.
  destruct (opened e w event) as [[[op entry] scheme]|].
  - destruct (merge_event_run e acc op entry scheme (u64 (Lamport event))
                (ev_DeviceID event) w) as (w1 & Hrun & Hsame).
    exists w1. split; [|done]. unfold bind. by rewrite Hrun.
  - exists w. split; [done|]. apply same_but_scheme_refl.
Qed.

Lemma merge_step_same e w w1 acc event :
  same_but_scheme w w1 -> merge_step e w1 acc event = merge_step e w acc event.
Proof. intros Hs. unfold merge_step. by rewrite (opened_same _ _ _ _ Hs). Qed.

Lemma fold_events_sync e events acc w :
  exists w1,
    fold_events (sync_event e) acc events w
    = (Ok (fold_left (merge_step e w) events acc), w1) /\
    same_but_scheme w w1.
Proof.
  revert acc w. induction events as [|event events IH]; intros acc w.
  - exists w. split; [done|]. apply same_but_scheme_refl.
  - destruct (sync_event_run e acc event w) as (w1 & Hrun & Hs1).
    destruct (IH (merge_step e w acc event) w1) as (w2 & Hfold & Hs2).
    exists w2. split; [|by eapply same_but_scheme_trans].
    cbn [fold_events fold_left]. unfold bind. rewrite Hrun, Hfold.
    do 2 f_equal. clear Hfold IH Hrun.
    generalize (merge_step e w acc event) as acc0.
    induction events as [|ev evs IHe]; intros acc0; [done|].
    cbn [fold_left]. by rewrite (merge_step_same _ _ _ _ _ Hs1), IHe.
Qed.

End MergeLoop.
Section SyncRun.
Context `{Externals}.

Lemma maxLamport_merged acc op entry l d : maxLamport (merged acc op entry l d) = maxLamport acc.
Proof.
  unfold merged. repeat (mcase; try done).
Qed.

Lemma maxSeq_merged acc op entry l d : maxSeq (merged acc op entry l d) = maxSeq acc.
Proof.
  unfold merged. repeat (mcase; try done).
Qed.

Lemma maxLamport_fold e w events acc :
  maxLamport (fold_left (merge_step e w) events acc)
  = max_lamport_of (maxLamport acc) (filter (fun ev => passes e w ev = true) events).
Proof.
  revert acc. induction events as [|event events IH]; intros acc; [done|].
  cbn [fold_left]. rewrite IH. unfold merge_step, passes at 2.
  rewrite filter_cons. unfold passes.
  destruct (opened e w event) as [[[op entry] scheme]|]; [|done].
  rewrite decide_True by done. unfold max_lamport_of at 2. cbn [fold_left].
  fold (max_lamport_of (Z.max (maxLamport acc) (u64 (Lamport event)))
          (filter (fun ev => match opened e w ev with Some _ => true | None => false end = true)
             events)).
  f_equal. cbn [track_max maxLamport]. rewrite maxLamport_merged.
  destruct (Z.gtb_spec (u64 (Lamport event)) (maxLamport acc)); lia.
Qed.

Lemma max_lamport_of_ge current events : current <= max_lamport_of current events.
Proof.
  revert current. induction events as [|ev events IH]; intros current; [done|].
  cbn [max_lamport_of fold_left]. etransitivity; [|apply IH]. lia.
Qed.

(** A successful [SyncEntries], step by step. *)
Lemma SyncEntries_inv e localEntries w entries w' :
  SyncEntries e localEntries w = (Ok entries, w') ->
  exists vaultID events w1,
    GetVaultID (state e) w = (Ok vaultID, w) /\
    relay_PullEvents (client e) vaultID (stored_cursor w) = Ok events /\
    same_but_scheme w w1 /\
    let acc := fold_left (merge_step e w) events
                 (init_merge localEntries (stored_cursor w) (stored_lamport w)) in
    let w2 := if maxSeq acc >? stored_cursor w
              then with_db (with_meta (insert "sync_cursor" (PutUint64 (maxSeq acc)))) w1
              else w1 in
    entries = (map_to_list (entryMap acc)).*2 /\
    w' = if maxLamport acc >? stored_lamport w
         then with_db (with_meta (insert "lamport"
                (PutUint64 (u64 (Z.max (stored_lamport w2) (maxLamport acc) + 1))))) w2
         else w2.
Proof.
  intros Hrun. unfold SyncEntries in Hrun.
  apply bind_inv in Hrun as [(vaultID & w0 & Hc & Hrun) | (e0 & _ & [=])].
  apply wrap_Ok_inv, (run_ro _ _ _ _ (GetVaultID_ro _ _)) in Hc as [Hvid ->].
  apply bind_inv in Hrun as [(cursor & w0 & Hc & Hrun) | (e0 & _ & [=])].
  apply wrap_Ok_inv in Hc. unfold GetSyncCursor in Hc. rewrite get_u64_stored in Hc.
  injection Hc as <- <-.
  apply bind_inv in Hrun as [(events & w0 & Hc & Hrun) | (e0 & _ & [=])].
  apply wrap_Ok_inv, lift_inv in Hc as [Hpull ->].
  apply bind_inv in Hrun as [(lamport & w0 & Hc & Hrun) | (e0 & _ & [=])].
  apply wrap_Ok_inv in Hc. unfold GetLamport in Hc. rewrite get_u64_stored in Hc.
  injection Hc as <- <-.
  change (stored_u64 keySyncCursor w) with (stored_cursor w) in *.
  change (stored_u64 keyLamport w) with (stored_lamport w) in *.
  apply bind_inv in Hrun as [(acc & w1 & Hfold & Hrun) | (e0 & _ & [=])].
  destruct (fold_events_sync e events
              (init_merge localEntries (stored_cursor w) (stored_lamport w)) w)
    as (w1' & Hfold' & Hsame).
  rewrite Hfold' in Hfold. injection Hfold as <- <-.
  exists vaultID, events, w1'. split_and!; try done.
  cbv zeta.
  set (acc := fold_left (merge_step e w) events
                (init_merge localEntries (stored_cursor w) (stored_lamport w))) in *.
  apply bind_inv in Hrun as [([] & w2 & Hcur & Hrun) | (e0 & Hcur & [=])].
  assert (Hw2 : w2 = if maxSeq acc >? stored_cursor w
                     then with_db (with_meta (insert "sync_cursor" (PutUint64 (maxSeq acc)))) w1'
                     else w1').
  { destruct (maxSeq acc >? stored_cursor w).
    - apply wrap_Ok_inv in Hcur. by injection Hcur as <-.
    - by injection Hcur as <-. }
  rewrite <- Hw2. clear Hcur.
  apply bind_inv in Hrun as [([] & w3 & Hlam & Hrun) | (e0 & Hlam & [=])].
  injection Hrun as <- <-. split; [done|].
  destruct (maxLamport acc >? stored_lamport w).
  - apply bind_inv in Hlam as [(l & w4 & Hlam & Hret) | (e0 & _ & [=])].
    injection Hret as <-. apply wrap_Ok_inv in Hlam.
    rewrite UpdateLamport_run in Hlam. by injection Hlam as _ <-.
  - by injection Hlam as <-.
Qed.

End SyncRun.
Section Clock.
Context `{Externals}.

Lemma stored_lamport_same w w1 :
  same_but_scheme w w1 -> stored_lamport w1 = stored_lamport w.
Proof. intros (Hm & _). unfold stored_lamport, stored_u64. by rewrite Hm. Qed.

(** C6, as the code has it.  [UpdateLamport] stores and returns
    max(current, observed) + 1 in 64-bit arithmetic.  A successful
    [SyncEntries] calls it only when the largest Lamport value among
    the pulled events that were not skipped exceeds the stored clock:
    the clock then becomes that value plus one; otherwise the clock is
    left as it was. *)
Theorem pull_bumps_clock_only_past_local :
  (forall s observed w,
     (UpdateLamport s observed w).1 = Ok (u64 (Z.max (stored_lamport w) observed + 1)) /\
     stored_lamport (UpdateLamport s observed w).2
     = u64 (Z.max (stored_lamport w) observed + 1)) /\
  (forall e localEntries w entries w',
     SyncEntries e localEntries w = (Ok entries, w') ->
     exists vaultID events,
       GetVaultID (state e) w = (Ok vaultID, w) /\
       relay_PullEvents (client e) vaultID (stored_cursor w) = Ok events /\
       let seen := filter (fun event => passes e w event = true) events in
       let m := max_lamport_of (stored_lamport w) seen in
       stored_lamport w' = if m >? stored_lamport w then u64 (m + 1) else stored_lamport w).
Proof.
  split.
  - intros s observed w. rewrite UpdateLamport_run. cbn [fst snd]. split; [done|].
    unfold stored_lamport at 1. rewrite stored_u64_insert. apply u64_idemp.
  - intros e localEntries w entries w' Hrun.
    destruct (SyncEntries_inv _ _ _ _ _ Hrun)
      as (vaultID & events & w1 & Hvid & Hpull & Hsame & Hres).
    cbv zeta in Hres. destruct Hres as [_ ->].
    exists vaultID, events. split_and!; try done. cbv zeta.
    rewrite maxLamport_fold. cbn [init_merge maxLamport].
    set (m := max_lamport_of (stored_lamport w) _).
    set (acc := fold_left _ _ _).
    set (w2 := if maxSeq acc >? stored_cursor w then _ else w1).
    assert (Hw2 : stored_lamport w2 = stored_lamport w).
    { subst w2. destruct (maxSeq acc >? stored_cursor w).
      - unfold stored_lamport. rewrite stored_u64_insert_ne by done.
        by apply stored_lamport_same.
      - by apply stored_lamport_same. }
    destruct (Z.gtb_spec m (stored_lamport w)) as [Hgt|Hle]; [|done].
    unfold stored_lamport at 1. rewrite stored_u64_insert, u64_idemp, Hw2.
    f_equal. lia.
Qed.

End Clock.

Lemma pull_bumps_clock_witness :
  let events := Fixture.events_of Fixture.dev_a
                  [(Fixture.entry "e1" "ex.com", "upsert");
                   (Fixture.entry "e2" "ex.org", "upsert")] in
  let e := Fixture.engine (Fixture.healthy events) in
  let w := Fixture.world_of Fixture.dev_b [Fixture.dev_a; Fixture.dev_b] in
  exists entries w',
    SyncEntries (H := Fixture.externals) e [] w = (Ok entries, w') /\
    stored_lamport w = 0 /\
    map Lamport events = [1; 2] /\
    stored_lamport w' = 3.
Proof.
  intros events e w.
  assert (Hrun : SyncEntries (H := Fixture.externals) e [] w
                 = (Ok (default [] (match (SyncEntries (H := Fixture.externals) e [] w).1 with
                                    | Ok l => Some l | Err _ => None end)),
                    (SyncEntries (H := Fixture.externals) e [] w).2))
    by (vm_compute; reflexivity).
  destruct (@pull_bumps_clock_only_past_local Fixture.externals) as [_ Hpull].
  destruct (Hpull e [] w _ _ Hrun) as (vaultID & evs & _ & Hevs & Hclock).
  eexists _, _. split; [exact Hrun|].
  split; [vm_compute; reflexivity|]. split; [vm_compute; reflexivity|].
  injection Hevs as <-. rewrite Hclock. vm_compute. reflexivity.
Defined.

(** The clock is not bumped by a pull whose events are all behind it:
    the device is at 3, pulls one valid event stamped 1, and stays at 3
    where max(3, 1) + 1 is 4. *)
Lemma pull_behind_clock_leaves_it :
  let events := Fixture.events_of Fixture.dev_a
                  [(Fixture.entry "e1" "ex.com", "upsert")] in
  let e := Fixture.engine (Fixture.healthy events) in
  let w := Fixture.world_after Fixture.dev_b [Fixture.dev_a; Fixture.dev_b]
             [(Fixture.entry "e7" "ex.net", "upsert");
              (Fixture.entry "e8" "ex.net", "upsert");
              (Fixture.entry "e9" "ex.net", "upsert")] in
  let w' := (SyncEntries (H := Fixture.externals) e [] w).2 in
  (exists entries, SyncEntries (H := Fixture.externals) e [] w = (Ok entries, w')) /\
  map (passes (H := Fixture.externals) e w) events = [true] /\
  stored_lamport w = 3 /\
  max_lamport_of (stored_lamport w) events = 3 /\
  stored_lamport w' = 3 /\
  stored_lamport w' <> max_lamport_of (stored_lamport w) events + 1.
Proof.
  intros events e w w'.
  split; [eexists; vm_compute; reflexivity|].
  repeat (split; [vm_compute; reflexivity|]).
  vm_compute. discriminate.
Qed.
(** ** The merge rule *)

Section MergeRule.
Context `{Externals}.

Lemma string_gt_spec a b : string_gt a b = true <-> (a ?= b)%string = Gt.
Proof. unfold string_gt. by destruct (a ?= b)%string. Qed.

Lemma string_gt_asym a b : string_gt a b = true -> string_gt b a = false.
Proof.
  unfold string_gt. rewrite (String.compare_antisym a b).
  by destruct (b ?= a)%string.
Qed.

Lemma string_gt_total a b : a <> b -> string_gt a b = true \/ string_gt b a = true.
Proof.
  intros Hne. unfold string_gt. rewrite (String.compare_antisym a b).
  destruct (b ?= a)%string eqn:E; cbn; auto.
  apply String.compare_eq_iff in E. by subst.
Qed.

Lemma wins_spec acc id l d :
  wins acc id l d = true <->
  entryLamport acc !! id = None \/
  exists l0, entryLamport acc !! id = Some l0 /\
             (l > l0 \/ (l = l0 /\ (d ?= default "" (entryDeviceID acc !! id))%string = Gt)).
Proof.
  unfold wins. destruct (entryLamport acc !! id) as [l0|]; [|naive_solver].
  rewrite orb_true_iff, andb_true_iff, string_gt_spec, Z.gtb_gt, Z.eqb_eq.
  split.
  - intros Hw. right. exists l0. split; [done|]. exact Hw.
  - intros [?|(l1 & [= <-] & Hw)]; [done|]. exact Hw.
Qed.

(** C1, as the code has it.  An event for an entry id passes the test
    of the merge exactly when no event was recorded for the id yet, or
    its lamport is strictly greater than the recorded one, or equal with
    a greater device_id in byte order.  A delete that passes removes the
    id from the map, marks it deleted and records the event's lamport
    and device.  An upsert that passes installs the entry and records
    lamport and device only when the id has not been marked deleted
    earlier in the batch; for an id marked deleted every later upsert is
    ignored, passing or not.  An event that does not pass, or whose op
    is neither, changes nothing.  The store is touched in the
    entry_scheme records only. *)
Theorem merge_rule (e : Engine) (acc : MergeState) (op : string) (entry : Entry)
    (scheme : string) (l : Z) (d : string) (w : World) :
  let id := ID entry in
  (wins acc id l d = true <->
   entryLamport acc !! id = None \/
   exists l0, entryLamport acc !! id = Some l0 /\
              (l > l0 \/ (l = l0 /\ (d ?= default "" (entryDeviceID acc !! id))%string = Gt))) /\
  exists acc' w1,
    merge_event e acc op entry scheme l d w = (Ok acc', w1) /\
    same_but_scheme w w1 /\
    (op = "delete" -> wins acc id l d = true ->
       entryMap acc' = delete id (entryMap acc) /\
       default false (deletedIDs acc' !! id) = true /\
       entryLamport acc' !! id = Some l /\ entryDeviceID acc' !! id = Some d) /\
    (op = "upsert" -> wins acc id l d = true ->
     default false (deletedIDs acc !! id) = false ->
       entryMap acc' = <[id := entry]> (entryMap acc) /\
       deletedIDs acc' = deletedIDs acc /\
       entryLamport acc' !! id = Some l /\ entryDeviceID acc' !! id = Some d) /\
    (op = "upsert" -> default false (deletedIDs acc !! id) = true -> acc' = acc) /\
    (wins acc id l d = false -> acc' = acc) /\
    (op <> "delete" -> op <> "upsert" -> acc' = acc).
Proof.
  intros id. split; [apply wins_spec|].
  destruct (merge_event_run e acc op entry scheme l d w) as (w1 & Hrun & Hsame).
  exists (merged acc op entry l d), w1. split; [done|]. split; [done|].
  unfold merged. fold id. split_and!.
  - intros -> Hw. rewrite Hw. cbn.
    rewrite !lookup_insert_eq. done.
  - intros -> Hw Hd. rewrite Hw, Hd. cbn. fold id.
    rewrite !lookup_insert_eq. done.
  - intros -> Hd. rewrite Hd. cbn. by destruct (wins acc id l d).
  - intros Hw. rewrite Hw. by repeat mcase.
  - intros Hnd Hnu.
    apply String.eqb_neq in Hnd, Hnu. by rewrite Hnd, Hnu.
Qed.

End MergeRule.

Lemma merge_rule_witness :
  let acc := init_merge [] 0 0 in
  let entry := Fixture.entry "e1" "ex.com" in
  let w := Fixture.world_of Fixture.dev_b [Fixture.dev_a; Fixture.dev_b] in
  wins acc "e1" 1 "aaaa" = true /\
  exists acc' w1,
    merge_event (Fixture.engine (Fixture.healthy [])) acc "upsert" entry "v2" 1 "aaaa" w
    = (Ok acc', w1) /\
    entryMap acc' !! "e1" = Some entry.
Proof.
  intros acc entry w.
  destruct (@merge_rule (Fixture.engine (Fixture.healthy [])) acc "upsert" entry "v2"
              1 "aaaa" w) as (_ & acc' & w1 & Hrun & _ & _ & Hupsert & _).
  split; [reflexivity|]. exists acc', w1. split; [exact Hrun|].
  destruct (Hupsert eq_refl eq_refl eq_refl) as (-> & _).
  apply lookup_insert_eq.
Defined.

(** A device pushes an upsert of e1 (lamport 1), its deletion (lamport
    2) and a new upsert (lamport 3).  A second device pulls the three
    events in that order: the last upsert passes the test against the
    record the delete left (3 > 2), and yet e1 is not in the result. *)
Lemma winning_upsert_after_delete_is_dropped :
  let events := Fixture.events_of Fixture.dev_a
                  [(Fixture.entry "e1" "ex.com", "upsert");
                   (Fixture.entry "e1" "ex.com", "delete");
                   (Fixture.entry "e1" "ex.org", "upsert")] in
  let e := Fixture.engine (Fixture.healthy events) in
  let w := Fixture.world_of Fixture.dev_b [Fixture.dev_a; Fixture.dev_b] in
  let acc := fold_left (merge_step (H := Fixture.externals) e w) (take 2 events)
               (init_merge [] 0 0) in
  map (fun ev => (Lamport ev, ev_DeviceID ev)) events
  = [(1, "aaaa"); (2, "aaaa"); (3, "aaaa")] /\
  map (opened (H := Fixture.externals) e w) events
  = [Some ("upsert", Fixture.entry "e1" "ex.com", "v2");
     Some ("delete", Fixture.entry "e1" "ex.com", "v2");
     Some ("upsert", Fixture.entry "e1" "ex.org", "v2")] /\
  entryLamport acc !! "e1" = Some 2 /\
  wins acc "e1" 3 "aaaa" = true /\
  (SyncEntries (H := Fixture.externals) e [] w).1 = Ok [].
Proof.
  intros events e w acc.
  repeat (split; [vm_compute; reflexivity|]).
  vm_compute. reflexivity.
Qed.
(** ** Two events for one entry *)

Section TwoEvents.
Context `{Externals}.

Lemma keyed_insert m entry : keyed m -> keyed (<[ID entry := entry]> m).
Proof.
  intros Hm k en. destruct (decide (ID entry = k)) as [<-|Hne].
  - rewrite lookup_insert_eq. by intros [= <-].
  - rewrite lookup_insert_ne by done. apply Hm.
Qed.

Lemma keyed_delete m k : keyed m -> keyed (delete k m).
Proof.
  intros Hm k' en. destruct (decide (k = k')) as [<-|Hne].
  - by rewrite lookup_delete_eq.
  - rewrite lookup_delete_ne by done. apply Hm.
Qed.

Lemma keyed_init localEntries cursor lamport :
  keyed (entryMap (init_merge localEntries cursor lamport)).
Proof.
  cbn [init_merge entryMap].
  assert (Hgen : forall m, keyed m ->
            keyed (fold_left (fun m entry => <[ID entry := entry]> m) localEntries m)).
  { induction localEntries as [|en l IH]; intros m Hm; [done|].
    cbn [fold_left]. by apply IH, keyed_insert. }
  apply Hgen. intros k en. by rewrite lookup_empty.
Qed.

Lemma keyed_merged acc op entry l d :
  keyed (entryMap acc) -> keyed (entryMap (merged acc op entry l d)).
Proof.
  intros Hk. unfold merged. repeat mcase; try done.
  - by apply keyed_delete.
  - by apply keyed_insert.
Qed.

Lemma keyed_fold e w events acc :
  keyed (entryMap acc) -> keyed (entryMap (fold_left (merge_step e w) events acc)).
Proof.
  revert acc. induction events as [|ev events IH]; intros acc Hk; [done|].
  cbn [fold_left]. apply IH. unfold merge_step.
  destruct (opened e w ev) as [[[op entry] scheme]|]; [|done].
  cbn [track_max entryMap]. by apply keyed_merged.
Qed.

Lemma elem_of_values (m : gmap string Entry) (entry : Entry) :
  entry ∈ (map_to_list m).*2 <-> exists k, m !! k = Some entry.
Proof.
  rewrite list_elem_of_fmap. split.
  - intros [[k x] [-> Hin]]. apply elem_of_map_to_list in Hin. by exists k.
  - intros [k Hk]. exists (k, entry). split; [done|]. by apply elem_of_map_to_list.
Qed.

Lemma values_at_id (m : gmap string Entry) (entry : Entry) (id : string) :
  keyed m ->
  (entry ∈ (map_to_list m).*2 /\ ID entry = id) <-> m !! id = Some entry.
Proof.
  intros Hk. rewrite elem_of_values. split.
  - intros [[k Hin] <-]. by rewrite (Hk _ _ Hin).
  - intros Hin. split; [by exists id | by apply Hk].
Qed.

Lemma stamped_after_total a b :
  (u64 (Lamport a), ev_DeviceID a) <> (u64 (Lamport b), ev_DeviceID b) ->
  stamped_after a b \/ stamped_after b a.
Proof.
  intros Hne. unfold stamped_after.
  destruct (Z.lt_trichotomy (u64 (Lamport a)) (u64 (Lamport b))) as [?|[Heq|?]].
  - right. left. lia.
  - destruct (string_gt_total (ev_DeviceID a) (ev_DeviceID b)) as [?|?].
    + intros Hd. apply Hne. by rewrite Heq, Hd.
    + left. by right.
    + right. right. by split.
  - left. left. lia.
Qed.

Lemma wins_fresh acc id l d : entryLamport acc !! id = None -> wins acc id l d = true.
Proof. intros Hn. unfold wins. by rewrite Hn. Qed.

Lemma wins_recorded acc id l d l0 d0 :
  entryLamport acc !! id = Some l0 -> entryDeviceID acc !! id = Some d0 ->
  wins acc id l d = (l >? l0) || ((l =? l0) && string_gt d d0).
Proof. intros Hl Hd. unfold wins. by rewrite Hl, Hd. Qed.

(** The map entry for [id] after two opened events for it, the first
    one met with no record for [id]. *)
Lemma merge_pair e w acc x y opx enx sx opy eny sy :
  opened e w x = Some (opx, enx, sx) ->
  opened e w y = Some (opy, eny, sy) ->
  ID enx = ID eny ->
  valid_op opx = true -> valid_op opy = true ->
  entryLamport acc !! ID enx = None ->
  default false (deletedIDs acc !! ID enx) = false ->
  let y_wins := (u64 (Lamport y) >? u64 (Lamport x)) ||
                ((u64 (Lamport y) =? u64 (Lamport x)) &&
                 string_gt (ev_DeviceID y) (ev_DeviceID x)) in
  entryMap (fold_left (merge_step e w) [x; y] acc) !! ID enx
  = if String.eqb opx "delete" then None
    else if y_wins then (if String.eqb opy "delete" then None else Some eny)
         else Some enx.
Proof.
  intros Hx Hy Hid Hvx Hvy Hfresh Hdel y_wins. subst y_wins.
  cbn [fold_left]. unfold merge_step. rewrite Hx, Hy.
  cbn [track_max entryMap].
  set (lx := u64 (Lamport x)). set (ly := u64 (Lamport y)).
  set (accx := merged acc opx enx lx (ev_DeviceID x)).
  assert (Hw : forall a s l' id l d, wins (track_max a s l') id l d = wins a id l d)
    by (intros; reflexivity).
  assert (Hm : forall a s l' op en l d,
            entryMap (merged (track_max a s l') op en l d) = entryMap (merged a op en l d)).
  { intros. unfold merged. rewrite !Hw. cbn [track_max deletedIDs].
    repeat mcase; reflexivity. }
  rewrite Hm.
  unfold valid_op in Hvx, Hvy. apply orb_true_iff in Hvx, Hvy.
  assert (Haccx : accx = if String.eqb opx "delete"
                         then merge_delete acc (ID enx) lx (ev_DeviceID x)
                         else merge_upsert acc enx lx (ev_DeviceID x)).
  { subst accx. unfold merged. rewrite (wins_fresh _ _ _ _ Hfresh), Hdel. cbn [negb].
    destruct (String.eqb opx "delete") eqn:E; [done|].
    destruct Hvx as [->|Hvx]; [done|congruence]. }
  clearbody accx. subst accx.
  destruct (String.eqb opx "delete") eqn:Ex.
  - (* x deletes: the id is marked, nothing can bring it back *)
    unfold merged. rewrite Hid.
    rewrite (wins_recorded _ (ID eny) ly (ev_DeviceID y) lx (ev_DeviceID x))
      by (cbn; rewrite <- Hid; apply lookup_insert_eq).
    set (y_wins := (ly >? lx) || ((ly =? lx) && string_gt (ev_DeviceID y) (ev_DeviceID x))).
    clearbody y_wins.
    destruct (String.eqb opy "delete") eqn:Ey.
    + destruct y_wins; cbn; rewrite <- ?Hid, ?lookup_delete_eq; done.
    + destruct Hvy as [Hu|?]; [|congruence]. rewrite Hu.
      cbn [merge_delete deletedIDs]. rewrite <- Hid, lookup_insert_eq. cbn.
      destruct y_wins; cbn; by rewrite lookup_delete_eq.
  - (* x upserts *)
    unfold merged. rewrite Hid.
    rewrite (wins_recorded _ (ID eny) ly (ev_DeviceID y) lx (ev_DeviceID x))
      by (cbn; rewrite <- Hid; apply lookup_insert_eq).
    set (y_wins := (ly >? lx) || ((ly =? lx) && string_gt (ev_DeviceID y) (ev_DeviceID x))).
    clearbody y_wins.
    destruct (String.eqb opy "delete") eqn:Ey.
    + destruct y_wins; cbn; rewrite <- ?Hid, ?lookup_delete_eq, ?lookup_insert_eq; done.
    + destruct Hvy as [Hu|?]; [|congruence]. rewrite Hu.
      cbn [merge_upsert deletedIDs]. rewrite <- Hid, Hdel. cbn [negb].
      destruct y_wins; cbn; rewrite ?Hid, ?lookup_insert_eq; done.
Qed.

End TwoEvents.
Section Convergence.
Context `{Externals}.

Lemma stamped_after_loses hi lo :
  stamped_after hi lo ->
  (u64 (Lamport lo) >? u64 (Lamport hi)) ||
  ((u64 (Lamport lo) =? u64 (Lamport hi)) &&
   string_gt (ev_DeviceID lo) (ev_DeviceID hi)) = false.
Proof.
  intros [Hgt|[Heq Hd]].
  - replace (u64 (Lamport lo) >? u64 (Lamport hi)) with false by (symmetry; lia).
    replace (u64 (Lamport lo) =? u64 (Lamport hi)) with false by (symmetry; lia).
    done.
  - rewrite Heq, Z.eqb_refl, (string_gt_asym _ _ Hd).
    replace (u64 (Lamport lo) >? u64 (Lamport lo)) with false by (symmetry; lia).
    done.
Qed.

Lemma stamped_after_wins hi lo :
  stamped_after hi lo ->
  (u64 (Lamport hi) >? u64 (Lamport lo)) ||
  ((u64 (Lamport hi) =? u64 (Lamport lo)) &&
   string_gt (ev_DeviceID hi) (ev_DeviceID lo)) = true.
Proof.
  intros [Hgt|[Heq Hd]].
  - replace (u64 (Lamport hi) >? u64 (Lamport lo)) with true by (symmetry; lia). done.
  - rewrite Heq, Z.eqb_refl, Hd. apply orb_true_r.
Qed.

(** The entries [SyncEntries] returns, from the relay's answer. *)
Lemma SyncEntries_result e localEntries w entries w' vaultID events :
  SyncEntries e localEntries w = (Ok entries, w') ->
  GetVaultID (state e) w = (Ok vaultID, w) ->
  relay_PullEvents (client e) vaultID (stored_cursor w) = Ok events ->
  let acc := fold_left (merge_step e w) events
               (init_merge localEntries (stored_cursor w) (stored_lamport w)) in
  keyed (entryMap acc) /\ entries = (map_to_list (entryMap acc)).*2.
Proof.
  intros Hrun Hvid Hpull.
  destruct (SyncEntries_inv _ _ _ _ _ Hrun)
    as (vaultID' & events' & w1 & Hvid' & Hpull' & _ & Hres).
  rewrite Hvid in Hvid'. injection Hvid' as <-.
  rewrite Hpull in Hpull'. injection Hpull' as <-.
  cbv zeta in Hres |- *. destruct Hres as [-> _].
  split; [|done]. apply keyed_fold, keyed_init.
Qed.

(** C2, as the code has it.  Two events with different (lamport,
    device_id) stamps are ordered by them.  Let [hi] and [lo] be
    verified, decryptable upserts or deletes of one entry id, [hi]
    stamped after [lo], and let them be the pulled batch.  When [hi]
    comes first, or when it comes second and is not an upsert that
    follows a delete, the result of [SyncEntries] holds for that id
    what [hi] says: its entry for an upsert, nothing for a delete.  When
    the delete [lo] comes first and the upsert [hi] second, the result
    holds nothing for the id. *)
Theorem two_events_one_entry :
  (forall a b,
     (u64 (Lamport a), ev_DeviceID a) <> (u64 (Lamport b), ev_DeviceID b) ->
     stamped_after a b \/ stamped_after b a) /\
  (forall e w localEntries hi lo ophi enhi shi oplo enlo slo
          vaultID events entries w',
     opened e w hi = Some (ophi, enhi, shi) ->
     opened e w lo = Some (oplo, enlo, slo) ->
     ID enhi = ID enlo ->
     valid_op ophi = true -> valid_op oplo = true ->
     stamped_after hi lo ->
     GetVaultID (state e) w = (Ok vaultID, w) ->
     relay_PullEvents (client e) vaultID (stored_cursor w) = Ok events ->
     SyncEntries e localEntries w = (Ok entries, w') ->
     let winner := if String.eqb ophi "upsert" then Some enhi else None in
     (events = [hi; lo] ->
      forall entry, entry ∈ entries /\ ID entry = ID enhi <-> winner = Some entry) /\
     (events = [lo; hi] -> ~ (ophi = "upsert" /\ oplo = "delete") ->
      forall entry, entry ∈ entries /\ ID entry = ID enhi <-> winner = Some entry) /\
     (events = [lo; hi] -> ophi = "upsert" -> oplo = "delete" ->
      forall entry, entry ∈ entries -> ID entry <> ID enhi)).
Proof.
  split; [apply stamped_after_total|].
  intros e w localEntries hi lo ophi enhi shi oplo enlo slo vaultID events entries w'
         Hhi Hlo Hid Hvhi Hvlo Hafter Hvid Hpull Hrun winner.
  destruct (SyncEntries_result _ _ _ _ _ _ _ Hrun Hvid Hpull) as [Hkeyed ->].
  set (acc0 := init_merge localEntries (stored_cursor w) (stored_lamport w)) in *.
  assert (Hfresh : forall id, entryLamport acc0 !! id = None)
    by (intros; apply lookup_empty).
  assert (Hdel : forall id, default false (deletedIDs acc0 !! id) = false)
    by (intros; cbn; by rewrite lookup_empty).
  pose proof (merge_pair e w acc0 hi lo ophi enhi shi oplo enlo slo
                Hhi Hlo Hid Hvhi Hvlo (Hfresh _) (Hdel _)) as Hfirst.
  pose proof (merge_pair e w acc0 lo hi oplo enlo slo ophi enhi shi
                Hlo Hhi (eq_sym Hid) Hvlo Hvhi (Hfresh _) (Hdel _)) as Hsecond.
  cbv zeta in Hfirst, Hsecond.
  rewrite (stamped_after_loses _ _ Hafter) in Hfirst.
  rewrite (stamped_after_wins _ _ Hafter), <- Hid in Hsecond.
  assert (Hops : forall op, valid_op op = true ->
            (String.eqb op "upsert" = true /\ String.eqb op "delete" = false /\ op = "upsert") \/
            (String.eqb op "upsert" = false /\ String.eqb op "delete" = true /\ op = "delete")).
  { intros op Hv. unfold valid_op in Hv.
    destruct (String.eqb op "upsert") eqn:Eu.
    - apply String.eqb_eq in Eu. subst op. left. by repeat split.
    - destruct (String.eqb op "delete") eqn:Ed; [|done].
      apply String.eqb_eq in Ed. subst op. right. by repeat split. }
  split_and!.
  - intros -> entry. rewrite (values_at_id _ _ _ Hkeyed), Hfirst.
    subst winner. destruct (Hops _ Hvhi) as [(-> & -> & _)|(-> & -> & _)]; done.
  - intros -> Hnot entry. rewrite (values_at_id _ _ _ Hkeyed), Hsecond.
    subst winner.
    destruct (Hops _ Hvhi) as [(-> & -> & ->)|(-> & -> & ->)],
             (Hops _ Hvlo) as [(Eu & -> & ->)|(Eu & -> & ->)]; try done.
    exfalso. by apply Hnot.
  - intros -> -> -> entry Hin Hentry.
    assert (Hat : entryMap (fold_left (merge_step e w) [lo; hi] acc0) !! ID enhi
                  = Some entry) by (by apply values_at_id).
    rewrite Hsecond in Hat. done.
Qed.

End Convergence.

Lemma two_events_one_entry_witness :
  let events := Fixture.events_of Fixture.dev_a
                  [(Fixture.entry "e1" "ex.com", "upsert");
                   (Fixture.entry "e1" "ex.org", "upsert")] in
  let lo := Fixture.event_at 0 events in
  let hi := Fixture.event_at 1 events in
  let w := Fixture.world_of Fixture.dev_b [Fixture.dev_a; Fixture.dev_b] in
  stamped_after hi lo /\
  (forall entries w',
     SyncEntries (H := Fixture.externals) (Fixture.engine (Fixture.healthy [hi; lo])) [] w
     = (Ok entries, w') ->
     Fixture.entry "e1" "ex.org" ∈ entries) /\
  (forall entries w',
     SyncEntries (H := Fixture.externals) (Fixture.engine (Fixture.healthy [lo; hi])) [] w
     = (Ok entries, w') ->
     Fixture.entry "e1" "ex.org" ∈ entries).
Proof.
  intros events lo hi w.
  assert (Hafter : stamped_after hi lo) by (left; vm_compute; reflexivity).
  assert (Hhi : forall c, opened (H := Fixture.externals) (Fixture.engine c) w hi
                = Some ("upsert", Fixture.entry "e1" "ex.org", "v2"))
    by (intros c; vm_compute; reflexivity).
  assert (Hlo : forall c, opened (H := Fixture.externals) (Fixture.engine c) w lo
                = Some ("upsert", Fixture.entry "e1" "ex.com", "v2"))
    by (intros c; vm_compute; reflexivity).
  assert (Hvid : forall c, GetVaultID (state (Fixture.engine c)) w
                 = (Ok Fixture.the_vault_id, w))
    by (intros c; vm_compute; reflexivity).
  destruct (@two_events_one_entry Fixture.externals) as [_ Hpair].
  split; [exact Hafter|]. split.
  - intros entries w' Hrun.
    destruct (Hpair (Fixture.engine (Fixture.healthy [hi; lo])) w [] hi lo
                "upsert" (Fixture.entry "e1" "ex.org") "v2"
                "upsert" (Fixture.entry "e1" "ex.com") "v2"
                Fixture.the_vault_id [hi; lo] entries w'
                (Hhi _) (Hlo _) eq_refl eq_refl eq_refl Hafter (Hvid _) eq_refl Hrun)
      as (Hfirst & _).
    apply (Hfirst eq_refl (Fixture.entry "e1" "ex.org")). reflexivity.
  - intros entries w' Hrun.
    destruct (Hpair (Fixture.engine (Fixture.healthy [lo; hi])) w [] hi lo
                "upsert" (Fixture.entry "e1" "ex.org") "v2"
                "upsert" (Fixture.entry "e1" "ex.com") "v2"
                Fixture.the_vault_id [lo; hi] entries w'
                (Hhi _) (Hlo _) eq_refl eq_refl eq_refl Hafter (Hvid _) eq_refl Hrun)
      as (_ & Hsecond & _).
    apply (Hsecond eq_refl); [|reflexivity]. intros [_ [=]].
Defined.

(** One device deletes e1 (lamport 1) and then upserts it (lamport 2).
    Both events are verified and decrypt.  Pulled in the order delete,
    upsert the result is empty; pulled in the order upsert, delete the
    result holds the upserted entry. *)
Lemma delete_then_later_upsert_depends_on_order :
  let events := Fixture.events_of Fixture.dev_a
                  [(Fixture.entry "e1" "ex.com", "delete");
                   (Fixture.entry "e1" "ex.com", "upsert")] in
  let a := Fixture.event_at 0 events in
  let b := Fixture.event_at 1 events in
  let w := Fixture.world_of Fixture.dev_b [Fixture.dev_a; Fixture.dev_b] in
  let run batch :=
    (SyncEntries (H := Fixture.externals) (Fixture.engine (Fixture.healthy batch)) [] w).1 in
  (Lamport a, ev_DeviceID a) = (1, "aaaa") /\
  (Lamport b, ev_DeviceID b) = (2, "aaaa") /\
  opened (H := Fixture.externals) (Fixture.engine (Fixture.healthy [])) w a
  = Some ("delete", Fixture.entry "e1" "ex.com", "v2") /\
  opened (H := Fixture.externals) (Fixture.engine (Fixture.healthy [])) w b
  = Some ("upsert", Fixture.entry "e1" "ex.com", "v2") /\
  run [a; b] = Ok [] /\
  run [b; a] = Ok [Fixture.entry "e1" "ex.com"] /\
  run [a; b] <> run [b; a].
Proof.
  intros events a b w run.
  repeat (split; [vm_compute; reflexivity|]).
  vm_compute. discriminate.
Qed.

(** * Properties of the further code *)
(** ** The store: scalars *)

Section StoreScalars.
Context `{Externals}.

Lemma put_u64_run k v w :
  put_u64 k v w = (Ok tt, with_db (with_meta (insert k (PutUint64 v))) w).
Proof. reflexivity. Qed.

Lemma stored_u64_other k k' v w :
  k <> k' -> stored_u64 k' (with_db (with_meta (insert k v)) w) = stored_u64 k' w.
Proof. apply stored_u64_insert_ne. Qed.

(** X1. The sync cursor and the key epoch are kept as eight big-endian
    bytes: a getter returns what the setter stored (a 64-bit value
    unchanged), reads zero when the scalar was never set, and neither
    setter disturbs the other scalar or the Lamport clock. *)
Theorem cursor_and_epoch_round_trip (s : SyncState) (v : Z) (w : World) :
  (GetSyncCursor s (SetSyncCursor s v w).2).1 = Ok (u64 v) /\
  (GetKeyEpoch s (SetKeyEpoch s v w).2).1 = Ok (u64 v) /\
  (0 <= v < 2 ^ 64 ->
   (GetSyncCursor s (SetSyncCursor s v w).2).1 = Ok v /\
   (GetKeyEpoch s (SetKeyEpoch s v w).2).1 = Ok v) /\
  (sync_meta (db w) !! "sync_cursor" = None -> (GetSyncCursor s w).1 = Ok 0) /\
  (sync_meta (db w) !! "key_epoch" = None -> (GetKeyEpoch s w).1 = Ok 0) /\
  (GetKeyEpoch s (SetSyncCursor s v w).2).1 = (GetKeyEpoch s w).1 /\
  (GetLamport s (SetSyncCursor s v w).2).1 = (GetLamport s w).1 /\
  (GetSyncCursor s (SetKeyEpoch s v w).2).1 = (GetSyncCursor s w).1 /\
  (GetLamport s (SetKeyEpoch s v w).2).1 = (GetLamport s w).1.
Proof.
  unfold GetSyncCursor, SetSyncCursor, GetKeyEpoch, SetKeyEpoch, GetLamport.
  rewrite !put_u64_run, !get_u64_stored. cbn [fst snd].
  unfold keySyncCursor, keyKeyEpoch, keyLamport.
  rewrite !stored_u64_insert, !stored_u64_insert_ne by done.
  split_and!; try done.
  - intros Hv. by rewrite u64_small.
  - intros Hn. unfold stored_u64. by rewrite Hn.
  - intros Hn. unfold stored_u64. by rewrite Hn.
Qed.

Lemma increment_n_run s n w :
  let l := stored_lamport w in
  exists w',
    increment_n s n w = (Ok (map (fun i => u64 (l + Z.of_nat i)) (seq 1 n)), w') /\
    stored_lamport w' = u64 (l + Z.of_nat n) /\
    (forall k, k <> "lamport" -> sync_meta (db w') !! k = sync_meta (db w) !! k).
Proof.
  cbv zeta. revert w. induction n as [|n IH]; intros w.
  - exists w. cbn. split; [done|]. split; [|done].
    rewrite Z.add_0_r. symmetry. apply u64_small, stored_u64_range.
  - cbn [increment_n]. unfold bind at 1. rewrite IncrementLamport_run.
    set (w1 := with_db _ w).
    assert (Hl1 : stored_lamport w1 = u64 (stored_lamport w + 1)).
    { unfold stored_lamport, w1. rewrite stored_u64_insert. apply u64_idemp. }
    destruct (IH w1) as (w' & Hrun & Hfinal & Hframe).
    exists w'. unfold bind. rewrite Hrun. unfold ret.
    assert (Hstep : forall i, u64 (stored_lamport w1 + Z.of_nat i)
                              = u64 (stored_lamport w + Z.of_nat (S i))).
    { intros i. rewrite Hl1. unfold u64.
      rewrite Zplus_mod_idemp_l. f_equal. lia. }
    split_and!.
    + f_equal. f_equal. cbn [seq map]. f_equal.
      rewrite <- (seq_shift n 1), map_map. apply map_ext. intros i.
      apply Hstep.
    + rewrite Hfinal. apply Hstep.
    + intros k Hk. rewrite Hframe by done. subst w1.
      destruct w as [[] ? ? ?]; simpl. by rewrite lookup_insert_ne.
Qed.

(** X2. [n] successive calls of [IncrementLamport] from a clock at [l]
    return l+1, l+2, ..., l+n (64-bit additions) and leave the clock at
    l+n; the other keys of sync_meta are untouched.  As long as the
    clock stays below 2^64 the values are exact and strictly
    increasing. *)
Theorem increments_count_up (s : SyncState) (n : nat) (w : World) :
  let l := stored_lamport w in
  exists w',
    increment_n s n w = (Ok (map (fun i => u64 (l + Z.of_nat i)) (seq 1 n)), w') /\
    (GetLamport s w').1 = Ok (u64 (l + Z.of_nat n)) /\
    (forall k, k <> "lamport" -> sync_meta (db w') !! k = sync_meta (db w) !! k) /\
    (l + Z.of_nat n < 2 ^ 64 ->
     increment_n s n w = (Ok (map (fun i => l + Z.of_nat i) (seq 1 n)), w') /\
     (GetLamport s w').1 = Ok (l + Z.of_nat n)).
Proof.
  cbv zeta. destruct (increment_n_run s n w) as (w' & Hrun & Hfinal & Hframe).
  cbv zeta in Hrun, Hfinal.
  exists w'. unfold GetLamport. rewrite get_u64_stored. cbn [fst].
  change (stored_u64 keyLamport w') with (stored_lamport w').
  rewrite Hfinal. split_and!; try done.
  intros Hbound. pose proof (stored_u64_range "lamport" w) as Hr.
  fold (stored_lamport w) in Hr.
  rewrite u64_small by lia. split; [|done].
  rewrite Hrun. do 2 f_equal. apply map_ext_in. intros i Hi.
  apply in_seq in Hi. apply u64_small. lia.
Qed.

End StoreScalars.

Lemma cursor_and_epoch_round_trip_witness :
  (GetSyncCursor Fixture.sync_state (SetSyncCursor Fixture.sync_state 300 empty_World).2).1
  = Ok 300.
Proof.
  destruct (cursor_and_epoch_round_trip Fixture.sync_state 300 empty_World)
    as (_ & _ & Hexact & _).
  apply Hexact. lia.
Defined.

Lemma increments_count_up_witness :
  (increment_n Fixture.sync_state 3 empty_World).1 = Ok [1; 2; 3].
Proof.
  destruct (increments_count_up Fixture.sync_state 3 empty_World) as (w' & _ & _ & _ & Hexact).
  destruct Hexact as [Hrun _]; [vm_compute; reflexivity|].
  rewrite Hrun. reflexivity.
Defined.
(** ** The store: heads *)

Section StoreHeads.
Context `{Externals}.

Lemma GetEventHead_run s d w :
  GetEventHead s d w =
  (match sync_event_heads (db w) !! d with
   | None => Ok {| LastCounter := 0; LastHash := zero_bytes 32 |}
   | Some data =>
       if (length data =? 40)%nat
       then Ok {| LastCounter := Uint64 (take 8 data); LastHash := drop 8 (take 40 data) |}
       else Err (ErrNew "invalid event head data length")
   end, w).
Proof.
  unfold GetEventHead. munfold.
  destruct (sync_event_heads (db w) !! d) as [data|]; [|done].
  by destruct (length data =? 40)%nat.
Qed.

(** X3. An event head is kept per device as a 40-byte record.  Reading
    a device's head after it was set returns the counter (a 64-bit
    value unchanged) and the 32-byte hash; the heads of the other
    devices are not affected; a device without a record has the zero
    head; a record that is not 40 bytes long is an error; and after
    [ClearEventHeads] every device has the zero head again. *)
Theorem event_head_round_trip (s : SyncState) (d : string) (head : EventHead) (w : World) :
  let w' := (SetEventHead s d head w).2 in
  let zero := {| LastCounter := 0; LastHash := zero_bytes 32 |} in
  (GetEventHead s d w').1
  = Ok {| LastCounter := u64 (LastCounter head); LastHash := fix32 (LastHash head) |} /\
  (0 <= LastCounter head < 2 ^ 64 -> length (LastHash head) = 32%nat ->
   (GetEventHead s d w').1 = Ok head) /\
  (forall d', d' <> d -> (GetEventHead s d' w').1 = (GetEventHead s d' w).1) /\
  (sync_event_heads (db w) !! d = None -> (GetEventHead s d w).1 = Ok zero) /\
  (forall data, sync_event_heads (db w) !! d = Some data -> length data <> 40%nat ->
     (GetEventHead s d w).1 = Err (ErrNew "invalid event head data length")) /\
  (forall d', (GetEventHead s d' (ClearEventHeads s w').2).1 = Ok zero).
Proof.
  cbv zeta.
  assert (Hset : sync_event_heads (db (SetEventHead s d head w).2)
                 = <[d := PutUint64 (LastCounter head) ++ fix32 (LastHash head)]>
                     (sync_event_heads (db w))) by (by destruct w as [[] ? ? ?]).
  destruct (event_head_record (LastCounter head) (LastHash head)) as (Hlen & Hc & Hh).
  assert (Hget : (GetEventHead s d (SetEventHead s d head w).2).1
                 = Ok {| LastCounter := u64 (LastCounter head);
                         LastHash := fix32 (LastHash head) |}).
  { rewrite GetEventHead_run. cbn [fst]. rewrite Hset, lookup_insert_eq, Hlen.
    cbn. by rewrite Hc, Hh. }
  split_and!.
  - exact Hget.
  - intros Hr Hl. rewrite Hget, u64_small by done.
    unfold fix32. rewrite fixN_id by done. by destruct head.
  - intros d' Hne. rewrite !GetEventHead_run. cbn [fst].
    by rewrite Hset, lookup_insert_ne.
  - intros Hn. rewrite GetEventHead_run. by rewrite Hn.
  - intros data Hd Hl. rewrite GetEventHead_run, Hd. cbn [fst].
    apply Nat.eqb_neq in Hl. by rewrite Hl.
  - intros d'. rewrite ClearEventHeads_run, GetEventHead_run. cbn [fst].
    destruct (SetEventHead s d head w).2 as [[] ? ? ?]; cbn.
    by rewrite lookup_empty.
Qed.

Lemma GetMembershipHead_run s w :
  GetMembershipHead s w =
  (Ok (match sync_meta (db w) !! "member_seq" with
       | None => {| MemberSeq := 0; MemberHeadHash := zero_bytes 32 |}
       | Some seqData =>
           {| MemberSeq := Uint64 seqData;
              MemberHeadHash :=
                if (length (default [] (sync_meta (db w) !! "member_head_hash")) =? 32)%nat
                then default [] (sync_meta (db w) !! "member_head_hash")
                else zero_bytes 32 |}
       end), w).
Proof.
  unfold GetMembershipHead. munfold. unfold keyMemberSeq, keyMemberHeadHash.
  by destruct (sync_meta (db w) !! "member_seq").
Qed.

Lemma SetMembershipHead_run s head w :
  SetMembershipHead s head w =
  (Ok tt, with_db (with_meta (fun m =>
            <["member_head_hash" := fix32 (MemberHeadHash head)]>
              (<["member_seq" := PutUint64 (MemberSeq head)]> m))) w).
Proof.
  unfold SetMembershipHead. munfold. by destruct w as [[] ? ? ?].
Qed.

(** X4. The membership head is kept as two scalars.  Reading it back
    returns the sequence number (a 64-bit value unchanged) and the
    32-byte hash that were set.  A store without member_seq reads as
    the zero head, even when a hash is present; a stored hash that is
    not 32 bytes long reads as thirty-two zero bytes. *)
Theorem membership_head_round_trip (s : SyncState) (head : MembershipHead) (w : World) :
  (GetMembershipHead s (SetMembershipHead s head w).2).1
  = Ok {| MemberSeq := u64 (MemberSeq head); MemberHeadHash := fix32 (MemberHeadHash head) |} /\
  (0 <= MemberSeq head < 2 ^ 64 -> length (MemberHeadHash head) = 32%nat ->
   (GetMembershipHead s (SetMembershipHead s head w).2).1 = Ok head) /\
  (sync_meta (db w) !! "member_seq" = None ->
   (GetMembershipHead s w).1 = Ok {| MemberSeq := 0; MemberHeadHash := zero_bytes 32 |}) /\
  (forall seqData hash,
     sync_meta (db w) !! "member_seq" = Some seqData ->
     sync_meta (db w) !! "member_head_hash" = Some hash ->
     length hash <> 32%nat ->
     (GetMembershipHead s w).1
     = Ok {| MemberSeq := Uint64 seqData; MemberHeadHash := zero_bytes 32 |}).
Proof.
  assert (Hget : (GetMembershipHead s (SetMembershipHead s head w).2).1
                 = Ok {| MemberSeq := u64 (MemberSeq head);
                         MemberHeadHash := fix32 (MemberHeadHash head) |}).
  { rewrite SetMembershipHead_run, GetMembershipHead_run. cbn [fst snd].
    destruct w as [[meta ? ? ? ?] ? ? ?]; simpl.
    rewrite lookup_insert_ne, !lookup_insert_eq by done. cbn [default].
    unfold id, fix32. rewrite length_fixN, Uint64_PutUint64. done. }
  split_and!.
  - exact Hget.
  - intros Hr Hl. rewrite Hget, u64_small by done.
    unfold fix32. rewrite fixN_id by done. by destruct head.
  - intros Hn. rewrite GetMembershipHead_run. by rewrite Hn.
  - intros seqData hash Hs Hh Hl. rewrite GetMembershipHead_run, Hs, Hh. cbn.
    apply Nat.eqb_neq in Hl. by rewrite Hl.
Qed.

End StoreHeads.

Lemma event_head_round_trip_witness :
  let head := {| LastCounter := 7; LastHash := replicate 32 "h"%byte |} in
  (GetEventHead Fixture.sync_state "aaaa"
     (SetEventHead Fixture.sync_state "aaaa" head empty_World).2).1 = Ok head.
Proof.
  intros head.
  destruct (@event_head_round_trip Fixture.externals Fixture.sync_state "aaaa" head
              empty_World)
    as (_ & Hexact & _).
  apply Hexact; [cbn; lia | reflexivity].
Defined.

Lemma membership_head_round_trip_witness :
  let head := {| MemberSeq := 2; MemberHeadHash := replicate 32 "h"%byte |} in
  (GetMembershipHead Fixture.sync_state
     (SetMembershipHead Fixture.sync_state head empty_World).2).1 = Ok head.
Proof.
  intros head.
  destruct (membership_head_round_trip Fixture.sync_state head empty_World)
    as (_ & Hexact & _).
  apply Hexact; [cbn; lia | reflexivity].
Defined.
(** ** The executable instance satisfies the assumptions on the libraries *)

Lemma fixture_aead_correct : @aead_correct Fixture.externals.
Proof.
  intros key nonce text. cbn. unfold Fixture.open, Fixture.seal.
  by rewrite decide_True.
Qed.

Lemma fixture_dec_enc_nat n rest : Fixture.dec_nat (Fixture.enc_nat n ++ rest) = Some (n, rest).
Proof.
  unfold Fixture.enc_nat. induction n as [|n IH]; [done|].
  cbn [replicate app Fixture.dec_nat]. cbn [app] in IH. by rewrite IH.
Qed.

Lemma fixture_dec_enc_bytes b rest :
  Fixture.dec_bytes (Fixture.enc_bytes b ++ rest) = Some (b, rest).
Proof.
  unfold Fixture.dec_bytes, Fixture.enc_bytes.
  rewrite <- app_assoc, fixture_dec_enc_nat.
  rewrite (proj2 (Nat.leb_le _ _)) by (rewrite length_app; lia).
  by rewrite take_app_length, drop_app_length.
Qed.

Lemma fixture_dec_enc_str s rest :
  Fixture.dec_str (Fixture.enc_str s ++ rest) = Some (s, rest).
Proof.
  unfold Fixture.dec_str, Fixture.enc_str. rewrite fixture_dec_enc_bytes.
  unfold string_of_bytes, bytes_of_string.
  by rewrite string_of_list_byte_of_string.
Qed.

Lemma fixture_dec_enc_Z z rest : Fixture.dec_Z (Fixture.enc_Z z ++ rest) = Some (z, rest).
Proof.
  unfold Fixture.dec_Z, Fixture.enc_Z. cbn [app].
  rewrite fixture_dec_enc_nat. do 2 f_equal.
  destruct (Z.ltb_spec z 0).
  - rewrite decide_True by done. lia.
  - rewrite decide_False by done. lia.
Qed.

Lemma fixture_dec_enc_strs l rest :
  Fixture.dec_strs (Fixture.enc_strs l ++ rest) = Some (l, rest).
Proof.
  unfold Fixture.dec_strs, Fixture.enc_strs.
  rewrite <- app_assoc, fixture_dec_enc_nat.
  induction l as [|s l IH]; [done|].
  cbn [length map concat Fixture.dec_strs_n].
  by rewrite <- app_assoc, fixture_dec_enc_str, IH.
Qed.

Lemma fixture_json_payload_correct : @json_payload_correct Fixture.externals.
Proof.
  intros p data Hm. change (Some (Fixture.enc_payload p) = Some data) in Hm.
  injection Hm as <-. change (Fixture.dec_payload (Fixture.enc_payload p) = Some p).
  destruct p as [op [id website username password notes tags updated]].
  unfold Fixture.dec_payload, Fixture.enc_payload. cbn [Op PEntry ID Website
    Username Password Notes Tags UpdatedAt].
  rewrite !fixture_dec_enc_str, fixture_dec_enc_strs.
  rewrite <- (app_nil_r (Fixture.enc_Z updated)), fixture_dec_enc_Z. done.
Qed.

Lemma fixture_json_member_correct : @json_member_correct Fixture.externals.
Proof.
  intros m data Hm. change (Some (Fixture.enc_member m) = Some data) in Hm.
  injection Hm as <-. change (Fixture.dec_member (Fixture.enc_member m) = Some m).
  destruct m as [id ps pb epoch].
  unfold Fixture.dec_member, Fixture.enc_member. cbn [vm_DeviceID vm_PubkeySign
    vm_PubkeyBox vm_KeyEpoch].
  rewrite fixture_dec_enc_str, !fixture_dec_enc_bytes.
  rewrite <- (app_nil_r (Fixture.enc_Z epoch)), fixture_dec_enc_Z. done.
Qed.

Lemma fixture_signs_for seed pub :
  length seed = 32%nat -> @signs_for Fixture.externals (seed ++ pub) pub.
Proof.
  intros Hl msg. cbn. unfold Fixture.verify, Fixture.sign.
  rewrite drop_app_length' by done. by apply bool_decide_eq_true.
Qed.

(** ** [crypto.go]: sealing at rest *)

Section AtRest.
Context `{Externals}.

Lemma crypto_Encrypt_run key text w :
  length key = 32%nat ->
  crypto_Encrypt key text w =
  (Ok (fixN 24 (rand_source (rand_reads w))
       ++ xchacha_Seal key (fixN 24 (rand_source (rand_reads w))) text),
   bump_rand w).
Proof.
  intros Hk. unfold crypto_Encrypt, NewX. rewrite decide_True by done. reflexivity.
Qed.

Lemma crypto_Decrypt_sealed key nonce text :
  aead_correct -> length key = 32%nat -> length nonce = 24%nat ->
  crypto_Decrypt key (nonce ++ xchacha_Seal key nonce text) = Ok text.
Proof.
  intros Haead Hk Hn. unfold crypto_Decrypt, NewX, NonceSize.
  rewrite length_app, Hn. cbn [Nat.ltb Nat.leb Nat.add].
  replace (24 + length (xchacha_Seal key nonce text) <? 24)%nat with false
    by (symmetry; apply Nat.ltb_ge; lia).
  rewrite decide_True by done.
  rewrite take_app_length', drop_app_length' by done. by rewrite Haead.
Qed.

(** X10. [crypto.Encrypt] answers nonce || sealed text with a fresh
    24-byte nonce, and [crypto.Decrypt] under the same 32-byte key gives
    the text back.  [Decrypt] refuses an input shorter than the nonce
    with [ErrInvalidCiphertext] whatever the key; a key that is not 32
    bytes long makes both fail at the cipher; a text that does not
    authenticate gives [ErrDecryptionFailed]. *)
Theorem encrypt_decrypt_at_rest (key text : bytes) (w : World) :
  (aead_correct -> length key = 32%nat ->
   exists ct,
     crypto_Encrypt key text w = (Ok ct, bump_rand w) /\
     take 24 ct = fixN 24 (rand_source (rand_reads w)) /\
     (24 <= length ct)%nat /\
     crypto_Decrypt key ct = Ok text) /\
  (forall ct, (length ct < 24)%nat -> crypto_Decrypt key ct = Err ErrInvalidCiphertext) /\
  (length key <> 32%nat ->
   (crypto_Encrypt key text w).1
   = Err (ErrWrap "failed to create cipher" (ErrNew "chacha20poly1305: bad key length")) /\
   (crypto_Encrypt key text w).2 = w /\
   forall ct, (24 <= length ct)%nat ->
     crypto_Decrypt key ct
     = Err (ErrWrap "failed to create cipher" (ErrNew "chacha20poly1305: bad key length"))) /\
  (forall ct, (24 <= length ct)%nat -> length key = 32%nat ->
     xchacha_Open key (take 24 ct) (drop 24 ct) = None ->
     crypto_Decrypt key ct = Err ErrDecryptionFailed).
Proof.
  split_and!.
  - intros Haead Hk. eexists. split; [by apply crypto_Encrypt_run|].
    assert (Hn : length (fixN 24 (rand_source (rand_reads w))) = 24%nat)
      by apply length_fixN.
    split_and!.
    + by rewrite take_app_length'.
    + rewrite length_app. lia.
    + by apply crypto_Decrypt_sealed.
  - intros ct Hl. unfold crypto_Decrypt, NonceSize.
    by rewrite (proj2 (Nat.ltb_lt _ _) Hl).
  - intros Hk. unfold crypto_Encrypt, crypto_Decrypt, NewX, NonceSize.
    rewrite decide_False by done. split_and!; try done.
    intros ct Hl. by rewrite (proj2 (Nat.ltb_ge _ _) Hl).
  - intros ct Hl Hk Hopen. unfold crypto_Decrypt, NewX, NonceSize.
    rewrite (proj2 (Nat.ltb_ge _ _) Hl), decide_True by done. by rewrite Hopen.
Qed.

End AtRest.

Lemma encrypt_decrypt_at_rest_witness :
  exists ct,
    (crypto_Encrypt (H := Fixture.externals) Fixture.master_key
       (bytes_of_string "secret") empty_World).1 = Ok ct /\
    crypto_Decrypt (H := Fixture.externals) Fixture.master_key ct
    = Ok (bytes_of_string "secret").
Proof.
  destruct (@encrypt_decrypt_at_rest Fixture.externals Fixture.master_key
              (bytes_of_string "secret") empty_World) as (Hround & _).
  destruct (Hround fixture_aead_correct eq_refl) as (ct & Hrun & _ & _ & Hdec).
  exists ct. split; [by rewrite Hrun | exact Hdec].
Defined.
(** ** The store: secrets *)

Section StoreSecrets.
Context `{Externals}.

Lemma meta_lookup_with_meta f w k :
  sync_meta (db (with_db (with_meta f) w)) !! k = f (sync_meta (db w)) !! k.
Proof. by destruct w as [[] ? ? ?]. Qed.

Lemma SetVaultKey_run s key vk w :
  vaultKey s = Some key -> length key = 32%nat ->
  SetVaultKey s vk w =
  (Ok tt,
   with_db (with_meta (insert "vault_key_enc"
     (fixN 24 (rand_source (rand_reads w))
      ++ xchacha_Seal key (fixN 24 (rand_source (rand_reads w))) (fix32 vk))))
     (bump_rand w)).
Proof.
  intros Hs Hk. unfold SetVaultKey, getVaultKey. rewrite Hs.
  unfold bind at 1, ret. unfold bind at 1, wrap.
  rewrite crypto_Encrypt_run by done. reflexivity.
Qed.

Lemma GetVaultKey_run s key w :
  vaultKey s = Some key ->
  GetVaultKey s w =
  (match sync_meta (db w) !! "vault_key_enc" with
   | None => Err (ErrNew "vault_key not set")
   | Some encKey =>
       match crypto_Decrypt key encKey with
       | Err e => Err (ErrWrap "failed to decrypt vault_key" e)
       | Ok decKey =>
           if (length decKey =? 32)%nat then Ok decKey
           else Err (ErrNew "invalid vault_key length")
       end
   end, w).
Proof.
  intros Hs. unfold GetVaultKey, getVaultKey. rewrite Hs. munfold.
  unfold keyVaultKeyEnc.
  destruct (sync_meta (db w) !! "vault_key_enc") as [encKey|]; [|done].
  destruct (crypto_Decrypt key encKey) as [decKey|e]; [|done].
  by destruct (length decKey =? 32)%nat.
Qed.

(** X6. The vault key is stored sealed under the key of the store.
    With a 32-byte store key, [GetVaultKey] after [SetVaultKey] returns
    the (32-byte) vault key, and what sync_meta holds is the nonce and
    the sealed text, not the key.  Without a stored key the getter
    fails with "vault_key not set"; on a handle without store key both
    calls fail with "sync state not initialized" and change nothing. *)
Theorem vault_key_round_trip (s : SyncState) (vk : bytes) (w : World) :
  (forall key, aead_correct -> vaultKey s = Some key -> length key = 32%nat ->
     let w' := (SetVaultKey s vk w).2 in
     (SetVaultKey s vk w).1 = Ok tt /\
     (GetVaultKey s w').1 = Ok (fix32 vk) /\
     (length vk = 32%nat -> (GetVaultKey s w').1 = Ok vk) /\
     sync_meta (db w') !! "vault_key_enc"
     = Some (fixN 24 (rand_source (rand_reads w))
             ++ xchacha_Seal key (fixN 24 (rand_source (rand_reads w))) (fix32 vk)) /\
     (forall k, k <> "vault_key_enc" -> sync_meta (db w') !! k = sync_meta (db w) !! k)) /\
  (forall key, vaultKey s = Some key -> sync_meta (db w) !! "vault_key_enc" = None ->
     (GetVaultKey s w).1 = Err (ErrNew "vault_key not set")) /\
  (vaultKey s = None ->
     SetVaultKey s vk w = (Err (ErrNew "sync state not initialized"), w) /\
     GetVaultKey s w = (Err (ErrNew "sync state not initialized"), w)).
Proof.
  split_and!.
  - intros key Haead Hs Hk. cbv zeta. rewrite (SetVaultKey_run s key) by done.
    cbn [fst snd]. rewrite (GetVaultKey_run s key) by done. cbn [fst].
    rewrite !meta_lookup_with_meta. cbn [bump_rand db].
    rewrite lookup_insert_eq.
    assert (Hget : (match crypto_Decrypt key
                            (fixN 24 (rand_source (rand_reads w)) ++
                             xchacha_Seal key (fixN 24 (rand_source (rand_reads w)))
                               (fix32 vk)) with
                    | Ok decKey => if (length decKey =? 32)%nat then Ok decKey
                                   else Err (ErrNew "invalid vault_key length")
                    | Err e => Err (ErrWrap "failed to decrypt vault_key" e)
                    end) = Ok (fix32 vk)).
    { rewrite crypto_Decrypt_sealed by (done || apply length_fixN).
      unfold fix32. by rewrite length_fixN. }
    split_and!; try done.
    + intros Hl. rewrite Hget. unfold fix32. by rewrite fixN_id.
    + intros k Hne. rewrite meta_lookup_with_meta. by rewrite lookup_insert_ne.
  - intros key Hs Hn. rewrite (GetVaultKey_run s key) by done. by rewrite Hn.
  - intros Hs. unfold SetVaultKey, GetVaultKey, getVaultKey. by rewrite Hs.
Qed.

End StoreSecrets.

Lemma vault_key_round_trip_witness :
  (GetVaultKey (H := Fixture.externals) Fixture.sync_state
     (SetVaultKey (H := Fixture.externals) Fixture.sync_state Fixture.the_vault_key
        empty_World).2).1 = Ok Fixture.the_vault_key.
Proof.
  destruct (@vault_key_round_trip Fixture.externals Fixture.sync_state
              Fixture.the_vault_key empty_World) as (Hround & _).
  destruct (Hround Fixture.master_key fixture_aead_correct eq_refl eq_refl)
    as (_ & _ & Hexact & _).
  apply Hexact. reflexivity.
Defined.

Section StoreIdentity.
Context `{Externals}.

Lemma SetDeviceKeys_run s key keys w :
  vaultKey s = Some key -> length key = 32%nat ->
  let n1 := fixN 24 (rand_source (rand_reads w)) in
  let n2 := fixN 24 (rand_source (S (rand_reads w))) in
  SetDeviceKeys s keys w =
  (Ok tt,
   with_db (with_meta (fun m =>
     <["privkey_box_enc" := n2 ++ xchacha_Seal key n2 (fix32 (PrivkeyBox keys))]>
     (<["pubkey_box" := fix32 (PubkeyBox keys)]>
     (<["privkey_sign_enc" := n1 ++ xchacha_Seal key n1 (fixN 64 (PrivkeySign keys))]>
     (<["pubkey_sign" := fix32 (PubkeySign keys)]>
     (<["device_id" := bytes_of_string (dk_DeviceID keys)]> m))))))
     (bump_rand (bump_rand w))).
Proof.
  intros Hs Hk. cbv zeta. unfold SetDeviceKeys, getVaultKey. rewrite Hs.
  unfold bind at 1, ret. unfold bind at 1, wrap.
  rewrite crypto_Encrypt_run by done.
  unfold bind at 1. rewrite crypto_Encrypt_run by done.
  munfold. by destruct w as [[] ? ? ?].
Qed.

(** X5. The identity of the device is stored with its private keys
    sealed under the key of the store.  With a 32-byte store key,
    [GetDeviceKeys] after [SetDeviceKeys] returns the device id and the
    four keys (of 32, 64, 32 and 32 bytes); the vault scalars are not
    touched.  A store without device_id answers "device_id not set";
    a handle without store key answers "sync state not initialized". *)
Theorem device_keys_round_trip (s : SyncState) (keys : DeviceKeys) (w : World) :
  (forall key, aead_correct -> vaultKey s = Some key -> length key = 32%nat ->
     let w' := (SetDeviceKeys s keys w).2 in
     (SetDeviceKeys s keys w).1 = Ok tt /\
     GetDeviceKeys s w'
     = (Ok {| dk_DeviceID := dk_DeviceID keys;
              PubkeySign := fix32 (PubkeySign keys);
              PrivkeySign := fixN 64 (PrivkeySign keys);
              PubkeyBox := fix32 (PubkeyBox keys);
              PrivkeyBox := fix32 (PrivkeyBox keys) |}, w') /\
     (length (PubkeySign keys) = 32%nat -> length (PrivkeySign keys) = 64%nat ->
      length (PubkeyBox keys) = 32%nat -> length (PrivkeyBox keys) = 32%nat ->
      GetDeviceKeys s w' = (Ok keys, w')) /\
     (forall k, k ∉ identity_keys -> sync_meta (db w') !! k = sync_meta (db w) !! k)) /\
  (forall key, vaultKey s = Some key -> sync_meta (db w) !! "device_id" = None ->
     GetDeviceKeys s w = (Err (ErrNew "device_id not set"), w)) /\
  (vaultKey s = None ->
     GetDeviceKeys s w = (Err (ErrNew "sync state not initialized"), w) /\
     SetDeviceKeys s keys w = (Err (ErrNew "sync state not initialized"), w)).
Proof.
  split_and!.
  - intros key Haead Hs Hk. cbv zeta.
    pose proof (SetDeviceKeys_run s key keys w Hs Hk) as Hset. cbv zeta in Hset.
    rewrite Hset. cbn [fst snd].
    set (n1 := fixN 24 (rand_source (rand_reads w))) in *.
    set (n2 := fixN 24 (rand_source (S (rand_reads w)))) in *.
    set (w' := with_db _ _).
    assert (Hn1 : length n1 = 24%nat) by apply length_fixN.
    assert (Hn2 : length n2 = 24%nat) by apply length_fixN.
    assert (Hid : sync_meta (db w') !! keyDeviceID
                  = Some (bytes_of_string (dk_DeviceID keys))).
    { unfold w'. rewrite meta_lookup_with_meta.
      rewrite !lookup_insert_ne by done. apply lookup_insert_eq. }
    assert (Hps : sync_meta (db w') !! keyPubkeySign = Some (fix32 (PubkeySign keys))).
    { unfold w'. rewrite meta_lookup_with_meta.
      rewrite !lookup_insert_ne by done. apply lookup_insert_eq. }
    assert (Hse : sync_meta (db w') !! keyPrivkeySignEnc
                  = Some (n1 ++ xchacha_Seal key n1 (fixN 64 (PrivkeySign keys)))).
    { unfold w'. rewrite meta_lookup_with_meta.
      rewrite !lookup_insert_ne by done. apply lookup_insert_eq. }
    assert (Hpb : sync_meta (db w') !! keyPubkeyBox = Some (fix32 (PubkeyBox keys))).
    { unfold w'. rewrite meta_lookup_with_meta.
      rewrite !lookup_insert_ne by done. apply lookup_insert_eq. }
    assert (Hbe : sync_meta (db w') !! keyPrivkeyBoxEnc
                  = Some (n2 ++ xchacha_Seal key n2 (fix32 (PrivkeyBox keys)))).
    { unfold w'. rewrite meta_lookup_with_meta. apply lookup_insert_eq. }
    assert (Hget : GetDeviceKeys s w'
                   = (Ok {| dk_DeviceID := dk_DeviceID keys;
                            PubkeySign := fix32 (PubkeySign keys);
                            PrivkeySign := fixN 64 (PrivkeySign keys);
                            PubkeyBox := fix32 (PubkeyBox keys);
                            PrivkeyBox := fix32 (PrivkeyBox keys) |}, w')).
    { unfold GetDeviceKeys, getVaultKey. rewrite Hs. munfold.
      rewrite Hid, Hps. cbn [default]. unfold id, fix32 at 1. rewrite length_fixN.
      cbn [Nat.eqb negb]. rewrite Hse.
      rewrite crypto_Decrypt_sealed by done. rewrite length_fixN. cbn [Nat.eqb negb].
      rewrite Hpb. cbn [default]. unfold id, fix32 at 1. rewrite length_fixN.
      cbn [Nat.eqb negb]. rewrite Hbe.
      rewrite crypto_Decrypt_sealed by done. unfold fix32 at 1. rewrite length_fixN.
      cbn [Nat.eqb negb]. unfold string_of_bytes, bytes_of_string.
      by rewrite string_of_list_byte_of_string. }
    split_and!; try done.
    + intros H1 H2 H3 H4. rewrite Hget. unfold fix32.
      rewrite !fixN_id by done. by destruct keys.
    + intros k Hk'. unfold w'. rewrite meta_lookup_with_meta.
      unfold identity_keys in Hk'.
      rewrite !lookup_insert_ne by (intros <-; set_solver). done.
  - intros key Hs Hn. unfold GetDeviceKeys, getVaultKey. rewrite Hs. munfold.
    unfold keyDeviceID. by rewrite Hn.
  - intros Hs. unfold GetDeviceKeys, SetDeviceKeys, getVaultKey. by rewrite Hs.
Qed.

End StoreIdentity.

Lemma device_keys_round_trip_witness :
  (GetDeviceKeys (H := Fixture.externals) Fixture.sync_state
     (SetDeviceKeys (H := Fixture.externals) Fixture.sync_state Fixture.dev_a
        empty_World).2).1 = Ok Fixture.dev_a.
Proof.
  destruct (@device_keys_round_trip Fixture.externals Fixture.sync_state
              Fixture.dev_a empty_World) as (Hround & _).
  destruct (Hround Fixture.master_key fixture_aead_correct eq_refl eq_refl)
    as (_ & _ & Hexact & _).
  rewrite Hexact; reflexivity.
Defined.

(** ** The store: verified members *)

Section StoreMembers.
Context `{Externals}.

Lemma GetVerifiedMember_run s d w :
  GetVerifiedMember s d w =
  (match sync_members (db w) !! d with
   | None => Err (ErrNew ("member not found: " +:+ d))
   | Some data =>
       match json_Unmarshal_member data with
       | Some member => Ok member
       | None => Err (ErrNew "json: cannot unmarshal member")
       end
   end, w).
Proof.
  unfold GetVerifiedMember. munfold.
  destruct (sync_members (db w) !! d) as [data|]; [|done].
  by destruct (json_Unmarshal_member data).
Qed.

Lemma members_with_members f w :
  sync_members (db (with_db (with_members f) w)) = f (sync_members (db w)).
Proof. by destruct w as [[] ? ? ?]. Qed.

(** X7. Verified members are kept by device id.  A member that was
    set is returned by [GetVerifiedMember] under its own device id, and
    setting it replaces an earlier record for the same id; the other
    members are not affected; after [RemoveVerifiedMember] the lookup
    fails with "member not found", and after [ClearVerifiedMembers] it
    fails for every device. *)
Theorem verified_member_round_trip (s : SyncState) (member : VerifiedMember) (w : World) :
  let d := vm_DeviceID member in
  let not_found d' := Err (ErrNew ("member not found: " +:+ d')) in
  (forall data, json_member_correct -> json_Marshal_member member = Some data ->
     let w' := (SetVerifiedMember s member w).2 in
     (SetVerifiedMember s member w).1 = Ok tt /\
     (GetVerifiedMember s d w').1 = Ok member /\
     (forall d', d' <> d -> (GetVerifiedMember s d' w').1 = (GetVerifiedMember s d' w).1) /\
     (GetVerifiedMember s d (RemoveVerifiedMember s d w').2).1 = not_found d) /\
  (json_Marshal_member member = None ->
     (SetVerifiedMember s member w).2 = w /\
     exists err, (SetVerifiedMember s member w).1 = Err err) /\
  (forall d', sync_members (db w) !! d' = None -> (GetVerifiedMember s d' w).1 = not_found d') /\
  (forall d' d'', d'' <> d' ->
     (GetVerifiedMember s d'' (RemoveVerifiedMember s d' w).2).1
     = (GetVerifiedMember s d'' w).1) /\
  (forall d', (GetVerifiedMember s d' (ClearVerifiedMembers s w).2).1 = not_found d').
Proof.
  cbv zeta. split_and!.
  - intros data Hjson Hm. unfold SetVerifiedMember. rewrite Hm.
    unfold modify. cbn [fst snd]. split; [done|].
    unfold RemoveVerifiedMember, modify. cbn [snd].
    rewrite !GetVerifiedMember_run. cbn [fst]. rewrite !members_with_members.
    rewrite lookup_insert_eq, lookup_delete_eq, (Hjson _ _ Hm).
    split_and!; try done.
    intros d' Hne. rewrite !GetVerifiedMember_run. cbn [fst].
    rewrite members_with_members. by rewrite lookup_insert_ne.
  - intros Hm. unfold SetVerifiedMember. rewrite Hm. split; [done|]. by eexists.
  - intros d' Hn. rewrite GetVerifiedMember_run. by rewrite Hn.
  - intros d' d'' Hne. unfold RemoveVerifiedMember, modify. cbn [snd].
    rewrite !GetVerifiedMember_run. cbn [fst]. rewrite members_with_members.
    by rewrite lookup_delete_ne.
  - intros d'. unfold ClearVerifiedMembers, modify. cbn [snd].
    rewrite GetVerifiedMember_run. cbn [fst]. rewrite members_with_members.
    by rewrite lookup_empty.
Qed.

Lemma read_all_members_spec l members :
  read_all_members l = Ok members ->
  Forall2 (fun kv m => json_Unmarshal_member kv.2 = Some m) l members.
Proof.
  revert members. induction l as [|[k v] l IH]; intros members.
  - intros [= <-]. constructor.
  - cbn [read_all_members]. destruct (json_Unmarshal_member v) as [m|] eqn:E; [|done].
    destruct (read_all_members l) as [rest|]; [|done]. intros [= <-].
    constructor; [done|]. by apply IH.
Qed.

(** X8. [GetVerifiedMembers] lists the members bucket in key order:
    when it succeeds there is one decoded member per record, and each
    decodes the record at its position; it fails as soon as one record
    does not decode, and it never changes the store.  On an empty
    bucket the list is empty. *)
Theorem verified_members_listing (s : SyncState) (w : World) :
  (GetVerifiedMembers s w).2 = w /\
  (forall members, (GetVerifiedMembers s w).1 = Ok members ->
     length members = size (sync_members (db w)) /\
     Forall2 (fun kv m => json_Unmarshal_member kv.2 = Some m)
       (bucket_ForEach (sync_members (db w))) members /\
     forall d data, sync_members (db w) !! d = Some data ->
       exists m, json_Unmarshal_member data = Some m /\ m ∈ members) /\
  (forall d data, sync_members (db w) !! d = Some data ->
     json_Unmarshal_member data = None ->
     exists err, (GetVerifiedMembers s w).1 = Err err) /\
  (sync_members (db w) = ∅ -> (GetVerifiedMembers s w).1 = Ok []).
Proof.
  unfold GetVerifiedMembers. munfold. cbn [fst snd].
  split; [done|]. split_and!.
  - intros members Hrun. apply read_all_members_spec in Hrun.
    split_and!.
    + rewrite <- (Forall2_length _ _ _ Hrun).
      rewrite (Permutation_length (bucket_ForEach_perm _)).
      by rewrite length_map_to_list.
    + done.
    + intros d data Hd.
      assert (Hin : (d, data) ∈ bucket_ForEach (sync_members (db w))).
      { rewrite bucket_ForEach_perm. by apply elem_of_map_to_list. }
      apply list_elem_of_lookup in Hin as [i Hi].
      destruct (Forall2_lookup_l _ _ _ _ _ Hrun Hi) as (m & Hm & Hdec).
      exists m. split; [done|]. by eapply list_elem_of_lookup_2.
  - intros d data Hd Hbad.
    destruct (read_all_members _) as [members|err] eqn:Hrun; [|by eexists].
    exfalso. apply read_all_members_spec in Hrun.
    assert (Hin : (d, data) ∈ bucket_ForEach (sync_members (db w))).
    { rewrite bucket_ForEach_perm. by apply elem_of_map_to_list. }
    apply list_elem_of_lookup in Hin as [i Hi].
    destruct (Forall2_lookup_l _ _ _ _ _ Hrun Hi) as (m & Hm & Hdec).
    cbn in Hdec. congruence.
  - intros Hempty. rewrite Hempty. unfold bucket_ForEach.
    by rewrite map_to_list_empty.
Qed.

End StoreMembers.

Lemma verified_member_round_trip_witness :
  let m := Fixture.member_of Fixture.dev_b in
  (GetVerifiedMember (H := Fixture.externals) Fixture.sync_state "bbbb"
     (SetVerifiedMember (H := Fixture.externals) Fixture.sync_state m empty_World).2).1
  = Ok m.
Proof.
  intros m.
  destruct (@verified_member_round_trip Fixture.externals Fixture.sync_state m empty_World)
    as (Hround & _).
  destruct (Hround _ fixture_json_member_correct eq_refl) as (_ & Hget & _).
  exact Hget.
Defined.

Lemma verified_members_listing_witness :
  let w := Fixture.world_of Fixture.dev_a [Fixture.dev_a; Fixture.dev_b] in
  exists members,
    (GetVerifiedMembers (H := Fixture.externals) Fixture.sync_state w).1 = Ok members /\
    length members = 2%nat.
Proof.
  intros w.
  assert (Hrun : (GetVerifiedMembers (H := Fixture.externals) Fixture.sync_state w).1
                 = Ok [Fixture.member_of Fixture.dev_a; Fixture.member_of Fixture.dev_b])
    by (vm_compute; reflexivity).
  destruct (@verified_members_listing Fixture.externals Fixture.sync_state w)
    as (_ & Hlist & _).
  destruct (Hlist _ Hrun) as (Hlen & _).
  eexists. split; [exact Hrun | reflexivity].
Defined.

(** ** The store: the pending queue *)

Section StorePending.
Context `{Externals}.

Lemma pending_with_pending f w :
  sync_pending (db (with_db (with_pending f) w)) = f (sync_pending (db w)).
Proof. by destruct w as [[] ? ? ?]. Qed.

Lemma AddPendingEntry_run s key op entry data w :
  vaultKey s = Some key -> length key = 32%nat -> ID entry <> "" ->
  json_Marshal_payload {| Op := op; PEntry := entry |} = Some data ->
  AddPendingEntry s op entry w =
  (Ok tt,
   with_db (with_pending (insert (ID entry)
     (fixN 24 (rand_source (rand_reads w))
      ++ xchacha_Seal key (fixN 24 (rand_source (rand_reads w))) data)))
     (bump_rand w)).
Proof.
  intros Hs Hk Hid Hjson. unfold AddPendingEntry, getVaultKey.
  apply String.eqb_neq in Hid. rewrite Hid, Hs, Hjson.
  unfold bind at 1, ret. unfold bind at 1, wrap.
  rewrite crypto_Encrypt_run by done. reflexivity.
Qed.

Lemma read_pending_sealed key nonce p data :
  aead_correct -> json_payload_correct ->
  length key = 32%nat -> length nonce = 24%nat ->
  json_Marshal_payload p = Some data ->
  read_pending key (nonce ++ xchacha_Seal key nonce data) = Ok p.
Proof.
  intros Haead Hjson Hk Hn Hm. unfold read_pending.
  rewrite crypto_Decrypt_sealed by done. by rewrite (Hjson _ _ Hm).
Qed.

Lemma read_all_pending_spec key l items :
  read_all_pending key l = Ok items ->
  Forall2 (fun kv item => read_pending key kv.2 = Ok item) l items.
Proof.
  revert items. induction l as [|[k v] l IH]; intros items.
  - intros [= <-]. constructor.
  - cbn [read_all_pending]. destruct (read_pending key v) as [item|] eqn:E; [|done].
    destruct (read_all_pending key l) as [rest|]; [|done]. intros [= <-].
    constructor; [done|]. by apply IH.
Qed.

Lemma GetPendingEntries_run s key w :
  vaultKey s = Some key ->
  GetPendingEntries s w = (read_all_pending key (bucket_ForEach (sync_pending (db w))), w).
Proof. intros Hs. unfold GetPendingEntries, getVaultKey. by rewrite Hs. Qed.

(** X9. The pending queue holds one sealed record per entry id.
    [AddPendingEntry] refuses an entry without id and changes nothing.
    For an entry with an id (32-byte store key), the record written
    under the id reads back as the queued (op, entry), replacing what
    was queued for that entry before and leaving the other records
    alone, and a successful [GetPendingEntries] lists it.
    [RemovePendingEntry] deletes the record of the id and no other; on
    the empty id it does nothing.  On an empty queue the list is
    empty. *)
Theorem pending_queue_round_trip (s : SyncState) (op : string) (entry : Entry) (w : World) :
  (ID entry = "" ->
     AddPendingEntry s op entry w = (Err (ErrNew "entry id is required"), w)) /\
  (forall key data,
     aead_correct -> json_payload_correct ->
     vaultKey s = Some key -> length key = 32%nat -> ID entry <> "" ->
     json_Marshal_payload {| Op := op; PEntry := entry |} = Some data ->
     let w' := (AddPendingEntry s op entry w).2 in
     (AddPendingEntry s op entry w).1 = Ok tt /\
     (exists record, sync_pending (db w') !! ID entry = Some record /\
                     read_pending key record = Ok {| Op := op; PEntry := entry |}) /\
     (forall id, id <> ID entry -> sync_pending (db w') !! id = sync_pending (db w) !! id) /\
     (forall items, (GetPendingEntries s w').1 = Ok items ->
        {| Op := op; PEntry := entry |} ∈ items /\
        length items = size (sync_pending (db w'))) /\
     sync_pending (db (RemovePendingEntry s (ID entry) w').2) !! ID entry = None) /\
  (forall id id', id' <> id ->
     sync_pending (db (RemovePendingEntry s id w).2) !! id' = sync_pending (db w) !! id') /\
  RemovePendingEntry s "" w = (Ok tt, w) /\
  (forall key, vaultKey s = Some key -> sync_pending (db w) = ∅ ->
     GetPendingEntries s w = (Ok [], w)).
Proof.
  split_and!.
  - intros Hid. unfold AddPendingEntry. by rewrite Hid.
  - intros key data Haead Hjson Hs Hk Hid Hm. cbv zeta.
    rewrite (AddPendingEntry_run s key op entry data) by done. cbn [fst snd].
    set (nonce := fixN 24 (rand_source (rand_reads w))).
    assert (Hn : length nonce = 24%nat) by apply length_fixN.
    set (w' := with_db _ _).
    assert (Hrec : sync_pending (db w') !! ID entry
                   = Some (nonce ++ xchacha_Seal key nonce data)).
    { unfold w'. rewrite pending_with_pending. apply lookup_insert_eq. }
    assert (Hread : read_pending key (nonce ++ xchacha_Seal key nonce data)
                    = Ok {| Op := op; PEntry := entry |})
      by (by apply read_pending_sealed).
    split_and!; try done.
    + by eexists.
    + intros id Hne. unfold w'. rewrite pending_with_pending.
      by rewrite lookup_insert_ne.
    + intros items Hrun. rewrite (GetPendingEntries_run s key) in Hrun by done.
      cbn [fst] in Hrun. apply read_all_pending_spec in Hrun. split.
      * assert (Hin : (ID entry, nonce ++ xchacha_Seal key nonce data)
                      ∈ bucket_ForEach (sync_pending (db w'))).
        { rewrite bucket_ForEach_perm. by apply elem_of_map_to_list. }
        apply list_elem_of_lookup in Hin as [i Hi].
        destruct (Forall2_lookup_l _ _ _ _ _ Hrun Hi) as (item & Hitem & Hdec).
        cbn in Hdec. rewrite Hread in Hdec. injection Hdec as <-.
        by eapply list_elem_of_lookup_2.
      * rewrite <- (Forall2_length _ _ _ Hrun).
        rewrite (Permutation_length (bucket_ForEach_perm _)).
        by rewrite length_map_to_list.
    + unfold RemovePendingEntry. apply String.eqb_neq in Hid. rewrite Hid.
      unfold modify. cbn [snd]. rewrite pending_with_pending.
      apply lookup_delete_eq.
  - intros id id' Hne. unfold RemovePendingEntry.
    destruct (String.eqb id ""); [done|].
    unfold modify. cbn [snd]. rewrite pending_with_pending. by rewrite lookup_delete_ne.
  - done.
  - intros key Hs Hempty. rewrite (GetPendingEntries_run s key) by done.
    rewrite Hempty. unfold bucket_ForEach. by rewrite map_to_list_empty.
Qed.

End StorePending.

Lemma pending_queue_round_trip_witness :
  let entry := Fixture.entry "e1" "ex.com" in
  let w' := (AddPendingEntry (H := Fixture.externals) Fixture.sync_state "delete" entry
               empty_World).2 in
  (GetPendingEntries (H := Fixture.externals) Fixture.sync_state w').1
  = Ok [{| Op := "delete"; PEntry := entry |}] /\
  {| Op := "delete"; PEntry := entry |}
  ∈ [{| Op := "delete"; PEntry := entry |}].
Proof.
  intros entry w'.
  assert (Hrun : (GetPendingEntries (H := Fixture.externals) Fixture.sync_state w').1
                 = Ok [{| Op := "delete"; PEntry := entry |}])
    by (vm_compute; reflexivity).
  destruct (@pending_queue_round_trip Fixture.externals Fixture.sync_state "delete"
              entry empty_World) as (_ & Hadd & _).
  destruct (Hadd Fixture.master_key _ fixture_aead_correct fixture_json_payload_correct
              eq_refl eq_refl ltac:(discriminate) eq_refl)
    as (_ & _ & _ & Hlist & _).
  split; [exact Hrun|]. exact (proj1 (Hlist _ Hrun)).
Defined.

(** ** The engine: event payloads *)

Section Payload.
Context `{Externals}.

Lemma decryptEventPayload_sealed e key epoch nonce p plaintext w :
  aead_correct -> json_payload_correct ->
  GetVaultKey (state e) w = (Ok key, w) ->
  json_Marshal_payload p = Some plaintext ->
  decryptEventPayload e
    (xchacha_Seal (fix32 (hkdf_sha256 key (bytes_of_string (epoch_info epoch))))
       nonce plaintext) nonce epoch w
  = (Ok (Op p, PEntry p, "v2"), w).
Proof.
  intros Haead Hjson Hkey Hm. unfold decryptEventPayload.
  unfold bind at 1, wrap. rewrite Hkey.
  unfold decryptEventPayloadXChaCha, deriveEventKey. rewrite NewX_fix32, Haead.
  unfold bind, ret. by rewrite (Hjson _ _ Hm).
Qed.

(** X11. What [encryptEventPayload] seals, [decryptEventPayload] opens:
    on the ciphertext and nonce of a successful encryption, under the
    key epoch stored at the time, decryption returns the same op and
    entry and reports scheme v2, for every op and entry.  The nonce has
    24 bytes, and encrypting changes nothing in the store. *)
Theorem payload_round_trip (e : Engine) (op : string) (entry : Entry) (w w' : World)
    (ct nonce : bytes) :
  aead_correct -> json_payload_correct ->
  encryptEventPayload e op entry w = (Ok (ct, nonce), w') ->
  decryptEventPayload e ct nonce (stored_epoch w) w' = (Ok (op, entry, "v2"), w') /\
  length nonce = 24%nat /\
  db w' = db w.
Proof.
  intros Haead Hjson Hrun.
  apply encryptEventPayload_inv in Hrun
    as (key & plaintext & Hkey & Hm & -> & -> & ->).
  split_and!; [|apply length_fixN|done].
  set (w' := {| db := db w; relay_events := _; relay_member_events := _;
                rand_reads := _ |}).
  assert (Hkey' : GetVaultKey (state e) w' = (Ok key, w')).
  { pose proof (GetVaultKey_meta (state e) w w' eq_refl) as Hk.
    pose proof (GetVaultKey_ro (state e) w') as Hro.
    rewrite Hkey in Hk. destruct (GetVaultKey (state e) w') as [r w0].
    cbn [fst snd] in *. by subst. }
  exact (decryptEventPayload_sealed e key (stored_epoch w) _
           {| Op := op; PEntry := entry |} plaintext w' Haead Hjson Hkey' Hm).
Qed.

End Payload.

Lemma payload_round_trip_witness :
  let e := Fixture.engine (Fixture.healthy []) in
  let w := Fixture.world_of Fixture.dev_a [Fixture.dev_a] in
  let entry := Fixture.entry "e1" "ex.com" in
  exists ct nonce w',
    encryptEventPayload (H := Fixture.externals) e "upsert" entry w = (Ok (ct, nonce), w') /\
    decryptEventPayload (H := Fixture.externals) e ct nonce (stored_epoch w) w'
    = (Ok ("upsert", entry, "v2"), w').
Proof.
  intros e w entry.
  destruct (encryptEventPayload (H := Fixture.externals) e "upsert" entry w)
    as [[[ct nonce]|err] w'] eqn:Hrun; [|by vm_compute in Hrun].
  exists ct, nonce, w'. split; [done|].
  exact (proj1 (@payload_round_trip Fixture.externals e "upsert" entry w w' ct nonce
                  fixture_aead_correct fixture_json_payload_correct Hrun)).
Defined.

(** ** Frames of the monad *)

#[global] Instance same_but_meta_preorder : PreOrder same_but_meta.
Proof.
  split.
  - by intros w.
  - intros w1 w2 w3 (?&?&?&?&?&?&H12) (?&?&?&?&?&?&H23). unfold same_but_meta.
    split_and!; try congruence. intros k Hk. by rewrite H23, H12.
Qed.

#[global] Instance same_but_rand_preorder : PreOrder same_but_rand.
Proof.
  split.
  - by intros w.
  - intros w1 w2 w3 (?&?&?) (?&?&?). unfold same_but_rand. split_and!; congruence.
Qed.

Section Keeps.
Context (R : relation World) `{!PreOrder R}.

Lemma keeps_run {A} (c : M A) w r w' : keeps R c -> c w = (r, w') -> R w w'.
Proof. intros Hk Hrun. specialize (Hk w). by rewrite Hrun in Hk. Qed.

Lemma keeps_ro {A} (c : M A) : (forall w, (c w).2 = w) -> keeps R c.
Proof. intros Hro w. by rewrite Hro. Qed.

Lemma keeps_ret {A} (a : A) : keeps R (ret a).
Proof. by intros w. Qed.

Lemma keeps_fail {A} err : keeps R (fail (A := A) err).
Proof. by intros w. Qed.

Lemma keeps_lift {A} (r : result A) : keeps R (lift r).
Proof. by intros w. Qed.

Lemma keeps_gets {A} (f : World -> A) : keeps R (gets f).
Proof. by intros w. Qed.

Lemma keeps_bind {A B} (c : M A) (k : A -> M B) :
  keeps R c -> (forall a, keeps R (k a)) -> keeps R (bind c k).
Proof.
  intros Hc Hk w. unfold bind. specialize (Hc w).
  destruct (c w) as [[a|err] w1]; cbn [snd] in *; [|done].
  etrans; [exact Hc|apply Hk].
Qed.

Lemma keeps_wrap {A} msg (c : M A) : keeps R c -> keeps R (wrap msg c).
Proof.
  intros Hc w. unfold wrap. specialize (Hc w). by destruct (c w) as [[a|err] w1].
Qed.

Lemma keeps_catch {A} (c : M A) : keeps R c -> keeps R (catch c).
Proof. intros Hc w. apply Hc. Qed.

Lemma keeps_ignore_err {A} (c : M A) : keeps R c -> keeps R (ignore_err c).
Proof. intros Hc w. apply Hc. Qed.

Lemma keeps_keeps_failing {A} (c : M A) : keeps R c -> keeps_failing R c.
Proof. intros Hc w err w' Hrun. by eapply keeps_run. Qed.

Lemma keeps_failing_bind {A B} (c : M A) (k : A -> M B) :
  keeps R c -> (forall a, keeps_failing R (k a)) -> keeps_failing R (bind c k).
Proof.
  intros Hc Hk w err w' Hrun.
  apply bind_inv in Hrun as [(a & w1 & Hrun1 & Hrun2) | (e0 & Hrun1 & _)].
  - etrans; [by eapply keeps_run|by eapply Hk].
  - by eapply keeps_run.
Qed.

Lemma keeps_failing_wrap {A} msg (c : M A) :
  keeps_failing R c -> keeps_failing R (wrap msg c).
Proof.
  intros Hc w err w' Hrun. apply wrap_Err_inv in Hrun as (e0 & _ & Hrun).
  by eapply Hc.
Qed.

End Keeps.

(** Steps of the frame proofs: a bind, a wrapped read-only call, a
    wrapped pure step. *)
Ltac kbind := apply keeps_bind; [apply _| |].
Ltac kfbind := apply keeps_failing_bind; [apply _| |].
Ltac kro lem := apply keeps_wrap, keeps_ro; [apply _|apply lem].
Ltac klift := apply keeps_wrap, keeps_lift; apply _.

Section PushFrame.
Context `{Externals}.

Lemma same_but_meta_set v w :
  same_but_meta w (with_db (with_meta (insert "lamport" v)) w).
Proof.
  destruct w as [[] ? ? ?]. split_and!; try done.
  intros k Hk. cbn. by rewrite lookup_insert_ne.
Qed.

Lemma same_but_meta_rand w : same_but_meta w (bump_rand w).
Proof. done. Qed.

Lemma keeps_rand_Read R n :
  (forall w, R w (bump_rand w)) -> keeps R (rand_Read n).
Proof. intros HR w. apply HR. Qed.

Lemma keeps_encryptEventPayload R `{!PreOrder R} e op entry :
  (forall w, R w (bump_rand w)) -> keeps R (encryptEventPayload e op entry).
Proof.
  intros HR. unfold encryptEventPayload.
  kbind; [kro GetVaultKey_ro|intros key].
  kbind; [kro get_u64_ro|intros epoch].
  kbind; [klift|intros eventKey].
  destruct (json_Marshal_payload _); [|by apply keeps_fail].
  kbind; [by apply keeps_rand_Read|intros nonce].
  kbind; [klift|intros aead].
  by apply keeps_ret.
Qed.

Lemma keeps_IncrementLamport s : keeps same_but_meta (IncrementLamport s).
Proof. intros w. rewrite IncrementLamport_run. apply same_but_meta_set. Qed.

(** A push that fails, at whatever step, has changed nothing but the
    Lamport clock and the reads of the random source. *)
Lemma PushEntry_failing e entry op : keeps_failing same_but_meta (PushEntry e entry op).
Proof.
  unfold PushEntry. destruct (negb (valid_op op)).
  { apply keeps_keeps_failing, keeps_fail. apply _. }
  kfbind; [kro GetDeviceKeys_ro|intros keys].
  kfbind; [kro GetVaultID_ro|intros vaultID].
  kfbind; [kro get_u64_ro|intros epoch].
  kfbind; [kro GetEventHead_ro|intros head].
  kfbind; [apply keeps_wrap, keeps_IncrementLamport|intros lamport].
  kfbind; [apply keeps_wrap, keeps_encryptEventPayload;
             [apply _|apply same_but_meta_rand]|intros [ct nonce]].
  kfbind; [apply keeps_rand_Read, same_but_meta_rand|intros eventID].
  kfbind; [klift|intros idBytes].
  kfbind; [klift|intros signBytes].
  intros w err w' Hrun.
  apply bind_inv in Hrun as [([] & w1 & Hpost & Hrun) | (e0 & Hpost & _)].
  - exfalso. unfold bind, wrap, SetEventHead, modify, ignore_err in Hrun.
    by destruct (String.eqb op "upsert").
  - unfold wrap, PushEvent in Hpost.
    destruct (relay_PushEvent _ _ _ _); [|done]. by injection Hpost as _ <-.
Qed.

End PushFrame.

(** ** The engine: what a push changes *)

Section PushOutcomes.
Context `{Externals}.

Lemma PushEntry_ok e entry op w w' :
  PushEntry e entry op w = (Ok tt, w') ->
  valid_op op = true /\
  exists event signBytes,
    w' = after_push w entry op event signBytes /\
    relay_PushEvent (client e) (relay_events w) (ev_VaultID event) event = None.
Proof.
  intros Hrun.
  destruct (PushEntry_inv _ _ _ _ _ _ Hrun (or_introl eq_refl))
    as (keys & vaultID & key & plaintext & signBytes & Hinv).
  cbv zeta in Hinv. destruct Hinv as (Hop & _ & _ & _ & _ & _ & Hpost).
  split; [done|].
  destruct (relay_PushEvent _ _ _ _) as [err|] eqn:Hrelay.
  - by destruct Hpost as [[=] _].
  - destruct Hpost as [_ ->]. eexists. exists signBytes. split; [reflexivity|exact Hrelay].
Qed.

Lemma after_push_frame w entry op event signBytes :
  sync_members (db (after_push w entry op event signBytes)) = sync_members (db w) /\
  sync_pending (db (after_push w entry op event signBytes)) = sync_pending (db w) /\
  relay_member_events (after_push w entry op event signBytes) = relay_member_events w /\
  relay_events (after_push w entry op event signBytes) = relay_events w ++ [event].
Proof. by destruct w as [[] ? ? ?]. Qed.

(** X12. A push is all or nothing towards the relay and the chain.  A
    successful [PushEntry] has an op of upsert or delete and appended
    exactly one event to the relay's log.  A failed one, whatever step
    failed, left the log, every event head and every scheme record as
    they were.  With another op it fails before anything is read or
    written.  In no case does it touch the pending queue, the verified
    members or the membership log. *)
Theorem push_is_all_or_nothing (e : Engine) (entry : Entry) (op : string)
    (w w' : World) (r : result unit) :
  PushEntry e entry op w = (r, w') ->
  sync_pending (db w') = sync_pending (db w) /\
  sync_members (db w') = sync_members (db w) /\
  relay_member_events w' = relay_member_events w /\
  (valid_op op = false -> r = Err (ErrNew ("invalid operation: " +:+ op)) /\ w' = w) /\
  match r with
  | Ok _ => valid_op op = true /\ exists event, relay_events w' = relay_events w ++ [event]
  | Err _ =>
      relay_events w' = relay_events w /\
      sync_event_heads (db w') = sync_event_heads (db w) /\
      entry_scheme (db w') = entry_scheme (db w)
  end.
Proof.
  intros Hrun.
  assert (Hinvalid : valid_op op = false ->
                     r = Err (ErrNew ("invalid operation: " +:+ op)) /\ w' = w).
  { intros Hop. unfold PushEntry in Hrun. rewrite Hop in Hrun.
    by injection Hrun as <- <-. }
  destruct r as [[]|err].
  - destruct (PushEntry_ok _ _ _ _ _ Hrun) as (Hop & event & signBytes & -> & _).
    destruct (after_push_frame w entry op event signBytes) as (Hm & Hp & Hme & Hev).
    split_and!; try done. by exists event.
  - destruct (PushEntry_failing _ _ _ _ _ _ Hrun) as (Hm & Hh & Hp & Hs & Hev & Hme & _).
    by split_and!.
Qed.

End PushOutcomes.

Lemma push_is_all_or_nothing_witness :
  let e := Fixture.engine Fixture.unreachable in
  let w := Fixture.world_of Fixture.dev_a [Fixture.dev_a] in
  let entry := Fixture.entry "e1" "ex.com" in
  relay_events (PushEntry (H := Fixture.externals) e entry "upsert" w).2 = relay_events w /\
  sync_event_heads (db (PushEntry (H := Fixture.externals) e entry "upsert" w).2)
  = sync_event_heads (db w).
Proof.
  intros e w entry.
  destruct (PushEntry (H := Fixture.externals) e entry "upsert" w) as [r w'] eqn:Hrun.
  assert (Hr : exists err, r = Err err).
  { assert (Hfst : (PushEntry (H := Fixture.externals) e entry "upsert" w).1
                   = Err (ErrWrap "failed to push event"
                            (ErrNew "request failed: connection refused")))
      by (vm_compute; reflexivity).
    rewrite Hrun in Hfst. by eexists. }
  destruct Hr as [err ->].
  destruct (@push_is_all_or_nothing Fixture.externals e entry "upsert" w w' _ Hrun)
    as (_ & _ & _ & _ & Hev & Hh & _).
  by split.
Defined.

(** ** The pending queue and the pushes *)

Section Flush.
Context `{Externals}.

Lemma GetPendingEntries_ro s w : (GetPendingEntries s w).2 = w.
Proof.
  unfold GetPendingEntries, getVaultKey. munfold. by destruct (vaultKey s).
Qed.

Lemma RemovePendingEntry_run s id w :
  exists w1, RemovePendingEntry s id w = (Ok tt, w1) /\
    sync_pending (db w1)
    = (if String.eqb id "" then sync_pending (db w) else delete id (sync_pending (db w))) /\
    relay_events w1 = relay_events w.
Proof.
  unfold RemovePendingEntry. destruct (String.eqb id "").
  - by exists w.
  - eexists. split; [reflexivity|]. by destruct w as [[] ? ? ?].
Qed.

Lemma removed_subseteq (id : string) (m : gmap string bytes) :
  (if String.eqb id "" then m else delete id m) ⊆ m.
Proof. destruct (String.eqb id ""); [done|]. apply delete_subseteq. Qed.

Lemma PushEntry_frame e entry op w r w' :
  PushEntry e entry op w = (r, w') ->
  sync_pending (db w') = sync_pending (db w) /\
  match r with
  | Ok _ => valid_op op = true /\ exists event, relay_events w' = relay_events w ++ [event]
  | Err _ => relay_events w' = relay_events w
  end.
Proof.
  intros Hrun. destruct r as [[]|err].
  - destruct (PushEntry_ok _ _ _ _ _ Hrun) as (Hop & event & signBytes & -> & _).
    destruct (after_push_frame w entry op event signBytes) as (_ & Hp & _ & Hev).
    split_and!; try done. by exists event.
  - by destruct (PushEntry_failing _ _ _ _ _ _ Hrun) as (_ & _ & Hp & _ & Hev & _).
Qed.

Lemma flush_loop_inv e pending firstErr w r w' :
  flush_loop e pending firstErr w = (r, w') ->
  exists res pushed,
    r = Ok res /\
    relay_events w' = relay_events w ++ pushed /\
    (length pushed <= length pending)%nat /\
    sync_pending (db w') ⊆ sync_pending (db w) /\
    (pushed = [] -> sync_pending (db w') = sync_pending (db w)) /\
    (is_Some firstErr -> res = firstErr) /\
    (res = None ->
       length pushed = length pending /\
       Forall (fun item => valid_op (Op item) = true /\
                 (ID (PEntry item) <> "" ->
                  sync_pending (db w') !! ID (PEntry item) = None)) pending).
Proof.
  revert firstErr w. induction pending as [|item rest IH]; intros firstErr w Hrun.
  - injection Hrun as <- <-. exists firstErr, []. rewrite app_nil_r.
    split_and!; done.
  - cbn [flush_loop] in Hrun. destruct (valid_op (Op item)) eqn:Hop; cbn [negb] in Hrun.
    + unfold bind at 1, catch in Hrun.
      destruct (PushEntry e (PEntry item) (Op item) w) as [r0 w1] eqn:Hpush.
      cbn [fst snd] in Hrun.
      destruct (PushEntry_frame _ _ _ _ _ _ Hpush) as (Hp & Hr0).
      destruct r0 as [[]|err].
      * destruct Hr0 as (_ & event & Hev).
        unfold bind at 1, ignore_err in Hrun.
        destruct (RemovePendingEntry_run (state e) (ID (PEntry item)) w1)
          as (w2 & Hrem & Hp2 & Hev2).
        rewrite Hrem in Hrun. cbn [snd] in Hrun.
        destruct (IH _ _ Hrun) as (res & pushed & -> & Hev3 & Hlen & Hsub & _ & Hfirst & Hall).
        exists res, (event :: pushed). split_and!; try done.
        -- rewrite Hev3, Hev2, Hev. by rewrite <- app_assoc.
        -- cbn [length]. lia.
        -- etrans; [exact Hsub|]. rewrite Hp2, Hp. apply removed_subseteq.
        -- intros Hres. destruct (Hall Hres) as [Hlen' Hrest]. split; [cbn; lia|].
           constructor; [|done]. split; [done|]. intros Hid.
           eapply lookup_weaken_None; [|exact Hsub].
           rewrite Hp2. apply String.eqb_neq in Hid. rewrite Hid.
           apply lookup_delete_eq.
      * rename Hr0 into Hev.
        destruct (IH _ _ Hrun) as (res & pushed & -> & Hev3 & Hlen & Hsub & Hsame & Hfirst & Hall).
        exists res, pushed. split_and!; try done.
        -- by rewrite Hev3, Hev.
        -- cbn [length]. lia.
        -- by rewrite <- Hp.
        -- intros Hnil. by rewrite (Hsame Hnil).
        -- intros Hsome. rewrite Hfirst; by destruct firstErr.
        -- intros ->. by destruct firstErr; specialize (Hfirst ltac:(eauto)).
    + destruct (IH _ _ Hrun) as (res & pushed & -> & Hev3 & Hlen & Hsub & Hsame & Hfirst & Hall).
      exists res, pushed. split_and!; try done.
      * cbn [length]. lia.
      * intros Hsome. rewrite Hfirst; by destruct firstErr.
      * intros ->. by destruct firstErr; specialize (Hfirst ltac:(eauto)).
Qed.

(** X13. [FlushPendingEntries] pushes every queued change at most once
    and the queue only shrinks.  The relay's log grows by the events
    pushed, at most one per queued change; when nothing could be pushed
    the queue is as it was.  When the flush returns no error, every
    queued change had op upsert or delete, exactly one event per change
    was pushed, and no change with an entry id is left under its id.  A
    queue that cannot be read fails the flush and nothing is done. *)
Theorem flush_pushes_each_change_at_most_once (e : Engine) (w w' : World)
    (r : result unit) :
  FlushPendingEntries e w = (r, w') ->
  sync_pending (db w') ⊆ sync_pending (db w) /\
  (forall err, (GetPendingEntries (state e) w).1 = Err err ->
     r = Err (ErrWrap "failed to load pending entries" err) /\ w' = w) /\
  exists pushed,
    relay_events w' = relay_events w ++ pushed /\
    (pushed = [] -> sync_pending (db w') = sync_pending (db w)) /\
    forall pending, (GetPendingEntries (state e) w).1 = Ok pending ->
      (length pushed <= length pending)%nat /\
      (r = Ok tt ->
         length pushed = length pending /\
         Forall (fun item => valid_op (Op item) = true /\
                   (ID (PEntry item) <> "" ->
                    sync_pending (db w') !! ID (PEntry item) = None)) pending).
Proof.
  intros Hrun. unfold FlushPendingEntries in Hrun.
  unfold bind at 1, wrap in Hrun.
  pose proof (GetPendingEntries_ro (state e) w) as Hro.
  destruct (GetPendingEntries (state e) w) as [[pending|err] w0];
    cbn [fst snd] in *; subst w0.
  - destruct pending as [|item rest].
    + injection Hrun as <- <-. split; [done|]. split; [done|].
      exists []. rewrite app_nil_r. split_and!; try done.
      intros ? [= <-]. split; [done|]. by intros _.
    + cbn [length Nat.eqb] in Hrun.
      apply bind_inv in Hrun as [(res & w1 & Hloop & Hrun) | (e0 & Hloop & ->)].
      * destruct (flush_loop_inv _ _ _ _ _ _ Hloop)
          as (res' & pushed & [= <-] & Hev & Hlen & Hsub & Hsame & _ & Hall).
        assert (Hw : w' = w1) by (destruct res; by injection Hrun as _ <-).
        subst w1. split; [done|]. split; [done|].
        exists pushed. split_and!; try done.
        intros ? [= <-]. split; [done|]. intros ->.
        destruct res; [done|]. by apply Hall.
      * by destruct (flush_loop_inv _ _ _ _ _ _ Hloop) as (? & ? & [=] & _).
  - injection Hrun as <- <-. split; [done|]. split; [by intros ? [= <-]|].
    exists []. rewrite app_nil_r. split_and!; done.
Qed.

End Flush.

Section PushHandler.
Context `{Externals}.

Lemma AddPendingEntry_relay s op entry w :
  relay_events (AddPendingEntry s op entry w).2 = relay_events w.
Proof.
  unfold AddPendingEntry. destruct (String.eqb (ID entry) ""); [done|].
  unfold getVaultKey. destruct (vaultKey s) as [key|]; [|done].
  unfold bind at 1, ret. destruct (json_Marshal_payload _); [|done].
  unfold bind, wrap, crypto_Encrypt.
  destruct (NewX key); [|done]. unfold bind, rand_Read, ret, modify. cbn [fst snd].
  by destruct w as [[] ? ? ?].
Qed.

Lemma handleSyncPushEntry_run a s e entry op w :
  syncState a = Some s -> syncEngine a = Some e -> valid_op op = true ->
  handleSyncPushEntry a entry op w =
  match PushEntry e entry op w with
  | (Err err, w1) =>
      (StatusMsg ("Sync push failed (queued for retry): " +:+ Error err) true,
       (AddPendingEntry s op entry w1).2)
  | (Ok _, w1) => (SyncStatusUpdateMsg "synced", (RemovePendingEntry s (ID entry) w1).2)
  end.
Proof.
  intros Hs He Hop. unfold handleSyncPushEntry. rewrite Hs, He, Hop. cbn [negb].
  unfold answer, bind at 1, catch.
  by destruct (PushEntry e entry op w) as [[[]|err] w1].
Qed.

(** X14. What [handleSyncPushEntry] leaves behind.  Without sync
    objects it does nothing; with an op other than upsert and delete it
    reports the error and does nothing.  When the push fails the change
    is queued under the entry id, readable as the same (op, entry), the
    other queued changes stay, nothing reached the relay, and the
    message carries the error; but for an entry without id nothing is
    queued although the message says so.  When the push succeeds the
    change queued for the entry id, if any, is dropped. *)
Theorem push_handler_queues_failed_pushes (a : App) (s : SyncState) (e : Engine)
    (entry : Entry) (op : string) (w : World) :
  (syncState a = None \/ syncEngine a = None ->
     handleSyncPushEntry a entry op w = (NilMsg, w)) /\
  (syncState a = Some s -> syncEngine a = Some e ->
   (valid_op op = false ->
      handleSyncPushEntry a entry op w
      = (StatusMsg "Sync failed: invalid operation" true, w)) /\
   (valid_op op = true ->
    forall err w1, PushEntry e entry op w = (Err err, w1) ->
      let w' := (handleSyncPushEntry a entry op w).2 in
      (handleSyncPushEntry a entry op w).1
      = StatusMsg ("Sync push failed (queued for retry): " +:+ Error err) true /\
      relay_events w' = relay_events w /\
      (ID entry = "" -> sync_pending (db w') = sync_pending (db w)) /\
      (forall key data,
         aead_correct -> json_payload_correct ->
         vaultKey s = Some key -> length key = 32%nat -> ID entry <> "" ->
         json_Marshal_payload {| Op := op; PEntry := entry |} = Some data ->
         (exists record, sync_pending (db w') !! ID entry = Some record /\
                         read_pending key record = Ok {| Op := op; PEntry := entry |}) /\
         (forall id, id <> ID entry ->
            sync_pending (db w') !! id = sync_pending (db w) !! id))) /\
   (forall w1, PushEntry e entry op w = (Ok tt, w1) ->
      let w' := (handleSyncPushEntry a entry op w).2 in
      (handleSyncPushEntry a entry op w).1 = SyncStatusUpdateMsg "synced" /\
      (ID entry <> "" -> sync_pending (db w') = delete (ID entry) (sync_pending (db w))) /\
      (ID entry = "" -> sync_pending (db w') = sync_pending (db w)))).
Proof.
  split.
  - unfold handleSyncPushEntry. intros [->| ->]; [done|]. by destruct (syncState a).
  - intros Hs He. split_and!.
    + intros Hop. unfold handleSyncPushEntry. by rewrite Hs, He, Hop.
    + intros Hop err w1 Hpush.
      destruct (PushEntry_frame _ _ _ _ _ _ Hpush) as (Hp & Hev).
      rewrite (handleSyncPushEntry_run a s e) by done. rewrite Hpush. cbn [fst snd].
      split_and!; try done.
      * by rewrite AddPendingEntry_relay.
      * intros Hid. unfold AddPendingEntry. rewrite Hid. exact Hp.
      * intros key data Haead Hjson Hkey Hlen Hid Hm.
        rewrite (AddPendingEntry_run s key op entry data) by done. cbn [snd].
        rewrite pending_with_pending. split.
        -- eexists. split; [apply lookup_insert_eq|].
           apply read_pending_sealed; try done. apply length_fixN.
        -- intros id Hne. rewrite lookup_insert_ne by done. by rewrite <- Hp.
    + intros w1 Hpush.
      destruct (PushEntry_frame _ _ _ _ _ _ Hpush) as (Hp & Hop & _).
      rewrite (handleSyncPushEntry_run a s e) by done. rewrite Hpush. cbn [fst snd].
      destruct (RemovePendingEntry_run s (ID entry) w1) as (w2 & Hrem & Hp2 & _).
      rewrite Hrem. cbn [fst snd]. split_and!; try done.
      * intros Hid. apply String.eqb_neq in Hid. by rewrite Hp2, Hid, Hp.
      * intros Hid. by rewrite Hp2, Hid, Hp.
Qed.

End PushHandler.

Lemma flush_pushes_each_change_at_most_once_witness :
  let entry := Fixture.entry "e1" "ex.com" in
  let a := {| store_VaultKey := Some Fixture.master_key;
              syncState := Some Fixture.sync_state;
              syncEngine := Some (Fixture.engine Fixture.unreachable) |} in
  let w := (handleSyncPushEntry (H := Fixture.externals) a entry "upsert"
              (Fixture.world_of Fixture.dev_a [Fixture.dev_a])).2 in
  let e := Fixture.engine (Fixture.healthy []) in
  let run := FlushPendingEntries (H := Fixture.externals) e w in
  size (sync_pending (db w)) = 1%nat /\
  run.1 = Ok tt /\
  length (relay_events run.2) = 1%nat /\
  sync_pending (db run.2) !! "e1" = None /\
  sync_pending (db run.2) ⊆ sync_pending (db w).
Proof.
  intros entry a w e run.
  split; [vm_compute; reflexivity|]. split; [vm_compute; reflexivity|].
  split; [vm_compute; reflexivity|]. split; [vm_compute; reflexivity|].
  exact (proj1 (@flush_pushes_each_change_at_most_once Fixture.externals e w run.2 run.1
                  (surjective_pairing run))).
Defined.

Lemma push_handler_queues_failed_pushes_witness :
  let entry := Fixture.entry "e1" "ex.com" in
  let a := {| store_VaultKey := Some Fixture.master_key;
              syncState := Some Fixture.sync_state;
              syncEngine := Some (Fixture.engine Fixture.unreachable) |} in
  let w := Fixture.world_of Fixture.dev_a [Fixture.dev_a] in
  let w' := (handleSyncPushEntry (H := Fixture.externals) a entry "upsert" w).2 in
  exists record,
    sync_pending (db w') !! "e1" = Some record /\
    read_pending (H := Fixture.externals) Fixture.master_key record
    = Ok {| Op := "upsert"; PEntry := entry |}.
Proof.
  intros entry a w w'.
  pose (run := PushEntry (H := Fixture.externals) (Fixture.engine Fixture.unreachable)
                 entry "upsert" w).
  assert (Hpush : run = (Err (ErrWrap "failed to push event"
                                (ErrNew "request failed: connection refused")), run.2)).
  { assert (Hfst : run.1 = Err (ErrWrap "failed to push event"
                                  (ErrNew "request failed: connection refused")))
      by (vm_compute; reflexivity).
    rewrite (surjective_pairing run) at 1. by rewrite Hfst. }
  destruct (@push_handler_queues_failed_pushes Fixture.externals a Fixture.sync_state
              (Fixture.engine Fixture.unreachable) entry "upsert" w) as [_ Hconf].
  destruct (Hconf eq_refl eq_refl) as (_ & Hfail & _).
  destruct (Hfail eq_refl _ _ Hpush) as (_ & _ & _ & Hqueued).
  destruct (Hqueued Fixture.master_key _ fixture_aead_correct fixture_json_payload_correct
              eq_refl eq_refl ltac:(discriminate) eq_refl) as [Hrec _].
  exact Hrec.
Defined.

(** ** The engine: accepting invite claims *)

Section AcceptLoop.
Context `{Externals}.

Lemma keeps_bind_failing R `{!PreOrder R} {A B} (c : M A) (k : A -> M B) :
  keeps R c -> (forall w, exists err, (c w).1 = Err err) -> keeps R (bind c k).
Proof.
  intros Hc Hfail w. unfold bind. specialize (Hc w). destruct (Hfail w) as [err Herr].
  destruct (c w) as [[a|err'] w1]; [done|exact Hc].
Qed.

Lemma same_but_rand_bump w : same_but_rand w (bump_rand w).
Proof. done. Qed.

Lemma GetMembershipHead_ro s w : (GetMembershipHead s w).2 = w.
Proof.
  unfold GetMembershipHead. munfold. repeat (mcase; cbn beta iota; try done).
Qed.

(** While the relay refuses every member event, accepting a claim
    changes neither the store nor the logs. *)
Lemma keeps_AcceptInviteClaim_refused e claim :
  (forall log vaultID event, is_Some (relay_CreateMemberEvent (client e) log vaultID event)) ->
  keeps same_but_rand (AcceptInviteClaim e claim).
Proof.
  intros Hrelay. unfold AcceptInviteClaim.
  kbind; [kro GetDeviceKeys_ro|intros keys].
  kbind; [kro GetVaultID_ro|intros vaultID].
  destruct (negb _); [apply keeps_fail; apply _|].
  kbind; [klift|intros bundle].
  kbind; [kro GetMembershipHead_ro|intros head].
  kbind; [apply keeps_rand_Read, same_but_rand_bump|intros eventID].
  kbind; [klift|intros idBytes].
  kbind; [klift|intros targetBytes].
  kbind; [klift|intros signBytes].
  apply keeps_bind_failing; [apply _| |].
  - intros w. unfold wrap, CreateMemberEvent.
    match goal with
    | |- context [relay_CreateMemberEvent ?c ?l ?v ?ev] =>
        destruct (Hrelay l v ev) as [err ->]
    end.
    done.
  - intros w. unfold wrap, CreateMemberEvent.
    match goal with
    | |- context [relay_CreateMemberEvent ?c ?l ?v ?ev] =>
        destruct (Hrelay l v ev) as [err ->]
    end.
    by eexists.
Qed.

Lemma keeps_accept_claims R `{!PreOrder R} e vaultID claims :
  (forall claim, keeps R (AcceptInviteClaim e claim)) ->
  keeps R (accept_claims e vaultID claims).
Proof.
  intros Hk. induction claims as [|claim rest IH]; [by apply keeps_ret|].
  cbn [accept_claims]. destruct (negb _); [done|].
  kbind; [by apply keeps_catch|intros [[]|err]]; [done|].
  destruct (isInviteAlreadyUsed err); [done|by apply keeps_fail].
Qed.

(** X15. The loop of [AcceptPendingInviteClaims].  An error it returns
    is never one that [isInviteAlreadyUsed] recognises: such an answer
    to a claim is dropped and the loop goes on with the claims that
    follow, while any other error of a claim ends the loop and is
    returned as it is.  A wrapper around an error does not hide it from
    the test.  Claims of another vault are passed over without a call:
    the loop runs as on the claims of this vault alone. *)
Theorem accept_loop_skips_used_invites (e : Engine) (vaultID : UUID)
    (claims : list InviteClaim) (w : World) :
  (forall err w', accept_claims e vaultID claims w = (Err err, w') ->
     isInviteAlreadyUsed err = false) /\
  (forall claim rest err w1,
     claims = claim :: rest -> ic_VaultID claim = vaultID ->
     AcceptInviteClaim e claim w = (Err err, w1) ->
     accept_claims e vaultID claims w
     = (if isInviteAlreadyUsed err then accept_claims e vaultID rest w1 else (Err err, w1))) /\
  (forall msg err, isInviteAlreadyUsed (ErrWrap msg err) = isInviteAlreadyUsed err) /\
  accept_claims e vaultID claims w
  = accept_claims e vaultID
      (filter (fun claim => ic_VaultID claim = vaultID) claims) w.
Proof.
  split_and!.
  - revert w. induction claims as [|claim rest IH]; intros w err w' Hrun; [done|].
    cbn [accept_claims] in Hrun. destruct (negb _); [by eapply IH|].
    unfold bind at 1, catch in Hrun.
    destruct (AcceptInviteClaim e claim w) as [[[]|err0] w1]; cbn [fst snd] in Hrun.
    + by eapply IH.
    + destruct (isInviteAlreadyUsed err0) eqn:Hused; [by eapply IH|].
      by injection Hrun as <- <-.
  - intros claim rest err w1 -> Hv Hrun. cbn [accept_claims].
    rewrite bool_decide_eq_true_2 by done. cbn [negb].
    unfold bind at 1, catch. rewrite Hrun. cbn [fst snd].
    by destruct (isInviteAlreadyUsed err).
  - done.
  - revert w. induction claims as [|claim rest IH]; intros w; [done|].
    cbn [accept_claims]. rewrite filter_cons.
    destruct (decide (ic_VaultID claim = vaultID)) as [Hv|Hv].
    + rewrite bool_decide_eq_true_2 by done. cbn [negb accept_claims].
      rewrite bool_decide_eq_true_2 by done. cbn [negb].
      unfold bind at 1 2, catch.
      destruct (AcceptInviteClaim e claim w) as [[[]|err0] w1]; cbn [fst snd]; [apply IH|].
      destruct (isInviteAlreadyUsed err0); [apply IH|done].
    + rewrite bool_decide_eq_false_2 by done. cbn [negb]. apply IH.
Qed.

(** X16. Replaying claims against a relay that refuses every member
    event: [AcceptPendingInviteClaims] leaves the store, the membership
    log and the event log as they were, whatever it returns; no second
    member_add is produced. *)
Theorem refused_claims_change_nothing (e : Engine) (w : World) :
  (forall log vaultID event, is_Some (relay_CreateMemberEvent (client e) log vaultID event)) ->
  let w' := (AcceptPendingInviteClaims e w).2 in
  db w' = db w /\
  relay_member_events w' = relay_member_events w /\
  relay_events w' = relay_events w.
Proof.
  intros Hrelay. cbv zeta.
  assert (Hk : keeps same_but_rand (AcceptPendingInviteClaims e)).
  { unfold AcceptPendingInviteClaims.
    kbind; [kro GetDeviceKeys_ro|intros keys].
    kbind; [klift|intros claims].
    destruct (length claims =? 0)%nat; [apply keeps_ret; apply _|].
    kbind; [kro GetVaultID_ro|intros vaultID].
    apply keeps_accept_claims; [apply _|]. intros claim.
    by apply keeps_AcceptInviteClaim_refused. }
  destruct (Hk w) as (Hdb & Hev & Hme). by split_and!.
Qed.

End AcceptLoop.

Lemma accept_loop_skips_used_invites_witness :
  let e := Fixture.engine Fixture.owner_relay in
  let w := Fixture.world_of Fixture.dev_a [Fixture.dev_a] in
  let claims := [Fixture.claim_of "1" "bbbb"; Fixture.claim_of "2" "cccc"] in
  let first := AcceptInviteClaim (H := Fixture.externals) e (Fixture.claim_of "1" "bbbb") w in
  accept_claims (H := Fixture.externals) e Fixture.the_vault_id claims w
  = accept_claims (H := Fixture.externals) e Fixture.the_vault_id
      [Fixture.claim_of "2" "cccc"] first.2 /\
  (accept_claims (H := Fixture.externals) e Fixture.the_vault_id claims w).1 = Ok tt.
Proof.
  intros e w claims first.
  assert (Hfirst : first = (Err (ErrWrap "failed to create member event" Fixture.used_error),
                            first.2)).
  { assert (Hfst : first.1 = Err (ErrWrap "failed to create member event"
                                    Fixture.used_error)) by (vm_compute; reflexivity).
    rewrite (surjective_pairing first) at 1. by rewrite Hfst. }
  destruct (@accept_loop_skips_used_invites Fixture.externals e Fixture.the_vault_id
              claims w) as (_ & Hstep & _).
  split; [|vm_compute; reflexivity].
  exact (Hstep _ _ _ _ eq_refl eq_refl Hfirst).
Defined.

Lemma refused_claims_change_nothing_witness :
  let relay :=
    {| relay_GetInviteClaims := fun _ => Ok [Fixture.claim_of "1" "bbbb"];
       relay_GetDevice := relay_GetDevice Fixture.owner_relay;
       relay_CreateMemberEvent := fun _ _ _ => Some Fixture.used_error;
       relay_PushEvent := fun _ _ _ => None;
       relay_PullEvents := fun _ _ => Ok [] |} in
  let w := Fixture.world_of Fixture.dev_a [Fixture.dev_a] in
  let run := AcceptPendingInviteClaims (H := Fixture.externals) (Fixture.engine relay) w in
  run.1 = Ok tt /\ db run.2 = db w /\ rand_reads run.2 = S (rand_reads w).
Proof.
  intros relay w run.
  split; [vm_compute; reflexivity|]. split; [|vm_compute; reflexivity].
  exact (proj1 (@refused_claims_change_nothing Fixture.externals (Fixture.engine relay) w
                  (fun _ _ _ => ltac:(by eexists)))).
Defined.

(** ** The merge: cursor, skipped batches, untouched ids *)

Section SyncMore.
Context `{Externals}.

Lemma maxSeq_fold e w events acc :
  maxSeq (fold_left (merge_step e w) events acc)
  = max_seq_of (maxSeq acc) (filter (fun ev => passes e w ev = true) events).
Proof.
  revert acc. induction events as [|event events IH]; intros acc; [done|].
  cbn [fold_left]. rewrite IH. unfold merge_step, passes at 2.
  rewrite filter_cons. unfold passes.
  destruct (opened e w event) as [[[op entry] scheme]|]; [|done].
  rewrite decide_True by done. unfold max_seq_of at 2. cbn [fold_left].
  fold (max_seq_of (Z.max (maxSeq acc) (u64 (Seq event)))
          (filter (fun ev => match opened e w ev with Some _ => true | None => false end = true)
             events)).
  f_equal. cbn [track_max maxSeq]. rewrite maxSeq_merged.
  destruct (Z.gtb_spec (u64 (Seq event)) (maxSeq acc)); lia.
Qed.

Lemma max_seq_of_ge current events : current <= max_seq_of current events.
Proof.
  revert current. induction events as [|ev events IH]; intros current; [done|].
  cbn [max_seq_of fold_left]. etransitivity; [|apply IH]. lia.
Qed.

Lemma max_seq_of_u64 current events :
  0 <= current < 2 ^ 64 -> 0 <= max_seq_of current events < 2 ^ 64.
Proof.
  revert current. induction events as [|ev events IH]; intros current Hc; [done|].
  cbn [max_seq_of fold_left]. apply IH. pose proof (u64_range (Seq ev)). lia.
Qed.

Lemma stored_cursor_same w w1 :
  same_but_scheme w w1 -> stored_cursor w1 = stored_cursor w.
Proof. intros (Hm & _). unfold stored_cursor, stored_u64. by rewrite Hm. Qed.

(** X17. The sync cursor after a successful [SyncEntries] is the
    largest relay sequence number among the old cursor and the pulled
    events that were merged (not skipped); it never moves back, and an
    event that is skipped does not move it. *)
Theorem cursor_follows_merged_events (e : Engine) (localEntries entries : list Entry)
    (w w' : World) :
  SyncEntries e localEntries w = (Ok entries, w') ->
  exists vaultID events,
    GetVaultID (state e) w = (Ok vaultID, w) /\
    relay_PullEvents (client e) vaultID (stored_cursor w) = Ok events /\
    stored_cursor w'
    = max_seq_of (stored_cursor w) (filter (fun event => passes e w event = true) events) /\
    stored_cursor w <= stored_cursor w'.
Proof.
  intros Hrun.
  destruct (SyncEntries_inv _ _ _ _ _ Hrun)
    as (vaultID & events & w1 & Hvid & Hpull & Hsame & Hres).
  cbv zeta in Hres. destruct Hres as [_ ->].
  exists vaultID, events. split; [done|]. split; [done|].
  set (acc := fold_left _ _ _).
  set (seen := filter _ events).
  assert (Hmax : maxSeq acc = max_seq_of (stored_cursor w) seen).
  { subst acc. by rewrite maxSeq_fold. }
  set (w2 := if maxSeq acc >? stored_cursor w then _ else w1).
  assert (Hw2 : stored_cursor w2 = max_seq_of (stored_cursor w) seen).
  { subst w2. pose proof (max_seq_of_ge (stored_cursor w) seen).
    destruct (Z.gtb_spec (maxSeq acc) (stored_cursor w)) as [Hgt|Hle].
    - unfold stored_cursor at 1. rewrite stored_u64_insert, Hmax.
      apply u64_small, max_seq_of_u64, stored_u64_range.
    - rewrite (stored_cursor_same _ _ Hsame). lia. }
  assert (Hcur : stored_cursor
                   (if maxLamport acc >? stored_lamport w
                    then with_db (with_meta (insert "lamport"
                           (PutUint64 (u64 (Z.max (stored_lamport w2) (maxLamport acc) + 1)))))
                           w2
                    else w2) = stored_cursor w2).
  { destruct (maxLamport acc >? stored_lamport w); [|done].
    unfold stored_cursor. by rewrite stored_u64_insert_ne. }
  rewrite Hcur, Hw2. split; [done|]. apply max_seq_of_ge.
Qed.

Lemma fold_events_skipped e events acc w :
  Forall (fun event => passes e w event = false) events ->
  fold_events (sync_event e) acc events w = (Ok acc, w).
Proof.
  induction 1 as [|event events Hskip _ IH]; [done|].
  cbn [fold_events]. unfold bind at 1, sync_event. unfold bind at 1.
  rewrite open_event_opened. unfold passes in Hskip.
  destruct (opened e w event); [done|]. exact IH.
Qed.

Lemma local_map_snoc l entry :
  local_map (l ++ [entry]) = <[ID entry := entry]> (local_map l).
Proof. unfold local_map. by rewrite fold_left_app. Qed.

Lemma local_map_lookup_None l id :
  id ∉ ID <$> l -> local_map l !! id = None.
Proof.
  induction l as [|entry l IH] using rev_ind; [done|].
  rewrite fmap_app, local_map_snoc. intros Hnin.
  rewrite lookup_insert_ne by set_solver. apply IH. set_solver.
Qed.

Lemma local_map_values l :
  NoDup (ID <$> l) -> (map_to_list (local_map l)).*2 ≡ₚ l.
Proof.
  induction l as [|entry l IH] using rev_ind; [done|].
  rewrite fmap_app, local_map_snoc. intros Hnd.
  apply NoDup_app in Hnd as (Hl & Hnin & _).
  rewrite map_to_list_insert.
  2:{ apply local_map_lookup_None. intros Hin. apply (Hnin _ Hin). set_solver. }
  cbn. rewrite IH by done. by rewrite Permutation_cons_append.
Qed.

(** X18. A pulled batch in which every event is skipped (sender not
    verified, bad signature, payload not decryptable) changes nothing:
    [SyncEntries] succeeds, the store is as before, the cursor with it
    (so the same events are served again by the next pull), and the
    result holds the local entries, one per id; when the local ids are
    distinct it is a permutation of the local entries. *)
Theorem skipped_batch_changes_nothing (e : Engine) (localEntries : list Entry)
    (w : World) (vaultID : UUID) (events : list Event) :
  GetVaultID (state e) w = (Ok vaultID, w) ->
  relay_PullEvents (client e) vaultID (stored_cursor w) = Ok events ->
  Forall (fun event => passes e w event = false) events ->
  SyncEntries e localEntries w = (Ok (map_to_list (local_map localEntries)).*2, w) /\
  (NoDup (ID <$> localEntries) ->
   (map_to_list (local_map localEntries)).*2 ≡ₚ localEntries).
Proof.
  intros Hvid Hpull Hskip. split; [|apply local_map_values].
  unfold SyncEntries. unfold bind at 1, wrap. rewrite Hvid.
  unfold bind at 1, GetSyncCursor. rewrite get_u64_stored.
  unfold bind at 1, PullEvents_client, lift.
  change (stored_u64 keySyncCursor w) with (stored_cursor w). rewrite Hpull.
  unfold bind at 1, GetLamport. rewrite get_u64_stored.
  unfold bind at 1. rewrite fold_events_skipped by done.
  cbn [init_merge maxSeq maxLamport entryMap].
  rewrite !Z.gtb_ltb, !Z.ltb_irrefl. reflexivity.
Qed.

End SyncMore.

Lemma cursor_follows_merged_events_witness :
  let events := Sample.numbered 5
                  (Fixture.events_of Fixture.dev_a
                     [(Fixture.entry "e1" "ex.com", "upsert");
                      (Fixture.entry "e2" "ex.org", "upsert")]) in
  let e := Fixture.engine (Fixture.healthy events) in
  let w := Fixture.world_of Fixture.dev_b [Fixture.dev_a; Fixture.dev_b] in
  exists entries w',
    SyncEntries (H := Fixture.externals) e [] w = (Ok entries, w') /\
    stored_cursor w = 0 /\
    map Seq events = [5; 6] /\
    stored_cursor w' = 6 /\
    stored_cursor w <= stored_cursor w'.
Proof.
  intros events e w.
  assert (Hrun : SyncEntries (H := Fixture.externals) e [] w
                 = (Ok (default [] (match (SyncEntries (H := Fixture.externals) e [] w).1 with
                                    | Ok l => Some l | Err _ => None end)),
                    (SyncEntries (H := Fixture.externals) e [] w).2))
    by (vm_compute; reflexivity).
  destruct (@cursor_follows_merged_events Fixture.externals e [] _ w _ Hrun)
    as (vaultID & evs & _ & _ & _ & Hle).
  eexists _, _. split; [exact Hrun|].
  split; [vm_compute; reflexivity|]. split; [vm_compute; reflexivity|].
  split; [vm_compute; reflexivity|]. exact Hle.
Defined.

Lemma skipped_batch_changes_nothing_witness :
  let events := Sample.numbered 5
                  (Fixture.events_of Fixture.dev_a
                     [(Fixture.entry "e1" "ex.com", "upsert")]) in
  let e := Fixture.engine (Fixture.healthy events) in
  let w := Fixture.world_of Fixture.dev_b [Fixture.dev_b] in
  let localEntries := [Fixture.entry "e9" "ex.net"] in
  SyncEntries (H := Fixture.externals) e localEntries w
  = (Ok (map_to_list (local_map localEntries)).*2, w) /\
  map (passes (H := Fixture.externals) e w) events = [false].
Proof.
  intros events e w localEntries.
  assert (Hskip : map (passes (H := Fixture.externals) e w) events = [false])
    by (vm_compute; reflexivity).
  split; [|exact Hskip].
  refine (proj1 (@skipped_batch_changes_nothing Fixture.externals e localEntries w
                   Fixture.the_vault_id events _ eq_refl _)).
  - vm_compute. reflexivity.
  - refine (bool_decide_unpack _ _). vm_compute. exact I.
Defined.

(** ** The merge: ids *)

Section SyncIds.
Context `{Externals}.

Lemma keyed_ids (m : gmap string Entry) :
  keyed m -> ID <$> (map_to_list m).*2 = (map_to_list m).*1.
Proof.
  intros Hk.
  assert (Hall : Forall (fun kv => ID kv.2 = kv.1) (map_to_list m)).
  { apply Forall_forall. intros [k entry] Hin. apply elem_of_map_to_list in Hin.
    by apply Hk. }
  induction Hall as [|[k entry] l Hkv _ IH]; [done|]. cbn in *. by rewrite Hkv, IH.
Qed.

Lemma merged_other acc op entry l d id :
  ID entry <> id ->
  entryMap (merged acc op entry l d) !! id = entryMap acc !! id /\
  entryLamport (merged acc op entry l d) !! id = entryLamport acc !! id /\
  deletedIDs (merged acc op entry l d) !! id = deletedIDs acc !! id.
Proof.
  intros Hne. unfold merged. repeat mcase; try done; cbn.
  - by rewrite lookup_delete_ne, !lookup_insert_ne.
  - by rewrite !lookup_insert_ne.
Qed.

Lemma merge_step_other e w acc event id :
  spoken_id e w event <> Some id ->
  entryMap (merge_step e w acc event) !! id = entryMap acc !! id /\
  entryLamport (merge_step e w acc event) !! id = entryLamport acc !! id /\
  deletedIDs (merge_step e w acc event) !! id = deletedIDs acc !! id.
Proof.
  intros Hno. unfold merge_step.
  destruct (opened e w event) as [[[op entry] scheme]|] eqn:Hop; [|done].
  cbn [track_max entryMap entryLamport deletedIDs]. apply merged_other.
  intros Hid. apply Hno. unfold spoken_id. by rewrite Hop, Hid.
Qed.

Lemma fold_other e w events acc id :
  Forall (fun event => spoken_id e w event <> Some id) events ->
  entryMap (fold_left (merge_step e w) events acc) !! id = entryMap acc !! id /\
  entryLamport (fold_left (merge_step e w) events acc) !! id = entryLamport acc !! id /\
  deletedIDs (fold_left (merge_step e w) events acc) !! id = deletedIDs acc !! id.
Proof.
  intros Hall. revert acc. induction Hall as [|event events Hno _ IH]; intros acc; [done|].
  cbn [fold_left]. destruct (IH (merge_step e w acc event)) as (-> & -> & ->).
  by apply merge_step_other.
Qed.

(** X19. The result of a successful [SyncEntries] holds at most one
    entry per id, and for an id that no merged event of the batch
    speaks of it holds exactly what the local entries had for it (the
    last local entry of that id, or nothing). *)
Theorem sync_keeps_untouched_ids (e : Engine) (localEntries entries : list Entry)
    (w w' : World) (vaultID : UUID) (events : list Event) :
  SyncEntries e localEntries w = (Ok entries, w') ->
  GetVaultID (state e) w = (Ok vaultID, w) ->
  relay_PullEvents (client e) vaultID (stored_cursor w) = Ok events ->
  NoDup (ID <$> entries) /\
  forall id, Forall (fun event => spoken_id e w event <> Some id) events ->
    forall entry, entry ∈ entries /\ ID entry = id <->
                  local_map localEntries !! id = Some entry.
Proof.
  intros Hrun Hvid Hpull.
  destruct (SyncEntries_result _ _ _ _ _ _ _ Hrun Hvid Hpull) as [Hkeyed ->].
  split.
  - rewrite keyed_ids by done. apply NoDup_fst_map_to_list.
  - intros id Hno entry. rewrite values_at_id by done.
    destruct (fold_other e w events
                (init_merge localEntries (stored_cursor w) (stored_lamport w)) id Hno)
      as (-> & _). done.
Qed.

Lemma deleted_stays e w events acc id :
  deletedIDs acc !! id = Some true -> entryMap acc !! id = None ->
  entryMap (fold_left (merge_step e w) events acc) !! id = None.
Proof.
  revert acc. induction events as [|event events IH]; intros acc Hdel Hmap; [done|].
  cbn [fold_left]. unfold merge_step at 2.
  destruct (opened e w event) as [[[op entry] scheme]|]; [|by apply IH].
  apply IH; cbn [track_max deletedIDs entryMap].
  - unfold merged. repeat mcase; try done. cbn.
    destruct (decide (ID entry = id)) as [->|Hne].
    + by rewrite lookup_insert_eq.
    + by rewrite lookup_insert_ne.
  - unfold merged. repeat mcase; try done; cbn.
    + destruct (decide (ID entry = id)) as [->|Hne].
      * by rewrite lookup_delete_eq.
      * by rewrite lookup_delete_ne.
    + destruct (decide (ID entry = id)) as [Heq|Hne].
      * exfalso. rewrite Heq, Hdel in *. done.
      * by rewrite lookup_insert_ne.
Qed.

(** X20. The first merged event of a batch for an id overrides the
    local entry, whose age is not looked at.  If that event is a delete,
    the id is absent from the result whatever the rest of the batch
    says.  If it is an upsert and no later event of the batch speaks of
    the id, the result holds the entry of the upsert for the id. *)
Theorem first_event_overrides_local (e : Engine) (localEntries entries : list Entry)
    (w w' : World) (vaultID : UUID) (pre post : list Event) (first : Event)
    (op : string) (entry : Entry) (scheme : string) :
  SyncEntries e localEntries w = (Ok entries, w') ->
  GetVaultID (state e) w = (Ok vaultID, w) ->
  relay_PullEvents (client e) vaultID (stored_cursor w) = Ok (pre ++ first :: post) ->
  Forall (fun event => spoken_id e w event <> Some (ID entry)) pre ->
  opened e w first = Some (op, entry, scheme) ->
  (op = "delete" -> forall x, x ∈ entries -> ID x <> ID entry) /\
  (op = "upsert" ->
   Forall (fun event => spoken_id e w event <> Some (ID entry)) post ->
   forall x, x ∈ entries /\ ID x = ID entry <-> x = entry).
Proof.
  intros Hrun Hvid Hpull Hpre Hfirst.
  destruct (SyncEntries_result _ _ _ _ _ _ _ Hrun Hvid Hpull) as [Hkeyed ->].
  rewrite fold_left_app in Hkeyed |- *. cbn [fold_left] in Hkeyed |- *.
  set (acc0 := fold_left (merge_step e w) pre
                 (init_merge localEntries (stored_cursor w) (stored_lamport w))) in *.
  destruct (fold_other e w pre
              (init_merge localEntries (stored_cursor w) (stored_lamport w))
              (ID entry) Hpre) as (_ & Hlam & Hdel).
  fold acc0 in Hlam, Hdel. cbn [init_merge entryLamport deletedIDs] in Hlam, Hdel.
  rewrite lookup_empty in Hlam. rewrite lookup_empty in Hdel.
  assert (Hwins : wins acc0 (ID entry) (u64 (Lamport first)) (ev_DeviceID first) = true).
  { unfold wins. by rewrite Hlam. }
  split.
  - intros -> x Hx Hid.
    assert (Hnone : entryMap (fold_left (merge_step e w) post (merge_step e w acc0 first))
                    !! ID entry = None).
    { apply deleted_stays; unfold merge_step; rewrite Hfirst;
        cbn [track_max deletedIDs entryMap]; unfold merged; cbn [String.eqb Ascii.eqb Bool.eqb];
        rewrite Hwins; cbn.
      - apply lookup_insert_eq.
      - apply lookup_delete_eq. }
    pose proof (proj1 (values_at_id _ x (ID entry) Hkeyed) (conj Hx Hid)) as Hsome.
    by rewrite Hnone in Hsome.
  - intros -> Hpost x. rewrite values_at_id by done.
    destruct (fold_other e w post (merge_step e w acc0 first) (ID entry) Hpost)
      as (-> & _).
    unfold merge_step. rewrite Hfirst. cbn [track_max entryMap].
    unfold merged. cbn [String.eqb Ascii.eqb Bool.eqb]. rewrite Hwins, Hdel. cbn.
    rewrite lookup_insert_eq. split; [by intros [= <-]|by intros ->].
Qed.

End SyncIds.

Lemma sync_keeps_untouched_ids_witness :
  let events := Sample.numbered 5
                  (Fixture.events_of Fixture.dev_a
                     [(Fixture.entry "e1" "ex.com", "upsert")]) in
  let e := Fixture.engine (Fixture.healthy events) in
  let w := Fixture.world_of Fixture.dev_b [Fixture.dev_a; Fixture.dev_b] in
  let localEntries := [Fixture.entry "e9" "ex.net"; Fixture.entry "e1" "old.com"] in
  let run := SyncEntries (H := Fixture.externals) e localEntries w in
  exists entries,
    run = (Ok entries, run.2) /\
    Fixture.entry "e9" "ex.net" ∈ entries /\
    length entries = 2%nat.
Proof.
  intros events e w localEntries run.
  destruct run.1 as [entries|err] eqn:Hfst; [|by vm_compute in Hfst].
  assert (Hrun : run = (Ok entries, run.2)).
  { rewrite (surjective_pairing run) at 1. by rewrite Hfst. }
  exists entries. split; [exact Hrun|].
  assert (Hvid : GetVaultID (state e) w
                 = (Ok Fixture.the_vault_id, w)) by (vm_compute; reflexivity).
  destruct (@sync_keeps_untouched_ids Fixture.externals e localEntries entries w run.2
              Fixture.the_vault_id events Hrun Hvid eq_refl) as [_ Hkeep].
  split.
  - refine (proj1 (proj2 (Hkeep "e9" _ (Fixture.entry "e9" "ex.net")) _)).
    + refine (bool_decide_unpack _ _). vm_compute. exact I.
    + vm_compute. reflexivity.
  - vm_compute in Hfst. by injection Hfst as <-.
Defined.

Lemma first_event_overrides_local_witness :
  let events := Sample.numbered 5
                  (Fixture.events_of Fixture.dev_a
                     [(Fixture.entry "e1" "ex.com", "delete");
                      (Fixture.entry "e1" "ex.com", "upsert")]) in
  let e := Fixture.engine (Fixture.healthy events) in
  let w := Fixture.world_of Fixture.dev_b [Fixture.dev_a; Fixture.dev_b] in
  let localEntries := [Fixture.entry "e1" "old.com"] in
  let run := SyncEntries (H := Fixture.externals) e localEntries w in
  exists entries,
    run = (Ok entries, run.2) /\
    map Lamport events = [1; 2] /\
    forall x, x ∈ entries -> ID x <> "e1".
Proof.
  intros events e w localEntries run.
  destruct run.1 as [entries|err] eqn:Hfst; [|by vm_compute in Hfst].
  assert (Hrun : run = (Ok entries, run.2)).
  { rewrite (surjective_pairing run) at 1. by rewrite Hfst. }
  exists entries. split; [exact Hrun|]. split; [vm_compute; reflexivity|].
  assert (Hvid : GetVaultID (state e) w
                 = (Ok Fixture.the_vault_id, w)) by (vm_compute; reflexivity).
  assert (Hev : events = [Fixture.event_at 0 events; Fixture.event_at 1 events])
    by (vm_compute; reflexivity).
  assert (Hfirst : opened (H := Fixture.externals) e w (Fixture.event_at 0 events)
                   = Some ("delete", Fixture.entry "e1" "ex.com", "v2"))
    by (vm_compute; reflexivity).
  assert (Hpull : relay_PullEvents (client e) Fixture.the_vault_id (stored_cursor w)
                  = Ok ([] ++ Fixture.event_at 0 events :: [Fixture.event_at 1 events])).
  { cbn [app]. rewrite <- Hev. reflexivity. }
  exact (proj1 (@first_event_overrides_local Fixture.externals e localEntries entries w
                  run.2 Fixture.the_vault_id [] [Fixture.event_at 1 events]
                  (Fixture.event_at 0 events) "delete" (Fixture.entry "e1" "ex.com") "v2"
                  Hrun Hvid Hpull (Forall_nil_2 _) Hfirst) eq_refl).
Defined.

(** ** The engine: [PullEvents] *)

Section Pull.
Context `{Externals}.

Lemma passes_same e w w1 event :
  same_but_scheme w w1 -> passes e w1 event = passes e w event.
Proof. intros Hs. unfold passes. by rewrite (opened_same _ _ _ _ Hs). Qed.

Lemma arrival_same e w w1 event :
  same_but_scheme w w1 -> arrival e w1 event = arrival e w event.
Proof. intros Hs. unfold arrival. by rewrite (opened_same _ _ _ _ Hs). Qed.

Lemma pull_event_run e es ms ml event w :
  exists w1,
    pull_event e (es, ms, ml) event w
    = (Ok (es ++ option_list (arrival e w event),
           (if passes e w event then Z.max ms (u64 (Seq event)) else ms),
           (if passes e w event then Z.max ml (u64 (Lamport event)) else ml)), w1) /\
    same_but_scheme w w1.
Proof.
  unfold pull_event, arrival, passes. unfold bind at 1. rewrite open_event_opened.
  destruct (opened e w event) as [[[op entry] scheme]|].
  - assert (Hms : (if u64 (Seq event) >? ms then u64 (Seq event) else ms)
                  = Z.max ms (u64 (Seq event))).
    { destruct (Z.gtb_spec (u64 (Seq event)) ms); lia. }
    assert (Hml : (if u64 (Lamport event) >? ml then u64 (Lamport event) else ml)
                  = Z.max ml (u64 (Lamport event))).
    { destruct (Z.gtb_spec (u64 (Lamport event)) ml); lia. }
    rewrite Hms, Hml. destruct (valid_op op).
    + destruct (String.eqb op "upsert"); (eexists; split; [reflexivity|]);
        apply same_but_scheme_set.
    + exists w. rewrite app_nil_r. split; [done|]. apply same_but_scheme_refl.
  - exists w. rewrite app_nil_r. split; [done|]. apply same_but_scheme_refl.
Qed.

Lemma fold_events_pull e events es ms ml w :
  exists w1,
    fold_events (pull_event e) (es, ms, ml) events w
    = (Ok (es ++ omap (arrival e w) events,
           max_seq_of ms (filter (fun ev => passes e w ev = true) events),
           max_lamport_of ml (filter (fun ev => passes e w ev = true) events)), w1) /\
    same_but_scheme w w1.
Proof.
  revert es ms ml w. induction events as [|event events IH]; intros es ms ml w.
  - exists w. cbn. rewrite app_nil_r. split; [done|]. apply same_but_scheme_refl.
  - destruct (pull_event_run e es ms ml event w) as (w1 & Hrun & Hs1).
    destruct (IH (es ++ option_list (arrival e w event))
                (if passes e w event then Z.max ms (u64 (Seq event)) else ms)
                (if passes e w event then Z.max ml (u64 (Lamport event)) else ml) w1)
      as (w2 & Hfold & Hs2).
    exists w2. split; [|by eapply same_but_scheme_trans].
    cbn [fold_events]. unfold bind. rewrite Hrun, Hfold. do 3 f_equal.
    + f_equal.
      * rewrite <- app_assoc. f_equal. change (event :: events) with ([event] ++ events).
        rewrite omap_app.
        assert (Hext : omap (arrival e w1) events = omap (arrival e w) events).
        { apply list_omap_ext, Forall2_same_length_lookup. split; [done|].
          intros i x y Hx Hy. rewrite Hx in Hy. injection Hy as <-.
          by apply arrival_same. }
        rewrite Hext. f_equal; cbn; by destruct (arrival e w event).
      * assert (Hext : filter (fun ev => passes e w1 ev = true) events
                       = filter (fun ev => passes e w ev = true) events).
        { apply list_filter_iff. intros ev. by rewrite (passes_same _ _ _ _ Hs1). }
        rewrite Hext, filter_cons. by destruct (passes e w event).
    + assert (Hext : filter (fun ev => passes e w1 ev = true) events
                     = filter (fun ev => passes e w ev = true) events).
      { apply list_filter_iff. intros ev. by rewrite (passes_same _ _ _ _ Hs1). }
      rewrite Hext, filter_cons. by destruct (passes e w event).
Qed.

(** X21. [PullEvents] does not merge.  A successful call returns, in
    the order of arrival, the entry of every pulled event that was not
    skipped and is an upsert or a delete, several for one id if several
    came, the entries of deletes among them.  The cursor becomes the
    largest sequence number seen among the events not skipped, the
    clock is bumped past the largest Lamport value among them only if
    that exceeds the stored one, and an empty batch changes nothing. *)
Theorem pull_lists_arrivals (e : Engine) (w w' : World) (entries : list Entry)
    (vaultID : UUID) (events : list Event) :
  PullEvents e w = (Ok entries, w') ->
  GetVaultID (state e) w = (Ok vaultID, w) ->
  relay_PullEvents (client e) vaultID (stored_cursor w) = Ok events ->
  let seen := filter (fun event => passes e w event = true) events in
  entries = omap (arrival e w) events /\
  stored_cursor w' = max_seq_of (stored_cursor w) seen /\
  stored_lamport w'
  = (let m := max_lamport_of (stored_lamport w) seen in
     if m >? stored_lamport w then u64 (m + 1) else stored_lamport w) /\
  (events = [] -> w' = w).
Proof.
  intros Hrun Hvid Hpull seen. unfold PullEvents in Hrun.
  unfold bind at 1, wrap in Hrun. rewrite Hvid in Hrun.
  unfold bind at 1, GetSyncCursor in Hrun. rewrite get_u64_stored in Hrun.
  change (stored_u64 keySyncCursor w) with (stored_cursor w) in Hrun.
  unfold bind at 1, PullEvents_client, lift in Hrun. rewrite Hpull in Hrun.
  destruct events as [|event events'].
  { injection Hrun as <- <-. split_and!; try done.
    cbn. by rewrite Z.gtb_ltb, Z.ltb_irrefl. }
  cbn [length Nat.eqb] in Hrun.
  set (events := event :: events') in *.
  unfold bind at 1, GetLamport in Hrun. rewrite get_u64_stored in Hrun.
  change (stored_u64 keyLamport w) with (stored_lamport w) in Hrun.
  destruct (fold_events_pull e events [] (stored_cursor w) (stored_lamport w) w)
    as (w1 & Hfold & Hsame).
  unfold bind at 1 in Hrun. rewrite Hfold in Hrun. fold seen in Hrun.
  cbn [app] in Hrun.
  set (ms := max_seq_of (stored_cursor w) seen) in *.
  set (ml := max_lamport_of (stored_lamport w) seen) in *.
  apply bind_inv in Hrun as [([] & w2 & Hcur & Hrun) | (e0 & Hcur & [=])].
  assert (Hw2 : w2 = if ms >? stored_cursor w
                     then with_db (with_meta (insert "sync_cursor" (PutUint64 ms))) w1
                     else w1).
  { destruct (ms >? stored_cursor w).
    - apply wrap_Ok_inv in Hcur. by injection Hcur as <-.
    - by injection Hcur as <-. }
  clear Hcur.
  apply bind_inv in Hrun as [([] & w3 & Hlam & Hrun) | (e0 & Hlam & [=])].
  injection Hrun as <- <-.
  assert (Hw3 : w3 = if ml >? stored_lamport w
                     then with_db (with_meta (insert "lamport"
                            (PutUint64 (u64 (Z.max (stored_lamport w2) ml + 1))))) w2
                     else w2).
  { destruct (ml >? stored_lamport w).
    - apply bind_inv in Hlam as [(l & w4 & Hlam & Hret) | (e0 & _ & [=])].
      injection Hret as <-. apply wrap_Ok_inv in Hlam.
      rewrite UpdateLamport_run in Hlam. by injection Hlam as _ <-.
    - by injection Hlam as <-. }
  clear Hlam.
  assert (Hcur2 : stored_cursor w2 = ms).
  { rewrite Hw2. pose proof (max_seq_of_ge (stored_cursor w) seen) as Hge. fold ms in Hge.
    destruct (Z.gtb_spec ms (stored_cursor w)) as [Hgt|Hle].
    - unfold stored_cursor at 1. rewrite stored_u64_insert.
      apply u64_small, max_seq_of_u64, stored_u64_range.
    - rewrite (stored_cursor_same _ _ Hsame). lia. }
  assert (Hlam2 : stored_lamport w2 = stored_lamport w).
  { rewrite Hw2. destruct (ms >? stored_cursor w).
    - unfold stored_lamport. rewrite stored_u64_insert_ne by done.
      by apply stored_lamport_same.
    - by apply stored_lamport_same. }
  split_and!; try done.
  - rewrite Hw3. destruct (ml >? stored_lamport w); [|done].
    unfold stored_cursor. by rewrite stored_u64_insert_ne.
  - cbv zeta. rewrite Hw3.
    pose proof (max_lamport_of_ge (stored_lamport w) seen) as Hge. fold ml in Hge.
    destruct (Z.gtb_spec ml (stored_lamport w)) as [Hgt|Hle]; [|done].
    unfold stored_lamport at 1. rewrite stored_u64_insert, u64_idemp, Hlam2.
    f_equal. lia.
Qed.

End Pull.

Lemma pull_lists_arrivals_witness :
  let events := Sample.numbered 5
                  (Fixture.events_of Fixture.dev_a
                     [(Fixture.entry "e1" "ex.com", "upsert");
                      (Fixture.entry "e1" "ex.com", "delete")]) in
  let e := Fixture.engine (Fixture.healthy events) in
  let w := Fixture.world_of Fixture.dev_b [Fixture.dev_a; Fixture.dev_b] in
  let run := PullEvents (H := Fixture.externals) e w in
  run.1 = Ok [Fixture.entry "e1" "ex.com"; Fixture.entry "e1" "ex.com"] /\
  stored_cursor run.2
  = max_seq_of (stored_cursor w)
      (filter (fun event => passes (H := Fixture.externals) e w event = true) events).
Proof.
  intros events e w run.
  assert (Hfst : run.1 = Ok [Fixture.entry "e1" "ex.com"; Fixture.entry "e1" "ex.com"])
    by (vm_compute; reflexivity).
  split; [exact Hfst|].
  assert (Hrun : run = (Ok [Fixture.entry "e1" "ex.com"; Fixture.entry "e1" "ex.com"],
                        run.2)).
  { rewrite (surjective_pairing run) at 1. by rewrite Hfst. }
  assert (Hvid : GetVaultID (state e) w = (Ok Fixture.the_vault_id, w))
    by (vm_compute; reflexivity).
  exact (proj1 (proj2 (@pull_lists_arrivals Fixture.externals e w run.2 _
                         Fixture.the_vault_id events Hrun Hvid eq_refl))).
Defined.

(** ** From a push to a pull *)

Section PushPull.
Context `{Externals}.

Lemma GetVaultKey_after_push s key w entry op event signBytes :
  GetVaultKey s w = (Ok key, w) ->
  GetVaultKey s (after_push w entry op event signBytes)
  = (Ok key, after_push w entry op event signBytes).
Proof.
  intros Hkey.
  pose proof (GetVaultKey_meta s w (after_push w entry op event signBytes)) as Hm.
  pose proof (GetVaultKey_ro s (after_push w entry op event signBytes)) as Hro.
  rewrite Hkey in Hm.
  destruct (GetVaultKey s (after_push w entry op event signBytes)) as [r w1].
  cbn [fst snd] in *. subst w1. rewrite Hm; [done|]. by apply meta_after_push.
Qed.

(** The event of a successful push opens on a device that holds the
    same vault key and has the pusher among its verified members. *)
Lemma pushed_event_opens eA eB keys key member entry op wA wA' wB :
  aead_correct -> json_payload_correct ->
  GetDeviceKeys (state eA) wA = (Ok keys, wA) ->
  GetVaultKey (state eA) wA = (Ok key, wA) ->
  PushEntry eA entry op wA = (Ok tt, wA') ->
  GetVaultKey (state eB) wB = (Ok key, wB) ->
  GetVerifiedMember (state eB) (dk_DeviceID keys) wB = (Ok member, wB) ->
  signs_for (PrivkeySign keys) (fix32 (vm_PubkeySign member)) ->
  exists event,
    relay_events wA' = relay_events wA ++ [event] /\
    valid_op op = true /\
    GetDeviceKeys (state eA) wA' = (Ok keys, wA') /\
    GetVaultKey (state eA) wA' = (Ok key, wA') /\
    forall seq, opened eB wB (with_seq seq event) = Some (op, entry, "v2").
Proof.
  intros Haead Hjson Hkeys Hkey Hpush HkeyB Hmember Hsigns.
  destruct (PushEntry_inv _ _ _ _ _ _ Hpush (or_introl eq_refl))
    as (keys' & vaultID & key' & plaintext & signBytes & Hinv).
  cbv zeta in Hinv. destruct Hinv as (Hop & Hkeys' & _ & Hkey' & Hm & Hsb & Hpost).
  rewrite Hkeys in Hkeys'. injection Hkeys' as <-.
  rewrite Hkey in Hkey'. injection Hkey' as <-.
  destruct (relay_PushEvent _ _ _ _) as [err|]; destruct Hpost as [Hr ->]; [done|].
  eexists. split; [by destruct w as [[] ? ? ?] || reflexivity|].
  split; [done|]. split; [by apply GetDeviceKeys_after_push|].
  split; [by apply GetVaultKey_after_push|].
  intros seq. unfold opened, open_event.
  unfold event_sign_bytes in Hsb. cbn [pushed_event with_seq ev_DeviceID EventID ev_VaultID
    Counter Lamport KeyEpoch PrevHash Nonce Ciphertext Signature] in Hsb |- *.
  unfold bind at 1, catch. rewrite Hmember. cbn [fst snd].
  destruct (DeviceID_Bytes (dk_DeviceID keys)) as [idBytes|]; [|done].
  rewrite Hsb. unfold crypto_Verify, crypto_Sign. rewrite Hsigns. cbn [negb].
  rewrite (u64_small (stored_epoch wA)) by apply stored_u64_range.
  unfold bind at 1, catch.
  rewrite (decryptEventPayload_sealed eB key (stored_epoch wA) _
             {| Op := op; PEntry := entry |} plaintext wB Haead Hjson HkeyB Hm).
  reflexivity.
Qed.

Lemma pushed_events_open eA eB keys key member l wA wA' wB :
  aead_correct -> json_payload_correct ->
  GetDeviceKeys (state eA) wA = (Ok keys, wA) ->
  GetVaultKey (state eA) wA = (Ok key, wA) ->
  push_all eA l wA = (Ok tt, wA') ->
  GetVaultKey (state eB) wB = (Ok key, wB) ->
  GetVerifiedMember (state eB) (dk_DeviceID keys) wB = (Ok member, wB) ->
  signs_for (PrivkeySign keys) (fix32 (vm_PubkeySign member)) ->
  exists events,
    relay_events wA' = relay_events wA ++ events /\
    Forall2 (fun mutation event =>
               valid_op mutation.2 = true /\
               forall seq, opened eB wB (with_seq seq event)
                           = Some (mutation.2, mutation.1, "v2")) l events.
Proof.
  intros Haead Hjson Hkeys Hkey Hpush HkeyB Hmember Hsigns.
  revert wA Hkeys Hkey Hpush. induction l as [|[entry op] l IH]; intros wA Hkeys Hkey Hpush.
  - injection Hpush as <-. exists []. rewrite app_nil_r. by split.
  - cbn [push_all] in Hpush.
    apply bind_inv in Hpush as [([] & w1 & Hpush1 & Hpush) | (e0 & _ & [=])].
    destruct (pushed_event_opens eA eB keys key member entry op wA w1 wB
                Haead Hjson Hkeys Hkey Hpush1 HkeyB Hmember Hsigns)
      as (event & Hev & Hop & Hkeys1 & Hkey1 & Hopens).
    destruct (IH w1 Hkeys1 Hkey1 Hpush) as (events & Hevs & Hall).
    exists (event :: events). split.
    + by rewrite Hevs, Hev, <- app_assoc.
    + by constructor.
Qed.

Lemma PullEvents_run e w vaultID events :
  GetVaultID (state e) w = (Ok vaultID, w) ->
  relay_PullEvents (client e) vaultID (stored_cursor w) = Ok events ->
  exists w', PullEvents e w = (Ok (omap (arrival e w) events), w').
Proof.
  intros Hvid Hpull. unfold PullEvents.
  unfold bind at 1, wrap. rewrite Hvid.
  unfold bind at 1, GetSyncCursor. rewrite get_u64_stored.
  change (stored_u64 keySyncCursor w) with (stored_cursor w).
  unfold bind at 1, PullEvents_client, lift. rewrite Hpull.
  destruct events as [|event events']; [by eexists|].
  cbn [length Nat.eqb].
  unfold bind at 1, GetLamport. rewrite get_u64_stored.
  destruct (fold_events_pull e (event :: events') [] (stored_u64 keySyncCursor w)
              (stored_u64 keyLamport w) w) as (w1 & Hfold & _).
  unfold bind at 1.
  change (stored_u64 keySyncCursor w) with (stored_cursor w) in *.
  rewrite Hfold. cbn [app].
  match goal with
  | |- exists w', ?c w1 = (Ok ?l, w') =>
      assert (Hfst : (c w1).1 = Ok l);
      [|destruct (c w1) as [r w']; cbn [fst] in Hfst; subst r; by exists w']
  end.
  unfold UpdateLamport, SetSyncCursor. munfold.
  repeat (mcase; cbn beta iota; try done).
Qed.

(** X22. What one device pushes, another pulls.  Let device A hold its
    keys and the vault key and push a list of mutations, all accepted by
    the relay.  Let device B hold the same vault key and have A among
    its verified members under A's public signing key.  When the relay
    serves B the events of those pushes, in order and under whatever
    sequence numbers, [PullEvents] on B succeeds and returns exactly the
    pushed entries, in the order they were pushed. *)
Theorem pushed_entries_are_pulled (eA eB : Engine) (keys : DeviceKeys) (key : bytes)
    (member : VerifiedMember) (l : list (Entry * string)) (wA wA' wB : World)
    (vaultID : UUID) (served : list Event) :
  aead_correct -> json_payload_correct ->
  GetDeviceKeys (state eA) wA = (Ok keys, wA) ->
  GetVaultKey (state eA) wA = (Ok key, wA) ->
  push_all eA l wA = (Ok tt, wA') ->
  GetVaultKey (state eB) wB = (Ok key, wB) ->
  GetVerifiedMember (state eB) (dk_DeviceID keys) wB = (Ok member, wB) ->
  signs_for (PrivkeySign keys) (fix32 (vm_PubkeySign member)) ->
  GetVaultID (state eB) wB = (Ok vaultID, wB) ->
  relay_PullEvents (client eB) vaultID (stored_cursor wB) = Ok served ->
  served_as (drop (length (relay_events wA)) (relay_events wA')) served ->
  exists wB', PullEvents eB wB = (Ok l.*1, wB').
Proof.
  intros Haead Hjson Hkeys Hkey Hpush HkeyB Hmember Hsigns Hvid Hpull Hserved.
  destruct (pushed_events_open eA eB keys key member l wA wA' wB
              Haead Hjson Hkeys Hkey Hpush HkeyB Hmember Hsigns)
    as (events & Hevs & Hall).
  rewrite Hevs, drop_app_length in Hserved.
  destruct (PullEvents_run eB wB vaultID served Hvid Hpull) as (wB' & Hrun).
  exists wB'. rewrite Hrun. do 2 f_equal.
  clear -Hall Hserved. revert served Hserved.
  induction Hall as [|[entry op] event l events [Hop Hopens] _ IH]; intros served Hserved.
  - by apply Forall2_nil_inv_l in Hserved as ->.
  - apply Forall2_cons_inv_l in Hserved as (sv & served' & [seq ->] & Hrest & ->).
    cbn [fmap list_fmap omap list_omap fst].
    change (omap (arrival eB wB) (with_seq seq event :: served'))
      with (match arrival eB wB (with_seq seq event) with
            | Some y => y :: omap (arrival eB wB) served'
            | None => omap (arrival eB wB) served'
            end).
    unfold arrival at 1. rewrite Hopens. cbn [snd fst] in *. rewrite Hop.
    f_equal. by apply IH.
Qed.

End PushPull.

Lemma numbered_served_as first events : served_as events (Sample.numbered first events).
Proof.
  revert first. induction events as [|event events IH]; intros first; [constructor|].
  constructor; [by exists first|apply IH].
Qed.

Lemma pushed_entries_are_pulled_witness :
  let l := [(Fixture.entry "e1" "ex.com", "upsert"); (Fixture.entry "e2" "ex.org", "delete")] in
  let eA := Fixture.engine (Fixture.healthy []) in
  let wA := Fixture.world_of Fixture.dev_a [Fixture.dev_a] in
  let wA' := (push_all (H := Fixture.externals) eA l wA).2 in
  let eB := Fixture.engine (Fixture.healthy (Sample.numbered 5 (relay_events wA'))) in
  let wB := Fixture.world_of Fixture.dev_b [Fixture.dev_a; Fixture.dev_b] in
  exists wB',
    PullEvents (H := Fixture.externals) eB wB
    = (Ok [Fixture.entry "e1" "ex.com"; Fixture.entry "e2" "ex.org"], wB').
Proof.
  intros l eA wA wA' eB wB.
  assert (Hpush : push_all (H := Fixture.externals) eA l wA = (Ok tt, wA')).
  { assert (Hfst : (push_all (H := Fixture.externals) eA l wA).1 = Ok tt)
      by (vm_compute; reflexivity).
    unfold wA'. rewrite (surjective_pairing (push_all eA l wA)) at 1. by rewrite Hfst. }
  assert (Hdrop : drop (length (relay_events wA)) (relay_events wA') = relay_events wA')
    by (vm_compute; reflexivity).
  refine (@pushed_entries_are_pulled Fixture.externals eA eB Fixture.dev_a
            Fixture.the_vault_key (Fixture.member_of Fixture.dev_a) l wA wA' wB
            Fixture.the_vault_id (Sample.numbered 5 (relay_events wA'))
            fixture_aead_correct fixture_json_payload_correct _ _ Hpush _ _
            (fixture_signs_for (replicate 32 "s"%byte) (replicate 32 "a"%byte) eq_refl)
            _ eq_refl _).
  - vm_compute. reflexivity.
  - vm_compute. reflexivity.
  - vm_compute. reflexivity.
  - vm_compute. reflexivity.
  - vm_compute. reflexivity.
  - rewrite Hdrop. apply numbered_served_as.
Defined.

(** ** The TUI: who accepts claims *)

Section Owner.
Context `{Externals}.

Lemma GetOwnerDeviceID_ro s w : (GetOwnerDeviceID s w).2 = w.
Proof. unfold GetOwnerDeviceID. munfold. by mcase. Qed.

Lemma isSyncOwner_ro a w : (isSyncOwner a w).2 = w.
Proof.
  unfold isSyncOwner. destruct (syncState a) as [s|]; [|done].
  unfold bind at 1, wrap.
  pose proof (GetDeviceKeys_ro s w) as Hro.
  destruct (GetDeviceKeys s w) as [[keys|err] w1]; cbn [snd] in Hro; subst w1; [|done].
  unfold bind, catch. pose proof (GetOwnerDeviceID_ro s w) as Hro.
  destruct (GetOwnerDeviceID s w) as [[owner|err] w1]; cbn [fst snd] in *; by subst w1.
Qed.

(** X24. Only the owner of the vault accepts invite claims.  With its
    keys readable, a device is the owner exactly when the stored
    owner_device_id is its own device id; no stored owner is not an
    error, the device is then not the owner.  On a device that is not
    the owner [acceptInviteClaimsIfOwner] returns nil without a call to
    the relay and without a change; on the owner it is
    [AcceptPendingInviteClaims]. *)
Theorem only_the_owner_accepts_claims (a : App) (s : SyncState) (keys : DeviceKeys)
    (w : World) :
  syncState a = Some s ->
  GetDeviceKeys s w = (Ok keys, w) ->
  let owner := sync_meta (db w) !! "owner_device_id" in
  let mine := bool_decide (string_of_bytes <$> owner = Some (dk_DeviceID keys)) in
  isSyncOwner a w = (Ok mine, w) /\
  (owner = None -> isSyncOwner a w = (Ok false, w)) /\
  (mine = false -> acceptInviteClaimsIfOwner a w = (Ok tt, w)) /\
  (mine = true -> forall e, syncEngine a = Some e ->
     acceptInviteClaimsIfOwner a w = AcceptPendingInviteClaims e w).
Proof.
  intros Hs Hkeys owner mine.
  assert (Hgo : GetOwnerDeviceID s w
                = (match sync_meta (db w) !! "owner_device_id" with
                   | Some data => Ok (string_of_bytes data)
                   | None => Err (ErrNew "owner_device_id not set")
                   end, w)).
  { unfold GetOwnerDeviceID. munfold. change keyOwnerDeviceID with "owner_device_id".
    by destruct (sync_meta (db w) !! "owner_device_id"). }
  assert (Hown : isSyncOwner a w = (Ok mine, w)).
  { unfold isSyncOwner. rewrite Hs. unfold bind at 1, wrap. rewrite Hkeys.
    unfold bind, catch. rewrite Hgo. cbn [fst snd]. subst mine owner.
    destruct (sync_meta (db w) !! "owner_device_id") as [data|];
      cbn [fmap option_fmap option_map].
    - unfold ret. do 2 f_equal.
      destruct (String.eqb_spec (string_of_bytes data) (dk_DeviceID keys)) as [Heq|Hne].
      + symmetry. apply bool_decide_eq_true_2. by rewrite Heq.
      + symmetry. apply bool_decide_eq_false_2. by intros [= ?].
    - by rewrite bool_decide_eq_false_2. }
  split_and!.
  - done.
  - intros Hnone. rewrite Hown. subst mine. by rewrite Hnone.
  - intros Hmine. unfold acceptInviteClaimsIfOwner, bind. by rewrite Hown, Hmine.
  - intros Hmine e He. unfold acceptInviteClaimsIfOwner, bind.
    by rewrite Hown, Hmine, He.
Qed.

End Owner.

Lemma only_the_owner_accepts_claims_witness :
  let a := {| store_VaultKey := Some Fixture.master_key;
              syncState := Some Fixture.sync_state;
              syncEngine := Some (Fixture.engine Fixture.owner_relay) |} in
  let w := Fixture.world_of Fixture.dev_a [Fixture.dev_a] in
  acceptInviteClaimsIfOwner (H := Fixture.externals) a w = (Ok tt, w).
Proof.
  intros a w.
  assert (Hkeys : GetDeviceKeys (H := Fixture.externals) Fixture.sync_state w
                  = (Ok Fixture.dev_a, w)) by (vm_compute; reflexivity).
  destruct (@only_the_owner_accepts_claims Fixture.externals a Fixture.sync_state
              Fixture.dev_a w eq_refl Hkeys) as (_ & _ & Hnot & _).
  apply Hnot. vm_compute. reflexivity.
Defined.

(** ** The TUI: seeding the vault *)

Section Seed.
Context `{Externals}.

Lemma GetDeviceKeys_same s keys w w1 :
  (forall k, k <> "lamport" -> sync_meta (db w1) !! k = sync_meta (db w) !! k) ->
  GetDeviceKeys s w = (Ok keys, w) -> GetDeviceKeys s w1 = (Ok keys, w1).
Proof.
  intros Hmeta Hkeys.
  pose proof (GetDeviceKeys_meta s w w1) as Hm.
  pose proof (GetDeviceKeys_ro s w1) as Hro.
  rewrite Hkeys in Hm. destruct (GetDeviceKeys s w1) as [r w2].
  cbn [fst snd] in *. subst w2. rewrite Hm; [done|].
  intros k Hk. apply Hmeta. intros ->. unfold identity_keys in Hk. set_solver.
Qed.

Lemma GetEventHead_same s d h w w1 :
  sync_event_heads (db w1) = sync_event_heads (db w) ->
  GetEventHead s d w = (Ok h, w) -> GetEventHead s d w1 = (Ok h, w1).
Proof.
  intros Hheads. rewrite !GetEventHead_run, Hheads. by intros [= ->].
Qed.

Lemma AddPendingEntry_frame s op entry w :
  sync_meta (db (AddPendingEntry s op entry w).2) = sync_meta (db w) /\
  sync_event_heads (db (AddPendingEntry s op entry w).2) = sync_event_heads (db w) /\
  relay_events (AddPendingEntry s op entry w).2 = relay_events w.
Proof.
  unfold AddPendingEntry. destruct (String.eqb (ID entry) ""); [done|].
  unfold getVaultKey. destruct (vaultKey s) as [key|]; [|done].
  unfold bind at 1, ret. destruct (json_Marshal_payload _); [|done].
  unfold bind, wrap, crypto_Encrypt.
  destruct (NewX key); [|done]. unfold bind, rand_Read, ret, modify. cbn [fst snd].
  by destruct w as [[] ? ? ?].
Qed.

Lemma RemovePendingEntry_frame s id w :
  RemovePendingEntry s id w = (Ok tt, (RemovePendingEntry s id w).2) /\
  sync_meta (db (RemovePendingEntry s id w).2) = sync_meta (db w) /\
  sync_event_heads (db (RemovePendingEntry s id w).2) = sync_event_heads (db w) /\
  relay_events (RemovePendingEntry s id w).2 = relay_events w.
Proof.
  unfold RemovePendingEntry. destruct (String.eqb id ""); [done|].
  by destruct w as [[] ? ? ?].
Qed.

(** The head a device reads back after one of its pushes. *)
Lemma pushed_head e keys h entry op w w' :
  GetDeviceKeys (state e) w = (Ok keys, w) ->
  GetEventHead (state e) (dk_DeviceID keys) w = (Ok h, w) ->
  PushEntry e entry op w = (Ok tt, w') ->
  exists h' event,
    relay_events w' = relay_events w ++ [event] /\
    GetEventHead (state e) (dk_DeviceID keys) w' = (Ok h', w') /\
    LastCounter h' = u64 (LastCounter h + 1) /\
    GetDeviceKeys (state e) w' = (Ok keys, w').
Proof.
  intros Hkeys Hhead Hpush.
  apply GetEventHead_stored in Hhead. subst h.
  destruct (push_extends_chain _ _ _ _ _ _ Hkeys Hpush)
    as (event & signBytes & Hev & Hid & Hc & _ & _ & _ & Hkeys').
  destruct (PushEntry_ok _ _ _ _ _ Hpush) as (_ & event' & signBytes' & -> & _).
  destruct (after_push_frame w entry op event' signBytes') as (_ & _ & _ & Hev').
  rewrite Hev' in Hev. apply app_inj_tail in Hev as [_ ->].
  eexists _, event. split; [exact Hev'|]. split; [|split; [|exact Hkeys']].
  - rewrite GetEventHead_run.
    assert (Hheads : sync_event_heads (db (after_push w entry op event signBytes'))
                     = <[ev_DeviceID event :=
                           PutUint64 (Counter event) ++ fix32 (Sum256 signBytes')]>
                         (sync_event_heads (db w)))
      by (by destruct w as [[] ? ? ?]).
    rewrite Hheads, Hid, lookup_insert_eq.
    destruct (event_head_record (Counter event) (Sum256 signBytes')) as (-> & _).
    reflexivity.
  - cbn [LastCounter].
    destruct (event_head_record (Counter event) (Sum256 signBytes')) as (_ & -> & _).
    rewrite Hc. apply u64_idemp.
Qed.

Lemma u64_succ c n : u64 (u64 (c + 1) + n) = u64 (c + (1 + n)).
Proof. unfold u64. rewrite Zplus_mod_idemp_l. f_equal. lia. Qed.

Lemma seed_loop_inv e keys entries firstErr w r w' h :
  GetDeviceKeys (state e) w = (Ok keys, w) ->
  GetEventHead (state e) (dk_DeviceID keys) w = (Ok h, w) ->
  seed_loop (state e) e entries firstErr w = (r, w') ->
  exists res pushed h',
    r = Ok res /\
    relay_events w' = relay_events w ++ pushed /\
    (length pushed <= length entries)%nat /\
    GetDeviceKeys (state e) w' = (Ok keys, w') /\
    GetEventHead (state e) (dk_DeviceID keys) w' = (Ok h', w') /\
    (pushed = [] -> h' = h) /\
    LastCounter h' = u64 (LastCounter h + Z.of_nat (length pushed)) /\
    (is_Some firstErr -> res = firstErr) /\
    (res = None -> length pushed = length entries).
Proof.
  revert firstErr w h. induction entries as [|entry rest IH]; intros firstErr w h Hkeys Hhead Hrun.
  - injection Hrun as <- <-. exists firstErr, [], h. rewrite app_nil_r.
    split_and!; try done. cbn. rewrite Z.add_0_r.
    apply GetEventHead_stored in Hhead. subst h. unfold stored_head.
    destruct (sync_event_heads (db w) !! dk_DeviceID keys); cbn.
    + symmetry. apply u64_small, Uint64_range.
    + done.
  - cbn [seed_loop] in Hrun. unfold bind at 1, catch in Hrun.
    destruct (PushEntry e entry "upsert" w) as [r0 w1] eqn:Hpush. cbn [fst snd] in Hrun.
    destruct r0 as [[]|err].
    + destruct (pushed_head _ _ _ _ _ _ _ Hkeys Hhead Hpush)
        as (h1 & event & Hev & Hhead1 & Hc1 & Hkeys1).
      unfold bind at 1, ignore_err in Hrun. cbn [fst snd] in Hrun.
      destruct (RemovePendingEntry_frame (state e) (ID entry) w1)
        as (_ & Hmeta & Hheads & Hrel).
      set (w2 := (RemovePendingEntry (state e) (ID entry) w1).2) in *.
      assert (Hkeys2 : GetDeviceKeys (state e) w2 = (Ok keys, w2)).
      { eapply GetDeviceKeys_same; [|exact Hkeys1]. intros k _. by rewrite Hmeta. }
      assert (Hhead2 : GetEventHead (state e) (dk_DeviceID keys) w2 = (Ok h1, w2))
        by (by eapply GetEventHead_same).
      destruct (IH _ _ _ Hkeys2 Hhead2 Hrun)
        as (res & pushed & h' & -> & Hevs & Hlen & Hkeys' & Hhead' & _ & Hc' & Hfirst & Hnone).
      exists res, (event :: pushed), h'. split_and!; try done.
      * rewrite Hevs, Hrel, Hev. by rewrite <- app_assoc.
      * cbn [length]. lia.
      * rewrite Hc', Hc1, u64_succ. f_equal. cbn [length]. lia.
      * intros Hres. cbn [length]. by rewrite (Hnone Hres).
    + pose proof (PushEntry_failing _ _ _ _ _ _ Hpush) as (_ & Hh1 & _ & _ & Hev1 & _ & Hm1).
      unfold bind at 1, ignore_err in Hrun. cbn [fst snd] in Hrun.
      destruct (AddPendingEntry_frame (state e) "upsert" entry w1) as (Hmeta & Hheads & Hrel).
      set (w2 := (AddPendingEntry (state e) "upsert" entry w1).2) in *.
      assert (Hkeys2 : GetDeviceKeys (state e) w2 = (Ok keys, w2)).
      { eapply GetDeviceKeys_same; [|exact Hkeys]. intros k Hk. by rewrite Hmeta, Hm1. }
      assert (Hhead2 : GetEventHead (state e) (dk_DeviceID keys) w2 = (Ok h, w2)).
      { eapply GetEventHead_same; [|exact Hhead]. by rewrite Hheads, Hh1. }
      destruct (IH _ _ _ Hkeys2 Hhead2 Hrun)
        as (res & pushed & h' & -> & Hevs & Hlen & Hkeys' & Hhead' & Hsame & Hc' & Hfirst & Hnone).
      exists res, pushed, h'. split_and!; try done.
      * by rewrite Hevs, Hrel, Hev1.
      * cbn [length]. lia.
      * intros Hsome. rewrite Hfirst; by destruct firstErr.
      * intros ->. by destruct firstErr; specialize (Hfirst ltac:(eauto)).
Qed.

(** X23. [seedLocalEntriesIfNeeded] seeds a vault once.  Without sync
    objects it fails; with no entries, or when the device's event head
    already has a counter other than zero, it does nothing.  Otherwise
    it pushes the entries as upserts, at most one event per entry and
    exactly one per entry when it returns nil.  As soon as one push of
    a seeding went through (fewer than 2^64 entries), the head counter
    is no longer zero, so a later call pushes nothing, whatever it is
    given. *)
Theorem seeding_happens_once (a : App) (e : Engine) (keys : DeviceKeys)
    (entries : list Entry) (w : World) :
  (syncState a = None \/ syncEngine a = None ->
     seedLocalEntriesIfNeeded a entries w = (Err (ErrNew "sync not configured"), w)) /\
  (syncState a = Some (state e) -> syncEngine a = Some e ->
   (seedLocalEntriesIfNeeded a [] w = (Ok tt, w)) /\
   (GetDeviceKeys (state e) w = (Ok keys, w) ->
    (forall h, GetEventHead (state e) (dk_DeviceID keys) w = (Ok h, w) ->
       LastCounter h <> 0 ->
       seedLocalEntriesIfNeeded a entries w = (Ok tt, w)) /\
    (forall h r w', GetEventHead (state e) (dk_DeviceID keys) w = (Ok h, w) ->
       LastCounter h = 0 -> Z.of_nat (length entries) < 2 ^ 64 ->
       seedLocalEntriesIfNeeded a entries w = (r, w') ->
       exists pushed,
         relay_events w' = relay_events w ++ pushed /\
         (length pushed <= length entries)%nat /\
         (r = Ok tt -> length pushed = length entries) /\
         (pushed <> [] ->
          forall entries', seedLocalEntriesIfNeeded a entries' w' = (Ok tt, w'))))).
Proof.
  split.
  - unfold seedLocalEntriesIfNeeded. intros [->| ->]; [done|]. by destruct (syncState a).
  - intros Hs He. split; [unfold seedLocalEntriesIfNeeded; by rewrite Hs, He|].
    intros Hkeys.
    assert (Hskip : forall w0 h0 l, GetDeviceKeys (state e) w0 = (Ok keys, w0) ->
              GetEventHead (state e) (dk_DeviceID keys) w0 = (Ok h0, w0) ->
              LastCounter h0 <> 0 ->
              seedLocalEntriesIfNeeded a l w0 = (Ok tt, w0)).
    { intros w0 h0 l Hk Hh Hc. unfold seedLocalEntriesIfNeeded. rewrite Hs, He.
      destruct (length l =? 0)%nat; [done|].
      unfold bind at 1, wrap. rewrite Hk. unfold bind at 1. rewrite Hh.
      apply Z.eqb_neq in Hc. by rewrite Hc. }
    split; [intros h Hh Hc; by eapply Hskip|].
    intros h r w' Hhead Hzero Hlen Hrun.
    unfold seedLocalEntriesIfNeeded in Hrun. rewrite Hs, He in Hrun.
    destruct entries as [|entry rest].
    { injection Hrun as <- <-. exists []. rewrite app_nil_r. by split_and!. }
    cbn [length Nat.eqb] in Hrun.
    unfold bind at 1, wrap in Hrun. rewrite Hkeys in Hrun.
    unfold bind at 1 in Hrun. rewrite Hhead in Hrun.
    rewrite Hzero in Hrun. cbn [Z.eqb negb] in Hrun.
    apply bind_inv in Hrun as [(res & w1 & Hloop & Hrun) | (e0 & Hloop & ->)].
    + destruct (seed_loop_inv _ _ _ _ _ _ _ _ Hkeys Hhead Hloop)
        as (res' & pushed & h' & [= <-] & Hevs & Hle & Hkeys' & Hhead' & _ & Hc' & _ & Hnone).
      assert (Hw : w' = w1) by (destruct res; by injection Hrun as _ <-).
      subst w1. exists pushed. split_and!; try done.
      * intros ->. destruct res; [done|]. by apply Hnone.
      * intros Hne entries'. eapply Hskip; [exact Hkeys'|exact Hhead'|].
        rewrite Hc', Hzero, Z.add_0_l. rewrite u64_small.
        -- destruct pushed; [done|]. cbn [length]. lia.
        -- cbn [length] in Hle, Hlen. lia.
    + by destruct (seed_loop_inv _ _ _ _ _ _ _ _ Hkeys Hhead Hloop) as (? & ? & ? & [=] & _).
Qed.

End Seed.

Lemma seeding_happens_once_witness :
  let e := Fixture.engine (Fixture.healthy []) in
  let a := {| store_VaultKey := Some Fixture.master_key;
              syncState := Some Fixture.sync_state;
              syncEngine := Some e |} in
  let w := Fixture.world_of Fixture.dev_a [Fixture.dev_a] in
  let entries := [Fixture.entry "e1" "ex.com"; Fixture.entry "e2" "ex.org"] in
  let run := seedLocalEntriesIfNeeded (H := Fixture.externals) a entries w in
  run.1 = Ok tt /\
  length (relay_events run.2) = 2%nat /\
  seedLocalEntriesIfNeeded (H := Fixture.externals) a entries run.2 = (Ok tt, run.2).
Proof.
  intros e a w entries run.
  assert (Hfst : run.1 = Ok tt) by (vm_compute; reflexivity).
  assert (Hlen : length (relay_events run.2) = 2%nat) by (vm_compute; reflexivity).
  split; [exact Hfst|]. split; [exact Hlen|].
  assert (Hkeys : GetDeviceKeys (H := Fixture.externals) (state e) w = (Ok Fixture.dev_a, w))
    by (vm_compute; reflexivity).
  assert (Hhead : GetEventHead (state e) (dk_DeviceID Fixture.dev_a) w
                  = (Ok {| LastCounter := 0; LastHash := zero_bytes 32 |}, w))
    by (vm_compute; reflexivity).
  destruct (@seeding_happens_once Fixture.externals a e Fixture.dev_a entries w)
    as [_ Hconf].
  destruct (Hconf eq_refl eq_refl) as [_ Hseed].
  destruct (Hseed Hkeys) as [_ Hrun].
  destruct (Hrun _ run.1 run.2 Hhead eq_refl ltac:(vm_compute; reflexivity)
              (surjective_pairing run)) as (pushed & Hev & _ & _ & Honce).
  apply Honce. intros ->. rewrite app_nil_r in Hev. rewrite Hev in Hlen.
  vm_compute in Hlen. discriminate Hlen.
Defined.

(** ** The engine: [RefreshMembership] *)

Section Refresh.
Context `{Externals} `{WireTypes}.

Lemma save_members_run s l w :
  Forall (fun m => is_Some (json_Marshal_member (member_record m))) l ->
  exists w',
    for_each (fun member =>
                wrap "failed to save verified member"
                  (SetVerifiedMember s (member_record member))) l w = (Ok tt, w') /\
    (forall id, id ∉ m_DeviceID <$> l ->
       sync_members (db w') !! id = sync_members (db w) !! id) /\
    (forall pre m post, l = pre ++ m :: post -> m_DeviceID m ∉ m_DeviceID <$> post ->
       exists data, json_Marshal_member (member_record m) = Some data /\
                    sync_members (db w') !! m_DeviceID m = Some data) /\
    sync_meta (db w') = sync_meta (db w) /\
    sync_event_heads (db w') = sync_event_heads (db w) /\
    sync_pending (db w') = sync_pending (db w) /\
    entry_scheme (db w') = entry_scheme (db w) /\
    relay_events w' = relay_events w /\
    relay_member_events w' = relay_member_events w /\
    rand_reads w' = rand_reads w.
Proof.
  intros Hall. revert w. induction Hall as [|m l [data Hdata] _ IH]; intros w.
  - exists w. split_and!; try done. intros pre m post Hl. by destruct pre.
  - set (w1 := with_db (with_members (insert (m_DeviceID m) data)) w).
    assert (Hstep : wrap "failed to save verified member"
                      (SetVerifiedMember s (member_record m)) w = (Ok tt, w1)).
    { unfold wrap, SetVerifiedMember. by rewrite Hdata. }
    destruct (IH w1) as (w' & Hrun & Hother & Hlast & Hmeta & Hheads & Hpend & Hsch
                         & Hev & Hme & Hrand).
    assert (Hm1 : sync_members (db w1) = <[m_DeviceID m := data]> (sync_members (db w)))
      by apply members_with_members.
    exists w'. split_and!.
    + cbn [for_each]. unfold bind. by rewrite Hstep.
    + intros id Hid. rewrite fmap_cons in Hid. apply not_elem_of_cons in Hid as [Hne Hid].
      rewrite (Hother id Hid), Hm1. by rewrite lookup_insert_ne.
    + intros pre m' post Hl Hpost. destruct pre as [|x pre]; cbn in Hl.
      * injection Hl as <- <-. exists data. split; [done|].
        rewrite (Hother _ Hpost), Hm1. apply lookup_insert_eq.
      * injection Hl as <- ->. by eapply Hlast.
    + rewrite Hmeta. by destruct w as [[] ? ? ?].
    + rewrite Hheads. by destruct w as [[] ? ? ?].
    + rewrite Hpend. by destruct w as [[] ? ? ?].
    + rewrite Hsch. by destruct w as [[] ? ? ?].
    + rewrite Hev. by destruct w as [[] ? ? ?].
    + rewrite Hme. by destruct w as [[] ? ? ?].
    + rewrite Hrand. by destruct w as [[] ? ? ?].
Qed.

(** X25. [RefreshMembership] takes the member list of the relay as it
    is.  It fails without a write when the vault id cannot be read, the
    relay does not answer, or the head hash of the answer is not 32
    bytes long.  Otherwise (every listed member encodable) it succeeds:
    the membership head becomes the relay's sequence number and hash
    whatever head was stored, and the verified members become exactly
    the listed ones, the last record of a device id counting; a device
    that was verified before and is not listed is no longer found.
    Event heads, pending queue, clock, cursor and logs are untouched. *)
Theorem refresh_replaces_the_members (c : Endpoints) (e : Engine) (w : World) :
  (forall err, (GetVaultID (state e) w).1 = Err err ->
     RefreshMembership c e w = (Err (ErrWrap "failed to get vault_id" err), w)) /\
  (forall vaultID, GetVaultID (state e) w = (Ok vaultID, w) ->
   (forall err, relay_GetVaultMembers c vaultID = Err err ->
      RefreshMembership c e w = (Err (ErrWrap "failed to get vault members" err), w)) /\
   (forall answer, relay_GetVaultMembers c vaultID = Ok answer ->
      (length (r_HeadHash answer) <> 32%nat ->
       RefreshMembership c e w = (Err (ErrNew "invalid membership head hash length"), w)) /\
      (length (r_HeadHash answer) = 32%nat ->
       json_member_correct ->
       Forall (fun m => is_Some (json_Marshal_member (member_record m)))
              (r_Members answer) ->
       exists w',
         RefreshMembership c e w = (Ok tt, w') /\
         GetMembershipHead (state e) w'
         = (Ok {| MemberSeq := u64 (r_MemberSeq answer);
                  MemberHeadHash := r_HeadHash answer |}, w') /\
         (forall pre m post,
            r_Members answer = pre ++ m :: post ->
            m_DeviceID m ∉ m_DeviceID <$> post ->
            GetVerifiedMember (state e) (m_DeviceID m) w' = (Ok (member_record m), w')) /\
         (forall id, id ∉ m_DeviceID <$> r_Members answer ->
            GetVerifiedMember (state e) id w'
            = (Err (ErrNew ("member not found: " +:+ id)), w')) /\
         (forall k, k <> "member_seq" -> k <> "member_head_hash" ->
            sync_meta (db w') !! k = sync_meta (db w) !! k) /\
         sync_event_heads (db w') = sync_event_heads (db w) /\
         sync_pending (db w') = sync_pending (db w) /\
         relay_events w' = relay_events w /\
         relay_member_events w' = relay_member_events w))).
Proof.
  split.
  - intros err Herr. unfold RefreshMembership, bind, wrap.
    pose proof (GetVaultID_ro (state e) w) as Hro.
    destruct (GetVaultID (state e) w) as [r w0]. cbn [fst snd] in *. by subst.
  - intros vaultID Hvid. split.
    + intros err Herr. unfold RefreshMembership. unfold bind at 1, wrap. rewrite Hvid.
      unfold bind, GetVaultMembers, lift. by rewrite Herr.
    + intros answer Hanswer.
      assert (Hstart : RefreshMembership c e w
                = (if negb (length (r_HeadHash answer) =? 32)%nat
                   then fail (ErrNew "invalid membership head hash length")
                   else
                     wrap "failed to save membership head"
                       (SetMembershipHead (state e)
                          {| MemberSeq := u64 (r_MemberSeq answer);
                             MemberHeadHash := fix32 (r_HeadHash answer) |}) ;;;
                     wrap "failed to reset verified members"
                       (ClearVerifiedMembers (state e)) ;;;
                     for_each (fun member =>
                                 wrap "failed to save verified member"
                                   (SetVerifiedMember (state e) (member_record member)))
                              (r_Members answer)) w).
      { unfold RefreshMembership. unfold bind at 1, wrap at 1. rewrite Hvid.
        unfold bind at 1, wrap at 1, GetVaultMembers, lift. by rewrite Hanswer. }
      split.
      * intros Hlen. rewrite Hstart. apply Nat.eqb_neq in Hlen. by rewrite Hlen.
      * intros Hlen Hjson Hall. rewrite Hstart. rewrite Hlen, Nat.eqb_refl. cbn [negb].
        unfold bind at 1, wrap at 1. rewrite SetMembershipHead_run.
        set (w1 := with_db (with_meta _) w).
        unfold bind at 1, wrap at 1, ClearVerifiedMembers, modify.
        set (w2 := with_db (with_members _) w1).
        destruct (save_members_run (state e) (r_Members answer) w2 Hall)
          as (w' & Hrun & Hother & Hlast & Hmeta & Hheads & Hpend & _ & Hev & Hme & _).
        exists w'. split; [exact Hrun|].
        assert (Hmeta2 : sync_meta (db w2)
                         = <["member_head_hash" := fix32 (fix32 (r_HeadHash answer))]>
                             (<["member_seq" := PutUint64 (u64 (r_MemberSeq answer))]>
                                (sync_meta (db w)))) by (by destruct w as [[] ? ? ?]).
        assert (Hmem2 : sync_members (db w2) = ∅) by (by destruct w as [[] ? ? ?]).
        split_and!.
        -- rewrite GetMembershipHead_run, Hmeta, Hmeta2.
           rewrite lookup_insert_ne by done. rewrite !lookup_insert_eq.
           cbn [default]. unfold fix32.
           rewrite !(fixN_id 32 (r_HeadHash answer)) by done.
           unfold id. rewrite Hlen, Nat.eqb_refl, Uint64_PutUint64, u64_idemp. reflexivity.
        -- intros pre m post Hl Hpost.
           destruct (Hlast pre m post Hl Hpost) as (data & Hdata & Hlook).
           rewrite GetVerifiedMember_run, Hlook. by rewrite (Hjson _ _ Hdata).
        -- intros id Hid. rewrite GetVerifiedMember_run, (Hother id Hid), Hmem2.
           by rewrite lookup_empty.
        -- intros k Hk1 Hk2. rewrite Hmeta, Hmeta2. by rewrite !lookup_insert_ne.
        -- rewrite Hheads. by destruct w as [[] ? ? ?].
        -- rewrite Hpend. by destruct w as [[] ? ? ?].
        -- rewrite Hev. by destruct w as [[] ? ? ?].
        -- rewrite Hme. by destruct w as [[] ? ? ?].
Qed.

End Refresh.

Lemma refresh_replaces_the_members_witness :
  let listed := {| m_DeviceID := "aaaa"; m_DevicePubkeySign := replicate 32 "a"%byte;
                   m_DevicePubkeyBox := replicate 32 "b"%byte; m_KeyEpoch := 1 |} in
  let answer := {| r_MemberSeq := 2; r_HeadHash := replicate 32 "h"%byte;
                   r_Members := [listed] |} in
  let c := {| relay_GetVaultMembers := fun _ => Ok answer;
              relay_RegisterDevice := fun _ => None |} in
  let e := Fixture.engine (Fixture.healthy []) in
  let w := Fixture.world_of Fixture.dev_b [Fixture.dev_b] in
  exists w',
    RefreshMembership (H := Fixture.externals) c e w = (Ok tt, w') /\
    GetVerifiedMember (H := Fixture.externals) (state e) "aaaa" w'
    = (Ok (member_record listed), w') /\
    GetVerifiedMember (H := Fixture.externals) (state e) "bbbb" w'
    = (Err (ErrNew "member not found: bbbb"), w').
Proof.
  intros listed answer c e w.
  destruct (@refresh_replaces_the_members Fixture.externals c e w) as [_ Hconf].
  assert (Hvid : GetVaultID (state e) w = (Ok Fixture.the_vault_id, w))
    by (vm_compute; reflexivity).
  destruct (Hconf _ Hvid) as [_ Hanswer].
  destruct (Hanswer answer eq_refl) as [_ Hok].
  destruct (Hok eq_refl fixture_json_member_correct
              ltac:(repeat constructor; by eexists))
    as (w' & Hrun & _ & Hlast & Hgone & _).
  exists w'. split; [exact Hrun|]. split.
  - apply (Hlast [] listed [] eq_refl). apply not_elem_of_nil.
  - apply Hgone. refine (bool_decide_unpack _ _). vm_compute. exact I.
Defined.

(** ** The engine: [CreateVault] *)

Section Create.
Context `{Externals} `{WireTypes}.

(** The six writes at the end of [CreateVault]. *)
Lemma vault_saved s key vaultID vk deviceID head member data w :
  vaultKey s = Some key -> length key = 32%nat ->
  json_Marshal_member member = Some data ->
  exists w',
    (wrap "failed to save vault_id" (SetVaultID s vaultID) ;;;
     wrap "failed to save vault_key" (SetVaultKey s vk) ;;;
     wrap "failed to save key_epoch" (SetKeyEpoch s 1) ;;;
     wrap "failed to save owner_device_id" (SetOwnerDeviceID s deviceID) ;;;
     wrap "failed to save membership head" (SetMembershipHead s head) ;;;
     wrap "failed to save verified member" (SetVerifiedMember s member)) w = (Ok tt, w') /\
    sync_meta (db w')
    = <["member_head_hash" := fix32 (MemberHeadHash head)]>
        (<["member_seq" := PutUint64 (MemberSeq head)]>
           (<["owner_device_id" := bytes_of_string deviceID]>
              (<["key_epoch" := PutUint64 1]>
                 (<["vault_key_enc" :=
                      fixN 24 (rand_source (rand_reads w))
                      ++ xchacha_Seal key (fixN 24 (rand_source (rand_reads w))) (fix32 vk)]>
                    (<["vault_id" := vaultID]> (sync_meta (db w))))))) /\
    sync_members (db w') = <[vm_DeviceID member := data]> (sync_members (db w)) /\
    sync_event_heads (db w') = sync_event_heads (db w) /\
    sync_pending (db w') = sync_pending (db w) /\
    entry_scheme (db w') = entry_scheme (db w) /\
    relay_events w' = relay_events w /\
    relay_member_events w' = relay_member_events w.
Proof.
  intros Hs Hk Hdata. eexists.
  split.
  - unfold bind at 1, wrap at 1, SetVaultID, meta_Put, modify.
    unfold bind at 1, wrap at 1. rewrite (SetVaultKey_run s key) by done.
    unfold bind at 1, wrap at 1, SetKeyEpoch. rewrite put_u64_run.
    unfold bind at 1, wrap at 1, SetOwnerDeviceID, meta_Put, modify.
    unfold bind at 1, wrap at 1. rewrite SetMembershipHead_run.
    unfold wrap, SetVerifiedMember. rewrite Hdata. unfold modify. reflexivity.
  - by destruct w as [[] ? ? ?].
Qed.

Lemma GetDeviceKeys_device_id s keys w :
  GetDeviceKeys s w = (Ok keys, w) -> is_Some (sync_meta (db w) !! "device_id").
Proof.
  unfold GetDeviceKeys, getVaultKey. destruct (vaultKey s) as [key|]; [|done].
  munfold. change keyDeviceID with "device_id".
  by destruct (sync_meta (db w) !! "device_id") as [data|].
Qed.

(** Every step of [CreateVault] up to the POST leaves the store and the
    logs alone, and so does a refused POST. *)
Lemma CreateVault_failing e key :
  vaultKey (state e) = Some key -> length key = 32%nat ->
  (forall keys, is_Some (json_Marshal_member
     {| vm_DeviceID := dk_DeviceID keys; vm_PubkeySign := PubkeySign keys;
        vm_PubkeyBox := PubkeyBox keys; vm_KeyEpoch := 1 |})) ->
  keeps_failing same_but_rand (CreateVault e).
Proof.
  intros Hs Hk Hjson. unfold CreateVault.
  kfbind; [kro GetDeviceKeys_ro|intros keys].
  kfbind; [apply keeps_rand_Read, same_but_rand_bump|intros vaultID].
  kfbind; [apply keeps_wrap, keeps_rand_Read, same_but_rand_bump|intros vk].
  kfbind; [apply keeps_rand_Read, same_but_rand_bump|intros eventID].
  kfbind; [klift|intros idBytes].
  kfbind; [klift|intros bundleBytes].
  kfbind; [klift|intros signBytes].
  intros w err w' Hrun.
  apply bind_inv in Hrun as [([] & w1 & Hpost & Hrun) | (e0 & Hpost & _)].
  - exfalso. destruct (Hjson keys) as [data Hdata].
    destruct (vault_saved (state e) key vaultID vk (dk_DeviceID keys)
                {| MemberSeq := 1; MemberHeadHash := Sum256 signBytes |}
                _ data w1 Hs Hk Hdata) as (w2 & Hsaved & _).
    rewrite Hsaved in Hrun. discriminate Hrun.
  - unfold wrap, CreateMemberEvent in Hpost.
    destruct (relay_CreateMemberEvent _ _ _ _); [|done]. by injection Hpost as _ <-.
Qed.

(** X26. [CreateVault] makes the device the owner of a fresh vault, or
    changes nothing.  With the device keys readable, a 32-byte store
    key and an encodable member record: a failed call, the relay's
    refusal included, leaves the store and both logs as they were.  A
    successful call has appended one member_add to the membership log,
    numbered 1, with a zero previous hash and a zero invite id, in which
    the device is actor and subject; afterwards the store holds the new
    16-byte vault id, key epoch 1, the device as owner, the membership
    head (1, SHA-256 of the signed bytes), the device among the
    verified members and the sealed vault key, which [GetVaultKey]
    opens to 32 bytes; [IsConfigured] holds, the device keys are as
    before, and event heads, pending queue and event log are
    untouched. *)
Theorem create_vault_makes_the_owner (e : Engine) (keys : DeviceKeys) (key : bytes)
    (w w' : World) (r : result unit) :
  GetDeviceKeys (state e) w = (Ok keys, w) ->
  vaultKey (state e) = Some key -> length key = 32%nat ->
  (forall keys0, is_Some (json_Marshal_member
     {| vm_DeviceID := dk_DeviceID keys0; vm_PubkeySign := PubkeySign keys0;
        vm_PubkeyBox := PubkeyBox keys0; vm_KeyEpoch := 1 |})) ->
  CreateVault e w = (r, w') ->
  match r with
  | Err _ =>
      db w' = db w /\ relay_member_events w' = relay_member_events w /\
      relay_events w' = relay_events w
  | Ok _ =>
      exists event signBytes,
        relay_member_events w' = relay_member_events w ++ [event] /\
        me_MsgType event = "member_add" /\
        me_MemberSeq event = 1 /\
        me_PrevHash event = zero_bytes 32 /\
        ActorDeviceID event = dk_DeviceID keys /\
        SubjectDeviceID event = dk_DeviceID keys /\
        me_InviteID event = zero_bytes 16 /\
        me_Signature event = crypto_Sign (PrivkeySign keys) signBytes /\
        GetVaultID (state e) w' = (Ok (me_VaultID event), w') /\
        stored_epoch w' = 1 /\
        GetOwnerDeviceID (state e) w' = (Ok (dk_DeviceID keys), w') /\
        GetMembershipHead (state e) w'
        = (Ok {| MemberSeq := 1; MemberHeadHash := Sum256 signBytes |}, w') /\
        IsConfigured (state e) w' = true /\
        GetDeviceKeys (state e) w' = (Ok keys, w') /\
        (json_member_correct ->
         GetVerifiedMember (state e) (dk_DeviceID keys) w'
         = (Ok {| vm_DeviceID := dk_DeviceID keys; vm_PubkeySign := PubkeySign keys;
                  vm_PubkeyBox := PubkeyBox keys; vm_KeyEpoch := 1 |}, w')) /\
        (aead_correct ->
         exists vk, GetVaultKey (state e) w' = (Ok vk, w') /\ length vk = 32%nat) /\
        sync_event_heads (db w') = sync_event_heads (db w) /\
        sync_pending (db w') = sync_pending (db w) /\
        relay_events w' = relay_events w
  end.
Proof.
  intros Hkeys Hs Hk Hjson Hrun. destruct r as [[]|err].
  2:{ destruct (CreateVault_failing e key Hs Hk Hjson _ _ _ Hrun) as (? & ? & ?).
      by split_and!. }
  unfold CreateVault in Hrun.
  unfold bind at 1, wrap at 1 in Hrun. rewrite Hkeys in Hrun.
  unfold bind at 1, NewUUID, rand_Read in Hrun.
  unfold bind at 1, wrap at 1 in Hrun.
  unfold bind at 1 in Hrun. cbn [rand_reads] in Hrun.
  set (vaultID := fixN 16 (rand_source (rand_reads w))) in *.
  set (vk := fixN 32 (rand_source (S (rand_reads w)))) in *.
  set (eventID := fixN 16 (rand_source (S (S (rand_reads w))))) in *.
  apply bind_inv in Hrun as [(idBytes & w1 & Hc & Hrun) | (e0 & _ & [=])].
  apply wrap_Ok_inv, lift_inv in Hc as [_ ->].
  apply bind_inv in Hrun as [(bundleBytes & w1 & Hc & Hrun) | (e0 & _ & [=])].
  apply wrap_Ok_inv, lift_inv in Hc as [_ ->].
  apply bind_inv in Hrun as [(signBytes & w1 & Hc & Hrun) | (e0 & _ & [=])].
  apply wrap_Ok_inv, lift_inv in Hc as [_ ->].
  apply bind_inv in Hrun as [([] & w1 & Hpost & Hrun) | (e0 & _ & [=])].
  apply wrap_Ok_inv in Hpost. unfold CreateMemberEvent in Hpost.
  cbn [relay_member_events db relay_events] in Hpost.
  match type of Hpost with
  | context [relay_CreateMemberEvent _ _ _ ?ev] => set (event := ev) in *
  end.
  destruct (relay_CreateMemberEvent _ _ _ _); [done|]. injection Hpost as Hw1.
  destruct (Hjson keys) as [data Hdata].
  destruct (vault_saved (state e) key vaultID vk (dk_DeviceID keys)
              {| MemberSeq := 1; MemberHeadHash := Sum256 signBytes |}
              _ data w1 Hs Hk Hdata)
    as (w2 & Hsaved & Hmeta & Hmem & Hheads & Hpend & _ & Hev & Hme).
  subst w1.
  rewrite Hsaved in Hrun. injection Hrun as <-.
  cbn [db relay_events relay_member_events rand_reads MemberSeq MemberHeadHash vm_DeviceID]
    in Hmeta, Hmem, Hheads, Hpend, Hev, Hme.
  exists event, signBytes. split_and!; try done.
  - rewrite (surjective_pairing (GetVaultID (state e) w2)), GetVaultID_ro. f_equal.
    unfold GetVaultID. munfold. change keyVaultID with "vault_id". rewrite Hmeta.
    rewrite !lookup_insert_ne by done. rewrite lookup_insert_eq.
    rewrite decide_True by apply length_fixN. reflexivity.
  - unfold stored_epoch, stored_u64. rewrite Hmeta.
    rewrite !lookup_insert_ne by done. rewrite lookup_insert_eq.
    by rewrite Uint64_PutUint64.
  - rewrite (surjective_pairing (GetOwnerDeviceID (state e) w2)), GetOwnerDeviceID_ro.
    f_equal. unfold GetOwnerDeviceID. munfold. change keyOwnerDeviceID with "owner_device_id".
    rewrite Hmeta. rewrite !lookup_insert_ne by done. rewrite lookup_insert_eq.
    unfold string_of_bytes, bytes_of_string. by rewrite string_of_list_byte_of_string.
  - rewrite GetMembershipHead_run, Hmeta. rewrite lookup_insert_ne by done.
    rewrite !lookup_insert_eq. cbn [default]. unfold id.
    rewrite fix32_Sum256, length_Sum256, Nat.eqb_refl, Uint64_PutUint64. reflexivity.
  - unfold IsConfigured. change keyVaultID with "vault_id". change keyDeviceID with "device_id".
    assert (Hv : is_Some (sync_meta (db w2) !! "vault_id")).
    { rewrite Hmeta. rewrite !lookup_insert_ne by done. rewrite lookup_insert_eq. eauto. }
    assert (Hd : is_Some (sync_meta (db w2) !! "device_id")).
    { rewrite Hmeta. rewrite !lookup_insert_ne by done.
      by eapply GetDeviceKeys_device_id. }
    by rewrite !bool_decide_eq_true_2.
  - pose proof (GetDeviceKeys_meta (state e) w w2) as Hm.
    pose proof (GetDeviceKeys_ro (state e) w2) as Hro.
    rewrite Hkeys in Hm. destruct (GetDeviceKeys (state e) w2) as [r0 w0].
    cbn [fst snd] in *. subst w0. rewrite Hm; [done|].
    intros k Hk0. rewrite Hmeta. unfold identity_keys in Hk0.
    rewrite !lookup_insert_ne; [done|set_solver..].
  - intros Hlaw. rewrite GetVerifiedMember_run, Hmem, lookup_insert_eq.
    by rewrite (Hlaw _ _ Hdata).
  - intros Haead. exists (fix32 vk). split; [|apply length_fixN].
    rewrite (GetVaultKey_run (state e) key) by done. rewrite Hmeta.
    rewrite !lookup_insert_ne by done. rewrite lookup_insert_eq.
    rewrite crypto_Decrypt_sealed by (done || apply length_fixN).
    unfold fix32. by rewrite length_fixN.
Qed.

End Create.

Lemma create_vault_makes_the_owner_witness :
  let e := Fixture.engine (Fixture.healthy []) in
  let w := Sample.fresh_device Fixture.dev_a in
  let run := CreateVault (H := Fixture.externals) (H0 := Sample.wire) e w in
  IsConfigured (state e) w = false /\
  run.1 = Ok tt /\
  IsConfigured (state e) run.2 = true /\
  GetOwnerDeviceID (state e) run.2 = (Ok "aaaa", run.2).
Proof.
  intros e w run.
  assert (Hfst : run.1 = Ok tt) by (vm_compute; reflexivity).
  split; [vm_compute; reflexivity|]. split; [exact Hfst|].
  assert (Hkeys : GetDeviceKeys (H := Fixture.externals) (state e) w = (Ok Fixture.dev_a, w))
    by (vm_compute; reflexivity).
  pose proof (@create_vault_makes_the_owner Fixture.externals Sample.wire e Fixture.dev_a
                Fixture.master_key w run.2 run.1 Hkeys eq_refl eq_refl
                (fun _ => ltac:(by eexists)) (surjective_pairing run)) as Hcreate.
  rewrite Hfst in Hcreate.
  destruct Hcreate as (event & signBytes & _ & _ & _ & _ & _ & _ & _ & _ & _ & _ & Hown
                       & _ & Hconf & _).
  by split.
Defined.

(** ** The engine: [AcceptInviteClaim] *)

Section Accept.
Context `{Externals}.

(** X27. Accepting a claim extends the membership chain by one link.
    A claim of another vault is refused before the relay is asked.  A
    successful [AcceptInviteClaim] has appended one member_add whose
    sequence number is the stored head's plus one (64-bit addition) and
    whose prev_hash is the stored head's hash, with this device as
    actor, the invite id and signature of the claim, and as subject the
    device bundle the relay returned for the claimed device id, as
    returned; afterwards the stored head is (that sequence number,
    SHA-256 of the signed bytes), the subject is a verified member with
    the bundle's keys and key epoch 1, and the other members, the event
    heads, the pending queue and the event log are as before. *)
Theorem accepted_claim_extends_membership (e : Engine) (keys : DeviceKeys)
    (vaultID : UUID) (claim : InviteClaim) (w : World) :
  GetDeviceKeys (state e) w = (Ok keys, w) ->
  GetVaultID (state e) w = (Ok vaultID, w) ->
  (ic_VaultID claim <> vaultID ->
   AcceptInviteClaim e claim w = (Err (ErrNew "invite claim vault mismatch"), w)) /\
  (forall w', AcceptInviteClaim e claim w = (Ok tt, w') ->
   exists head bundle event signBytes,
     GetMembershipHead (state e) w = (Ok head, w) /\
     relay_GetDevice (client e) (ic_DeviceID claim) = Ok bundle /\
     relay_member_events w' = relay_member_events w ++ [event] /\
     me_VaultID event = vaultID /\
     me_MemberSeq event = u64 (MemberSeq head + 1) /\
     me_PrevHash event = MemberHeadHash head /\
     ActorDeviceID event = dk_DeviceID keys /\
     SubjectDeviceID event = db_DeviceID bundle /\
     SubjectPubkeySign event = DevicePubkeySign bundle /\
     SubjectPubkeyBox event = DevicePubkeyBox bundle /\
     me_InviteID event = ic_InviteID claim /\
     ClaimSig event = ic_Signature claim /\
     me_Signature event = crypto_Sign (PrivkeySign keys) signBytes /\
     GetMembershipHead (state e) w'
     = (Ok {| MemberSeq := me_MemberSeq event; MemberHeadHash := Sum256 signBytes |}, w') /\
     (json_member_correct ->
      GetVerifiedMember (state e) (db_DeviceID bundle) w'
      = (Ok {| vm_DeviceID := db_DeviceID bundle;
               vm_PubkeySign := DevicePubkeySign bundle;
               vm_PubkeyBox := DevicePubkeyBox bundle; vm_KeyEpoch := 1 |}, w')) /\
     (forall d, d <> db_DeviceID bundle ->
        sync_members (db w') !! d = sync_members (db w) !! d) /\
     sync_event_heads (db w') = sync_event_heads (db w) /\
     sync_pending (db w') = sync_pending (db w) /\
     relay_events w' = relay_events w).
Proof.
  intros Hkeys Hvid. split.
  - intros Hne. unfold AcceptInviteClaim.
    unfold bind at 1, wrap at 1. rewrite Hkeys.
    unfold bind at 1, wrap at 1. rewrite Hvid.
    by rewrite bool_decide_eq_false_2.
  - intros w' Hrun. unfold AcceptInviteClaim in Hrun.
    unfold bind at 1, wrap at 1 in Hrun. rewrite Hkeys in Hrun.
    unfold bind at 1, wrap at 1 in Hrun. rewrite Hvid in Hrun.
    destruct (negb _); [done|].
    apply bind_inv in Hrun as [(bundle & w1 & Hc & Hrun) | (e0 & _ & [=])].
    apply wrap_Ok_inv, lift_inv in Hc as [Hbundle ->].
    apply bind_inv in Hrun as [(head & w1 & Hc & Hrun) | (e0 & _ & [=])].
    apply wrap_Ok_inv, (run_ro _ _ _ _ (GetMembershipHead_ro _ _)) in Hc as [Hhead ->].
    unfold bind at 1, NewUUID, rand_Read in Hrun.
    apply bind_inv in Hrun as [(idBytes & w1 & Hc & Hrun) | (e0 & _ & [=])].
    apply wrap_Ok_inv, lift_inv in Hc as [_ ->].
    apply bind_inv in Hrun as [(targetBytes & w1 & Hc & Hrun) | (e0 & _ & [=])].
    apply wrap_Ok_inv, lift_inv in Hc as [_ ->].
    apply bind_inv in Hrun as [(signBytes & w1 & Hc & Hrun) | (e0 & _ & [=])].
    apply wrap_Ok_inv, lift_inv in Hc as [_ ->].
    apply bind_inv in Hrun as [([] & w1 & Hpost & Hrun) | (e0 & _ & [=])].
    apply wrap_Ok_inv in Hpost. unfold CreateMemberEvent in Hpost.
    cbn [relay_member_events db relay_events] in Hpost.
    match type of Hpost with
    | context [relay_CreateMemberEvent _ _ _ ?ev] => set (event := ev) in *
    end.
    destruct (relay_CreateMemberEvent _ _ _ _); [done|]. injection Hpost as Hw1.
    apply bind_inv in Hrun as [([] & w2 & Hset & Hrun) | (e0 & _ & [=])].
    apply wrap_Ok_inv in Hset. rewrite SetMembershipHead_run in Hset.
    injection Hset as Hw2.
    apply wrap_Ok_inv in Hrun. unfold SetVerifiedMember in Hrun.
    destruct (json_Marshal_member _) as [data|] eqn:Hdata; [|done].
    injection Hrun as Hw'.
    assert (Hmeta : sync_meta (db w')
                    = <["member_head_hash" := fix32 (Sum256 signBytes)]>
                        (<["member_seq" := PutUint64 (u64 (MemberSeq head + 1))]>
                           (sync_meta (db w)))).
    { subst w' w2 w1. by destruct w as [[] ? ? ?]. }
    assert (Hmem : sync_members (db w')
                   = <[db_DeviceID bundle := data]> (sync_members (db w))).
    { subst w' w2 w1. by destruct w as [[] ? ? ?]. }
    exists head, bundle, event, signBytes. split_and!; try done.
    + subst w' w2 w1. by destruct w as [[] ? ? ?].
    + rewrite GetMembershipHead_run, Hmeta. rewrite lookup_insert_ne by done.
      rewrite !lookup_insert_eq. cbn [default]. unfold id.
      rewrite fix32_Sum256, length_Sum256, Nat.eqb_refl, Uint64_PutUint64, u64_idemp.
      reflexivity.
    + intros Hlaw. rewrite GetVerifiedMember_run, Hmem, lookup_insert_eq.
      by rewrite (Hlaw _ _ Hdata).
    + intros d Hne. rewrite Hmem. by rewrite lookup_insert_ne.
    + subst w' w2 w1. by destruct w as [[] ? ? ?].
    + subst w' w2 w1. by destruct w as [[] ? ? ?].
    + subst w' w2 w1. by destruct w as [[] ? ? ?].
Qed.

End Accept.

Lemma accepted_claim_extends_membership_witness :
  let e := Fixture.engine Fixture.owner_relay in
  let w := Fixture.world_of Fixture.dev_a [Fixture.dev_a] in
  let claim := Fixture.claim_of "2" "cccc" in
  let run := AcceptInviteClaim (H := Fixture.externals) e claim w in
  run.1 = Ok tt /\
  exists event,
    relay_member_events run.2 = relay_member_events w ++ [event] /\
    me_MemberSeq event = 1 /\
    SubjectDeviceID event = "cccc".
Proof.
  intros e w claim run.
  assert (Hfst : run.1 = Ok tt) by (vm_compute; reflexivity).
  split; [exact Hfst|].
  assert (Hkeys : GetDeviceKeys (H := Fixture.externals) (state e) w = (Ok Fixture.dev_a, w))
    by (vm_compute; reflexivity).
  assert (Hvid : GetVaultID (state e) w = (Ok Fixture.the_vault_id, w))
    by (vm_compute; reflexivity).
  assert (Hrun : run = (Ok tt, run.2)).
  { rewrite (surjective_pairing run) at 1. by rewrite Hfst. }
  destruct (@accepted_claim_extends_membership Fixture.externals e Fixture.dev_a
              Fixture.the_vault_id claim w Hkeys Hvid) as [_ Hok].
  destruct (Hok run.2 Hrun)
    as (head & bundle & event & signBytes & Hhead & Hbundle & Hev & _ & Hseq & _ & _
        & Hsubj & _).
  exists event. split; [exact Hev|].
  injection Hbundle as <-. split; [|exact Hsubj].
  rewrite Hseq. assert (Hh : MemberSeq head = 0).
  { rewrite GetMembershipHead_run in Hhead. injection Hhead as <-. vm_compute. reflexivity. }
  rewrite Hh. vm_compute. reflexivity.
Defined.

(** ** The TUI: one sync cycle *)

Section SyncNowFacts.
Context `{Externals}.

Lemma sync_warnings_run c a e entries w :
  exists warning w',
    sync_warnings c a e entries w = (Ok warning, w') /\
    (warning = None <->
     exists w1 w2,
       RefreshMembership c e w = (Ok tt, w1) /\
       seedLocalEntriesIfNeeded a entries w1 = (Ok tt, w2) /\
       FlushPendingEntries e w2 = (Ok tt, w')) /\
    (forall err, (RefreshMembership c e w).1 = Err err ->
       exists warn, warning = Some warn /\
         has_prefix ("failed to refresh vault members: " +:+ Error err) (Error warn) = true).
Proof.
  unfold sync_warnings. unfold bind at 1, catch at 1.
  destruct (RefreshMembership c e w) as [r1 w1] eqn:H1. cbn [fst snd].
  unfold bind at 1, catch at 1.
  destruct (seedLocalEntriesIfNeeded a entries w1) as [r2 w2] eqn:H2. cbn [fst snd].
  unfold bind at 1, catch at 1.
  destruct (FlushPendingEntries e w2) as [r3 w3] eqn:H3. cbn [fst snd]. unfold ret.
  eexists _, w3. split; [reflexivity|]. split.
  - split.
    + intros Hnone.
      destruct r1 as [[]|e1], r2 as [[]|e2], r3 as [[]|e3]; try done.
      by exists w1, w2.
    + intros (w1' & w2' & [= -> ->] & Hs & Hf). rewrite H2 in Hs. injection Hs as -> ->.
      rewrite H3 in Hf. by injection Hf as ->.
  - intros err [= ->]. cbn [mergeSyncWarning].
    assert (Hpre : forall s t, has_prefix s (s +:+ t) = true).
    { induction s as [|ch s IH]; intros t; [done|]. simpl. by rewrite Ascii.eqb_refl. }
    assert (Hrefl : forall s, has_prefix s s = true).
    { induction s as [|ch s IH]; [done|]. simpl. by rewrite Ascii.eqb_refl. }
    destruct r2 as [[]|e2].
    + destruct r3 as [[]|e3]; (eexists; split; [reflexivity|]); cbn [Error];
        change ("failed to refresh vault members" +:+ ": " +:+ Error err)
          with ("failed to refresh vault members: " +:+ Error err); apply Hrefl.
    + destruct r3 as [[]|e3]; (eexists; split; [reflexivity|]); cbn [Error];
        change ("failed to refresh vault members" +:+ ": " +:+ Error err)
          with ("failed to refresh vault members: " +:+ Error err); apply Hpre.
Qed.

(** X28. A sync cycle fails only where it must.  Without sync objects
    [handleSyncNow] fails and does nothing.  Otherwise its failure is
    the error of the claim-accepting step or of [SyncEntries]: a
    failure to refresh the members, to seed or to flush never fails the
    cycle, it ends up in the warning.  A completed cycle carries no
    warning exactly when all three succeeded, and a failed refresh is
    always the first thing the warning says.  [mergeSyncWarning] keeps
    the one error it is given and joins two by their messages, so the
    joined warning is a plain message in which no API error can be
    found any more. *)
Theorem sync_now_fails_only_on_claims_or_merge (c : Endpoints) (a : App)
    (entries : list Entry) (w : World) :
  (syncState a = None \/ syncEngine a = None ->
     handleSyncNow c a entries w = (SyncNowFailMsg (ErrNew "sync not configured"), w)) /\
  (forall s e, syncState a = Some s -> syncEngine a = Some e ->
     (forall err w', handleSyncNow c a entries w = (SyncNowFailMsg err, w') ->
        acceptInviteClaimsIfOwner a w = (Err err, w') \/
        exists w1, SyncEntries e entries w1 = (Err err, w')) /\
     (forall newEntries members warning w',
        handleSyncNow c a entries w = (SyncNowCompleteMsg newEntries members warning, w') ->
        exists w1 w4,
          acceptInviteClaimsIfOwner a w = (Ok tt, w1) /\
          SyncEntries e entries w4 = (Ok newEntries, w') /\
          (warning = None <->
           exists w2 w3,
             RefreshMembership c e w1 = (Ok tt, w2) /\
             seedLocalEntriesIfNeeded a entries w2 = (Ok tt, w3) /\
             FlushPendingEntries e w3 = (Ok tt, w4)) /\
          (forall err, (RefreshMembership c e w1).1 = Err err ->
             exists warn, warning = Some warn /\
               has_prefix ("failed to refresh vault members: " +:+ Error err)
                          (Error warn) = true))) /\
  (forall x, mergeSyncWarning x None = x /\ mergeSyncWarning None x = x) /\
  (forall x y, exists joined,
     mergeSyncWarning (Some x) (Some y) = Some joined /\
     Error joined = Error x +:+ "; " +:+ Error y /\
     errors_As joined = None /\
     isInviteAlreadyUsed joined = false).
Proof.
  split_and!.
  - unfold handleSyncNow. intros [->| ->]; [done|]. by destruct (syncState a).
  - intros s e Hs He.
    assert (Hshape : handleSyncNow c a entries w
              = match acceptInviteClaimsIfOwner a w with
                | (Err err, w1) => (SyncNowFailMsg err, w1)
                | (Ok _, w1) =>
                    match sync_warnings c a e entries w1 with
                    | (Err err, w4) => (SyncNowFailMsg err, w4)
                    | (Ok warning, w4) =>
                        match SyncEntries e entries w4 with
                        | (Err err, w5) => (SyncNowFailMsg err, w5)
                        | (Ok newEntries, w5) =>
                            (SyncNowCompleteMsg newEntries
                               (match (GetVerifiedMembers s w5).1 with
                                | Ok members => length members
                                | Err _ => 0%nat
                                end) warning, (GetVerifiedMembers s w5).2)
                        end
                    end
                end).
    { unfold handleSyncNow. rewrite Hs, He. unfold bind at 1.
      destruct (acceptInviteClaimsIfOwner a w) as [[[]|err] w1]; [|done].
      unfold bind at 1.
      destruct (sync_warnings c a e entries w1) as [[warning|err] w4]; [|done].
      unfold bind at 1, catch at 1.
      destruct (SyncEntries e entries w4) as [[newEntries|err] w5]; [|done].
      cbn [fst snd]. unfold bind, catch, ret. reflexivity. }
    assert (Hro : forall w0, (GetVerifiedMembers s w0).2 = w0) by done.
    split.
    + intros err w' Hrun. rewrite Hshape in Hrun.
      destruct (acceptInviteClaimsIfOwner a w) as [[[]|err0] w1];
        [|injection Hrun as <- <-; by left].
      destruct (sync_warnings_run c a e entries w1) as (warning & w4 & Hw & _).
      rewrite Hw in Hrun.
      destruct (SyncEntries e entries w4) as [[newEntries|err0] w5] eqn:Hsync; [done|].
      injection Hrun as <- <-. right. by exists w4.
    + intros newEntries members warning w' Hrun. rewrite Hshape in Hrun.
      destruct (acceptInviteClaimsIfOwner a w) as [[[]|err0] w1]; [|done].
      destruct (sync_warnings_run c a e entries w1) as (warning' & w4 & Hw & Hnone & Hrefresh).
      rewrite Hw in Hrun.
      destruct (SyncEntries e entries w4) as [[newEntries'|err0] w5] eqn:Hsync; [|done].
      rewrite Hro in Hrun. injection Hrun as <- _ <- <-.
      exists w1, w4. by split_and!.
  - intros x. split; [done|]. by destruct x.
  - intros x y. eexists. split; [reflexivity|]. by split_and!.
Qed.

End SyncNowFacts.

Lemma sync_now_fails_only_on_claims_or_merge_witness :
  let c := {| relay_GetVaultMembers := fun _ => Err (ErrNew "request failed");
              relay_RegisterDevice := fun _ => None |} in
  let e := Fixture.engine (Fixture.healthy []) in
  let a := {| store_VaultKey := Some Fixture.master_key;
              syncState := Some Fixture.sync_state;
              syncEngine := Some e |} in
  let w := Fixture.world_of Fixture.dev_a [Fixture.dev_a] in
  exists newEntries members warn w',
    handleSyncNow (H := Fixture.externals) c a [] w
    = (SyncNowCompleteMsg newEntries members (Some warn), w') /\
    has_prefix
      ("failed to refresh vault members: "
       +:+ Error (ErrWrap "failed to get vault members" (ErrNew "request failed")))
      (Error warn) = true.
Proof.
  intros c e a w.
  pose (run := handleSyncNow (H := Fixture.externals) c a [] w).
  assert (Hshape : exists newEntries members warn,
            run.1 = SyncNowCompleteMsg newEntries members (Some warn)).
  { eexists _, _, _. vm_compute. reflexivity. }
  destruct Hshape as (newEntries & members & warn & Hfst).
  assert (Hrun : handleSyncNow (H := Fixture.externals) c a [] w
                 = (SyncNowCompleteMsg newEntries members (Some warn), run.2)).
  { fold run. rewrite (surjective_pairing run) at 1. by rewrite Hfst. }
  exists newEntries, members, warn, run.2. split; [exact Hrun|].
  destruct (@sync_now_fails_only_on_claims_or_merge Fixture.externals c a [] w)
    as (_ & Hconf & _).
  destruct (Hconf Fixture.sync_state e eq_refl eq_refl) as [_ Hdone].
  destruct (Hdone _ _ _ _ Hrun) as (w1 & w4 & Hacc & _ & _ & Hrefresh).
  assert (Hsnd : (acceptInviteClaimsIfOwner (H := Fixture.externals) a w).2 = w)
    by (vm_compute; reflexivity).
  rewrite Hacc in Hsnd. cbn [snd] in Hsnd. subst w1.
  assert (Hfail : (RefreshMembership (H := Fixture.externals) c e w).1
                  = Err (ErrWrap "failed to get vault members" (ErrNew "request failed")))
    by (vm_compute; reflexivity).
  destruct (Hrefresh _ Hfail) as (warn' & Hwarn & Hpre).
  injection Hwarn as <-. exact Hpre.
Defined.

(** ** Ids in hexadecimal *)

Lemma hex_byte (v : byte) :
  hex_value (hex_char (Z_of_byte v / 16)) = Some (Z_of_byte v / 16) /\
  hex_value (hex_char (Z_of_byte v mod 16)) = Some (Z_of_byte v mod 16) /\
  byte_of_Z (Z_of_byte v / 16 * 16 + Z_of_byte v mod 16) = v.
Proof. destruct v; vm_compute; done. Qed.

Lemma hex_decode_encode (b : bytes) : hex_DecodeString (hex_EncodeToString b) = Ok b.
Proof.
  induction b as [|v b IH]; [done|].
  destruct (hex_byte v) as (Hhi & Hlo & Hv).
  cbn [hex_EncodeToString hex_DecodeString]. by rewrite Hhi, Hlo, IH, Hv.
Qed.

Lemma hex_length (b : bytes) :
  String.length (hex_EncodeToString b) = (2 * length b)%nat.
Proof.
  induction b as [|v b IH]; [done|].
  cbn [hex_EncodeToString String.length length]. rewrite IH. lia.
Qed.

Lemma hex_decode_odd (s : string) :
  Nat.odd (String.length s) = true -> exists err, hex_DecodeString s = Err err.
Proof.
  intros Hodd. apply Nat.odd_spec in Hodd as [n Hn].
  revert s Hn. induction n as [|n IH]; intros s Hn.
  - destruct s as [|p [|q rest]];
      [cbn [String.length] in Hn; lia| |cbn [String.length] in Hn; lia].
    cbn. destruct (hex_value p); by eexists.
  - destruct s as [|p [|q rest]];
      [cbn [String.length] in Hn; lia|cbn [String.length] in Hn; lia|].
    cbn [hex_DecodeString].
    destruct (hex_value p); [|by eexists]. destruct (hex_value q); [|by eexists].
    destruct (IH rest) as [err ->]; [cbn [String.length] in Hn; lia|by eexists].
Qed.

Section DeviceIds.
Context `{Externals}.

(** X29. Device ids and fingerprints are hexadecimal.  [ComputeDeviceID]
    is the SHA-256 of the signing key in 64 lower-case hex digits, and
    [DeviceIDToBytes] gives back the 32 bytes of [DeviceIDBytes]; more
    generally decoding what [hex.EncodeToString] wrote returns the
    bytes, and a string of odd length never decodes.  A fingerprint is
    empty for a key shorter than 8 bytes and otherwise the 16 hex digits
    of its first 8 bytes, so two keys that agree on their first 8 bytes
    have the same fingerprint.  [generateID] yields 32 hex digits. *)
Theorem ids_are_hex (pubkeySign : bytes) :
  DeviceIDToBytes (ComputeDeviceID pubkeySign) = Ok (DeviceIDBytes pubkeySign) /\
  String.length (ComputeDeviceID pubkeySign) = 64%nat /\
  length (DeviceIDBytes pubkeySign) = 32%nat /\
  (forall b, hex_DecodeString (hex_EncodeToString b) = Ok b) /\
  (forall s, Nat.odd (String.length s) = true -> exists err, DeviceIDToBytes s = Err err) /\
  (forall pubKey, (length pubKey < 8)%nat -> ComputeFingerprint pubKey = "") /\
  (forall pubKey, (8 <= length pubKey)%nat ->
     String.length (ComputeFingerprint pubKey) = 16%nat /\
     hex_DecodeString (ComputeFingerprint pubKey) = Ok (take 8 pubKey)) /\
  (forall k1 k2, (8 <= length k1)%nat -> (8 <= length k2)%nat ->
     (ComputeFingerprint k1 = ComputeFingerprint k2 <-> take 8 k1 = take 8 k2)) /\
  (forall w, exists id, (generateID w).1 = Ok id /\ String.length id = 32%nat).
Proof.
  split_and!.
  - apply hex_decode_encode.
  - unfold ComputeDeviceID. by rewrite hex_length, length_Sum256.
  - apply length_Sum256.
  - apply hex_decode_encode.
  - apply hex_decode_odd.
  - intros pubKey Hlen. unfold ComputeFingerprint.
    by rewrite (proj2 (Nat.ltb_lt _ _) Hlen).
  - intros pubKey Hlen. unfold ComputeFingerprint.
    rewrite (proj2 (Nat.ltb_ge _ _) Hlen). split; [|apply hex_decode_encode].
    rewrite hex_length, length_take. lia.
  - intros k1 k2 H1 H2. unfold ComputeFingerprint.
    rewrite (proj2 (Nat.ltb_ge _ _) H1), (proj2 (Nat.ltb_ge _ _) H2). split.
    + intros Heq. apply (f_equal hex_DecodeString) in Heq.
      rewrite !hex_decode_encode in Heq. by injection Heq.
    + by intros ->.
  - intros w. eexists. split; [reflexivity|]. rewrite hex_length, length_fixN. done.
Qed.

End DeviceIds.

Lemma ids_are_hex_witness :
  ComputeFingerprint (replicate 32 "a"%byte) = "6161616161616161" /\
  ComputeFingerprint (replicate 32 "a"%byte)
  = ComputeFingerprint (replicate 8 "a"%byte ++ replicate 24 "b"%byte).
Proof.
  split; [vm_compute; reflexivity|].
  destruct (@ids_are_hex Fixture.externals []) as (_ & _ & _ & _ & _ & _ & _ & Hsame & _).
  apply Hsame; [vm_compute; lia..|]. vm_compute. reflexivity.
Defined.

(** ** Invitations *)

Section Invite.
Context `{Externals} `{InviteCode}.

Lemma save_members_meta s l w r w' :
  for_each (fun member =>
              wrap "failed to save verified member"
                (SetVerifiedMember s (member_record member))) l w = (r, w') ->
  sync_meta (db w') = sync_meta (db w).
Proof.
  revert w. induction l as [|member l IH]; intros w Hrun.
  - by injection Hrun as _ <-.
  - cbn [for_each] in Hrun. unfold bind at 1, wrap, SetVerifiedMember in Hrun.
    destruct (json_Marshal_member _) as [data|].
    + apply IH in Hrun. rewrite Hrun. by destruct w as [[] ? ? ?].
    + by injection Hrun as _ <-.
Qed.

Lemma BoxOpen_sealed message nonce senderPub senderPriv recipientPub recipientPriv :
  box_correct senderPub senderPriv recipientPub recipientPriv ->
  length nonce = 24%nat ->
  BoxOpen (nonce ++ box_Seal message nonce recipientPub senderPriv) senderPub recipientPriv
  = Ok message.
Proof.
  intros Hbox Hn. unfold BoxOpen.
  rewrite length_app, Hn.
  replace (24 + length (box_Seal message nonce recipientPub senderPriv) <? 24)%nat
    with false by (symmetry; apply Nat.ltb_ge; lia).
  rewrite take_app_length', drop_app_length' by done.
  rewrite fixN_id by done. by rewrite Hbox.
Qed.

Lemma GetVaultKey_length s w vk w' :
  GetVaultKey s w = (Ok vk, w') -> length vk = 32%nat.
Proof.
  destruct (vaultKey s) as [key|] eqn:Hs.
  - rewrite (GetVaultKey_run s key w Hs).
    destruct (sync_meta (db w) !! "vault_key_enc"); [|done].
    destruct (crypto_Decrypt _ _) as [dec|]; [|done].
    destruct (length dec =? 32)%nat eqn:Hl; [|done]. intros [= <- _].
    by apply Nat.eqb_eq.
  - unfold GetVaultKey, getVaultKey. by rewrite Hs.
Qed.

Lemma meta_lookup_with_meta' f g w :
  sync_meta (db (with_db (with_members g) (with_db (with_meta f) w)))
  = f (sync_meta (db w)).
Proof. by destruct w as [[] ? ? ?]. Qed.

(** A successful [InviteDevice], step by step. *)
Lemma InviteDevice_inv c e keys bundle invite w w' :
  GetDeviceKeys (state e) w = (Ok keys, w) ->
  InviteDevice c e bundle w = (Ok invite, w') ->
  exists vaultID vk,
    GetVaultID (state e) w = (Ok vaultID, w) /\
    GetVaultKey (state e) w = (Ok vk, w) /\
    let nonce := fixN 24 (rand_source (rand_reads w)) in
    inv_InviteID invite = fixN 16 (rand_source (S (rand_reads w))) /\
    inv_VaultID invite = vaultID /\
    inv_Nonce invite = nonce /\
    WrappedPayload invite
    = box_Seal vk nonce (fix32 (DevicePubkeyBox bundle)) (PrivkeyBox keys) /\
    TargetDeviceID invite = db_DeviceID bundle /\
    CreatedByDeviceID invite = dk_DeviceID keys /\
    SingleUse invite = true /\
    relay_CreateInvite c vaultID invite = None /\
    db w' = db w.
Proof.
  intros Hkeys Hrun. unfold InviteDevice in Hrun.
  unfold bind at 1, wrap at 1 in Hrun. rewrite Hkeys in Hrun.
  apply bind_inv in Hrun as [(vaultID & w1 & Hc & Hrun) | (e0 & _ & [=])].
  apply wrap_Ok_inv, (run_ro _ _ _ _ (GetVaultID_ro _ _)) in Hc as [Hvid ->].
  apply bind_inv in Hrun as [(vk & w1 & Hc & Hrun) | (e0 & _ & [=])].
  apply wrap_Ok_inv, (run_ro _ _ _ _ (GetVaultKey_ro _ _)) in Hc as [Hvk ->].
  unfold bind at 1, wrap at 1, BoxSeal in Hrun.
  unfold bind at 1, wrap at 1, rand_Read in Hrun. unfold ret at 1 in Hrun.
  unfold bind at 1, NewUUID, rand_Read in Hrun. cbn [rand_reads] in Hrun.
  set (nonce := fixN 24 (rand_source (rand_reads w))) in *.
  assert (Hn : length nonce = 24%nat) by apply length_fixN.
  rewrite take_app_length', drop_app_length' in Hrun by done.
  apply bind_inv in Hrun as [(idBytes & w1 & Hc & Hrun) | (e0 & _ & [=])].
  apply wrap_Ok_inv, lift_inv in Hc as [_ ->].
  apply bind_inv in Hrun as [(targetBytes & w1 & Hc & Hrun) | (e0 & _ & [=])].
  apply wrap_Ok_inv, lift_inv in Hc as [_ ->].
  apply bind_inv in Hrun as [(signBytes & w1 & Hc & Hrun) | (e0 & _ & [=])].
  apply wrap_Ok_inv, lift_inv in Hc as [_ ->].
  apply bind_inv in Hrun as [([] & w1 & Hpost & Hrun) | (e0 & _ & [=])].
  apply wrap_Ok_inv in Hpost. unfold CreateInvite, lift in Hpost.
  destruct (relay_CreateInvite _ _ _) eqn:Hrelay; [done|]. injection Hpost as <-.
  injection Hrun as <- <-.
  exists vaultID, vk. by split_and!.
Qed.

(** X30. An invitation delivers the vault key.  Device A, holding its
    keys, invites device B by [InviteDevice]: the invite carries the
    vault id of A, A as creator, B's bundle as target, a 24-byte nonce,
    is single-use, and changes nothing in A's store.  When B, holding
    its keys, is served that invite under its id and A's bundle as the
    creator's, and the box made for B's public key with A's private key
    opens with A's public key and B's private key, then a successful
    [JoinVault] leaves B with the vault id of A, key epoch 1, and a
    stored vault key that [GetVaultKey] opens to the very key A holds.
    An invite id the relay does not list fails the join with nothing
    changed. *)
Theorem invite_delivers_the_vault_key (m : Endpoints) (cA cB : InviteEndpoints)
    (eA eB : Engine) (keysA keysB : DeviceKeys) (storeKey : bytes)
    (bundleA bundleB : DeviceBundle) (invite : Invite) (invites : list Invite)
    (wA wA' wB : World) :
  GetDeviceKeys (state eA) wA = (Ok keysA, wA) ->
  InviteDevice cA eA bundleB wA = (Ok invite, wA') ->
  GetDeviceKeys (state eB) wB = (Ok keysB, wB) ->
  relay_GetInvites cB (dk_DeviceID keysB) = Ok invites ->
  exists vaultID vk,
    GetVaultID (state eA) wA = (Ok vaultID, wA) /\
    GetVaultKey (state eA) wA = (Ok vk, wA) /\
    inv_VaultID invite = vaultID /\
    CreatedByDeviceID invite = dk_DeviceID keysA /\
    TargetDeviceID invite = db_DeviceID bundleB /\
    length (inv_Nonce invite) = 24%nat /\
    SingleUse invite = true /\
    db wA' = db wA /\
    (forall inviteID, find_invite inviteID invites = None ->
       JoinVault m cB eB inviteID wB
       = (Err (ErrNew ("invite not found: " +:+ UUID_String inviteID)), wB)) /\
    (forall wB',
       aead_correct ->
       vaultKey (state eB) = Some storeKey -> length storeKey = 32%nat ->
       find_invite (inv_InviteID invite) invites = Some invite ->
       relay_GetDevice (client eB) (dk_DeviceID keysA) = Ok bundleA ->
       box_correct (fix32 (DevicePubkeyBox bundleA)) (PrivkeyBox keysA)
                   (fix32 (DevicePubkeyBox bundleB)) (PrivkeyBox keysB) ->
       JoinVault m cB eB (inv_InviteID invite) wB = (Ok tt, wB') ->
       GetVaultKey (state eB) wB' = (Ok vk, wB') /\
       GetVaultID (state eB) wB' = (Ok vaultID, wB') /\
       stored_epoch wB' = 1).
Proof.
  intros HkeysA Hinvite HkeysB Hinvites.
  destruct (InviteDevice_inv _ _ _ _ _ _ _ HkeysA Hinvite)
    as (vaultID & vk & Hvid & Hvk & Hinv).
  cbv zeta in Hinv.
  destruct Hinv as (Hid & Hivid & Hnonce & Hwrapped & Htarget & Hcreator & Hsingle & _ & Hdb).
  exists vaultID, vk. split_and!; try done.
  - rewrite Hnonce. apply length_fixN.
  - intros inviteID Hnone. unfold JoinVault.
    unfold bind at 1, wrap at 1. rewrite HkeysB.
    unfold bind at 1, wrap at 1, GetInvites, lift. rewrite Hinvites. by rewrite Hnone.
  - intros wB' Haead Hs Hk Hfind Hbundle Hbox Hjoin.
    pose proof (GetVaultKey_length _ _ _ _ Hvk) as Hvklen.
    unfold JoinVault in Hjoin.
    unfold bind at 1, wrap at 1 in Hjoin. rewrite HkeysB in Hjoin.
    unfold bind at 1, wrap at 1, GetInvites, lift in Hjoin. rewrite Hinvites in Hjoin.
    rewrite Hfind in Hjoin.
    unfold bind at 1, wrap at 1, GetDevice, lift in Hjoin.
    rewrite Hcreator, Hbundle in Hjoin.
    unfold bind at 1, wrap at 1, lift in Hjoin.
    rewrite Hnonce, Hwrapped in Hjoin.
    rewrite (BoxOpen_sealed vk _ _ _ _ _ Hbox) in Hjoin by apply length_fixN.
    rewrite (proj2 (Nat.ltb_ge _ _)) in Hjoin by lia.
    rewrite take_ge in Hjoin by lia.
    apply bind_inv in Hjoin as [(idBytes & w1 & Hc & Hjoin) | (e0 & _ & [=])].
    apply wrap_Ok_inv, lift_inv in Hc as [_ ->].
    apply bind_inv in Hjoin as [(claimBytes & w1 & Hc & Hjoin) | (e0 & _ & [=])].
    apply wrap_Ok_inv, lift_inv in Hc as [_ ->].
    apply bind_inv in Hjoin as [([] & w1 & Hc & Hjoin) | (e0 & _ & [=])].
    apply wrap_Ok_inv in Hc. unfold ClaimInvite, lift in Hc.
    destruct (relay_ClaimInvite _ _ _); [done|]. injection Hc as <-.
    unfold bind at 1, wrap at 1, SetVaultID, meta_Put, modify in Hjoin.
    unfold bind at 1, wrap at 1 in Hjoin.
    rewrite (SetVaultKey_run (state eB) storeKey) in Hjoin by done.
    unfold bind at 1, wrap at 1, SetKeyEpoch in Hjoin. rewrite put_u64_run in Hjoin.
    match type of Hjoin with
    | bind _ _ ?w0 = _ => set (w3 := w0) in *
    end.
    assert (Hmeta3 : sync_meta (db w3)
                     = <["key_epoch" := PutUint64 1]>
                         (<["vault_key_enc" :=
                              fixN 24 (rand_source (rand_reads wB))
                              ++ xchacha_Seal storeKey
                                   (fixN 24 (rand_source (rand_reads wB))) (fix32 vk)]>
                            (<["vault_id" := inv_VaultID invite]> (sync_meta (db wB)))))
      by (subst w3; by destruct wB as [[] ? ? ?]).
    clearbody w3.
    apply bind_inv in Hjoin as [(answer & w4 & Hc & Hjoin) | (e0 & _ & [=])].
    apply wrap_Ok_inv, lift_inv in Hc as [_ ->].
    destruct (negb _); [done|].
    apply bind_inv in Hjoin as [([] & w4 & Hc & Hjoin) | (e0 & _ & [=])].
    apply wrap_Ok_inv in Hc. rewrite SetMembershipHead_run in Hc. injection Hc as Hw4.
    apply bind_inv in Hjoin as [([] & w5 & Hc & Hjoin) | (e0 & _ & [=])].
    apply wrap_Ok_inv in Hc. unfold ClearVerifiedMembers, modify in Hc. injection Hc as Hw5.
    apply save_members_meta in Hjoin.
    assert (Hmeta : forall k, k <> "member_seq" -> k <> "member_head_hash" ->
              sync_meta (db wB') !! k = sync_meta (db w3) !! k).
    { intros k Hk1 Hk2. rewrite Hjoin. subst w5 w4.
      rewrite meta_lookup_with_meta'. by rewrite !lookup_insert_ne. }
    split_and!.
    + rewrite (GetVaultKey_run (state eB) storeKey) by done.
      rewrite Hmeta, Hmeta3 by done.
      rewrite lookup_insert_ne by done. rewrite lookup_insert_eq.
      rewrite crypto_Decrypt_sealed by (done || apply length_fixN).
      unfold fix32. rewrite fixN_id by done. by rewrite Hvklen.
    + rewrite (surjective_pairing (GetVaultID (state eB) wB')), GetVaultID_ro. f_equal.
      unfold GetVaultID. munfold. change keyVaultID with "vault_id".
      rewrite Hmeta, Hmeta3 by done.
      rewrite !lookup_insert_ne by done. rewrite lookup_insert_eq, Hivid.
      pose proof (GetVaultID_ro (state eA) wA) as _.
      assert (Hl : length vaultID = 16%nat).
      { unfold GetVaultID in Hvid. munfold. change keyVaultID with "vault_id" in Hvid.
        destruct (sync_meta (db wA) !! "vault_id") as [data|]; [|done].
        destruct (decide (length data = 16%nat)) as [Hl|]; [|done].
        by injection Hvid as <-. }
      by rewrite decide_True.
    + unfold stored_epoch, stored_u64. rewrite Hmeta, Hmeta3 by done.
      rewrite lookup_insert_eq. by rewrite Uint64_PutUint64.
Qed.

End Invite.

Lemma sample_box_correct (senderPub senderPriv recipientPub recipientPriv : bytes) :
  @box_correct Sample.invite_code senderPub senderPriv recipientPub recipientPriv.
Proof. intros nonce message. cbn. by rewrite bool_decide_eq_true_2. Qed.

Lemma invite_delivers_the_vault_key_witness :
  let eA := Fixture.engine (Fixture.healthy []) in
  let wA := Fixture.world_of Fixture.dev_a [Fixture.dev_a] in
  let invite := Sample.invite_for Fixture.dev_a Fixture.dev_b in
  let relayB :=
    {| relay_GetInviteClaims := fun _ => Ok [];
       relay_GetDevice := fun _ => Ok (Sample.bundle_of Fixture.dev_a);
       relay_CreateMemberEvent := fun _ _ _ => None;
       relay_PushEvent := fun _ _ _ => None;
       relay_PullEvents := fun _ _ => Ok [] |} in
  let eB := Fixture.engine relayB in
  let wB := Sample.fresh_device Fixture.dev_b in
  let join := JoinVault (H := Fixture.externals) (H0 := Sample.invite_code)
                (Sample.listing [Fixture.dev_a; Fixture.dev_b]) (Sample.inviting [invite])
                eB (inv_InviteID invite) wB in
  join.1 = Ok tt /\
  GetVaultKey (H := Fixture.externals) (state eB) wB
  = (Err (ErrNew "vault_key not set"), wB) /\
  GetVaultKey (H := Fixture.externals) (state eB) join.2 = (Ok Fixture.the_vault_key, join.2).
Proof.
  intros eA wA invite relayB eB wB join.
  assert (Hjoin1 : join.1 = Ok tt) by (vm_compute; reflexivity).
  split; [exact Hjoin1|]. split; [vm_compute; reflexivity|].
  pose (runA := InviteDevice (H := Fixture.externals) (H0 := Sample.invite_code)
                  (Sample.inviting []) eA (Sample.bundle_of Fixture.dev_b) wA).
  assert (HrunA : runA = (Ok invite, runA.2)).
  { assert (Hfst : runA.1 = Ok invite) by (vm_compute; reflexivity).
    rewrite (surjective_pairing runA) at 1. by rewrite Hfst. }
  assert (HkeysA : GetDeviceKeys (H := Fixture.externals) (state eA) wA
                   = (Ok Fixture.dev_a, wA)) by (vm_compute; reflexivity).
  assert (HkeysB : GetDeviceKeys (H := Fixture.externals) (state eB) wB
                   = (Ok Fixture.dev_b, wB)) by (vm_compute; reflexivity).
  assert (Hjoin : join = (Ok tt, join.2)).
  { rewrite (surjective_pairing join) at 1. by rewrite Hjoin1. }
  assert (Hfind : find_invite (inv_InviteID invite) [invite] = Some invite)
    by (vm_compute; reflexivity).
  assert (HvkA : GetVaultKey (H := Fixture.externals) (state eA) wA
                 = (Ok Fixture.the_vault_key, wA)) by (vm_compute; reflexivity).
  destruct (@invite_delivers_the_vault_key Fixture.externals Sample.invite_code
              (Sample.listing [Fixture.dev_a; Fixture.dev_b]) (Sample.inviting [])
              (Sample.inviting [invite]) eA eB Fixture.dev_a Fixture.dev_b
              Fixture.master_key (Sample.bundle_of Fixture.dev_a)
              (Sample.bundle_of Fixture.dev_b) invite [invite] wA runA.2 wB
              HkeysA HrunA HkeysB eq_refl)
    as (vaultID & vk & _ & Hvk & _ & _ & _ & _ & _ & _ & _ & Hdeliver).
  rewrite HvkA in Hvk. injection Hvk as <-.
  exact (proj1 (Hdeliver join.2 fixture_aead_correct eq_refl eq_refl Hfind eq_refl
                  (sample_box_correct _ _ _ _) Hjoin)).
Defined.
